(** * Meeting Buddy Pro: job orchestration and export reconciliation

    A shallow embedding of the backend of Meeting Buddy Pro
    ([backend/storage.js], [backend/server.js], [backend/diarization.js])
    and the properties of its specification.

    Conventions of the embedding.
    - A JavaScript string is a [string]: a sequence of code units, of which
      the model covers those below 256.
    - Code that throws returns [Throw]; behaviour of the platform that the
      embedding does not cover (for instance the text SQLite stores for a
      number bound to a TEXT column) returns [Unmodelled], so that no
      theorem speaks about it.
    - The database, the random identifiers and the clock are threaded
      explicitly through a state-and-exception monad. *)

From Stdlib Require Import String Ascii List ZArith Bool Arith Lia DecimalString.
Import ListNotations.
Set Warnings "-register-all".
Local Open Scope string_scope.
Local Open Scope list_scope.

(* ================================================================== *)
(** * Part I: definitions                                              *)
(* ================================================================== *)

(** ** JavaScript strings *)

Definition LF : ascii := "010"%char.
Definition CR : ascii := "013"%char.
Definition comma : ascii := ","%char.
Definition colon : ascii := ":"%char.
Definition dquote : ascii := "034"%char.
Definition backslash : ascii := "\"%char.

Definition CRLF : string := String CR (String LF EmptyString).
Definition LFs : string := String LF EmptyString.

(** [WhiteSpace] and [LineTerminator] of ECMAScript, among the code units
    below 256: TAB, LF, VT, FF, CR, SP and NBSP.  It is the set that
    [String.prototype.trim] strips and that [\s] matches. *)
Definition isWhiteSpace (c : ascii) : bool :=
  let n := nat_of_ascii c in
  (Nat.leb 9 n && Nat.leb n 13) || Nat.eqb n 32 || Nat.eqb n 160.

Definition isEmpty (s : string) : bool :=
  match s with EmptyString => true | String _ _ => false end.

Fixpoint trimStart (s : string) : string :=
  match s with
  | EmptyString => EmptyString
  | String c r => if isWhiteSpace c then trimStart r else s
  end.

Fixpoint trimEnd (s : string) : string :=
  match s with
  | EmptyString => EmptyString
  | String c r =>
      match trimEnd r with
      | EmptyString => if isWhiteSpace c then EmptyString else String c EmptyString
      | r' => String c r'
      end
  end.

(** [s.trim()] *)
Definition trim (s : string) : string := trimEnd (trimStart s).

(** The match of [/^\s*/] on [s]: its longest prefix of white space. *)
Fixpoint leadingWhitespace (s : string) : string :=
  match s with
  | EmptyString => EmptyString
  | String c r => if isWhiteSpace c then String c (leadingWhitespace r) else EmptyString
  end.

(** The match of [/\s*$/] on [s]: the leftmost position from which only
    white space follows, hence its longest suffix of white space. *)
Fixpoint trailingWhitespace (s : string) : string :=
  match s with
  | EmptyString => EmptyString
  | String c r => if isEmpty (trimEnd s) then s else trailingWhitespace r
  end.

(** [s.split(/\r?\n/)]: never the empty list. *)
Fixpoint split_lines (s : string) : list string :=
  match s with
  | EmptyString => [EmptyString]
  | String c r =>
      if Ascii.eqb c LF then EmptyString :: split_lines r
      else
        match r with
        | String c2 r2 =>
            if Ascii.eqb c CR && Ascii.eqb c2 LF then EmptyString :: split_lines r2
            else match split_lines r with
                 | [] => [String c EmptyString]
                 | l :: ls => String c l :: ls
                 end
        | EmptyString => [String c EmptyString]
        end
  end.

(** [rows.join(sep)] is [String.concat sep rows]. *)
Definition join (sep : string) (rows : list string) : string := String.concat sep rows.

(** [s.indexOf(c)] for a one-character needle; [None] stands for [-1]. *)
Fixpoint indexOf (c : ascii) (s : string) : option nat :=
  match s with
  | EmptyString => None
  | String d r => if Ascii.eqb d c then Some 0 else option_map S (indexOf c r)
  end.

(** [s.slice(0, n)] and [s.slice(n)] for [0 <= n]. *)
Fixpoint slice_to (n : nat) (s : string) : string :=
  match n, s with
  | S k, String c r => String c (slice_to k r)
  | _, _ => EmptyString
  end.

Fixpoint slice_from (n : nat) (s : string) : string :=
  match n, s with
  | S k, String _ r => slice_from k r
  | _, _ => s
  end.

(** [s.startsWith(p)], [s.includes(p)], [s.endsWith(p)] *)
Definition startsWith (p s : string) : bool := String.prefix p s.

Fixpoint includes (p s : string) : bool :=
  startsWith p s ||
  match s with
  | EmptyString => false
  | String _ r => includes p r
  end.

Fixpoint endsWith (p s : string) : bool :=
  String.eqb s p ||
  match s with
  | EmptyString => false
  | String _ r => endsWith p r
  end.

(** Decimal text of a natural number and of an integer, as a template
    literal renders them. *)
Definition nat_to_string (n : nat) : string :=
  NilEmpty.string_of_uint (Nat.to_uint n).

Definition Z_to_string (z : Z) : string :=
  NilEmpty.string_of_int (Z.to_int z).

(** ** [Map] from strings to strings

    A JavaScript [Map] keeps its keys in order of first insertion; [set] on
    a key that is present replaces the value where the key stands. *)

Definition Map := list (string * string).

Fixpoint Map_get (m : Map) (k : string) : option string :=
  match m with
  | [] => None
  | (k', v) :: m' => if String.eqb k' k then Some v else Map_get m' k
  end.

Fixpoint Map_set (m : Map) (k v : string) : Map :=
  match m with
  | [] => [(k, v)]
  | (k', v') :: m' =>
      if String.eqb k' k then (k', v) :: m' else (k', v') :: Map_set m' k v
  end.

Definition Map_size (m : Map) : nat := List.length m.

(** ** The file system seen by the export rewriters *)

Definition FS := string -> option string.

Definition existsSync (fs : FS) (p : string) : bool :=
  match fs p with Some _ => true | None => false end.

Definition writeFileSync (fs : FS) (p content : string) : FS :=
  fun q => if String.eqb q p then Some content else fs q.

(** ** The CSV rewriter ([applySpeakerNamesToCsv]) *)

(** The callback of [rows.map]: the new row, and whether it set [changed]. *)
Definition csv_update_row (replacements : Map) (index : nat) (row : string)
  : string * bool :=
  if Nat.eqb index 0 || isEmpty (trim row) then (row, false)
  else
    match indexOf comma row with
    | None => (row, false)
    | Some commaIndex =>
        let rawSpeaker := slice_to commaIndex row in
        let trimmedSpeaker := trim rawSpeaker in
        match Map_get replacements trimmedSpeaker with
        | None => (row, false)
        | Some nextName =>
            if isEmpty nextName || String.eqb nextName trimmedSpeaker then (row, false)
            else
              (leadingWhitespace rawSpeaker ++ nextName
                 ++ trailingWhitespace rawSpeaker ++ slice_from commaIndex row,
               true)%string
        end
    end.

Fixpoint csv_map_rows (replacements : Map) (index : nat) (rows : list string)
  : list (string * bool) :=
  match rows with
  | [] => []
  | row :: rest =>
      csv_update_row replacements index row :: csv_map_rows replacements (S index) rest
  end.

Definition csv_newline (original : string) : string :=
  if includes CRLF original then CRLF else LFs.

Definition csv_next_content (original : string) (updated : list string) : string :=
  let newline := csv_newline original in
  let hadTrailingNewline := endsWith CRLF original || endsWith LFs original in
  let nextContent := join newline updated in
  if hadTrailingNewline && negb (endsWith newline nextContent)
  then (nextContent ++ newline)%string
  else nextContent.

Definition applySpeakerNamesToCsv (fs : FS) (filePath : string) (replacements : Map)
  : bool * FS :=
  match fs filePath with
  | None => (false, fs)
  | Some original =>
      let rows := split_lines original in
      let mapped := csv_map_rows replacements 0 rows in
      let changed := existsb snd mapped in
      let updated := map fst mapped in
      if negb changed then (false, fs)
      else (true, writeFileSync fs filePath (csv_next_content original updated))
  end.

(** ** Results of code that may throw *)

Inductive js_error :=
| Error (message : string)
| TypeError (message : string)
| SyntaxError (message : string)
| SqliteError (message : string).

Definition error_message (e : js_error) : string :=
  match e with
  | Error m | TypeError m | SyntaxError m | SqliteError m => m
  end.

Inductive result (A : Type) :=
| Ok (a : A)
| Throw (e : js_error)
| Unmodelled.
Arguments Ok {A} a.
Arguments Throw {A} e.
Arguments Unmodelled {A}.

Definition rbind {A B} (r : result A) (f : A -> result B) : result B :=
  match r with
  | Ok a => f a
  | Throw e => Throw e
  | Unmodelled => Unmodelled
  end.

Notation "'let?' x ':=' c 'in' k" := (rbind c (fun x => k))
  (at level 10, x pattern, c at level 100, k at level 200).

(** ** JavaScript numbers

    A finite number is kept as the decimal [m * 10^e] that denotes it, with
    [m] not divisible by ten and of at most fifteen digits: a double is
    the nearest one to exactly one such decimal, and the sign, the integer
    part and the text of the double are those of the decimal.  A literal
    of more digits is rounded by the program to a double that may denote
    another decimal ([0.99999999999999999999] is [1]); that rounding is
    not modelled, and a number of more digits is [Unmodelled] wherever the
    program would make one. *)

Inductive number :=
| NaN
| Infinity (negative : bool)
| Fin (m e : Z).

Local Open Scope Z_scope.

Fixpoint strip_zeros (fuel : nat) (m e : Z) : Z * Z :=
  match fuel with
  | O => (m, e)
  | S f => if m mod 10 =? 0 then strip_zeros f (m / 10) (e + 1) else (m, e)
  end.

(** The least magnitude that rounds to an infinity, [2^1024 - 2^970], and
    the greatest that rounds to zero, [2^-1075]. *)
Definition overflow_threshold : Z := 2 ^ 1024 - 2 ^ 970.

(** The mantissas that the model keeps. *)
Definition fifteen_digits (m : Z) : bool := Z.abs m <? 10 ^ 15.

Definition mk_number (m e : Z) : result number :=
  if m =? 0 then Ok (Fin 0 0)
  else
    let '(m', e') := strip_zeros (S (Z.to_nat (Z.log2 (Z.abs m)))) m e in
    let a := Z.abs m' in
    let overflow :=
      if e' >? 400 then true
      else if 0 <=? e' then overflow_threshold <=? a * 10 ^ e'
      else if Z.log2 a + 1 <=? 3 * (- e') then false   (* a < 2^(3k) < 10^k *)
      else overflow_threshold * 10 ^ (- e') <=? a in
    let underflow :=
      if 0 <=? e' then false
      else if e' <? -400 - Z.log2 a then true
      else a * 2 ^ 1075 <=? 10 ^ (- e') in
    if negb (fifteen_digits m') then Unmodelled
    else if overflow then Ok (Infinity (m <? 0))
    else if underflow then Ok (Fin 0 0)
    else Ok (Fin m' e').

Definition number_isFinite (n : number) : bool :=
  match n with Fin _ _ => true | _ => false end.

(** [n > 0] *)
Definition number_gt0 (n : number) : bool :=
  match n with
  | Fin m _ => 0 <? m
  | Infinity negative => negb negative
  | NaN => false
  end.

Definition number_truthy (n : number) : bool :=
  match n with
  | Fin m _ => negb (m =? 0)
  | Infinity _ => true
  | NaN => false
  end.

(** The integer part of a finite number, towards minus infinity. *)
Definition number_floor (m e : Z) : Z :=
  if 0 <=? e then m * 10 ^ e else m / 10 ^ (- e).

Definition is_integer (m e : Z) : bool := (m =? 0) || (0 <=? e).

(** [Number.prototype.toString] on [m * 10^e], [m <> 0] stripped of
    trailing zeros (Number::toString of ECMAScript with radix ten).  The
    digits of [m] are the shortest that denote the double when there are
    at most fifteen of them and the double is normal; longer mantissas
    and magnitudes below [10^-307] are left out. *)
Definition zeros (n : Z) : string :=
  string_of_list_ascii (repeat "0"%char (Z.to_nat n)).

Definition number_toString (n : number) : result string :=
  match n with
  | NaN => Ok "NaN"%string
  | Infinity negative => Ok (if negative then "-Infinity" else "Infinity")%string
  | Fin m e =>
      if m =? 0 then Ok "0"%string
      else
        let digits := Z_to_string (Z.abs m) in
        let k := Z.of_nat (String.length digits) in
        let n := k + e in
        let sign := if Z.ltb m 0 then "-"%string else EmptyString in
        if (15 <? k) || (n <? -306) then Unmodelled
        else if (k <=? n) && (n <=? 21) then
          Ok (sign ++ digits ++ zeros (n - k))%string
        else if (0 <? n) && (n <=? 21) then
          Ok (sign ++ slice_to (Z.to_nat n) digits ++ "."
                ++ slice_from (Z.to_nat n) digits)%string
        else if (-6 <? n) && (n <=? 0) then
          Ok (sign ++ "0." ++ zeros (- n) ++ digits)%string
        else
          let x := n - 1 in
          let exponent :=
            ((if Z.ltb x 0 then "-" else "+") ++ Z_to_string (Z.abs x))%string in
          Ok (sign ++ slice_to 1 digits
                ++ (if Z.eqb k 1 then EmptyString else "." ++ slice_from 1 digits)
                ++ "e" ++ exponent)%string
  end.

Local Close Scope Z_scope.

(** ** JavaScript values

    The values that [JSON.parse] builds, and [undefined].  An object keeps
    its own properties in the order in which [Object.entries] lists them:
    array indices in ascending order, then the other keys in order of
    creation. *)

Inductive jsval :=
| JUndefined
| JNull
| JBool (b : bool)
| JNum (n : number)
| JStr (s : string)
| JArr (items : list jsval)
| JObj (props : list (string * jsval)).

Definition truthy (v : jsval) : bool :=
  match v with
  | JUndefined | JNull => false
  | JBool b => b
  | JNum n => number_truthy n
  | JStr s => negb (isEmpty s)
  | JArr _ | JObj _ => true
  end.

(** [a ?? b] *)
Definition nullish (v : jsval) : bool :=
  match v with JUndefined | JNull => true | _ => false end.

Definition coalesce (a b : jsval) : jsval := if nullish a then b else a.

(** [a || b] *)
Definition js_or (a b : jsval) : jsval := if truthy a then a else b.

(** [typeof v === "object"] holds of objects, arrays and [null]. *)
Definition typeof_object (v : jsval) : bool :=
  match v with JNull | JArr _ | JObj _ => true | _ => false end.

Definition typeof_string (v : jsval) : bool :=
  match v with JStr _ => true | _ => false end.

Definition Array_isArray (v : jsval) : bool :=
  match v with JArr _ => true | _ => false end.

Fixpoint props_get (props : list (string * jsval)) (k : string) : jsval :=
  match props with
  | [] => JUndefined
  | (k', v) :: rest => if String.eqb k' k then v else props_get rest k
  end.

(** [v.k] for a key [k] that no prototype defines (every key the program
    reads is such a key).  Reading a property of [undefined] or [null]
    throws. *)
Definition get_prop (v : jsval) (k : string) : result jsval :=
  match v with
  | JUndefined | JNull =>
      Throw (TypeError ("Cannot read properties of undefined or null (reading '"
                          ++ k ++ "')"))
  | JObj props => Ok (props_get props k)
  | _ => Ok JUndefined
  end.

(** Array indices: the canonical decimal numerals below [2^32 - 1]. *)
Definition is_digit (c : ascii) : bool :=
  let n := nat_of_ascii c in Nat.leb 48 n && Nat.leb n 57.

Fixpoint all_digits (s : string) : bool :=
  match s with
  | EmptyString => true
  | String c r => is_digit c && all_digits r
  end.

Fixpoint digits_value (acc : Z) (s : string) : Z :=
  match s with
  | EmptyString => acc
  | String c r => digits_value (10 * acc + Z.of_nat (nat_of_ascii c - 48))%Z r
  end.

Definition array_index (k : string) : option Z :=
  match k with
  | EmptyString => None
  | String c r =>
      if all_digits k && (isEmpty r || negb (Ascii.eqb c "0"%char))
           && Nat.leb (String.length k) 10
      then let n := digits_value 0 k in
           if (n <? 4294967295)%Z then Some n else None
      else None
  end.

(** The place of a new key among the properties. *)
Fixpoint props_insert (props : list (string * jsval)) (k : string) (v : jsval)
  : list (string * jsval) :=
  match props with
  | [] => [(k, v)]
  | (k', v') :: rest =>
      match array_index k, array_index k' with
      | Some n, Some n' =>
          if (n <? n')%Z then (k, v) :: props else (k', v') :: props_insert rest k v
      | Some _, None => (k, v) :: props
      | None, _ => (k', v') :: props_insert rest k v
      end
  end.

Fixpoint props_has (props : list (string * jsval)) (k : string) : bool :=
  match props with
  | [] => false
  | (k', _) :: rest => String.eqb k' k || props_has rest k
  end.

Fixpoint props_replace (props : list (string * jsval)) (k : string) (v : jsval)
  : list (string * jsval) :=
  match props with
  | [] => []
  | (k', v') :: rest =>
      if String.eqb k' k then (k', v) :: rest else (k', v') :: props_replace rest k v
  end.

(** [o[k] = v] on the properties of an object *)
Definition props_set (props : list (string * jsval)) (k : string) (v : jsval)
  : list (string * jsval) :=
  if props_has props k then props_replace props k v else props_insert props k v.

(** ** Numerals

    [StrDecimalLiteral]: digits, an optional fraction and an optional
    exponent; the lexer returns the mantissa, the decimal exponent and the
    rest of the text. *)

Fixpoint span_digits (s : string) : string * string :=
  match s with
  | EmptyString => (EmptyString, EmptyString)
  | String c r =>
      if is_digit c then let '(d, rest) := span_digits r in (String c d, rest)
      else (EmptyString, s)
  end.

Definition is_exp_char (c : ascii) : bool :=
  Ascii.eqb c "e"%char || Ascii.eqb c "E"%char.

(** The exponent part, when one is there: its value and the rest. *)
Definition lex_exponent (s : string) : option (Z * string) :=
  match s with
  | String c r =>
      if is_exp_char c then
        let '(negative, r1) :=
          match r with
          | String sg r' =>
              if Ascii.eqb sg "-"%char then (true, r')
              else if Ascii.eqb sg "+"%char then (false, r')
              else (false, r)
          | EmptyString => (false, r)
          end in
        let '(ds, rest) := span_digits r1 in
        if isEmpty ds then None
        else Some ((if negative then - digits_value 0 ds else digits_value 0 ds)%Z, rest)
      else None
  | EmptyString => None
  end.

(** An unsigned decimal literal with the integer part [ip] already read:
    fraction and exponent.  [strict] is the grammar of JSON, in which a
    fraction needs a digit. *)
Definition lex_fraction_exponent (strict : bool) (ip : string) (s : string)
  : option (Z * Z * string) :=
  let '(fp, s1, dot_ok) :=
    match s with
    | String c r =>
        if Ascii.eqb c "."%char then
          let '(fp, r') := span_digits r in
          (fp, r', negb (isEmpty fp) || (negb strict && negb (isEmpty ip)))
        else (EmptyString, s, negb (isEmpty ip))
    | EmptyString => (EmptyString, s, negb (isEmpty ip))
    end in
  if negb dot_ok then None
  else
    let mant := digits_value 0 (ip ++ fp) in
    let shift := (- Z.of_nat (String.length fp))%Z in
    match lex_exponent s1 with
    | Some (x, rest) => Some (mant, (shift + x)%Z, rest)
    | None => Some (mant, shift, s1)
    end.

(** ** [JSON.parse] *)

Definition is_json_ws (c : ascii) : bool :=
  let n := nat_of_ascii c in
  Nat.eqb n 32 || Nat.eqb n 9 || Nat.eqb n 10 || Nat.eqb n 13.

Fixpoint skip_ws (s : string) : string :=
  match s with
  | EmptyString => EmptyString
  | String c r => if is_json_ws c then skip_ws r else s
  end.

Definition hex_value (c : ascii) : option nat :=
  let n := nat_of_ascii c in
  if Nat.leb 48 n && Nat.leb n 57 then Some (n - 48)
  else if Nat.leb 97 n && Nat.leb n 102 then Some (n - 87)
  else if Nat.leb 65 n && Nat.leb n 70 then Some (n - 55)
  else None.

Definition json_syntax_error {A} : result A :=
  Throw (SyntaxError "Unexpected token in JSON").

(** The text of a string literal after its opening quote. *)
Fixpoint parse_string_body (s : string) : result (string * string) :=
  match s with
  | EmptyString => json_syntax_error
  | String c r =>
      if Ascii.eqb c dquote then Ok (EmptyString, r)
      else if Ascii.eqb c backslash then
        match r with
        | EmptyString => json_syntax_error
        | String e r1 =>
            let simple (d : ascii) :=
              let? (t, rest) := parse_string_body r1 in Ok (String d t, rest) in
            if Ascii.eqb e dquote then simple dquote
            else if Ascii.eqb e backslash then simple backslash
            else if Ascii.eqb e "/"%char then simple "/"%char
            else if Ascii.eqb e "b"%char then simple "008"%char
            else if Ascii.eqb e "f"%char then simple "012"%char
            else if Ascii.eqb e "n"%char then simple LF
            else if Ascii.eqb e "r"%char then simple CR
            else if Ascii.eqb e "t"%char then simple "009"%char
            else if Ascii.eqb e "u"%char then
              match r1 with
              | String h1 (String h2 (String h3 (String h4 r5))) =>
                  match hex_value h1, hex_value h2, hex_value h3, hex_value h4 with
                  | Some a, Some b, Some c', Some d =>
                      if Nat.eqb a 0 && Nat.eqb b 0 then
                        let? (t, rest) := parse_string_body r5 in
                        Ok (String (ascii_of_nat (16 * c' + d)) t, rest)
                      else Unmodelled
                  | _, _, _, _ => json_syntax_error
                  end
              | _ => json_syntax_error
              end
            else json_syntax_error
        end
      else if Nat.ltb (nat_of_ascii c) 32 then json_syntax_error
      else let? (t, rest) := parse_string_body r in Ok (String c t, rest)
  end.

(** A JSON number: an optional minus, an integer part without leading
    zero, a fraction, an exponent. *)
Definition parse_json_number (s : string) : result (number * string) :=
  let '(negative, s0) :=
    match s with
    | String c r => if Ascii.eqb c "-"%char then (true, r) else (false, s)
    | EmptyString => (false, s)
    end in
  let '(ip, s1) := span_digits s0 in
  match ip with
  | EmptyString => json_syntax_error
  | String d ds =>
      if Ascii.eqb d "0"%char && negb (isEmpty ds) then json_syntax_error
      else
        match s1 with
        | String c r =>
            if Ascii.eqb c "."%char && isEmpty (fst (span_digits r))
            then json_syntax_error
            else
              match lex_fraction_exponent true ip s1 with
              | Some (m, e, rest) =>
                  let? n := mk_number (if negative then - m else m)%Z e in
                  Ok (n, rest)
              | None => json_syntax_error
              end
        | EmptyString =>
            let? n := mk_number (if negative then - digits_value 0 ip
                                 else digits_value 0 ip)%Z 0%Z in
            Ok (n, s1)
        end
  end.

Fixpoint parse_value (fuel : nat) (s : string) {struct fuel}
  : result (jsval * string) :=
  match fuel with
  | O => Unmodelled
  | S f =>
      match skip_ws s with
      | EmptyString => json_syntax_error
      | String c r =>
          if Ascii.eqb c "{"%char then
            match skip_ws r with
            | String c1 r1 =>
                if Ascii.eqb c1 "}"%char then Ok (JObj [], r1)
                else parse_members f (skip_ws r) []
            | EmptyString => json_syntax_error
            end
          else if Ascii.eqb c "["%char then
            match skip_ws r with
            | String c1 r1 =>
                if Ascii.eqb c1 "]"%char then Ok (JArr [], r1)
                else parse_elements f (skip_ws r) []
            | EmptyString => json_syntax_error
            end
          else if Ascii.eqb c dquote then
            let? (t, rest) := parse_string_body r in Ok (JStr t, rest)
          else if startsWith "true" (String c r) then Ok (JBool true, slice_from 4 (String c r))
          else if startsWith "false" (String c r) then Ok (JBool false, slice_from 5 (String c r))
          else if startsWith "null" (String c r) then Ok (JNull, slice_from 4 (String c r))
          else
            let? (n, rest) := parse_json_number (String c r) in Ok (JNum n, rest)
      end
  end

(** The elements of an array from the first on, [acc] in reverse. *)
with parse_elements (fuel : nat) (s : string) (acc : list jsval) {struct fuel}
  : result (jsval * string) :=
  match fuel with
  | O => Unmodelled
  | S f =>
      let? (v, rest) := parse_value f s in
      match skip_ws rest with
      | String c r =>
          if Ascii.eqb c ","%char then parse_elements f r (v :: acc)
          else if Ascii.eqb c "]"%char then Ok (JArr (rev (v :: acc)), r)
          else json_syntax_error
      | EmptyString => json_syntax_error
      end
  end

(** The members of an object from the first on; a repeated key keeps its
    place and takes the later value. *)
with parse_members (fuel : nat) (s : string) (acc : list (string * jsval))
  {struct fuel} : result (jsval * string) :=
  match fuel with
  | O => Unmodelled
  | S f =>
      match skip_ws s with
      | String q r =>
          if Ascii.eqb q dquote then
            let? (k, rest) := parse_string_body r in
            match skip_ws rest with
            | String c r1 =>
                if Ascii.eqb c colon then
                  let? (v, rest1) := parse_value f r1 in
                  let acc' := props_set acc k v in
                  match skip_ws rest1 with
                  | String c2 r2 =>
                      if Ascii.eqb c2 ","%char then parse_members f r2 acc'
                      else if Ascii.eqb c2 "}"%char then Ok (JObj acc', r2)
                      else json_syntax_error
                  | EmptyString => json_syntax_error
                  end
                else json_syntax_error
            | EmptyString => json_syntax_error
            end
          else json_syntax_error
      | EmptyString => json_syntax_error
      end
  end.

Definition JSON_parse (text : string) : result jsval :=
  let? (v, rest) := parse_value (2 * String.length text + 2) text in
  if isEmpty (skip_ws rest) then Ok v else json_syntax_error.

(** ** [JSON.stringify(value, null, 2)] *)

Definition hex_digit (n : nat) : ascii :=
  if Nat.ltb n 10 then ascii_of_nat (48 + n) else ascii_of_nat (87 + n).

Fixpoint quote_body (s : string) : string :=
  match s with
  | EmptyString => EmptyString
  | String c r =>
      let n := nat_of_ascii c in
      let rest := quote_body r in
      (if Ascii.eqb c dquote then String backslash (String dquote rest)
       else if Ascii.eqb c backslash then String backslash (String backslash rest)
       else if Nat.eqb n 8 then "\b" ++ rest
       else if Nat.eqb n 9 then "\t" ++ rest
       else if Nat.eqb n 10 then "\n" ++ rest
       else if Nat.eqb n 12 then "\f" ++ rest
       else if Nat.eqb n 13 then "\r" ++ rest
       else if Nat.ltb n 32 then
         "\u00" ++ String (hex_digit (n / 16)) (String (hex_digit (n mod 16)) rest)
       else String c rest)%string
  end.

Definition quote (s : string) : string :=
  String dquote (quote_body s ++ String dquote EmptyString).

Definition number_to_json (n : number) : result string :=
  match n with
  | Fin _ _ => number_toString n
  | _ => Ok "null"
  end.

(** [None] is the result [undefined], which an array prints as [null] and
    an object leaves out. *)
Fixpoint stringify_at (ind : string) (v : jsval) {struct v} : result (option string) :=
  match v with
  | JUndefined => Ok None
  | JNull => Ok (Some "null")
  | JBool b => Ok (Some (if b then "true" else "false"))
  | JNum n => let? t := number_to_json n in Ok (Some t)
  | JStr s => Ok (Some (quote s))
  | JArr items =>
      let ind' := (ind ++ "  ")%string in
      let parts :=
        (fix go (l : list jsval) : result (list string) :=
           match l with
           | [] => Ok []
           | x :: r =>
               let? o := stringify_at ind' x in
               let? rs := go r in
               Ok (match o with Some t => t | None => "null" end :: rs)
           end) items in
      let? ps := parts in
      match ps with
      | [] => Ok (Some "[]")
      | _ => Ok (Some ("[" ++ LFs ++ ind' ++ join ("," ++ LFs ++ ind') ps
                         ++ LFs ++ ind ++ "]")%string)
      end
  | JObj props =>
      let ind' := (ind ++ "  ")%string in
      let parts :=
        (fix go (l : list (string * jsval)) : result (list string) :=
           match l with
           | [] => Ok []
           | (k, x) :: r =>
               let? o := stringify_at ind' x in
               let? rs := go r in
               Ok (match o with
                   | Some t => (quote k ++ ": " ++ t)%string :: rs
                   | None => rs
                   end)
           end) props in
      let? ps := parts in
      match ps with
      | [] => Ok (Some "{}")
      | _ => Ok (Some ("{" ++ LFs ++ ind' ++ join ("," ++ LFs ++ ind') ps
                         ++ LFs ++ ind ++ "}")%string)
      end
  end.

(** [JSON.stringify(v, null, 2) + "\n"] *)
Definition stringify_line (v : jsval) : result string :=
  let? o := stringify_at EmptyString v in
  Ok ((match o with Some t => t | None => "undefined" end) ++ LFs)%string.

(** ** [Number(value)] *)

(** The value of a numeral in radix 2, 8 or 16, when all its characters
    are digits of the radix. *)
Fixpoint radix_value (radix : nat) (acc : Z) (s : string) : option Z :=
  match s with
  | EmptyString => Some acc
  | String c r =>
      match hex_value c with
      | Some d =>
          if Nat.ltb d radix
          then radix_value radix (Z.of_nat radix * acc + Z.of_nat d)%Z r
          else None
      | None => None
      end
  end.

Definition radix_literal (radix : nat) (ds : string) : result number :=
  if isEmpty ds then Ok NaN
  else match radix_value radix 0%Z ds with
       | Some n => mk_number n 0%Z
       | None => Ok NaN
       end.

(** [StringToNumber]: white space is trimmed, the empty text is zero, and
    text that is no numeric literal is [NaN]. *)
Definition StringToNumber (s : string) : result number :=
  match trim s with
  | EmptyString => Ok (Fin 0 0)
  | String c r as t =>
      let prefixed :=
        match r with
        | String x ds =>
            if Ascii.eqb c "0"%char then
              if Ascii.eqb x "x"%char || Ascii.eqb x "X"%char then Some (radix_literal 16 ds)
              else if Ascii.eqb x "o"%char || Ascii.eqb x "O"%char then Some (radix_literal 8 ds)
              else if Ascii.eqb x "b"%char || Ascii.eqb x "B"%char then Some (radix_literal 2 ds)
              else None
            else None
        | EmptyString => None
        end in
      match prefixed with
      | Some n => n
      | None =>
          let '(negative, body) :=
            if Ascii.eqb c "-"%char then (true, r)
            else if Ascii.eqb c "+"%char then (false, r)
            else (false, t) in
          if String.eqb body "Infinity" then Ok (Infinity negative)
          else
            let '(ip, s1) := span_digits body in
            match lex_fraction_exponent false ip s1 with
            | Some (m, e, EmptyString) => mk_number (if negative then - m else m)%Z e
            | _ => Ok NaN
            end
      end
  end.

(** [Number(v)].  An object of [JSON.parse] converts through its method
    [toString]: the inherited one gives the text ["[object Object]"],
    hence [NaN]; an own property [toString] is no function (no value of
    [JSON.parse] is), [valueOf] returns the object, and the conversion
    throws a [TypeError].  An own property [valueOf] is passed over.  The
    conversion of an array goes through the text of its elements and is
    left out, as is a number of more than fifteen digits. *)
Definition Number_ (v : jsval) : result number :=
  match v with
  | JUndefined => Ok NaN
  | JNull => Ok (Fin 0 0)
  | JBool b => Ok (if b then Fin 1 0 else Fin 0 0)
  | JNum (Fin m e) => if fifteen_digits m then Ok (Fin m e) else Unmodelled
  | JNum n => Ok n
  | JStr s => StringToNumber s
  | JObj props =>
      if props_has props "toString"
      then Throw (TypeError "Cannot convert object to primitive value")
      else Ok NaN
  | JArr _ => Unmodelled
  end.

(** ** Regular expressions

    The part of the pattern language of [RegExp] (without flags [u], [i],
    [m]) that the patterns of the text rewriter can reach: characters, [.],
    the classes [\s \d \w] and their complements, [^] and [$], groups,
    alternation, look-ahead and the quantifiers [* + ?], greedy or lazy.
    Bracketed classes, braces, back-references, word boundaries and
    look-behind are left out: a pattern that uses one is [Unmodelled]. *)

Inductive char_class := ClsSpace | ClsDigit | ClsWord.

Inductive regex :=
| RE_empty
| RE_char (c : ascii)
| RE_any
| RE_class (negated : bool) (cls : char_class)
| RE_bol
| RE_eol
| RE_seq (a b : regex)
| RE_alt (a b : regex)
| RE_quant (min : nat) (max : option nat) (greedy : bool) (r : regex)
| RE_group (index : nat) (r : regex)
| RE_lookahead (negated : bool) (r : regex).

Definition is_word_char (c : ascii) : bool :=
  let n := nat_of_ascii c in
  (Nat.leb 48 n && Nat.leb n 57) || (Nat.leb 65 n && Nat.leb n 90)
  || (Nat.leb 97 n && Nat.leb n 122) || Nat.eqb n 95.

Definition in_class (cls : char_class) (c : ascii) : bool :=
  match cls with
  | ClsSpace => isWhiteSpace c
  | ClsDigit => is_digit c
  | ClsWord => is_word_char c
  end.

Definition is_line_terminator (c : ascii) : bool :=
  Ascii.eqb c LF || Ascii.eqb c CR.

(** *** The pattern parser *)

Definition is_quantifier_char (c : ascii) : bool :=
  Ascii.eqb c "*"%char || Ascii.eqb c "+"%char || Ascii.eqb c "?"%char.

(** The message names what is wrong; an engine adds the pattern to it. *)
Definition regex_syntax_error {A} (what : string) : result A :=
  Throw (SyntaxError ("Invalid regular expression: " ++ what)).

(** The quantifier that may follow an atom. *)
Definition parse_quantifier (atom : regex) (s : string) : result (regex * string) :=
  match s with
  | String c r =>
      if Ascii.eqb c "{"%char then Unmodelled
      else if is_quantifier_char c then
        let '(min, max) :=
          if Ascii.eqb c "*"%char then (0, None)
          else if Ascii.eqb c "+"%char then (1, None)
          else (0, Some 1) in
        match r with
        | String l r' =>
            if Ascii.eqb l "?"%char then Ok (RE_quant min max false atom, r')
            else Ok (RE_quant min max true atom, r)
        | EmptyString => Ok (RE_quant min max true atom, r)
        end
      else Ok (atom, s)
  | EmptyString => Ok (atom, s)
  end.

(** An assertion takes no quantifier. *)
Definition after_assertion (a : regex) (s : string) : result (regex * string) :=
  match s with
  | String c _ =>
      if is_quantifier_char c then regex_syntax_error "Nothing to repeat"
      else if Ascii.eqb c "{"%char then Unmodelled
      else Ok (a, s)
  | EmptyString => Ok (a, s)
  end.

Definition parse_escape (e : ascii) : result regex :=
  let n := nat_of_ascii e in
  if Ascii.eqb e "d"%char then Ok (RE_class false ClsDigit)
  else if Ascii.eqb e "D"%char then Ok (RE_class true ClsDigit)
  else if Ascii.eqb e "s"%char then Ok (RE_class false ClsSpace)
  else if Ascii.eqb e "S"%char then Ok (RE_class true ClsSpace)
  else if Ascii.eqb e "w"%char then Ok (RE_class false ClsWord)
  else if Ascii.eqb e "W"%char then Ok (RE_class true ClsWord)
  else if Ascii.eqb e "t"%char then Ok (RE_char "009"%char)
  else if Ascii.eqb e "n"%char then Ok (RE_char LF)
  else if Ascii.eqb e "v"%char then Ok (RE_char "011"%char)
  else if Ascii.eqb e "f"%char then Ok (RE_char "012"%char)
  else if Ascii.eqb e "r"%char then Ok (RE_char CR)
  else if is_digit e then Unmodelled
  else if Ascii.eqb e "b"%char || Ascii.eqb e "B"%char || Ascii.eqb e "c"%char
          || Ascii.eqb e "x"%char || Ascii.eqb e "u"%char || Ascii.eqb e "k"%char
          || Ascii.eqb e "p"%char || Ascii.eqb e "P"%char
  then Unmodelled
  else Ok (RE_char e).

Inductive group_kind := Capturing | NonCapturing | LookAhead (negated : bool).

(** [parse_disjunction fuel s gi] reads a disjunction up to a closing
    parenthesis or the end of the pattern; [gi] is the index of the next
    capturing group.  [parse_alternative] reads the terms of one
    alternative. *)
Fixpoint parse_disjunction (fuel : nat) (s : string) (gi : nat) {struct fuel}
  : result (regex * string * nat) :=
  match fuel with
  | O => Unmodelled
  | S f =>
      let? (a, rest, gi1) := parse_alternative f s gi in
      match rest with
      | String c r =>
          if Ascii.eqb c "|"%char then
            let? (b, rest2, gi2) := parse_disjunction f r gi1 in
            Ok (RE_alt a b, rest2, gi2)
          else Ok (a, rest, gi1)
      | EmptyString => Ok (a, rest, gi1)
      end
  end

with parse_alternative (fuel : nat) (s : string) (gi : nat) {struct fuel}
  : result (regex * string * nat) :=
  match fuel with
  | O => Unmodelled
  | S f =>
      match s with
      | EmptyString => Ok (RE_empty, s, gi)
      | String c r =>
          if Ascii.eqb c "|"%char || Ascii.eqb c ")"%char then Ok (RE_empty, s, gi)
          else
            let? (t, rest, gi1) :=
              (if Ascii.eqb c "^"%char then
                 let? (a, rest) := after_assertion RE_bol r in Ok (a, rest, gi)
               else if Ascii.eqb c "$"%char then
                 let? (a, rest) := after_assertion RE_eol r in Ok (a, rest, gi)
               else if is_quantifier_char c then regex_syntax_error "Nothing to repeat"
               else if Ascii.eqb c "{"%char || Ascii.eqb c "["%char then Unmodelled
               else if Ascii.eqb c "."%char then
                 let? (a, rest) := parse_quantifier RE_any r in Ok (a, rest, gi)
               else if Ascii.eqb c backslash then
                 match r with
                 | EmptyString => regex_syntax_error "\ at end of pattern"
                 | String e r1 =>
                     let? atom := parse_escape e in
                     let? (a, rest) := parse_quantifier atom r1 in Ok (a, rest, gi)
                 end
               else if Ascii.eqb c "("%char then
                 let? (kind, body) :=
                   (match r with
                    | String q (String k r2) =>
                        if Ascii.eqb q "?"%char then
                          if Ascii.eqb k ":"%char then Ok (NonCapturing, r2)
                          else if Ascii.eqb k "="%char then Ok (LookAhead false, r2)
                          else if Ascii.eqb k "!"%char then Ok (LookAhead true, r2)
                          else if Ascii.eqb k "<"%char then Unmodelled
                          else regex_syntax_error "Invalid group"
                        else Ok (Capturing, r)
                    | String q EmptyString =>
                        if Ascii.eqb q "?"%char then regex_syntax_error "Invalid group"
                        else Ok (Capturing, r)
                    | EmptyString => Ok (Capturing, r)
                    end) in
                 let gi0 := match kind with Capturing => S gi | _ => gi end in
                 let? (d, rest, gi1) := parse_disjunction f body gi0 in
                 match rest with
                 | String p r3 =>
                     if Ascii.eqb p ")"%char then
                       match kind with
                       | Capturing =>
                           let? (a, rest') := parse_quantifier (RE_group gi d) r3 in
                           Ok (a, rest', gi1)
                       | NonCapturing =>
                           let? (a, rest') := parse_quantifier d r3 in
                           Ok (a, rest', gi1)
                       | LookAhead negated =>
                           match r3 with
                           | String x _ =>
                               if is_quantifier_char x || Ascii.eqb x "{"%char
                               then Unmodelled
                               else Ok (RE_lookahead negated d, r3, gi1)
                           | EmptyString => Ok (RE_lookahead negated d, r3, gi1)
                           end
                       end
                     else regex_syntax_error "Unterminated group"
                 | EmptyString => regex_syntax_error "Unterminated group"
                 end
               else
                 let? (a, rest) := parse_quantifier (RE_char c) r in Ok (a, rest, gi)) in
            let? (ts, rest2, gi2) := parse_alternative f rest gi1 in
            Ok (match ts with RE_empty => t | _ => RE_seq t ts end, rest2, gi2)
      end
  end.

(** [new RegExp(pattern, "g")] *)
Definition RegExp (pattern : string) : result regex :=
  let? (r, rest, _) := parse_disjunction (2 * String.length pattern + 2) pattern 1 in
  match rest with
  | EmptyString => Ok r
  | String _ _ => regex_syntax_error "Unmatched ')'"
  end.

(** *** The backtracking matcher

    A matcher takes the state of the match and the continuation that
    matches the rest of the pattern (the [Matcher] and
    [MatcherContinuation] of ECMAScript).  Of the captures only that of
    group 1 is kept: the program reads no other. *)

Record mstate := {
  ms_pos : nat;            (* index of the next character *)
  ms_rest : string;        (* the input from that index on *)
  ms_cap1 : option string  (* what group 1 has captured *)
}.

Definition ms_advance (c_rest : string) (st : mstate) : mstate :=
  {| ms_pos := S (ms_pos st); ms_rest := c_rest; ms_cap1 := ms_cap1 st |}.

Fixpoint has_group1 (r : regex) : bool :=
  match r with
  | RE_seq a b | RE_alt a b => has_group1 a || has_group1 b
  | RE_quant _ _ _ r' | RE_lookahead _ r' => has_group1 r'
  | RE_group i r' => Nat.eqb i 1 || has_group1 r'
  | _ => false
  end.

Definition lower (max : option nat) : option nat :=
  match max with Some n => Some (Nat.pred n) | None => None end.

Fixpoint rmatch (r : regex) (st : mstate) (k : mstate -> option mstate) {struct r}
  : option mstate :=
  match r with
  | RE_empty => k st
  | RE_char c =>
      match ms_rest st with
      | String d rest => if Ascii.eqb d c then k (ms_advance rest st) else None
      | EmptyString => None
      end
  | RE_any =>
      match ms_rest st with
      | String d rest => if is_line_terminator d then None else k (ms_advance rest st)
      | EmptyString => None
      end
  | RE_class negated cls =>
      match ms_rest st with
      | String d rest =>
          if Bool.eqb (in_class cls d) negated then None else k (ms_advance rest st)
      | EmptyString => None
      end
  | RE_bol => if Nat.eqb (ms_pos st) 0 then k st else None
  | RE_eol => if isEmpty (ms_rest st) then k st else None
  | RE_seq a b => rmatch a st (fun st' => rmatch b st' k)
  | RE_alt a b =>
      match rmatch a st k with
      | Some st' => Some st'
      | None => rmatch b st k
      end
  | RE_group index r' =>
      rmatch r' st (fun st' =>
        k (if Nat.eqb index 1
           then {| ms_pos := ms_pos st'; ms_rest := ms_rest st';
                   ms_cap1 := Some (slice_to (ms_pos st' - ms_pos st) (ms_rest st)) |}
           else st'))
  | RE_lookahead negated r' =>
      match rmatch r' st (fun st' => Some st') with
      | Some st' =>
          if negated then None
          else k {| ms_pos := ms_pos st; ms_rest := ms_rest st; ms_cap1 := ms_cap1 st' |}
      | None => if negated then k st else None
      end
  | RE_quant min max greedy r' =>
      let body := rmatch r' in
      let clear := has_group1 r' in
      (fix repeat (fuel : nat) (min : nat) (max : option nat) (x : mstate)
           (c : mstate -> option mstate) {struct fuel} : option mstate :=
         match fuel with
         | O => None
         | S f =>
             match max with
             | Some O => c x
             | _ =>
                 let d := fun y : mstate =>
                   if Nat.eqb min 0 && Nat.eqb (ms_pos y) (ms_pos x) then None
                   else repeat f (Nat.pred min) (lower max) y c in
                 let xr :=
                   if clear
                   then {| ms_pos := ms_pos x; ms_rest := ms_rest x; ms_cap1 := None |}
                   else x in
                 if negb (Nat.eqb min 0) then body xr d
                 else if greedy then
                   match body xr d with
                   | Some z => Some z
                   | None => c x
                   end
                 else
                   match c x with
                   | Some z => Some z
                   | None => body xr d
                   end
             end
         end) (S (min + String.length (ms_rest st))) min max st k
  end.

(** The match of [r] that starts at the state [st], if there is one. *)
Definition exec_at (r : regex) (pos : nat) (rest : string) : option mstate :=
  rmatch r {| ms_pos := pos; ms_rest := rest; ms_cap1 := None |} (fun st => Some st).

(** [input.replace(r, replacer)] for a global [r]: the matches are taken
    from left to right without overlap; after an empty match the search
    resumes one character further.  The replacer receives the match and
    the capture of group 1. *)
Fixpoint replace_from (fuel : nat) (r : regex) (replacer : string -> option string -> string)
    (pos : nat) (rest : string) {struct fuel} : string :=
  match fuel with
  | O => rest
  | S f =>
      match exec_at r pos rest with
      | Some st' =>
          let len := ms_pos st' - pos in
          let replaced := replacer (slice_to len rest) (ms_cap1 st') in
          if Nat.eqb len 0 then
            match rest with
            | EmptyString => replaced
            | String c rest' =>
                (replaced ++ String c (replace_from f r replacer (S pos) rest'))%string
            end
          else (replaced ++ replace_from f r replacer (ms_pos st') (slice_from len rest))%string
      | None =>
          match rest with
          | EmptyString => EmptyString
          | String c rest' => String c (replace_from f r replacer (S pos) rest')
          end
      end
  end.

Definition String_replace (input : string) (r : regex)
    (replacer : string -> option string -> string) : string :=
  replace_from (S (String.length input)) r replacer 0 input.

(** ** The plain-text rewriter *)

(** [value.replace(/[.*+?^${}()|[\\]\\]/g, "\\$&")].  In the source the
    bracketed class ends at the first [\]]: its members are
    [. * + ? ^ $ { } ( ) | [ \], and it is followed by a backslash and a
    closing bracket, both literal.  A match is thus three characters long,
    a member of the class, a backslash and a bracket, and it is replaced by
    a backslash and itself. *)
Definition escape_class (c : ascii) : bool :=
  existsb (Ascii.eqb c)
    ["."; "*"; "+"; "?"; "^"; "$"; "{"; "}"; "("; ")"; "|"; "["; "\"]%char.

Fixpoint escapeRegExp (value : string) : string :=
  match value with
  | EmptyString => EmptyString
  | String c t =>
      match t with
      | String b (String d r) =>
          if escape_class c && Ascii.eqb b backslash && Ascii.eqb d "]"%char
          then String backslash (String c (String b (String d (escapeRegExp r))))
          else String c (escapeRegExp t)
      | _ => String c (escapeRegExp t)
      end
  end.

(** The callback of [output.replace]: [prefix + displayName], where an
    absent capture prints as [undefined]. *)
Definition prefix_replacer (displayName : string) (_match : string)
    (prefix : option string) : string :=
  (match prefix with Some p => p | None => "undefined" end ++ displayName)%string.

Definition speaker_pattern (label : string) : string :=
  ("(^|\r?\n)" ++ escapeRegExp label ++ "(?=\s*:)")%string.

Fixpoint replaceSpeakerPrefixes (content : string) (replacements : Map)
  : result string :=
  match replacements with
  | [] => Ok content
  | (label, displayName) :: rest =>
      if isEmpty displayName || String.eqb displayName label
      then replaceSpeakerPrefixes content rest
      else
        let? pattern := RegExp (speaker_pattern label) in
        replaceSpeakerPrefixes
          (String_replace content pattern (prefix_replacer displayName)) rest
  end.

Definition applySpeakerNamesToTextFile (fs : FS) (filePath : string)
    (replacements : Map) : result (bool * FS) :=
  match fs filePath with
  | None => Ok (false, fs)
  | Some original =>
      let? nextContent := replaceSpeakerPrefixes original replacements in
      if String.eqb nextContent original then Ok (false, fs)
      else Ok (true, writeFileSync fs filePath nextContent)
  end.

(** ** State and exceptions

    A computation on a state [S] returns a value and the new state, or
    throws and leaves the state that was reached when it threw. *)

Inductive outcome (S A : Type) :=
| Done (a : A) (s : S)
| Thrown (e : js_error) (s : S)
| NotModelled.
Arguments Done {S A} a s.
Arguments Thrown {S A} e s.
Arguments NotModelled {S A}.

Definition ST (S A : Type) := S -> outcome S A.

Definition ret {S A} (a : A) : ST S A := fun s => Done a s.

Definition bind {S A B} (c : ST S A) (k : A -> ST S B) : ST S B :=
  fun s =>
    match c s with
    | Done a s' => k a s'
    | Thrown e s' => Thrown e s'
    | NotModelled => NotModelled
    end.

Definition throw {S A} (e : js_error) : ST S A := fun s => Thrown e s.

Definition lift {S A} (r : result A) : ST S A :=
  fun s =>
    match r with
    | Ok a => Done a s
    | Throw e => Thrown e s
    | Unmodelled => NotModelled
    end.

Definition get_state {S} : ST S S := fun s => Done s s.
Definition put_state {S} (s' : S) : ST S unit := fun _ => Done tt s'.

(** [try { body } catch (error) { handler }] *)
Definition try_catch {S A} (body : ST S A) (handler : js_error -> ST S A) : ST S A :=
  fun s =>
    match body s with
    | Done a s' => Done a s'
    | Thrown e s' => handler e s'
    | NotModelled => NotModelled
    end.

Notation "x <- c ;; k" := (bind c (fun x => k))
  (at level 61, c at next level, right associativity).
Notation "c ;;; k" := (bind c (fun _ => k))
  (at level 61, right associativity).

(** [items.forEach((item, index) => body)] from the index [index] on *)
Fixpoint forEach {St A} (body : A -> nat -> ST St unit) (index : nat) (items : list A)
  : ST St unit :=
  match items with
  | [] => ret tt
  | item :: rest => body item index ;;; forEach body (S index) rest
  end.

(** ** The database

    The three tables of [storage.js], each a list of rows in order of
    insertion.  TEXT columns hold strings; the two INTEGER columns of a
    segment hold the number that was bound. *)

Record meeting_row := {
  m_id : string;
  m_name : string;
  m_status : string;
  m_created_at : string;
  m_started_at : option string;
  m_ended_at : option string;
  m_audio_file_path : option string
}.

Record speaker_row := {
  s_id : string;
  s_meeting_id : string;
  s_label : string;
  s_display_name : string;
  s_created_at : string
}.

Record segment_row := {
  g_id : string;
  g_meeting_id : string;
  g_speaker_id : option string;
  g_start_ms : number;
  g_end_ms : number;
  g_transcript : string;
  g_created_at : string
}.

Record DB := {
  meetings : list meeting_row;
  speakers : list speaker_row;
  segments : list segment_row
}.

Definition empty_db : DB := {| meetings := []; speakers := []; segments := [] |}.

(** The world of the storage layer: the database, the identifiers that
    [randomUUID] will return and the times that [new Date()] will read. *)
Record world := {
  w_db : DB;
  w_uuids : nat -> string;
  w_uuid_next : nat;
  w_clock : nat -> string;
  w_tick : nat
}.

Definition M := ST world.

Definition with_db (w : world) (db : DB) : world :=
  {| w_db := db; w_uuids := w_uuids w; w_uuid_next := w_uuid_next w;
     w_clock := w_clock w; w_tick := w_tick w |}.

Definition get_db : M DB := fun w => Done (w_db w) w.
Definition put_db (db : DB) : M unit := fun w => Done tt (with_db w db).

Definition randomUUID : M string :=
  fun w => Done (w_uuids w (w_uuid_next w))
             {| w_db := w_db w; w_uuids := w_uuids w; w_uuid_next := S (w_uuid_next w);
                w_clock := w_clock w; w_tick := w_tick w |}.

(** [new Date().toISOString()] *)
Definition Date_now : M string :=
  fun w => Done (w_clock w (w_tick w))
             {| w_db := w_db w; w_uuids := w_uuids w; w_uuid_next := w_uuid_next w;
                w_clock := w_clock w; w_tick := S (w_tick w) |}.

(** [db.transaction(body)()]: when the body throws, the database is rolled
    back to what it was and the error is thrown again. *)
Definition transaction {A} (body : M A) : M A :=
  fun w =>
    match body w with
    | Done a w' => Done a w'
    | Thrown e w' => Thrown e (with_db w' (w_db w))
    | NotModelled => NotModelled
    end.

(** *** Binding of parameters

    The driver binds strings, numbers and [null]; any other value is a
    [TypeError].  The text that SQLite would store for a number in a TEXT
    column, and the number for a string in an INTEGER column, are not
    modelled. *)
Definition bind_type_error {A} : result A :=
  Throw (TypeError "SQLite3 can only bind numbers, strings, bigints, buffers, and null").

Definition not_null_error {A} (column : string) : result A :=
  Throw (SqliteError ("NOT NULL constraint failed: " ++ column)).

Definition bind_text (column : string) (v : jsval) : result string :=
  match v with
  | JStr s => Ok s
  | JNum _ => Unmodelled
  | JNull | JUndefined => not_null_error column
  | JBool _ | JArr _ | JObj _ => bind_type_error
  end.

Definition bind_text_nullable (v : jsval) : result (option string) :=
  match v with
  | JStr s => Ok (Some s)
  | JNum _ => Unmodelled
  | JNull | JUndefined => Ok None
  | JBool _ | JArr _ | JObj _ => bind_type_error
  end.

Definition bind_integer (column : string) (v : jsval) : result number :=
  match v with
  | JNum NaN => not_null_error column
  | JNum n => Ok n
  | JStr _ => Unmodelled
  | JNull | JUndefined => not_null_error column
  | JBool _ | JArr _ | JObj _ => bind_type_error
  end.

(** *** Statements *)

Definition meeting_exists (db : DB) (meetingId : string) : bool :=
  existsb (fun m => String.eqb (m_id m) meetingId) (meetings db).

Definition speaker_exists (db : DB) (speakerId : string) : bool :=
  existsb (fun sp => String.eqb (s_id sp) speakerId) (speakers db).

Definition segment_exists (db : DB) (segmentId : string) : bool :=
  existsb (fun g => String.eqb (g_id g) segmentId) (segments db).

Definition foreign_key_error {A} : result A :=
  Throw (SqliteError "FOREIGN KEY constraint failed").

Definition unique_error {A} (column : string) : result A :=
  Throw (SqliteError ("UNIQUE constraint failed: " ++ column)).

(** Stable insertion into a list sorted by [created_at]: the order of
    [ORDER BY created_at ASC] over rows scanned in order of insertion. *)
Fixpoint insert_by_created_at (sp : speaker_row) (sorted : list speaker_row)
  : list speaker_row :=
  match sorted with
  | [] => [sp]
  | x :: rest =>
      if String.ltb (s_created_at sp) (s_created_at x) then sp :: sorted
      else x :: insert_by_created_at sp rest
  end.

Definition sort_by_created_at (rows : list speaker_row) : list speaker_row :=
  fold_left (fun sorted sp => insert_by_created_at sp sorted) rows [].

(** [selectSpeakers.all(meetingId)] *)
Definition selectSpeakers (db : DB) (meetingId : string) : list speaker_row :=
  sort_by_created_at
    (filter (fun sp => String.eqb (s_meeting_id sp) meetingId) (speakers db)).

(** [deleteSpeakersStmt.run(meetingId)]: the rows go, and the segments that
    referred to them lose their speaker (ON DELETE SET NULL). *)
Definition deleteSpeakersStmt (meetingId : string) (db : DB) : DB :=
  let gone := filter (fun sp => String.eqb (s_meeting_id sp) meetingId) (speakers db) in
  let is_gone (id : string) := existsb (fun sp => String.eqb (s_id sp) id) gone in
  {| meetings := meetings db;
     speakers := filter (fun sp => negb (String.eqb (s_meeting_id sp) meetingId))
                   (speakers db);
     segments :=
       map (fun g =>
              match g_speaker_id g with
              | Some id =>
                  if is_gone id
                  then {| g_id := g_id g; g_meeting_id := g_meeting_id g;
                          g_speaker_id := None; g_start_ms := g_start_ms g;
                          g_end_ms := g_end_ms g; g_transcript := g_transcript g;
                          g_created_at := g_created_at g |}
                  else g
              | None => g
              end) (segments db) |}.

(** [insertSpeakerStmt.run(id, meetingId, label, displayName, now)] *)
Definition insertSpeakerStmt (id meetingId : string) (label displayName : jsval)
    (now : string) (db : DB) : result DB :=
  let? label := bind_text "speakers.label" label in
  let? displayName := bind_text "speakers.display_name" displayName in
  if speaker_exists db id then unique_error "speakers.id"
  else if negb (meeting_exists db meetingId) then foreign_key_error
  else Ok {| meetings := meetings db;
             speakers := speakers db ++
               [{| s_id := id; s_meeting_id := meetingId; s_label := label;
                   s_display_name := displayName; s_created_at := now |}];
             segments := segments db |}.

(** [UPDATE meetings SET ... WHERE id = ?] *)
Definition update_meeting (meetingId : string) (f : meeting_row -> meeting_row)
    (db : DB) : DB :=
  {| meetings := map (fun m => if String.eqb (m_id m) meetingId then f m else m)
                   (meetings db);
     speakers := speakers db;
     segments := segments db |}.

(** Run a statement on the database of the world. *)
Definition run_stmt (stmt : DB -> result DB) : M unit :=
  db <- get_db ;;
  db' <- lift (stmt db) ;;
  put_db db'.

(** *** The operations of [storage.js] *)

(** A meeting as [getMeeting] returns it: the row ([mapMeetingRow] only
    renames its fields) with the speakers attached. *)
Record meeting := {
  meeting_row_of : meeting_row;
  meeting_speakers : list speaker_row
}.

Definition getMeeting (meetingId : string) : M (option meeting) :=
  db <- get_db ;;
  ret (match find (fun m => String.eqb (m_id m) meetingId) (meetings db) with
       | Some row => Some {| meeting_row_of := row;
                             meeting_speakers := selectSpeakers db (m_id row) |}
       | None => None
       end).

Definition speaker_n (index : nat) : string := ("Speaker " ++ nat_to_string index)%string.

(** The loop [for (index = 1; index <= safeCount; index += 1)] *)
Fixpoint insert_defaults (meetingId now : string) (index remaining : nat) : M unit :=
  match remaining with
  | O => ret tt
  | S n =>
      let label := speaker_n index in
      id <- randomUUID ;;
      run_stmt (insertSpeakerStmt id meetingId (JStr label) (JStr label) now) ;;;
      insert_defaults meetingId now (S index) n
  end.

(** The number of rounds of that loop; past [2^53] the counter would stop
    growing. *)
Definition loop_rounds (safeCount : number) : result nat :=
  match safeCount with
  | Fin m e =>
      let n := number_floor m e in
      if (n <? 0)%Z then Ok 0
      else if (n <? 2 ^ 53)%Z then Ok (Z.to_nat n)
      else Unmodelled
  | Infinity negative => if negative then Ok 0 else Unmodelled
  | NaN => Ok 0
  end.

Definition resetSpeakersInternal (meetingId : string) (speakersOrCount : jsval)
    (now : string) : M unit :=
  run_stmt (fun db => Ok (deleteSpeakersStmt meetingId db)) ;;;
  match speakersOrCount with
  | JArr list =>
      let items :=
        match list with
        | [] => [JObj [("label", JStr "Speaker 1")]]
        | _ => list
        end in
      forEach (fun speaker index =>
                 l <- lift (get_prop speaker "label") ;;
                 let label := coalesce l (JStr (speaker_n (index + 1))) in
                 d <- lift (get_prop speaker "displayName") ;;
                 let displayName := coalesce d label in
                 id <- randomUUID ;;
                 run_stmt (insertSpeakerStmt id meetingId label displayName now))
        0 items
  | _ =>
      n <- lift (Number_ speakersOrCount) ;;
      let count := if number_isFinite n then n else Fin 0 0 in
      let safeCount := if number_gt0 count then count else Fin 2 0 in
      rounds <- lift (loop_rounds safeCount) ;;
      insert_defaults meetingId now 1 rounds
  end.

Definition resetSpeakers (meetingId : string) (speakersOrCount : jsval)
  : M (option meeting) :=
  now <- Date_now ;;
  transaction (resetSpeakersInternal meetingId speakersOrCount now) ;;;
  getMeeting meetingId.

(** [createMeeting({ name, speakerCount = 2 })] *)
Definition createMeeting (name : string) (speakerCount : jsval) : M (option meeting) :=
  let speakerCount :=
    match speakerCount with JUndefined => JNum (Fin 2 0) | _ => speakerCount end in
  now <- Date_now ;;
  meetingId <- randomUUID ;;
  transaction
    (run_stmt (fun db =>
       if meeting_exists db meetingId then unique_error "meetings.id"
       else Ok {| meetings := meetings db ++
                    [{| m_id := meetingId; m_name := name; m_status := "pending";
                        m_created_at := now; m_started_at := None;
                        m_ended_at := None; m_audio_file_path := None |}];
                  speakers := speakers db; segments := segments db |}) ;;;
     resetSpeakersInternal meetingId speakerCount now) ;;;
  getMeeting meetingId.

Definition set_name (name : string) (m : meeting_row) : meeting_row :=
  {| m_id := m_id m; m_name := name; m_status := m_status m;
     m_created_at := m_created_at m; m_started_at := m_started_at m;
     m_ended_at := m_ended_at m; m_audio_file_path := m_audio_file_path m |}.

Definition set_status (status : string) (m : meeting_row) : meeting_row :=
  {| m_id := m_id m; m_name := m_name m; m_status := status;
     m_created_at := m_created_at m; m_started_at := m_started_at m;
     m_ended_at := m_ended_at m; m_audio_file_path := m_audio_file_path m |}.

(** [COALESCE(a, b)] *)
Definition COALESCE {A} (a b : option A) : option A :=
  match a with Some _ => a | None => b end.

(** [updateMeeting(meetingId, { name })] with a name that is defined *)
Definition updateMeeting (meetingId name : string) : M (option meeting) :=
  run_stmt (fun db => Ok (update_meeting meetingId (set_name name) db)) ;;;
  getMeeting meetingId.

Definition startMeeting (meetingId : string) : M (option meeting) :=
  now <- Date_now ;;
  run_stmt (fun db => Ok (update_meeting meetingId (fun m =>
    {| m_id := m_id m; m_name := m_name m; m_status := m_status m;
       m_created_at := m_created_at m;
       m_started_at := COALESCE (m_started_at m) (Some now);
       m_ended_at := m_ended_at m; m_audio_file_path := m_audio_file_path m |}) db)) ;;;
  getMeeting meetingId.

(** [endMeeting(meetingId, { audioFilePath })]; [None] is an audio path
    that is [undefined] or [null], bound as [audioFilePath ?? null]. *)
Definition endMeeting (meetingId : string) (audioFilePath : option string)
  : M (option meeting) :=
  now <- Date_now ;;
  run_stmt (fun db => Ok (update_meeting meetingId (fun m =>
    {| m_id := m_id m; m_name := m_name m; m_status := "processing";
       m_created_at := m_created_at m; m_started_at := m_started_at m;
       m_ended_at := COALESCE (m_ended_at m) (Some now);
       m_audio_file_path := COALESCE audioFilePath (m_audio_file_path m) |}) db)) ;;;
  getMeeting meetingId.

Definition updateMeetingStatus (meetingId status : string) : M (option meeting) :=
  run_stmt (fun db => Ok (update_meeting meetingId (set_status status) db)) ;;;
  getMeeting meetingId.

(** [UPDATE speakers SET display_name = ? WHERE id = ? AND meeting_id = ?] *)
Definition renameSpeaker (meetingId speakerId displayName : string)
  : M (option meeting) :=
  run_stmt (fun db =>
    Ok {| meetings := meetings db;
          speakers :=
            map (fun sp =>
                   if String.eqb (s_id sp) speakerId
                      && String.eqb (s_meeting_id sp) meetingId
                   then {| s_id := s_id sp; s_meeting_id := s_meeting_id sp;
                           s_label := s_label sp; s_display_name := displayName;
                           s_created_at := s_created_at sp |}
                   else sp) (speakers db);
          segments := segments db |}) ;;;
  getMeeting meetingId.

Definition addSpeaker (meetingId displayName : string) : M (option meeting) :=
  found <- getMeeting meetingId ;;
  match found with
  | None => throw (Error "Meeting not found")
  | Some m =>
      let speakerCount := List.length (meeting_speakers m) in
      let label := speaker_n (speakerCount + 1) in
      now <- Date_now ;;
      id <- randomUUID ;;
      run_stmt (insertSpeakerStmt id meetingId (JStr label) (JStr displayName) now) ;;;
      getMeeting meetingId
  end.

(** A segment as [handleDiarization] hands it to [storeSegments]. *)
Record segment_input := {
  seg_id : jsval;
  seg_startMs : jsval;
  seg_endMs : jsval;
  seg_transcript : jsval;
  seg_speakerId : jsval;
  seg_createdAt : jsval
}.

Definition insertSegment (id : jsval) (meetingId : string)
    (speakerId startMs endMs transcript createdAt : jsval) (db : DB) : result DB :=
  let? id := bind_text "segments.id" id in
  let? speakerId := bind_text_nullable speakerId in
  let? startMs := bind_integer "segments.start_ms" startMs in
  let? endMs := bind_integer "segments.end_ms" endMs in
  let? transcript := bind_text "segments.transcript" transcript in
  let? createdAt := bind_text "segments.created_at" createdAt in
  if segment_exists db id then unique_error "segments.id"
  else if negb (meeting_exists db meetingId) then foreign_key_error
  else if match speakerId with
          | Some sid => negb (speaker_exists db sid)
          | None => false
          end then foreign_key_error
  else Ok {| meetings := meetings db;
             speakers := speakers db;
             segments := segments db ++
               [{| g_id := id; g_meeting_id := meetingId; g_speaker_id := speakerId;
                   g_start_ms := startMs; g_end_ms := endMs;
                   g_transcript := transcript; g_created_at := createdAt |}] |}.

Definition storeSegments (meetingId : string) (segs : list segment_input)
  : M (option meeting) :=
  now <- Date_now ;;
  transaction
    (run_stmt (fun db =>
       Ok {| meetings := meetings db; speakers := speakers db;
             segments := filter (fun g => negb (String.eqb (g_meeting_id g) meetingId))
                           (segments db) |}) ;;;
     forEach (fun segment (_ : nat) =>
                id <- (if nullish (seg_id segment)
                       then (u <- randomUUID ;; ret (JStr u))
                       else ret (seg_id segment)) ;;
                run_stmt (insertSegment id meetingId
                            (coalesce (seg_speakerId segment) JNull)
                            (seg_startMs segment) (seg_endMs segment)
                            (seg_transcript segment)
                            (coalesce (seg_createdAt segment) (JStr now))))
       0 segs) ;;;
  getMeeting meetingId.

(** ** The job launcher ([runDiarization])

    What the external process does is a parameter of the model: either it
    could not be started (the [error] event) or it ended (the [close]
    event) with an exit code, [None] when a signal killed it, and the text
    captured from its two streams.  The argument list built for the
    process has no influence on what the function returns and is left
    out. *)

Inductive process_outcome :=
| SpawnFailed (e : js_error)
| Closed (code : option Z) (stdout stderr : string).

Record diarization_result := {
  r_stdout : string;
  r_stderr : string;
  r_outputDir : string
}.

Definition outputDir_of (meetingId : string) : string :=
  ("data/outputs/" ++ meetingId)%string.

Definition exit_code_text (code : option Z) : string :=
  match code with Some z => Z_to_string z | None => "null" end.

Definition is_zero_exit (code : option Z) : bool :=
  match code with Some z => (z =? 0)%Z | None => false end.

Definition runDiarization (meetingId audioPath : string) (audio_exists : bool)
    (proc : process_outcome) : result diarization_result :=
  if isEmpty audioPath || negb audio_exists then
    Throw (Error ("Audio file not found for diarization: " ++ audioPath))
  else
    match proc with
    | SpawnFailed e => Throw e
    | Closed code stdout stderr =>
        if negb (is_zero_exit code) then
          Throw (Error ("Diarization process exited with code " ++ exit_code_text code
                          ++ "." ++ LFs ++ (if isEmpty stderr then stdout else stderr)))
        else
          Ok {| r_stdout := stdout; r_stderr := stderr;
                r_outputDir := outputDir_of meetingId |}
    end.

(** ** The output resolver (in [handleDiarization]) *)

(** The loop over the lines from the last to the first: the first
    [JSON.parse] that does not throw ends it. *)
Fixpoint scan_lines (lines_from_last : list string) : result jsval :=
  match lines_from_last with
  | [] => Ok JUndefined
  | line :: earlier =>
      match JSON_parse (trim line) with
      | Ok payload => Ok payload
      | Throw _ => scan_lines earlier
      | Unmodelled => Unmodelled
      end
  end.

Definition nonblank_lines (trimmed : string) : list string :=
  filter (fun line => negb (isEmpty (trim line))) (split_lines trimmed).

Definition payload_of_stdout (stdout : string) : result jsval :=
  let trimmed := trim stdout in
  if isEmpty trimmed then Ok JUndefined
  else scan_lines (rev (nonblank_lines trimmed)).

(** The payload of a job: from the captured output, else from the result
    file of the output directory ([None] when there is no such file),
    else the error [Diarization payload missing]. *)
Definition resolve_payload (stdout : string) (result_file : option string)
  : result jsval :=
  let? payload := payload_of_stdout stdout in
  let? payload :=
    (if negb (truthy payload) then
       match result_file with
       | Some filePayload => JSON_parse filePayload
       | None => Ok payload
       end
     else Ok payload) in
  if negb (truthy payload) then Throw (Error "Diarization payload missing")
  else Ok payload.

(** ** Roster mode (in [handleDiarization]) *)

(** [Math.round(x * 1000)].  The model computes on the decimal that [x]
    denotes; the program computes on the nearest double and rounds the
    product to a double.  With a mantissa below [2^50] the two agree,
    except possibly when the decimal product lies half way between two
    integers and [x] is no double itself: that case, and larger
    mantissas, are left out. *)
Definition round_ms (x : jsval) : result jsval :=
  let? n := Number_ x in
  match n with
  | Fin m e =>
      let e3 := (e + 3)%Z in
      if (2 ^ 50 <=? Z.abs m)%Z then Unmodelled
      else if (0 <=? e3)%Z then
        if ((e3 <=? 15) && (Z.abs (m * 10 ^ e3) <? 2 ^ 50))%Z
        then let? ms := mk_number m e3 in Ok (JNum ms)
        else Unmodelled
      else
        let den := (10 ^ (- e3))%Z in
        if ((2 * (m mod den) =? den) && negb (m mod 5 ^ (- e) =? 0))%Z then Unmodelled
        else let? ms := mk_number ((2 * m + den) / (2 * den))%Z 0%Z in Ok (JNum ms)
  | _ => Ok (JNum n)
  end.

Definition Map_get_js (m : Map) (key : jsval) : jsval :=
  match key with
  | JStr k => match Map_get m k with Some v => JStr v | None => JUndefined end
  | _ => JUndefined
  end.

Definition normalize_segment (labelToSpeakerId : Map) (segment : jsval)
  : result segment_input :=
  let? id := get_prop segment "id" in
  let? startMs := get_prop segment "startMs" in
  let? start := get_prop segment "start" in
  let? startMs :=
    (if nullish startMs then round_ms (coalesce start (JNum (Fin 0 0))) else Ok startMs) in
  let? endMs := get_prop segment "endMs" in
  let? end_ := get_prop segment "end" in
  let? endMs :=
    (if nullish endMs then round_ms (coalesce end_ (JNum (Fin 0 0))) else Ok endMs) in
  let? transcript := get_prop segment "transcript" in
  let? text := get_prop segment "text" in
  let? speakerId := get_prop segment "speakerId" in
  let? speakerLabel := get_prop segment "speakerLabel" in
  let? speaker := get_prop segment "speaker" in
  let? createdAt := get_prop segment "createdAt" in
  Ok {| seg_id := id;
        seg_startMs := startMs;
        seg_endMs := endMs;
        seg_transcript := coalesce (coalesce transcript text) (JStr EmptyString);
        seg_speakerId :=
          coalesce (coalesce speakerId
                      (Map_get_js labelToSpeakerId (coalesce speakerLabel speaker)))
                   JNull;
        seg_createdAt := createdAt |}.

Fixpoint map_result {A B} (f : A -> result B) (l : list A) : result (list B) :=
  match l with
  | [] => Ok []
  | x :: rest => let? y := f x in let? ys := map_result f rest in Ok (y :: ys)
  end.

Definition nonempty_array (v : jsval) : bool :=
  match v with JArr (_ :: _) => true | _ => false end.

Definition array_items (v : jsval) : list jsval :=
  match v with JArr items => items | _ => [] end.

(** [payload.status && typeof payload.status === "string" ? payload.status
    : "done"] *)
Definition next_status (status : jsval) : string :=
  match status with
  | JStr s => if isEmpty s then "done" else s
  | _ => "done"
  end.

(** The part of the job that persists the payload and sets the status. *)
Definition persist_payload (meetingId : string) (payload : jsval) : M unit :=
  speakers <- lift (get_prop payload "speakers") ;;
  (if nonempty_array speakers then
     updatedMeeting <- resetSpeakers meetingId speakers ;;
     match updatedMeeting with
     | None => throw (TypeError "Cannot read properties of null (reading 'speakers')")
     | Some updated =>
         let labelToSpeakerId :=
           fold_left (fun m sp => Map_set m (s_label sp) (s_id sp))
             (meeting_speakers updated) [] in
         segments <- lift (get_prop payload "segments") ;;
         if nonempty_array segments then
           normalizedSegments <-
             lift (map_result (normalize_segment labelToSpeakerId)
                     (array_items segments)) ;;
           storeSegments meetingId normalizedSegments ;;; ret tt
         else ret tt
     end
   else ret tt) ;;;
  status <- lift (get_prop payload "status") ;;
  updateMeetingStatus meetingId (next_status status) ;;; ret tt.

(** What a job finds outside the database. *)
Record job_env := {
  env_audio_exists : bool;          (* [fs.existsSync(resolvedAudioPath)] *)
  env_process : process_outcome;
  env_result_file : option string   (* [diarization.json] of the output directory *)
}.

Definition handleDiarization (meetingId audioPath : string) (env : job_env) : M unit :=
  if isEmpty audioPath then
    updateMeetingStatus meetingId "failed" ;;; ret tt
  else if negb (env_audio_exists env) then
    updateMeetingStatus meetingId "failed" ;;; ret tt
  else
    try_catch
      (result <- lift (runDiarization meetingId audioPath (env_audio_exists env)
                         (env_process env)) ;;
       payload <- lift (resolve_payload (r_stdout result) (env_result_file env)) ;;
       persist_payload meetingId payload)
      (fun error => updateMeetingStatus meetingId "failed" ;;; ret tt).

(** [handleDiarization(meetingId, audioPath)] for any value of
    [audioPath], as a route may pass it on from the body of a request.  A
    falsy value is answered like the empty text.  A truthy value that is
    no text reaches [path.resolve], which throws a [TypeError] (its
    message is shortened here) before the [try] is entered: the job is
    rejected and writes nothing.  A text goes the way above. *)
Definition handleDiarization_value (meetingId : string) (audioPath : jsval)
    (env : job_env) : M unit :=
  if negb (truthy audioPath) then
    updateMeetingStatus meetingId "failed" ;;; ret tt
  else
    match audioPath with
    | JStr text => handleDiarization meetingId text env
    | _ => throw (TypeError "The path argument must be of type string")
    end.

(** ** The structured rewriter ([applySpeakerNamesToJson]) *)

(** [v !== name] for a string [name] *)
Definition differs_from (v : jsval) (name : string) : bool :=
  match v with JStr s => negb (String.eqb s name) | _ => true end.

(** [originalLabel ? replacements.get(originalLabel) : null], kept when it
    is truthy *)
Definition next_name (replacements : Map) (originalLabel : jsval) : option string :=
  match originalLabel with
  | JStr l =>
      if isEmpty l then None
      else match Map_get replacements l with
           | Some n => if isEmpty n then None else Some n
           | None => None
           end
  | _ => None
  end.

(** The callback on one entry of [payload.speakers]: the entry after the
    assignments, and whether it set [changed]. *)
Definition json_update_speaker (replacements : Map) (speaker : jsval) : jsval * bool :=
  match speaker with
  | JObj props =>
      let originalLabel :=
        js_or (props_get props "originalLabel") (props_get props "label") in
      let nextName := next_name replacements originalLabel in
      let '(props1, c1) :=
        if truthy originalLabel && negb (truthy (props_get props "originalLabel"))
        then (props_set props "originalLabel" originalLabel, true)
        else (props, false) in
      let '(props2, c2) :=
        match nextName with
        | Some n =>
            if differs_from (props_get props1 "displayName") n
            then (props_set props1 "displayName" (JStr n), true)
            else (props1, false)
        | None => (props1, false)
        end in
      (JObj props2, c1 || c2)
  | _ => (speaker, false)
  end.

(** The callback on one entry of [payload.segments]. *)
Definition json_update_segment (replacements : Map) (segment : jsval) : jsval * bool :=
  match segment with
  | JObj props =>
      let originalLabel :=
        js_or (props_get props "originalSpeakerLabel") (props_get props "speakerLabel") in
      let nextName := next_name replacements originalLabel in
      let '(props1, c1) :=
        if truthy originalLabel && negb (truthy (props_get props "originalSpeakerLabel"))
        then (props_set props "originalSpeakerLabel" originalLabel, true)
        else (props, false) in
      match nextName with
      | Some n =>
          let '(props2, c2) :=
            if differs_from (props_get props1 "speakerLabel") n
            then (props_set props1 "speakerLabel" (JStr n), true)
            else (props1, false) in
          let '(props3, c3) :=
            if differs_from (props_get props2 "speakerDisplayName") n
            then (props_set props2 "speakerDisplayName" (JStr n), true)
            else (props2, false) in
          (JObj props3, c1 || c2 || c3)
      | None => (JObj props1, c1)
      end
  | _ => (segment, false)
  end.

(** One round of the loop over [Object.entries(payload.speakerStats)]: the
    value after the assignment, the target key, and whether the round set
    [changed].  A property set on an array is not printed by
    [JSON.stringify]: the array stays as it is, and [changed] is set. *)
Definition json_update_stat (replacements : Map) (key : string) (value : jsval)
  : jsval * string * bool :=
  let '(value1, c, ownLabel) :=
    match value with
    | JObj props =>
        if negb (truthy (props_get props "originalLabel"))
        then (JObj (props_set props "originalLabel" (JStr key)), true, JStr key)
        else (value, false, props_get props "originalLabel")
    | JArr _ => (value, true, JStr key)
    | _ => (value, false, JUndefined)
    end in
  let originalLabel := if truthy ownLabel then ownLabel else JStr key in
  let targetKey :=
    match next_name replacements originalLabel with
    | Some n => n
    | None => key
    end in
  (value1, targetKey, c).

Fixpoint enumerate_from (index : nat) (items : list jsval) : list (string * jsval) :=
  match items with
  | [] => []
  | x :: rest => (nat_to_string index, x) :: enumerate_from (S index) rest
  end.

(** [Object.entries(v)] for an object or an array *)
Definition Object_entries (v : jsval) : list (string * jsval) :=
  match v with
  | JObj props => props
  | JArr items => enumerate_from 0 items
  | _ => []
  end.

(** The block on [payload.speakerStats]: its new value and whether
    [changed] was set.  A target key [__proto__] would set the prototype
    of [updatedStats] and is left out. *)
Definition json_update_stats (replacements : Map) (stats : jsval)
  : result (jsval * bool) :=
  if truthy stats && typeof_object stats then
    let rounds :=
      map (fun kv => (fst kv, json_update_stat replacements (fst kv) (snd kv)))
        (Object_entries stats) in
    let changed := existsb (fun r => snd (snd r)) rounds in
    let statsChanged :=
      existsb (fun r => negb (String.eqb (snd (fst (snd r))) (fst r))) rounds in
    if statsChanged then
      if existsb (fun r => String.eqb (snd (fst (snd r))) "__proto__") rounds
      then Unmodelled
      else
        Ok (JObj (fold_left (fun updatedStats r =>
                    props_set updatedStats (snd (fst (snd r))) (fst (fst (snd r))))
                    rounds []),
            true)
    else
      Ok (match stats with
          | JObj _ => JObj (map (fun r => (fst r, fst (fst (snd r)))) rounds)
          | JArr _ => JArr (map (fun r => fst (fst (snd r))) rounds)
          | _ => stats
          end, changed)
  else Ok (stats, false).

(** The payload after the three blocks, and [changed]. *)
Definition json_update_payload (replacements : Map) (payload : jsval)
  : result (jsval * bool) :=
  let? speakers := get_prop payload "speakers" in
  match payload with
  | JObj props =>
      let '(props1, c1) :=
        match speakers with
        | JArr items =>
            let updated := map (json_update_speaker replacements) items in
            (props_replace props "speakers" (JArr (map fst updated)),
             existsb snd updated)
        | _ => (props, false)
        end in
      let '(props2, c2) :=
        match props_get props1 "segments" with
        | JArr items =>
            let updated := map (json_update_segment replacements) items in
            (props_replace props1 "segments" (JArr (map fst updated)),
             existsb snd updated)
        | _ => (props1, false)
        end in
      let? (stats, c3) := json_update_stats replacements (props_get props2 "speakerStats") in
      let props3 := if c3 then props_replace props2 "speakerStats" stats else props2 in
      Ok (JObj props3, c1 || c2 || c3)
  | _ => Ok (payload, false)
  end.

Definition applySpeakerNamesToJson (fs : FS) (filePath : string) (replacements : Map)
    (now : string) : result (bool * FS) :=
  match fs filePath with
  | None => Ok (false, fs)
  | Some original =>
      match JSON_parse original with
      | Throw _ => Ok (false, fs)
      | Unmodelled => Unmodelled
      | Ok payload =>
          let? (payload1, changed) := json_update_payload replacements payload in
          if negb changed then Ok (false, fs)
          else
            match payload1 with
            | JObj props =>
                let? nextJson :=
                  stringify_line (JObj (props_set props "updatedSpeakerNamesAt" (JStr now))) in
                Ok (true, writeFileSync fs filePath nextJson)
            | _ => Unmodelled
            end
      end
  end.

(** ** Export-sync ([applySpeakerNamesToExports]) *)

(** The mapping from stable label to display name; a speaker whose trimmed
    display name is empty or is its label adds nothing. *)
Fixpoint build_replacements (replacements : Map) (speakers : list speaker_row) : Map :=
  match speakers with
  | [] => replacements
  | speaker :: rest =>
      let label := s_label speaker in
      let displayName := trim (s_display_name speaker) in
      if isEmpty label || isEmpty displayName || String.eqb displayName label
      then build_replacements replacements rest
      else build_replacements (Map_set replacements label displayName) rest
  end.

Definition outputsRoot : string := "data/outputs".

(** [path.join(a, b)] for segments that need no normalisation *)
Definition path_join (a b : string) : string :=
  if isEmpty b then a else (a ++ "/" ++ b)%string.

Record export_result := {
  updated : bool;
  files : list string
}.

Definition FSM := ST FS.

(** A rewriter as a computation on the file system; a rewriter that throws
    has written nothing. *)
Definition rewriter (f : FS -> result (bool * FS)) : FSM bool :=
  fun fs =>
    match f fs with
    | Ok (b, fs') => Done b fs'
    | Throw e => Thrown e fs
    | Unmodelled => NotModelled
    end.

Definition applySpeakerNamesToExports (found : option meeting) (now : string)
  : FSM export_result :=
  match found with
  | None => ret {| updated := false; files := [] |}
  | Some m =>
      match meeting_speakers m with
      | [] => ret {| updated := false; files := [] |}
      | _ =>
          let replacements := build_replacements [] (meeting_speakers m) in
          if Nat.eqb (Map_size replacements) 0
          then ret {| updated := false; files := [] |}
          else
            let baseDir := path_join outputsRoot (m_id (meeting_row_of m)) in
            let transcriptPath := path_join baseDir "transcript.txt" in
            let srtPath := path_join baseDir "segments.srt" in
            let csvPath := path_join baseDir "segments.csv" in
            let jsonPath := path_join baseDir "diarization.json" in
            t <- rewriter (fun fs => applySpeakerNamesToTextFile fs transcriptPath replacements) ;;
            s <- rewriter (fun fs => applySpeakerNamesToTextFile fs srtPath replacements) ;;
            c <- rewriter (fun fs => Ok (applySpeakerNamesToCsv fs csvPath replacements)) ;;
            j <- rewriter (fun fs => applySpeakerNamesToJson fs jsonPath replacements now) ;;
            let updatedFiles :=
              (if t then ["transcript.txt"] else [])
                ++ (if s then ["segments.srt"] else [])
                ++ (if c then ["segments.csv"] else [])
                ++ (if j then ["diarization.json"] else []) in
            ret {| updated := negb (Nat.eqb (List.length updatedFiles) 0);
                   files := updatedFiles |}
      end
  end.

(** ** The routes of [server.js]

    A request carries the parameters of its path, the fields that the
    handler reads from the JSON body ([JUndefined] for a field that is not
    there) and what the handler finds on disk.  A handler returns its
    reply and the jobs it has queued with [queueMicrotask].  The links to
    the export files that [buildMeetingPayload] adds to a meeting are not
    part of the reply of the model. *)

Inductive request :=
| POST_meetings (name speakerCount : jsval)
| PATCH_meeting (meetingId : string) (name : jsval)
| POST_start (meetingId : string)
| PATCH_speaker (meetingId speakerId : string) (displayName : jsval)
| POST_speakers (meetingId : string) (displayName : jsval)
| POST_audio (meetingId : string) (file : option string)
| POST_end (meetingId : string) (audioFilePath : jsval)
| POST_reprocess (meetingId : string) (audio_on_disk : bool)
| POST_sync_count (meetingId : string) (count : jsval)
| POST_reset (meetingId : string) (count speakers : jsval).

Record job := {
  job_meetingId : string;
  job_audioPath : string
}.

Record reply := {
  code : nat;
  reply_error : option string;
  reply_meeting : option meeting
}.

Definition json_meeting (status : nat) (m : option meeting) : reply :=
  {| code := status; reply_error := None; reply_meeting := m |}.

Definition json_error (status : nat) (message : string) : reply :=
  {| code := status; reply_error := Some message; reply_meeting := None |}.

(** The test [!v || !v.trim()] and the text [v.trim()]: [None] when the
    test holds; a truthy value that is no string has no [trim]. *)
Definition trimmed_text (v : jsval) : result (option string) :=
  if negb (truthy v) then Ok None
  else
    match v with
    | JStr s => Ok (if isEmpty (trim s) then None else Some (trim s))
    | _ => Throw (TypeError "trim is not a function")
    end.

Definition not_found : reply := json_error 404 "Meeting not found".

Definition handle (req : request) : M (reply * list job) :=
  match req with
  | POST_meetings name speakerCount =>
      text <- lift (trimmed_text name) ;;
      match text with
      | None => ret (json_error 400 "Meeting name is required", [])
      | Some trimmed =>
          n <- (if truthy speakerCount then lift (Number_ speakerCount) else ret NaN) ;;
          let safeCount := if number_isFinite n then n else Fin 2 0 in
          m <- createMeeting trimmed (JNum safeCount) ;;
          ret (json_meeting 201 m, [])
      end
  | PATCH_meeting meetingId name =>
      found <- getMeeting meetingId ;;
      match found with
      | None => ret (not_found, [])
      | Some _ =>
          text <- lift (trimmed_text name) ;;
          match text with
          | None => ret (json_error 400 "Meeting name is required", [])
          | Some trimmed =>
              m <- updateMeeting meetingId trimmed ;;
              ret (json_meeting 200 m, [])
          end
      end
  | POST_start meetingId =>
      found <- getMeeting meetingId ;;
      match found with
      | None => ret (not_found, [])
      | Some _ => m <- startMeeting meetingId ;; ret (json_meeting 200 m, [])
      end
  | PATCH_speaker meetingId speakerId displayName =>
      found <- getMeeting meetingId ;;
      match found with
      | None => ret (not_found, [])
      | Some _ =>
          text <- lift (trimmed_text displayName) ;;
          match text with
          | None => ret (json_error 400 "Speaker display name is required", [])
          | Some trimmed =>
              m <- renameSpeaker meetingId speakerId trimmed ;;
              ret (json_meeting 200 m, [])
          end
      end
  | POST_speakers meetingId displayName =>
      found <- getMeeting meetingId ;;
      match found with
      | None => ret (not_found, [])
      | Some _ =>
          text <- lift (trimmed_text displayName) ;;
          match text with
          | None => ret (json_error 400 "Speaker display name is required", [])
          | Some trimmed =>
              m <- addSpeaker meetingId trimmed ;;
              ret (json_meeting 200 m, [])
          end
      end
  | POST_audio meetingId file =>
      found <- getMeeting meetingId ;;
      match found, file with
      | None, _ => ret (not_found, [])
      | Some _, None => ret (json_error 400 "Audio file is required", [])
      | Some _, Some audioPath =>
          m <- endMeeting meetingId (Some audioPath) ;;
          ret (json_meeting 200 m,
               [{| job_meetingId := meetingId; job_audioPath := audioPath |}])
      end
  | POST_end meetingId audioFilePath =>
      found <- getMeeting meetingId ;;
      match found with
      | None => ret (not_found, [])
      | Some _ =>
          bound <- lift (bind_text_nullable audioFilePath) ;;
          m <- endMeeting meetingId bound ;;
          match bound with
          | Some audioPath =>
              if isEmpty audioPath then
                updateMeetingStatus meetingId "failed" ;;;
                ret (json_meeting 200 m, [])
              else
                ret (json_meeting 200 m,
                     [{| job_meetingId := meetingId; job_audioPath := audioPath |}])
          | None =>
              updateMeetingStatus meetingId "failed" ;;;
              ret (json_meeting 200 m, [])
          end
      end
  | POST_reprocess meetingId audio_on_disk =>
      found <- getMeeting meetingId ;;
      match found with
      | None => ret (not_found, [])
      | Some m =>
          match m_audio_file_path (meeting_row_of m) with
          | None => ret (json_error 400 "No audio available for this meeting", [])
          | Some audioFilePath =>
              if isEmpty audioFilePath then
                ret (json_error 400 "No audio available for this meeting", [])
              else if negb audio_on_disk then
                ret (json_error 400 "Meeting audio file is missing", [])
              else
                processing <- updateMeetingStatus meetingId "processing" ;;
                ret (json_meeting 200 processing,
                     [{| job_meetingId := meetingId; job_audioPath := audioFilePath |}])
          end
      end
  | POST_sync_count meetingId count =>
      found <- getMeeting meetingId ;;
      match found with
      | None => ret (not_found, [])
      | Some _ =>
          n <- lift (Number_ count) ;;
          if negb (number_isFinite n) || negb (number_gt0 n)
             || match n with Fin m e => (number_floor m e <? 1)%Z | _ => false end
          then ret (json_error 400 "count must be at least 1", [])
          else throw (TypeError "storage.ensureSpeakerCount is not a function")
      end
  | POST_reset meetingId count speakers =>
      found <- getMeeting meetingId ;;
      match found with
      | None => ret (not_found, [])
      | Some _ =>
          m <- (if Array_isArray speakers then resetSpeakers meetingId speakers
                else resetSpeakers meetingId count) ;;
          ret (json_meeting 200 m, [])
      end
  end.

(** The reply that the client receives: an error thrown by the handler is
    answered by the error middleware. *)
Definition serve (req : request) (w : world) : option (reply * list job * world) :=
  match handle req w with
  | Done (r, jobs) w' => Some (r, jobs, w')
  | Thrown _ w' => Some (json_error 500 "Internal server error", [], w')
  | NotModelled => None
  end.

(** [POST /api/meetings/:meetingId/speakers/apply]: it reads the database
    and writes files only. *)
Definition serve_apply (meetingId : string) (now : string) (w : world) (fs : FS)
  : option (nat * export_result * FS) :=
  match getMeeting meetingId w with
  | Done None _ => Some (404, {| updated := false; files := [] |}, fs)
  | Done (Some m) _ =>
      match applySpeakerNamesToExports (Some m) now fs with
      | Done r fs' => Some (200, r, fs')
      | Thrown _ fs' => Some (500, {| updated := false; files := [] |}, fs')
      | NotModelled => None
      end
  | _ => None
  end.

(** *** The states that the server can reach

    From a database without rows, by a request that is served or by a job
    that ends.  The job of a step is not required to have been queued by
    an earlier request: the relation covers at least the states that the
    running server reaches.  The second index lists the status texts that
    analysis results have carried so far. *)

Definition supplied_status (meetingId audioPath : string) (env : job_env)
  : list string :=
  match runDiarization meetingId audioPath (env_audio_exists env) (env_process env) with
  | Ok result =>
      match resolve_payload (r_stdout result) (env_result_file env) with
      | Ok payload =>
          match get_prop payload "status" with
          | Ok (JStr s) => if isEmpty s then [] else [s]
          | _ => []
          end
      | _ => []
      end
  | _ => []
  end.

Inductive reachable : world -> list string -> Prop :=
| reach_start (w : world) :
    w_db w = empty_db -> reachable w []
| reach_request (w w' : world) (sup : list string) (req : request) (r : reply)
    (jobs : list job) :
    reachable w sup -> serve req w = Some (r, jobs, w') -> reachable w' sup
| reach_job (w w' : world) (sup : list string) (meetingId audioPath : string)
    (env : job_env) :
    reachable w sup ->
    handleDiarization meetingId audioPath env w = Done tt w' ->
    reachable w' (supplied_status meetingId audioPath env ++ sup).

Definition lifecycle_statuses : list string :=
  ["pending"; "processing"; "done"; "failed"].

Definition status_of (db : DB) (meetingId : string) : option string :=
  option_map m_status (find (fun m => String.eqb (m_id m) meetingId) (meetings db)).

(** ** Predicates used in the statements *)

Fixpoint all_whitespace (s : string) : bool :=
  match s with
  | EmptyString => true
  | String c r => isWhiteSpace c && all_whitespace r
  end.

(** Every display name of the mapping is non-empty, as in every mapping
    that [build_replacements] returns. *)
Definition names_nonempty (m : Map) : bool :=
  forallb (fun kv => negb (isEmpty (snd kv))) m.

Fixpoint last_char (s : string) : option ascii :=
  match s with
  | EmptyString => None
  | String c r => match last_char r with Some d => Some d | None => Some c end
  end.

(** Every key and every display name of the mapping is non-empty. *)
Definition wf_replacements (m : Map) : bool :=
  forallb (fun kv => negb (isEmpty (fst kv)) && negb (isEmpty (snd kv))) m.

Definition no_LF (r : string) : Prop := indexOf LF r = None.

(** What the proofs about the last row of a file need of [split_lines]. *)
Definition split_facts (s : string) : Prop :=
  let rows := split_lines s in
  Forall no_LF rows /\
  rows <> [] /\
  (last_char s = Some LF -> last rows EmptyString = EmptyString /\ 2 <= List.length rows) /\
  (last_char s <> Some LF -> last_char (last rows EmptyString) = last_char s).

(** ** Concrete inputs of the examples *)

Definition csv_example : string :=
  ("speaker,start,end,text" ++ CRLF ++ "Speaker 1, 0,1200,hello" ++ CRLF
     ++ "  Speaker 1 ,1200,2000,bye" ++ CRLF ++ "Speaker 2,2000,2500,ok" ++ CRLF)%string.

Definition csv_example_fs : FS :=
  fun p => if String.eqb p "data/outputs/m1/segments.csv" then Some csv_example else None.

Definition alice_map : Map := [("Speaker 1", "Alice")].

Definition find_meeting (db : DB) (meetingId : string) : option meeting_row :=
  find (fun m => String.eqb (m_id m) meetingId) (meetings db).

(** The row that [endMeeting] writes, and the world in which it ends. *)
Definition ended_row (now : string) (audioFilePath : option string) (m : meeting_row)
  : meeting_row :=
  {| m_id := m_id m; m_name := m_name m; m_status := "processing";
     m_created_at := m_created_at m; m_started_at := m_started_at m;
     m_ended_at := COALESCE (m_ended_at m) (Some now);
     m_audio_file_path := COALESCE audioFilePath (m_audio_file_path m) |}.

Definition tick (w : world) : world :=
  {| w_db := w_db w; w_uuids := w_uuids w; w_uuid_next := w_uuid_next w;
     w_clock := w_clock w; w_tick := S (w_tick w) |}.

(** A world to run the examples in: no rows, identifiers [uuid-0],
    [uuid-1], ... and a clock that advances by one second per reading. *)
Definition uuid_n (n : nat) : string := ("uuid-" ++ nat_to_string n)%string.

Definition time_n (n : nat) : string :=
  ("2025-01-01T00:00:" ++ (if Nat.ltb n 10 then "0" else EmptyString) ++ nat_to_string n
     ++ ".000Z")%string.

Definition world0 : world :=
  {| w_db := empty_db; w_uuids := uuid_n; w_uuid_next := 0;
     w_clock := time_n; w_tick := 0 |}.

Definition world_after (req : request) (w : world) : world :=
  match serve req w with
  | Some (_, _, w') => w'
  | None => w
  end.

(** After the creation of a meeting, [uuid-0], with its two default
    speakers, [uuid-1] and [uuid-2]. *)
Definition world1 : world :=
  world_after (POST_meetings (JStr "Weekly sync") JUndefined) world0.

Definition row1 : meeting_row :=
  {| m_id := "uuid-0"; m_name := "Weekly sync"; m_status := "pending";
     m_created_at := "2025-01-01T00:00:00.000Z"; m_started_at := None;
     m_ended_at := None; m_audio_file_path := None |}.

(** The test of [UPDATE speakers ... WHERE id = ? AND meeting_id = ?] *)
Definition speaker_in_meeting (db : DB) (meetingId speakerId : string) : bool :=
  existsb (fun sp => String.eqb (s_id sp) speakerId
                     && String.eqb (s_meeting_id sp) meetingId) (speakers db).

(** ** Predicates on speaker lists and identifiers *)

(** A named entry of a speaker list: an object whose label is a text and
    whose display name is a text or is absent.  The pair is the label and
    the display name that the entry stands for. *)
Definition named_entry (e : jsval) : option (string * string) :=
  match e with
  | JObj props =>
      match props_get props "label" with
      | JStr l =>
          match props_get props "displayName" with
          | JStr d => Some (l, d)
          | JUndefined | JNull => Some (l, l)
          | _ => None
          end
      | _ => None
      end
  | _ => None
  end.

(** The next [k] identifiers that [randomUUID] returns. *)
Definition upcoming_uuids (w : world) (k : nat) : list string :=
  map (w_uuids w) (seq (w_uuid_next w) k).

Fixpoint distinct (l : list string) : bool :=
  match l with
  | [] => true
  | x :: r => negb (existsb (String.eqb x) r) && distinct r
  end.

(** The identifiers are distinct and none is the identifier of a speaker
    of [db]. *)
Definition fresh_ids (ids : list string) (db : DB) : bool :=
  distinct ids && forallb (fun u => negb (speaker_exists db u)) ids.

(** The identifiers that a reset of the speakers of a meeting draws are
    fresh once the speakers of that meeting are deleted. *)
Definition fresh_for_reset (w : world) (meetingId : string) (k : nat) : bool :=
  fresh_ids (upcoming_uuids w k) (deleteSpeakersStmt meetingId (w_db w)).

(** The rows of a roster: one per pair of label and display name, with the
    identifiers taken in order. *)
Fixpoint roster_rows (ids : list string) (meetingId now : string)
    (named : list (string * string)) : list speaker_row :=
  match ids, named with
  | u :: us, (l, d) :: rest =>
      {| s_id := u; s_meeting_id := meetingId; s_label := l;
         s_display_name := d; s_created_at := now |}
        :: roster_rows us meetingId now rest
  | _, _ => []
  end.

Definition add_speakers (w : world) (rows : list speaker_row) : world :=
  {| w_db := {| meetings := meetings (w_db w);
                speakers := speakers (w_db w) ++ rows;
                segments := segments (w_db w) |};
     w_uuids := w_uuids w;
     w_uuid_next := w_uuid_next w + List.length rows;
     w_clock := w_clock w;
     w_tick := w_tick w |}.

Definition label_and_name (sp : speaker_row) : string * string :=
  (s_label sp, s_display_name sp).

Definition speakers_of (db : DB) (meetingId : string) : list speaker_row :=
  filter (fun sp => String.eqb (s_meeting_id sp) meetingId) (speakers db).

(** The default names [Speaker index], [Speaker (index + 1)], ... *)
Definition default_names (index n : nat) : list (string * string) :=
  map (fun i => (speaker_n i, speaker_n i)) (seq index n).

(** The world after a reset of the speakers of a meeting that inserted
    [rows]. *)
Definition reset_world (w : world) (meetingId : string) (rows : list speaker_row)
  : world :=
  add_speakers (with_db (tick w) (deleteSpeakersStmt meetingId (w_db w))) rows.

(** A speaker list with a repeated display name, and the world after a
    second meeting-independent draw of identifiers. *)
Definition two_bobs : list jsval :=
  [JObj [("label", JStr "SPEAKER_00"); ("displayName", JStr "Bob")];
   JObj [("label", JStr "SPEAKER_01"); ("displayName", JStr "Bob")];
   JObj [("label", JStr "SPEAKER_02")]].

(** ** The evolution of the meetings table *)

Definition statuses (db : DB) : list string := map m_status (meetings db).

(** From [db] to [db'] no meeting disappears, and every status of [db'] is
    one of [allowed] or was a status of [db]. *)
Definition evolves (allowed : list string) (db db' : DB) : Prop :=
  (forall id, meeting_exists db id = true -> meeting_exists db' id = true) /\
  incl (statuses db') (allowed ++ statuses db).

(** A computation whose every run, ended or thrown, evolves the database
    in that way. *)
Definition preserves (allowed : list string) {A} (c : M A) : Prop :=
  forall w,
    match c w with
    | Done _ w' => evolves allowed (w_db w) (w_db w')
    | Thrown _ w' => evolves allowed (w_db w) (w_db w')
    | NotModelled => True
    end.

(** The world in which a job that failed leaves the meeting. *)
Definition mark_failed (meetingId : string) (w : world) : world :=
  with_db w (update_meeting meetingId (set_status "failed") (w_db w)).

(** A job on the meeting of [world1] whose process exits with code 1. *)
Definition env_exit_1 : job_env :=
  {| env_audio_exists := true;
     env_process := Closed (Some 1%Z) "loading model" "CUDA out of memory";
     env_result_file := None |}.

(** The line does not parse. *)
Definition unparseable (line : string) : Prop :=
  exists e, JSON_parse (trim line) = Throw e.

Definition payload_missing : js_error := Error "Diarization payload missing".

Definition quoted (s : string) : string := String dquote (s ++ String dquote EmptyString).

(** The example of the specification: two lines of log, then the result. *)
Definition stdout_with_logs : string :=
  ("log line 1" ++ LFs ++ "log line 2" ++ LFs ++ "{" ++ quoted "speakers" ++ ":[]}" ++ LFs)%string.

(** A result followed by a line that reads [null]. *)
Definition stdout_then_null : string :=
  ("{" ++ quoted "speakers" ++ ":[]}" ++ LFs ++ "null" ++ LFs)%string.

Definition result_file_example : string :=
  ("{" ++ quoted "speakers" ++ ":[{" ++ quoted "label" ++ ":" ++ quoted "A" ++ "}]}")%string.

(** A job whose result carries a status of its own. *)
Definition stdout_partial : string :=
  ("{" ++ quoted "status" ++ ":" ++ quoted "partial" ++ "," ++ quoted "speakers" ++ ":[]}"
     ++ LFs)%string.

Definition env_partial : job_env :=
  {| env_audio_exists := true;
     env_process := Closed (Some 0%Z) stdout_partial EmptyString;
     env_result_file := None |}.

Definition payload_partial : jsval :=
  JObj [("status", JStr "partial"); ("speakers", JArr [])].

Definition world_partial : world :=
  with_db world1 (update_meeting "uuid-0" (set_status "partial") (w_db world1)).

(** A job whose result names two speakers and carries no status. *)
Definition stdout_two_speakers : string :=
  ("{" ++ quoted "speakers" ++ ":[{" ++ quoted "label" ++ ":" ++ quoted "SPEAKER_00"
     ++ "},{" ++ quoted "label" ++ ":" ++ quoted "SPEAKER_01" ++ "}],"
     ++ quoted "segments" ++ ":[{" ++ quoted "start" ++ ":0.5," ++ quoted "end" ++ ":2.25,"
     ++ quoted "text" ++ ":" ++ quoted "hello" ++ "," ++ quoted "speaker" ++ ":"
     ++ quoted "SPEAKER_01" ++ "}]}" ++ LFs)%string.

Definition env_two_speakers : job_env :=
  {| env_audio_exists := true;
     env_process := Closed (Some 0%Z) stdout_two_speakers EmptyString;
     env_result_file := None |}.

(** ** Inputs of the examples of export-sync *)

(** The meeting of [world1] after two renames: [Speaker 1] is shown as
    [Alice], and [Speaker 2] is shown as [Speaker 1]. *)
Definition world_renamed : world :=
  world_after (PATCH_speaker "uuid-0" "uuid-2" (JStr "Speaker 1"))
    (world_after (PATCH_speaker "uuid-0" "uuid-1" (JStr "Alice")) world1).

Definition transcript_example : string :=
  ("Speaker 1: hello" ++ LFs ++ "Speaker 2: hi there" ++ LFs)%string.

Definition srt_example : string :=
  ("1" ++ LFs ++ "00:00:00,000 --> 00:00:01,200" ++ LFs ++ "Speaker 1: hello" ++ LFs ++ LFs
     ++ "2" ++ LFs ++ "00:00:01,200 --> 00:00:02,000" ++ LFs ++ "Speaker 2: hi there" ++ LFs)%string.

Definition csv_two_speakers : string :=
  ("speaker,start,end,text" ++ LFs ++ "Speaker 1,0,1200,hello" ++ LFs
     ++ "Speaker 2,1200,2000,hi there" ++ LFs)%string.

Definition json_example : string :=
  ("{" ++ quoted "speakers" ++ ":[{" ++ quoted "label" ++ ":" ++ quoted "Speaker 1" ++ "},{"
     ++ quoted "label" ++ ":" ++ quoted "Speaker 2" ++ "}],"
     ++ quoted "segments" ++ ":[{" ++ quoted "start" ++ ":0," ++ quoted "end" ++ ":1.2,"
     ++ quoted "text" ++ ":" ++ quoted "hello" ++ "," ++ quoted "speakerLabel" ++ ":"
     ++ quoted "Speaker 1" ++ "}]}")%string.

Definition exports_fs : FS :=
  fun p =>
    if String.eqb p "data/outputs/uuid-0/transcript.txt" then Some transcript_example
    else if String.eqb p "data/outputs/uuid-0/segments.srt" then Some srt_example
    else if String.eqb p "data/outputs/uuid-0/segments.csv" then Some csv_two_speakers
    else if String.eqb p "data/outputs/uuid-0/diarization.json" then Some json_example
    else None.

(** The files after a first run of export-sync. *)
Definition exports_fs_once : FS :=
  match serve_apply "uuid-0" "2025-01-01T00:10:00.000Z" world_renamed exports_fs with
  | Some (_, _, fs') => fs'
  | None => exports_fs
  end.

(** What a run of export-sync reports, and the text and CSV files after it. *)
Definition sync_report (now : string) (fs : FS)
  : option (nat * export_result * option string * option string) :=
  match serve_apply "uuid-0" now world_renamed fs with
  | Some (status, r, fs') =>
      Some (status, r, fs' "data/outputs/uuid-0/transcript.txt",
            fs' "data/outputs/uuid-0/segments.csv")
  | None => None
  end.

(** ** Steps of the database

    The rows and tables that the statements of [storage.js] write, named
    so that properties of every statement can be stated once. *)

(** The row of [INSERT INTO meetings ... VALUES (?, ?, 'pending', ?)] *)
Definition new_meeting (meetingId name now : string) : meeting_row :=
  {| m_id := meetingId; m_name := name; m_status := "pending";
     m_created_at := now; m_started_at := None;
     m_ended_at := None; m_audio_file_path := None |}.

Definition with_meeting (row : meeting_row) (db : DB) : DB :=
  {| meetings := meetings db ++ [row]; speakers := speakers db; segments := segments db |}.

(** The row that [startMeeting] writes. *)
Definition started_row (now : string) (m : meeting_row) : meeting_row :=
  {| m_id := m_id m; m_name := m_name m; m_status := m_status m;
     m_created_at := m_created_at m;
     m_started_at := COALESCE (m_started_at m) (Some now);
     m_ended_at := m_ended_at m; m_audio_file_path := m_audio_file_path m |}.

(** The table after [UPDATE speakers SET display_name = ? WHERE id = ? AND
    meeting_id = ?] *)
Definition renamed_speakers (meetingId speakerId displayName : string) (db : DB) : DB :=
  {| meetings := meetings db;
     speakers :=
       map (fun sp =>
              if String.eqb (s_id sp) speakerId && String.eqb (s_meeting_id sp) meetingId
              then {| s_id := s_id sp; s_meeting_id := s_meeting_id sp;
                      s_label := s_label sp; s_display_name := displayName;
                      s_created_at := s_created_at sp |}
              else sp) (speakers db);
     segments := segments db |}.

(** The table after [DELETE FROM segments WHERE meeting_id = ?] *)
Definition without_segments (meetingId : string) (db : DB) : DB :=
  {| meetings := meetings db; speakers := speakers db;
     segments := filter (fun g => negb (String.eqb (g_meeting_id g) meetingId))
                   (segments db) |}.

(** The insertions of [resetSpeakersInternal], after its deletion. *)
Definition insert_roster (meetingId : string) (speakersOrCount : jsval) (now : string)
  : M unit :=
  match speakersOrCount with
  | JArr list =>
      let items :=
        match list with
        | [] => [JObj [("label", JStr "Speaker 1")]]
        | _ => list
        end in
      forEach (fun speaker index =>
                 l <- lift (get_prop speaker "label") ;;
                 let label := coalesce l (JStr (speaker_n (index + 1))) in
                 d <- lift (get_prop speaker "displayName") ;;
                 let displayName := coalesce d label in
                 id <- randomUUID ;;
                 run_stmt (insertSpeakerStmt id meetingId label displayName now))
        0 items
  | _ =>
      n <- lift (Number_ speakersOrCount) ;;
      let count := if number_isFinite n then n else Fin 0 0 in
      let safeCount := if number_gt0 count then count else Fin 2 0 in
      rounds <- lift (loop_rounds safeCount) ;;
      insert_defaults meetingId now 1 rounds
  end.

(** A computation whose every run, ended or thrown, relates the database
    before to the database after. *)
Definition keeps (R : DB -> DB -> Prop) {A} (c : M A) : Prop :=
  forall w,
    match c w with
    | Done _ w' => R (w_db w) (w_db w')
    | Thrown _ w' => R (w_db w) (w_db w')
    | NotModelled => True
    end.

(** The meetings that a request may write to: the meeting that its path
    names, and any meeting for the request that creates one. *)
Definition request_scope (req : request) (id : string) : Prop :=
  match req with
  | POST_meetings _ _ => True
  | PATCH_meeting meetingId _ | POST_start meetingId | PATCH_speaker meetingId _ _
  | POST_speakers meetingId _ | POST_audio meetingId _ | POST_end meetingId _
  | POST_reprocess meetingId _ | POST_sync_count meetingId _ | POST_reset meetingId _ _ =>
      id = meetingId
  end.

(** ** Integrity of the database

    What the schema of [storage.js] demands: the primary keys are unique,
    a speaker and a segment belong to a meeting that exists, and the
    speaker of a segment, when it has one, exists. *)
Definition integrity (db : DB) : Prop :=
  NoDup (map m_id (meetings db)) /\
  NoDup (map s_id (speakers db)) /\
  NoDup (map g_id (segments db)) /\
  Forall (fun sp => meeting_exists db (s_meeting_id sp) = true) (speakers db) /\
  Forall (fun g => meeting_exists db (g_meeting_id g) = true /\
                   match g_speaker_id g with
                   | Some id => speaker_exists db id = true
                   | None => True
                   end) (segments db).

Definition keeps_integrity (db db' : DB) : Prop := integrity db -> integrity db'.

Definition everywhere (id : string) : Prop := True.

(** ** What the rows of a meeting keep

    From [m] to [m'] the identifier and the time of creation stay, a
    recorded start and a recorded end stay, and a stored audio path does
    not become [NULL]. *)
Definition row_keeps (m m' : meeting_row) : Prop :=
  m_id m' = m_id m /\
  m_created_at m' = m_created_at m /\
  (forall t, m_started_at m = Some t -> m_started_at m' = Some t) /\
  (forall t, m_ended_at m = Some t -> m_ended_at m' = Some t) /\
  (m_audio_file_path m <> None -> m_audio_file_path m' <> None).

(** Every meeting of [db] is a meeting of [db'], in the same place, and
    has kept that much; [db'] may have more meetings after them. *)
Definition meetings_kept (db db' : DB) : Prop :=
  exists kept added,
    meetings db' = kept ++ added /\ Forall2 row_keeps (meetings db) kept.


(** ** What a step on one meeting leaves alone *)

Definition other_meeting (id : string) (m : meeting_row) : bool :=
  negb (String.eqb (m_id m) id).

Definition other_speaker (id : string) (sp : speaker_row) : bool :=
  negb (String.eqb (s_meeting_id sp) id).

Definition other_segment (id : string) (g : segment_row) : bool :=
  negb (String.eqb (g_meeting_id g) id).

(** The segment without its link to a speaker (ON DELETE SET NULL). *)
Definition unlinked (g : segment_row) : segment_row :=
  {| g_id := g_id g; g_meeting_id := g_meeting_id g; g_speaker_id := None;
     g_start_ms := g_start_ms g; g_end_ms := g_end_ms g;
     g_transcript := g_transcript g; g_created_at := g_created_at g |}.

(** From [db] to [db'] the rows of the meetings other than [id] are the
    same: their meeting rows and their speakers as they were, their
    segments as they were or without their link to a speaker. *)
Definition isolated (id : string) (db db' : DB) : Prop :=
  filter (other_meeting id) (meetings db') = filter (other_meeting id) (meetings db) /\
  filter (other_speaker id) (speakers db') = filter (other_speaker id) (speakers db) /\
  Forall2 (fun g g' => g' = g \/ g' = unlinked g)
    (filter (other_segment id) (segments db))
    (filter (other_segment id) (segments db')).

(** The meeting that the path of a request names. *)
Definition request_meeting (req : request) : option string :=
  match req with
  | POST_meetings _ _ => None
  | PATCH_meeting meetingId _ | POST_start meetingId | PATCH_speaker meetingId _ _
  | POST_speakers meetingId _ | POST_audio meetingId _ | POST_end meetingId _
  | POST_reprocess meetingId _ | POST_sync_count meetingId _ | POST_reset meetingId _ _ =>
      Some meetingId
  end.



(** Whether a computation has thrown. *)
Definition throws {St A : Type} (o : outcome St A) : bool :=
  match o with
  | Thrown _ _ => true
  | _ => false
  end.

(** A segment that cannot be stored: its start is [null]. *)
Definition segment_without_start : segment_input :=
  {| seg_id := JUndefined; seg_startMs := JNull; seg_endMs := JNum (Fin 1 3);
     seg_transcript := JStr "hello"; seg_speakerId := JNull; seg_createdAt := JUndefined |}.

(** The speaker that [addSpeaker] inserts. *)
Definition added_speaker (w : world) (meetingId displayName : string) : speaker_row :=
  {| s_id := w_uuids w (w_uuid_next w);
     s_meeting_id := meetingId;
     s_label := speaker_n (List.length (speakers_of (w_db w) meetingId) + 1);
     s_display_name := displayName;
     s_created_at := w_clock w (w_tick w) |}.

(** [world1] after the job of [env_two_speakers]: the meeting has the
    speakers of the result and one segment, linked to the second one. *)
Definition world_diarized : world :=
  match handleDiarization "uuid-0" "data/audio/uuid-0/rec.wav" env_two_speakers world1 with
  | Done _ w => w
  | _ => world1
  end.

(** The row [g] is what [storeSegments], called at the time [now] for the
    meeting [meetingId], stores for the segment [segment]: the identifier
    apart, which is the one of the segment or a fresh one. *)
Definition stored_as (meetingId now : string) (segment : segment_input) (g : segment_row)
  : Prop :=
  g_meeting_id g = meetingId /\
  (nullish (seg_id segment) = false -> bind_text "segments.id" (seg_id segment) = Ok (g_id g)) /\
  bind_text_nullable (coalesce (seg_speakerId segment) JNull) = Ok (g_speaker_id g) /\
  bind_integer "segments.start_ms" (seg_startMs segment) = Ok (g_start_ms g) /\
  bind_integer "segments.end_ms" (seg_endMs segment) = Ok (g_end_ms g) /\
  bind_text "segments.transcript" (seg_transcript segment) = Ok (g_transcript g) /\
  bind_text "segments.created_at" (coalesce (seg_createdAt segment) (JStr now))
  = Ok (g_created_at g).

(** Two segments as a result of the analysis gives them, after
    [normalize_segment]. *)
Definition two_segments : list segment_input :=
  [ {| seg_id := JUndefined; seg_startMs := JNum (Fin 0 0); seg_endMs := JNum (Fin 1200 0);
       seg_transcript := JStr "hello"; seg_speakerId := JNull; seg_createdAt := JUndefined |};
    {| seg_id := JStr "seg-2"; seg_startMs := JNum (Fin 1200 0); seg_endMs := JNum (Fin 2000 0);
       seg_transcript := JStr "bye"; seg_speakerId := JStr "uuid-3";
       seg_createdAt := JUndefined |} ].

(** Whether the route that ends a meeting queues a job: the audio path of
    the body is a text that is not empty. *)
Definition queues_job (bound : option string) : bool :=
  match bound with
  | Some audioPath => negb (isEmpty audioPath)
  | None => false
  end.

(** A result with a segment and no speakers. *)
Definition stdout_segments_only : string :=
  ("{" ++ quoted "segments" ++ ":[{" ++ quoted "start" ++ ":0.5," ++ quoted "end" ++ ":2.25,"
     ++ quoted "text" ++ ":" ++ quoted "hello" ++ "}]}" ++ LFs)%string.

Definition env_segments_only : job_env :=
  {| env_audio_exists := true;
     env_process := Closed (Some 0%Z) stdout_segments_only EmptyString;
     env_result_file := None |}.

(** ** Labels that the pattern of the text rewriter reads literally *)

(** The characters that the syntax of patterns reads as operators. *)
Definition is_syntax_char (c : ascii) : bool :=
  existsb (Ascii.eqb c)
    ["\"; "^"; "$"; "."; "*"; "+"; "?"; "("; ")"; "["; "{"; "|"]%char.

Fixpoint plain (label : string) : bool :=
  match label with
  | EmptyString => true
  | String c r => negb (is_syntax_char c) && plain r
  end.

(** The pattern that matches the characters of [label] and then [t]. *)
Fixpoint literal (label : string) (t : regex) : regex :=
  match label with
  | EmptyString => t
  | String c r => RE_seq (RE_char c) (literal r t)
  end.

(** [(^|\r?\n)] and [(?=\s*:)] *)
Definition line_start : regex :=
  RE_group 1 (RE_alt RE_bol (RE_seq (RE_quant 0 (Some 1) true (RE_char CR)) (RE_char LF))).

Definition colon_ahead : regex :=
  RE_lookahead false (RE_seq (RE_quant 0 None true (RE_class false ClsSpace)) (RE_char colon)).

(** The label stands at the head of [rest] and is followed by optional
    white space and a colon. *)
Definition label_here (label rest : string) : bool :=
  startsWith label rest
  && startsWith ":" (trimStart (slice_from (String.length label) rest)).

(** Where the pattern of a plain label matches: the length of the match
    and the text of its group, for a match at the index [pos] of the
    content, of which [rest] is the part from that index on. *)
Definition speaker_match (label : string) (pos : nat) (rest : string)
  : option (nat * string) :=
  if Nat.eqb pos 0 && label_here label rest then Some (String.length label, EmptyString)
  else if startsWith CRLF rest && label_here label (slice_from 2 rest)
  then Some (2 + String.length label, CRLF)
  else if startsWith LFs rest && label_here label (slice_from 1 rest)
  then Some (1 + String.length label, LFs)
  else None.

(** The state of the matcher at the index [pos], with [rest] ahead. *)
Definition mstate_at (pos : nat) (rest : string) (cap : option string) : mstate :=
  {| ms_pos := pos; ms_rest := rest; ms_cap1 := cap |}.

(** The state after optional white space and a colon. *)
Fixpoint skip_to_colon (pos : nat) (rest : string) (cap : option string) : option mstate :=
  match rest with
  | EmptyString => None
  | String c r =>
      if isWhiteSpace c then skip_to_colon (S pos) r cap
      else if Ascii.eqb c colon then Some (mstate_at (S pos) r cap) else None
  end.

(** ** The files of export-sync *)

(** The names of the export files of a meeting, and the path of one. *)
Definition export_names : list string :=
  ["transcript.txt"; "segments.srt"; "segments.csv"; "diarization.json"].

Definition export_path (meetingId name : string) : string :=
  path_join (path_join outputsRoot meetingId) name.

(** What a rewriter that reports [changed] has done to the files: it has
    overwritten the file at [p], which was there, or nothing. *)
Definition rewrites (p : string) (changed : bool) (fs fs' : FS) : Prop :=
  if changed
  then exists content, existsSync fs p = true /\ fs' = writeFileSync fs p content
  else fs' = fs.

(** The speakers that [build_replacements] passes over. *)
Definition not_renamed (speaker : speaker_row) : bool :=
  isEmpty (s_label speaker) || isEmpty (trim (s_display_name speaker))
  || String.eqb (trim (s_display_name speaker)) (s_label speaker).

(** The files after a second run of export-sync. *)
Definition exports_fs_twice : FS :=
  match serve_apply "uuid-0" "2025-01-01T00:20:00.000Z" world_renamed exports_fs_once with
  | Some (_, _, fs') => fs'
  | None => exports_fs_once
  end.

(** ** Mappings on which the CSV rewriter settles *)

(** No display name of the mapping is, trimmed, a key of the mapping, and
    none holds a comma or a line feed. *)
Definition settled (m : Map) : bool :=
  forallb (fun kv =>
             match indexOf comma (snd kv), indexOf LF (snd kv), Map_get m (trim (snd kv)) with
             | None, None, None => true
             | _, _, _ => false
             end) m.

(** Display names that are keys: [Speaker 2] is shown under the label of
    another speaker. *)
Definition swap_map : Map := [("Speaker 1", "Alice"); ("Speaker 2", "Speaker 1")].

(** ** The links to the export files

    [resolveMeetingFiles] and the route that serves a file each hold the
    same table, from the type of a file to its name. *)
Definition fileMap : Map :=
  [("csv", "segments.csv"); ("srt", "segments.srt"); ("txt", "transcript.txt");
   ("json", "diarization.json")].

Definition file_link (meetingId key : string) : string :=
  ("/api/meetings/" ++ meetingId ++ "/files/" ++ key)%string.

(** [resolveMeetingFiles(meetingId)]: the object [files], its keys in the
    order in which they were set. *)
Definition resolveMeetingFiles (fs : FS) (meetingId : string) : Map :=
  let meetingDir := path_join outputsRoot meetingId in
  fold_left
    (fun files entry =>
       let candidate := path_join meetingDir (snd entry) in
       if existsSync fs candidate
       then Map_set files (fst entry) (file_link meetingId (fst entry))
       else files)
    fileMap [].

(** The names that an object literal inherits from [Object.prototype];
    the value of each is a function or an object. *)
Definition Object_prototype_names : list string :=
  ["constructor"; "__defineGetter__"; "__defineSetter__"; "hasOwnProperty";
   "__lookupGetter__"; "__lookupSetter__"; "isPrototypeOf"; "propertyIsEnumerable";
   "toString"; "valueOf"; "__proto__"; "toLocaleString"].

Inductive file_reply :=
| SendFile (filePath : string)
| FileError (status : nat) (message : string).

(** [GET /api/meetings/:meetingId/files/:type].  For a type that the
    table inherits, [lookup[type]] is truthy and no string, [path.join]
    throws a [TypeError] and the error middleware answers. *)
Definition GET_file (fs : FS) (meetingId type : string) : file_reply :=
  match Map_get fileMap type with
  | Some fileName =>
      let filePath := path_join (path_join outputsRoot meetingId) fileName in
      if existsSync fs filePath then SendFile filePath
      else FileError 404 "File not found"
  | None =>
      if existsb (String.eqb type) Object_prototype_names
      then FileError 500 "Internal server error"
      else FileError 404 "Unsupported file type"
  end.

(** A file whose line breaks are line feeds, but for one CRLF. *)
Definition csv_mixed : string :=
  ("speaker,start,end,text" ++ LFs ++ "Speaker 1,0,1200,hello" ++ LFs
     ++ "Speaker 2,1200,2000,hi" ++ CRLF ++ "Speaker 1,2000,2500,bye" ++ LFs)%string.

Definition csv_mixed_fs : FS :=
  fun p => if String.eqb p "data/outputs/m1/segments.csv" then Some csv_mixed else None.

(** ** Further worlds of the examples *)

(** The world in which a job on a meeting ends. *)
Definition world_after_job (meetingId audioPath : string) (env : job_env) (w : world)
  : world :=
  match handleDiarization meetingId audioPath env w with
  | Done _ w' => w'
  | Thrown _ w' => w'
  | NotModelled => w
  end.

(** [world1] after its meeting was started and then ended with a
    recording: start, end and audio path are recorded. *)
Definition world_ended : world :=
  world_after (POST_end "uuid-0" (JStr "data/audio/uuid-0/rec.wav"))
    (world_after (POST_start "uuid-0") world1).

(** The meeting of [world_ended] is ended once more, with [audioFilePath]
    in the body, and then processed again with its audio on disk: the
    status of the first answer and the jobs it queued, the audio path and
    the status that are stored after it, and the status and the jobs of
    the second answer. *)
Definition end_then_reprocess (audioFilePath : jsval)
  : option (nat * list job * option (option string) * option string
            * option (nat * list job)) :=
  match serve (POST_end "uuid-0" audioFilePath) world_ended with
  | Some (r, jobs, w') =>
      Some (code r, jobs,
            option_map m_audio_file_path (find_meeting (w_db w') "uuid-0"),
            option_map m_status (find_meeting (w_db w') "uuid-0"),
            match serve (POST_reprocess "uuid-0" true) w' with
            | Some (r', jobs', _) => Some (code r', jobs')
            | None => None
            end)
  | None => None
  end.

(** Two meetings, each with the two speakers and the segment of a job:
    [uuid-0] with the speakers [uuid-3] and [uuid-4] and the segment
    [uuid-5], linked to [uuid-4]; [uuid-6] with the speakers [uuid-9] and
    [uuid-10] and the segment [uuid-11], linked to [uuid-10]. *)
Definition world_two_meetings : world :=
  world_after_job "uuid-6" "data/audio/uuid-6/rec.wav" env_two_speakers
    (world_after (POST_meetings (JStr "Retro") JUndefined) world_diarized).

(** The identifier, the meeting and the speaker of each segment. *)
Definition segment_links (db : DB) : list (string * string * option string) :=
  map (fun g => (g_id g, g_meeting_id g, g_speaker_id g)) (segments db).

(** An object with a property [toString] of its own, as [JSON.parse]
    builds it from the text [{"toString":1}]. *)
Definition count_with_toString : jsval := JObj [("toString", JNum (Fin 1 0))].

(** ** Which segments lose their speaker

    The speaker [id] is a speaker of the meeting [meetingId]. *)
Definition speaker_of_meeting (db : DB) (meetingId id : string) : Prop :=
  exists sp, In sp (speakers db) /\ s_id sp = id /\ s_meeting_id sp = meetingId.

(** The segment [g'] is the segment [g] after the speakers of the meeting
    [meetingId] were deleted from [db]: its link is gone when it led to
    one of them, is as it was when it did not, and every other column is
    as it was. *)
Definition link_cleared (db : DB) (meetingId : string) (g g' : segment_row) : Prop :=
  g_id g' = g_id g /\ g_meeting_id g' = g_meeting_id g /\
  g_start_ms g' = g_start_ms g /\ g_end_ms g' = g_end_ms g /\
  g_transcript g' = g_transcript g /\ g_created_at g' = g_created_at g /\
  match g_speaker_id g with
  | Some id =>
      (speaker_of_meeting db meetingId id -> g_speaker_id g' = None) /\
      (~ speaker_of_meeting db meetingId id -> g_speaker_id g' = Some id)
  | None => g_speaker_id g' = None
  end.

(* ================================================================== *)
(** * Part II: properties                                              *)
(* ================================================================== *)

Example split_lines_mixed :
  split_lines ("a" ++ CRLF ++ "b" ++ LFs ++ LFs ++ "c" ++ LFs)
  = ["a"; "b"; EmptyString; "c"; EmptyString].
Proof. reflexivity. Qed.

Example trim_example :
  trim (" " ++ LFs ++ "ab c" ++ CRLF ++ " ") = "ab c".
Proof. reflexivity. Qed.

(** ** Strings *)

Lemma isEmpty_true (s : string) : isEmpty s = true <-> s = EmptyString.
Proof. destruct s; simpl; split; congruence. Qed.

Lemma isEmpty_false (s : string) : isEmpty s = false <-> s <> EmptyString.
Proof. destruct s; simpl; split; congruence. Qed.

Lemma append_nil_r (s : string) : (s ++ EmptyString)%string = s.
Proof. induction s; simpl; congruence. Qed.

Lemma append_assoc (a b c : string) : ((a ++ b) ++ c)%string = (a ++ b ++ c)%string.
Proof. induction a; simpl; congruence. Qed.

Lemma leading_trimStart (s : string) :
  s = (leadingWhitespace s ++ trimStart s)%string.
Proof.
  induction s as [|c r IH]; simpl; [reflexivity|].
  destruct (isWhiteSpace c); simpl; congruence.
Qed.

Lemma leadingWhitespace_ws (s : string) : all_whitespace (leadingWhitespace s) = true.
Proof.
  induction s as [|c r IH]; simpl; [reflexivity|].
  destruct (isWhiteSpace c) eqn:E; simpl; [rewrite E|]; auto.
Qed.

Lemma trimEnd_cons (c : ascii) (r : string) :
  trimEnd (String c r) <> EmptyString -> trimEnd (String c r) = String c (trimEnd r).
Proof.
  simpl. destruct (trimEnd r); [|reflexivity].
  destruct (isWhiteSpace c); congruence.
Qed.

Lemma trimEnd_trailing (s : string) :
  s = (trimEnd s ++ trailingWhitespace s)%string.
Proof.
  induction s as [|c r IH]; [reflexivity|].
  cbn [trailingWhitespace].
  destruct (isEmpty (trimEnd (String c r))) eqn:E.
  - apply isEmpty_true in E. rewrite E. reflexivity.
  - apply isEmpty_false in E. rewrite (trimEnd_cons _ _ E). simpl. congruence.
Qed.

Lemma trimEnd_empty_ws (s : string) :
  trimEnd s = EmptyString <-> all_whitespace s = true.
Proof.
  induction s as [|c r IH]; simpl; [tauto|].
  destruct (trimEnd r) eqn:E.
  - destruct (isWhiteSpace c); simpl; split; intros; try congruence; tauto.
  - split; [congruence|]. intros H. apply andb_true_iff in H. destruct H as [_ H].
    apply IH in H. congruence.
Qed.

Lemma trailingWhitespace_ws (s : string) : all_whitespace (trailingWhitespace s) = true.
Proof.
  induction s as [|c r IH]; [reflexivity|].
  cbn [trailingWhitespace].
  destruct (isEmpty (trimEnd (String c r))) eqn:E; [|exact IH].
  apply isEmpty_true in E. apply trimEnd_empty_ws. exact E.
Qed.

Lemma trimEnd_app_nonempty (a s : string) :
  trimEnd s <> EmptyString -> trimEnd (a ++ s) <> EmptyString.
Proof.
  intros H. induction a as [|c r IH]; simpl; [exact H|].
  destruct (trimEnd (r ++ s)); [tauto|congruence].
Qed.

Lemma trailingWhitespace_app (a s : string) :
  trimEnd s <> EmptyString ->
  trailingWhitespace (a ++ s) = trailingWhitespace s.
Proof.
  intros H. induction a as [|c r IH]; [reflexivity|].
  change (String c r ++ s)%string with (String c (r ++ s)).
  cbn [trailingWhitespace].
  destruct (isEmpty (trimEnd (String c (r ++ s)))) eqn:E; [|exact IH].
  apply isEmpty_true in E.
  exfalso. apply (trimEnd_app_nonempty (String c r) s H). exact E.
Qed.

(** A field is its leading white space, its trimmed text and its trailing
    white space. *)
Lemma trim_decompose (raw : string) :
  trim raw <> EmptyString ->
  raw = (leadingWhitespace raw ++ trim raw ++ trailingWhitespace raw)%string.
Proof.
  intros H. unfold trim in *.
  assert (E : trailingWhitespace raw = trailingWhitespace (trimStart raw)).
  { rewrite (leading_trimStart raw) at 1. apply trailingWhitespace_app. exact H. }
  rewrite E, <- trimEnd_trailing. apply leading_trimStart.
Qed.

Lemma length_append (a b : string) :
  String.length (a ++ b) = String.length a + String.length b.
Proof. induction a; simpl; congruence. Qed.

Lemma append_inv_head (a b c : string) : (a ++ b)%string = (a ++ c)%string -> b = c.
Proof. induction a; simpl; intros H; [exact H|]. injection H. auto. Qed.

Lemma append_inv_tail (a b c : string) : (a ++ c)%string = (b ++ c)%string -> a = b.
Proof.
  revert b. induction a as [|x a IH]; intros [|y b] H; simpl in *.
  - reflexivity.
  - apply (f_equal String.length) in H. simpl in H. rewrite length_append in H. lia.
  - apply (f_equal String.length) in H. simpl in H. rewrite length_append in H. lia.
  - injection H as -> H. f_equal. apply IH. exact H.
Qed.

Lemma all_whitespace_app (a b : string) :
  all_whitespace (a ++ b) = all_whitespace a && all_whitespace b.
Proof.
  induction a as [|c r IH]; simpl; [reflexivity|].
  rewrite IH. apply andb_assoc.
Qed.

Lemma trimStart_ws (s : string) :
  all_whitespace (trimStart s) = all_whitespace s.
Proof.
  induction s as [|c r IH]; simpl; [reflexivity|].
  destruct (isWhiteSpace c) eqn:E; simpl; [exact IH|]. rewrite E. reflexivity.
Qed.

Lemma trim_empty_ws (s : string) :
  trim s = EmptyString <-> all_whitespace s = true.
Proof.
  unfold trim. rewrite trimEnd_empty_ws, trimStart_ws. tauto.
Qed.

(** *** [indexOf] and [slice] *)

Lemma indexOf_split (c : ascii) (s : string) (n : nat) :
  indexOf c s = Some n ->
  s = (slice_to n s ++ slice_from n s)%string /\
  indexOf c (slice_to n s) = None /\
  exists rest, slice_from n s = String c rest.
Proof.
  revert n. induction s as [|d r IH]; intros n H; simpl in H; [discriminate|].
  destruct (Ascii.eqb d c) eqn:E.
  - injection H as <-. apply Ascii.eqb_eq in E. subst d. simpl.
    repeat split. now exists r.
  - destruct (indexOf c r) as [k|] eqn:Hk; [|discriminate].
    injection H as <-. destruct (IH k eq_refl) as (H1 & H2 & H3).
    simpl. rewrite E, H2. repeat split; [congruence|exact H3].
Qed.

Lemma indexOf_app (c : ascii) (raw rest : string) :
  indexOf c raw = None ->
  indexOf c (raw ++ String c rest) = Some (String.length raw) /\
  slice_to (String.length raw) (raw ++ String c rest) = raw /\
  slice_from (String.length raw) (raw ++ String c rest) = String c rest.
Proof.
  induction raw as [|d r IH]; simpl; intros H.
  - rewrite Ascii.eqb_refl. repeat split.
  - destruct (Ascii.eqb d c); [discriminate|].
    destruct (indexOf c r); [discriminate|].
    destruct (IH eq_refl) as (H1 & H2 & H3). rewrite H1, H2, H3. repeat split.
Qed.

(** *** One row of the CSV file *)

Lemma csv_update_row_unchanged (m : Map) (i : nat) (row row' : string) :
  csv_update_row m i row = (row', false) -> row' = row.
Proof.
  unfold csv_update_row.
  destruct (Nat.eqb i 0 || isEmpty (trim row)); [congruence|].
  destruct (indexOf comma row); [|congruence].
  destruct (Map_get m _); [|congruence].
  destruct (isEmpty s || _); congruence.
Qed.

Lemma csv_update_row_changed (m : Map) (i : nat) (row row' : string) :
  csv_update_row m i row = (row', true) ->
  i <> 0 /\
  exists raw rest d,
    row = (raw ++ String comma rest)%string /\
    indexOf comma raw = None /\
    Map_get m (trim raw) = Some d /\
    d <> trim raw /\
    row' = (leadingWhitespace raw ++ d ++ trailingWhitespace raw
              ++ String comma rest)%string.
Proof.
  unfold csv_update_row.
  destruct (Nat.eqb i 0) eqn:Ei; simpl; [congruence|].
  destruct (isEmpty (trim row)); [congruence|].
  destruct (indexOf comma row) as [n|] eqn:En; [|congruence].
  destruct (Map_get m (trim (slice_to n row))) as [d|] eqn:Ed; [|congruence].
  destruct (isEmpty d); simpl; [congruence|].
  destruct (String.eqb d (trim (slice_to n row))) eqn:Eq; [congruence|].
  intros H. injection H as <-.
  apply Nat.eqb_neq in Ei. split; [exact Ei|].
  destruct (indexOf_split _ _ _ En) as (H1 & H2 & rest & H3).
  exists (slice_to n row), rest, d. rewrite H3 in *.
  apply String.eqb_neq in Eq. repeat split; auto.
Qed.

Lemma all_whitespace_comma (raw rest : string) :
  all_whitespace (raw ++ String comma rest) = false.
Proof.
  rewrite all_whitespace_app. simpl. apply andb_false_r.
Qed.

Lemma Map_get_wf (m : Map) (k d : string) :
  wf_replacements m = true -> Map_get m k = Some d ->
  k <> EmptyString /\ d <> EmptyString.
Proof.
  induction m as [|[k' v] m IH]; simpl; intros W H; [discriminate|].
  apply andb_true_iff in W. destruct W as [W1 W2].
  destruct (String.eqb k' k) eqn:E.
  - injection H as <-. apply String.eqb_eq in E. subst k'.
    apply andb_true_iff in W1. destruct W1 as [A B].
    apply negb_true_iff in A, B. apply isEmpty_false in A, B. tauto.
  - auto.
Qed.

Lemma csv_update_row_renames (m : Map) (i : nat) (raw rest d : string) :
  wf_replacements m = true ->
  i <> 0 ->
  indexOf comma raw = None ->
  Map_get m (trim raw) = Some d ->
  fst (csv_update_row m i (raw ++ String comma rest))
  = (leadingWhitespace raw ++ d ++ trailingWhitespace raw ++ String comma rest)%string.
Proof.
  intros W Hi Hc Hd. destruct (Map_get_wf _ _ _ W Hd) as [Hk Hn].
  unfold csv_update_row.
  apply Nat.eqb_neq in Hi. rewrite Hi. simpl.
  assert (E : isEmpty (trim (raw ++ String comma rest)) = false).
  { apply isEmpty_false. intros T. apply trim_empty_ws in T.
    rewrite all_whitespace_comma in T. discriminate. }
  rewrite E. destruct (indexOf_app comma raw rest Hc) as (H1 & H2 & H3).
  rewrite H1, H2, H3, Hd.
  apply isEmpty_false in Hn. rewrite Hn. simpl.
  destruct (String.eqb d (trim raw)) eqn:Eq; simpl; [|reflexivity].
  apply String.eqb_eq in Eq. subst d.
  rewrite (trim_decompose raw Hk) at 1. rewrite !append_assoc. reflexivity.
Qed.

Lemma string_ind2 (P : string -> Prop) :
  P EmptyString ->
  (forall c, P (String c EmptyString)) ->
  (forall c d r, P r -> P (String d r) -> P (String c (String d r))) ->
  forall s, P s.
Proof.
  intros H0 H1 H2 s.
  assert (H : P s /\ forall c, P (String c s)).
  { induction s as [|d r [IH1 IH2]]; split; auto. }
  apply H.
Qed.

Lemma last_char_none (s : string) : last_char s = None <-> s = EmptyString.
Proof.
  destruct s as [|c r]; simpl; [tauto|].
  destruct (last_char r); split; congruence.
Qed.

Lemma last_char_app (a b : string) :
  last_char (a ++ b) = match last_char b with Some d => Some d | None => last_char a end.
Proof.
  induction a as [|c r IH]; simpl.
  - destruct (last_char b); reflexivity.
  - rewrite IH. destruct (last_char b); reflexivity.
Qed.

Lemma endsWith_LF (s : string) : endsWith LFs s = true <-> last_char s = Some LF.
Proof.
  induction s as [|c r IH]; [simpl; split; discriminate|].
  cbn [endsWith last_char].
  destruct (String.eqb_spec (String c r) LFs) as [E|E].
  - injection E as -> ->. simpl. tauto.
  - simpl orb. rewrite IH. destruct (last_char r) eqn:L; [tauto|].
    apply last_char_none in L. subst r. split; [discriminate|].
    intros H. injection H as ->. exfalso. apply E. reflexivity.
Qed.


Lemma no_LF_last_char (r : string) : no_LF r -> last_char r <> Some LF.
Proof.
  unfold no_LF. induction r as [|c r IH]; simpl; [discriminate|].
  destruct (Ascii.eqb c LF) eqn:E; [discriminate|].
  destruct (indexOf LF r); [discriminate|]. intros _.
  destruct (last_char r); [auto|].
  apply Ascii.eqb_neq in E. congruence.
Qed.

Lemma split_lines_cons (c d : ascii) (r : string) :
  split_lines (String c (String d r)) =
  if Ascii.eqb c LF then EmptyString :: split_lines (String d r)
  else if Ascii.eqb c CR && Ascii.eqb d LF then EmptyString :: split_lines r
  else match split_lines (String d r) with
       | [] => [String c EmptyString]
       | l :: ls => String c l :: ls
       end.
Proof. reflexivity. Qed.


Lemma split_lines_facts (s : string) : split_facts s.
Proof.
  induction s as [|c|c d r IHr IHd] using string_ind2; unfold split_facts.
  - simpl. repeat split; try discriminate. repeat constructor.
  - simpl. destruct (Ascii.eqb c LF) eqn:E.
    + apply Ascii.eqb_eq in E. subst. simpl. repeat split; try discriminate; auto.
      * repeat constructor.
      * intros H. congruence.
    + apply Ascii.eqb_neq in E. repeat split; try discriminate; auto.
      * repeat constructor. unfold no_LF. simpl.
        destruct (Ascii.eqb c LF) eqn:E'; [apply Ascii.eqb_eq in E'; congruence|reflexivity].
      * congruence.
      * congruence.
  - rewrite split_lines_cons.
    destruct IHr as (Fr & Nr & Lr1 & Lr2). destruct IHd as (Fd & Nd & Ld1 & Ld2).
    assert (LC : last_char (String c (String d r)) = last_char (String d r)).
    { simpl. destruct (last_char r); reflexivity. }
    destruct (Ascii.eqb c LF) eqn:E.
    + rewrite LC. repeat split; try discriminate.
      * constructor; [reflexivity|exact Fd].
      * destruct (split_lines (String d r)) eqn:S; [tauto|]. simpl. apply Ld1. auto.
      * destruct (Ld1 H) as [_ L2]. cbn [List.length]. lia.
      * intros H. destruct (split_lines (String d r)) eqn:S; [tauto|]. simpl. apply Ld2. auto.
    + destruct (Ascii.eqb c CR && Ascii.eqb d LF) eqn:E2.
      * apply andb_true_iff in E2. destruct E2 as [E2 E3].
        apply Ascii.eqb_eq in E3. subst d.
        assert (LC2 : last_char (String c (String LF r)) =
                      match last_char r with Some x => Some x | None => Some LF end).
        { simpl. destruct (last_char r); reflexivity. }
        rewrite LC2. repeat split; try discriminate.
        -- constructor; [reflexivity|exact Fr].
        -- destruct (split_lines r) eqn:S; [tauto|].
           destruct (last_char r) eqn:L.
           ++ simpl. apply Lr1. congruence.
           ++ apply last_char_none in L. subst r. simpl in S. injection S as <- <-. reflexivity.
        -- simpl. destruct (split_lines r); [tauto|]. simpl. lia.
        -- intros H. destruct (last_char r) eqn:L; [|congruence].
           destruct (split_lines r) eqn:S; [tauto|]. simpl. apply Lr2. congruence.
      * destruct (split_lines (String d r)) as [|l ls] eqn:S; [tauto|].
        apply Ascii.eqb_neq in E. rewrite LC.
        assert (NL : no_LF (String c l)).
        { unfold no_LF. simpl. destruct (Ascii.eqb c LF) eqn:E'.
          - apply Ascii.eqb_eq in E'. congruence.
          - inversion Fd as [|? ? F1 F2]. unfold no_LF in F1. rewrite F1. reflexivity. }
        repeat split; try discriminate.
        -- inversion Fd. constructor; auto.
        -- destruct ls as [|l2 ls].
           ++ destruct (Ld1 H) as [_ L2]. cbn [List.length] in L2. lia.
           ++ destruct (Ld1 H) as [L1 _]. exact L1.
        -- destruct (Ld1 H) as [_ L2]. cbn [List.length] in *. exact L2.
        -- intros H. specialize (Ld2 H). destruct ls as [|l2 ls].
           ++ cbn [last] in *.
              assert (exists a, last_char (String d r) = Some a) as [a Ha].
              { destruct (last_char (String d r)) eqn:L; [eauto|].
                apply last_char_none in L. discriminate. }
              rewrite Ha in *. cbn [last_char]. rewrite Ld2. reflexivity.
           ++ cbn [last] in *. exact Ld2.
Qed.

(** *** Joining rows *)

Lemma join_cons2 (sep x y : string) (l : list string) :
  join sep (x :: y :: l) = (x ++ sep ++ join sep (y :: l))%string.
Proof. reflexivity. Qed.

Lemma last_char_join_nonempty (sep : string) (l : list string) :
  last l EmptyString <> EmptyString ->
  last_char (join sep l) = last_char (last l EmptyString).
Proof.
  induction l as [|x [|y l] IH]; intros H.
  - simpl in H. tauto.
  - reflexivity.
  - rewrite join_cons2.
    change (last (x :: y :: l) EmptyString) with (last (y :: l) EmptyString) in *.
    specialize (IH H). rewrite !last_char_app, IH.
    destruct (last_char (last (y :: l) EmptyString)) eqn:L; [reflexivity|].
    apply last_char_none in L. tauto.
Qed.

Lemma join_ends_with_sep (sep : string) (l : list string) :
  last l EmptyString = EmptyString -> 2 <= List.length l ->
  exists X, join sep l = (X ++ sep)%string.
Proof.
  induction l as [|x [|y l] IH]; intros H L; simpl in L; try lia.
  rewrite join_cons2. destruct l as [|z l].
  - change (last [x; y] EmptyString) with y in H. subst y. exists x. unfold join. simpl. rewrite append_nil_r. reflexivity.
  - change (last (x :: y :: z :: l) EmptyString) with (last (y :: z :: l) EmptyString) in H.
    destruct IH as [X HX]; [exact H|simpl; lia|].
    rewrite HX. exists (x ++ sep ++ X)%string. rewrite !append_assoc. reflexivity.
Qed.

Lemma endsWith_app_self (sep X : string) : endsWith sep (X ++ sep) = true.
Proof.
  induction X as [|c X IH].
  - destruct sep; simpl; rewrite ?Ascii.eqb_refl, ?String.eqb_refl; reflexivity.
  - change (String c X ++ sep)%string with (String c (X ++ sep)).
    cbn [endsWith]. rewrite IH. apply orb_true_r.
Qed.

Lemma endsWith_CRLF_LF (s : string) :
  endsWith CRLF s = true -> last_char s = Some LF.
Proof.
  induction s as [|c r IH]; [simpl; discriminate|].
  cbn [endsWith last_char].
  destruct (String.eqb_spec (String c r) CRLF) as [E|E].
  - injection E as -> ->. reflexivity.
  - simpl orb. intros H. rewrite (IH H). reflexivity.
Qed.

(** *** The rows of the file *)

Lemma csv_map_rows_length (m : Map) (k : nat) (rows : list string) :
  List.length (csv_map_rows m k rows) = List.length rows.
Proof. revert k. induction rows; simpl; intros; auto. Qed.

Lemma csv_map_rows_nth (m : Map) (k : nat) (rows : list string) (i : nat) :
  nth_error (csv_map_rows m k rows) i
  = option_map (csv_update_row m (k + i)) (nth_error rows i).
Proof.
  revert k i. induction rows as [|row rows IH]; intros k [|i]; simpl; auto.
  - rewrite Nat.add_0_r. reflexivity.
  - rewrite IH. do 2 f_equal. lia.
Qed.

Lemma csv_map_rows_last (m : Map) (k : nat) (rows : list string) :
  rows <> [] ->
  exists i, last (map fst (csv_map_rows m k rows)) EmptyString
            = fst (csv_update_row m i (last rows EmptyString)).
Proof.
  revert k. induction rows as [|row [|row2 rows] IH]; intros k H; [tauto| |].
  - exists k. reflexivity.
  - destruct (IH (S k)) as [i Hi]; [discriminate|].
    exists i. exact Hi.
Qed.

Lemma csv_update_row_last_char (m : Map) (i : nat) (row : string) :
  last_char (fst (csv_update_row m i row)) = last_char row.
Proof.
  destruct (csv_update_row m i row) as [row' [|]] eqn:E.
  - apply csv_update_row_changed in E.
    destruct E as (_ & raw & rest & d & -> & _ & _ & _ & ->). cbn [fst].
    rewrite !last_char_app.
    destruct (last_char (String comma rest)) eqn:L; [reflexivity|].
    apply last_char_none in L. discriminate.
  - apply csv_update_row_unchanged in E. subst. reflexivity.
Qed.

Lemma csv_changed_row_differs (m : Map) (i : nat) (row row' : string) :
  wf_replacements m = true ->
  csv_update_row m i row = (row', true) -> row' <> row.
Proof.
  intros W E. apply csv_update_row_changed in E.
  destruct E as (_ & raw & rest & d & -> & _ & Hd & Hne & ->).
  destruct (Map_get_wf _ _ _ W Hd) as [Hk _].
  intros Heq. rewrite (trim_decompose raw Hk) in Heq at 3.
  rewrite !append_assoc in Heq. apply append_inv_head in Heq.
  rewrite <- !append_assoc in Heq. apply append_inv_tail in Heq.
  apply append_inv_tail in Heq. tauto.
Qed.

Lemma csv_unchanged_iff (m : Map) (k : nat) (rows : list string) :
  wf_replacements m = true ->
  existsb snd (csv_map_rows m k rows) = false
  <-> map fst (csv_map_rows m k rows) = rows.
Proof.
  intros W. revert k. induction rows as [|row rows IH]; intros k; simpl; [tauto|].
  destruct (csv_update_row m k row) as [row' b] eqn:E. simpl. split.
  - intros H. apply orb_false_iff in H. destruct H as [-> H].
    apply csv_update_row_unchanged in E. subst. f_equal. apply IH. exact H.
  - intros H. injection H as H1 H2. apply orb_false_iff. split; [|apply IH; exact H2].
    destruct b; [|reflexivity]. exfalso.
    apply (csv_changed_row_differs _ _ _ _ W E). exact H1.
Qed.

Lemma option_eq_dec_LF (o : option ascii) : {o = Some LF} + {o <> Some LF}.
Proof.
  destruct o as [a|]; [|right; discriminate].
  destruct (ascii_dec a LF); [left; congruence|right; congruence].
Qed.

(** ** The CSV rewriter *)

(** What [startsWith], [includes] and the last character say of a text. *)
Lemma startsWith_split (p s : string) :
  startsWith p s = true <-> exists b, s = (p ++ b)%string.
Proof.
  unfold startsWith. revert s. induction p as [|c p IH]; intros s.
  - split; [intros _; exists s; reflexivity|intros _; destruct s; reflexivity].
  - destruct s as [|d s]; cbn [String.prefix append].
    + split; [discriminate|intros [b H]; discriminate H].
    + destruct (ascii_dec c d) as [->|N].
      * rewrite IH. split; intros [b H]; exists b; [rewrite H; reflexivity|].
        injection H as H. exact H.
      * split; [discriminate|]. intros [b H]. injection H as H _. congruence.
Qed.

Lemma includes_split (p s : string) :
  includes p s = true <-> exists a b, s = (a ++ p ++ b)%string.
Proof.
  induction s as [|c s IH].
  - cbn [includes]. rewrite orb_false_r, startsWith_split. split.
    + intros [b H]. exists EmptyString, b. exact H.
    + intros (a & b & H). destruct a; [exists b; exact H|discriminate H].
  - cbn [includes]. rewrite orb_true_iff, startsWith_split, IH. split.
    + intros [[b H]|(a & b & H)].
      * exists EmptyString, b. exact H.
      * exists (String c a), b. rewrite H. reflexivity.
    + intros (a & b & H). destruct a as [|d a].
      * left. exists b. exact H.
      * right. injection H as _ H. exists a, b. exact H.
Qed.

Lemma last_char_split (s : string) (c : ascii) :
  last_char s = Some c <-> exists a, s = (a ++ String c EmptyString)%string.
Proof.
  split.
  - revert c. induction s as [|d s IH]; intros c H; [discriminate|].
    cbn [last_char] in H. destruct (last_char s) as [x|] eqn:L.
    + injection H as ->. destruct (IH c eq_refl) as [a ->]. exists (String d a). reflexivity.
    + injection H as ->. apply last_char_none in L. subst s. exists EmptyString. reflexivity.
  - intros [a ->]. rewrite last_char_app. reflexivity.
Qed.

Lemma ends_with_LF_split (s : string) :
  endsWith LFs s = true <-> exists a, s = (a ++ LFs)%string.
Proof. rewrite endsWith_LF. apply last_char_split. Qed.

(** C6.  The CSV rewriter works row by row on the rows of the file.  Row 0
    is never altered.  In any other row whose text before the first comma
    trims to a key of the mapping, that field is its leading white space,
    the key and its trailing white space, and the row becomes the same
    with the display name in place of the key.  Every other row stays as it
    is.  When no row changes the file is left untouched.  Otherwise the
    file that is written is the rows joined by CRLF when a CRLF occurs
    anywhere in the file, and joined by LF when none occurs: a file of one
    kind of line break keeps it, a file of both comes out with CRLF only.
    The file ends with a line feed exactly when it did before. *)
Theorem csv_rewriter_contract (fs : FS) (filePath original : string) (m : Map) :
  fs filePath = Some original ->
  wf_replacements m = true ->
  exists updated : list string,
    let rows := split_lines original in
    List.length updated = List.length rows /\
    nth_error updated 0 = nth_error rows 0 /\
    (forall i raw rest d,
        i <> 0 ->
        nth_error rows i = Some (raw ++ String comma rest)%string ->
        indexOf comma raw = None ->
        Map_get m (trim raw) = Some d ->
        raw = (leadingWhitespace raw ++ trim raw ++ trailingWhitespace raw)%string /\
        all_whitespace (leadingWhitespace raw) = true /\
        all_whitespace (trailingWhitespace raw) = true /\
        nth_error updated i
        = Some (leadingWhitespace raw ++ d ++ trailingWhitespace raw
                  ++ String comma rest)%string) /\
    (forall i row row',
        nth_error rows i = Some row -> nth_error updated i = Some row' ->
        row' <> row ->
        i <> 0 /\
        exists raw rest d,
          row = (raw ++ String comma rest)%string /\
          indexOf comma raw = None /\
          Map_get m (trim raw) = Some d) /\
    (updated = rows -> applySpeakerNamesToCsv fs filePath m = (false, fs)) /\
    (updated <> rows ->
       exists next,
         applySpeakerNamesToCsv fs filePath m = (true, writeFileSync fs filePath next) /\
         ((exists a b, original = (a ++ CRLF ++ b)%string) -> next = join CRLF updated) /\
         ((forall a b, original <> (a ++ CRLF ++ b)%string) -> next = join LFs updated) /\
         ((exists a, next = (a ++ LFs)%string) <-> (exists a, original = (a ++ LFs)%string))).
Proof.
  intros Hf W. set (rows := split_lines original).
  exists (map fst (csv_map_rows m 0 rows)). cbv zeta. fold rows.
  assert (Hnth : forall i,
             nth_error (map fst (csv_map_rows m 0 rows)) i
             = option_map (fun row => fst (csv_update_row m i row)) (nth_error rows i)).
  { intros i. rewrite nth_error_map, csv_map_rows_nth. simpl.
    destruct (nth_error rows i); reflexivity. }
  split; [rewrite length_map; apply csv_map_rows_length|].
  split; [rewrite Hnth; destruct (nth_error rows 0); reflexivity|].
  split.
  { intros i raw rest d Hi Hn Hc Hd.
    destruct (Map_get_wf _ _ _ W Hd) as [Hk _].
    split; [apply trim_decompose; exact Hk|].
    split; [apply leadingWhitespace_ws|].
    split; [apply trailingWhitespace_ws|].
    rewrite Hnth, Hn. simpl. f_equal.
    apply csv_update_row_renames; assumption. }
  split.
  { intros i row row' Hn Hn' Hne. rewrite Hnth, Hn in Hn'. simpl in Hn'.
    injection Hn' as <-.
    destruct (csv_update_row m i row) as [r [|]] eqn:E.
    - apply csv_update_row_changed in E.
      destruct E as (Hi & raw & rest & d & H1 & H2 & H3 & _).
      split; [exact Hi|]. exists raw, rest, d. auto.
    - apply csv_update_row_unchanged in E. simpl in Hne. congruence. }
  unfold applySpeakerNamesToCsv. rewrite Hf. fold rows.
  split.
  { intros H. apply (csv_unchanged_iff m 0 rows W) in H. rewrite H. reflexivity. }
  intros Hne.
  assert (Hch : existsb snd (csv_map_rows m 0 rows) = true).
  { destruct (existsb snd (csv_map_rows m 0 rows)) eqn:E; [reflexivity|].
    apply (csv_unchanged_iff m 0 rows W) in E. tauto. }
  set (U := map fst (csv_map_rows m 0 rows)) in *.
  set (nl := if includes CRLF original then CRLF else LFs).
  assert (Hnl : last_char nl = Some LF) by (unfold nl; destruct (includes CRLF original); reflexivity).
  destruct (split_lines_facts original) as (_ & N & L1 & L2). fold rows in N, L1, L2.
  destruct (csv_map_rows_last m 0 rows N) as [i HU]. fold U in HU.
  assert (HL : last_char (last U EmptyString) = last_char (last rows EmptyString)).
  { rewrite HU. apply csv_update_row_last_char. }
  assert (Hlen : List.length U = List.length rows).
  { unfold U. rewrite length_map. apply csv_map_rows_length. }
  assert (Next : csv_next_content original U = join nl U /\
                 endsWith LFs (join nl U) = endsWith LFs original).
  { unfold csv_next_content, csv_newline. fold nl.
    destruct (option_eq_dec_LF (last_char original)) as [T|T].
    - destruct (L1 T) as [A B]. rewrite A in HL. apply last_char_none in HL.
      destruct (join_ends_with_sep nl U HL) as [X HX]; [lia|].
      fold (join nl U). rewrite HX. rewrite endsWith_app_self.
      rewrite andb_false_r. split; [reflexivity|].
      apply endsWith_LF in T. rewrite T. apply endsWith_LF.
      rewrite last_char_app, Hnl. reflexivity.
    - assert (E1 : endsWith LFs original = false).
      { destruct (endsWith LFs original) eqn:E; [|reflexivity].
        apply endsWith_LF in E. tauto. }
      assert (E2 : endsWith CRLF original = false).
      { destruct (endsWith CRLF original) eqn:E; [|reflexivity].
        apply endsWith_CRLF_LF in E. tauto. }
      rewrite E1, E2. simpl. split; [reflexivity|].
      destruct (endsWith LFs (join nl U)) eqn:E; [|reflexivity].
      apply endsWith_LF in E. exfalso.
      specialize (L2 T).
      destruct (string_dec (last U EmptyString) EmptyString) as [Z|Z].
      + rewrite Z in HL. simpl in HL. rewrite <- HL in L2. symmetry in L2.
        apply last_char_none in L2. apply Hne. unfold U, rows. rewrite L2. reflexivity.
      + rewrite (last_char_join_nonempty nl U Z) in E. congruence. }
  destruct Next as [Nx Ne]. exists (join nl U).
  split; [rewrite Hch; cbn [negb]; rewrite Nx; reflexivity|].
  split; [|split].
  - intros Hc. apply includes_split in Hc. unfold nl. rewrite Hc. reflexivity.
  - intros Hn. unfold nl. destruct (includes CRLF original) eqn:I; [|reflexivity].
    apply includes_split in I. destruct I as (a & b & I). destruct (Hn a b I).
  - rewrite <- !ends_with_LF_split, Ne. tauto.
Qed.


Lemma csv_rewriter_contract_witness :
  csv_example_fs "data/outputs/m1/segments.csv" = Some csv_example /\
  wf_replacements alice_map = true /\
  exists updated,
    nth_error updated 0 = Some "speaker,start,end,text" /\
    nth_error updated 1 = Some "Alice, 0,1200,hello" /\
    nth_error updated 2 = Some "  Alice ,1200,2000,bye".
Proof.
  split; [reflexivity|]. split; [reflexivity|].
  destruct (csv_rewriter_contract csv_example_fs "data/outputs/m1/segments.csv"
              csv_example alice_map eq_refl eq_refl)
    as (updated & _ & H0 & Hren & _).
  exists updated. split; [exact H0|]. split.
  - destruct (Hren 1 "Speaker 1" " 0,1200,hello" "Alice") as (_ & _ & _ & H);
      try reflexivity; [discriminate|exact H].
  - destruct (Hren 2 "  Speaker 1 " "1200,2000,bye" "Alice") as (_ & _ & _ & H);
      try reflexivity; [discriminate|exact H].
Defined.

(** C6 as stated fails on a file of mixed line breaks: three of the four
    are line feeds, and the file comes out with four CRLF. *)
Lemma csv_rewriter_mixed_newlines :
  snd (applySpeakerNamesToCsv csv_mixed_fs "data/outputs/m1/segments.csv" alice_map)
    "data/outputs/m1/segments.csv"
  = Some ("speaker,start,end,text" ++ CRLF ++ "Alice,0,1200,hello" ++ CRLF
            ++ "Speaker 2,1200,2000,hi" ++ CRLF ++ "Alice,2000,2500,bye" ++ CRLF)%string.
Proof. reflexivity. Qed.

Example csv_example_run :
  fst (applySpeakerNamesToCsv csv_example_fs "data/outputs/m1/segments.csv" alice_map) = true /\
  snd (applySpeakerNamesToCsv csv_example_fs "data/outputs/m1/segments.csv" alice_map)
    "data/outputs/m1/segments.csv"
  = Some ("speaker,start,end,text" ++ CRLF ++ "Alice, 0,1200,hello" ++ CRLF
            ++ "  Alice ,1200,2000,bye" ++ CRLF ++ "Speaker 2,2000,2500,ok" ++ CRLF)%string.
Proof. split; reflexivity. Qed.

(** Every mapping that export-sync builds is well formed. *)
Lemma Map_set_wf (m : Map) (k v : string) :
  wf_replacements m = true -> k <> EmptyString -> v <> EmptyString ->
  wf_replacements (Map_set m k v) = true.
Proof.
  intros W Hk Hv. apply isEmpty_false in Hk, Hv.
  induction m as [|[k' v'] m IH]; simpl in *.
  - rewrite Hk, Hv. reflexivity.
  - apply andb_true_iff in W. destruct W as [W1 W2].
    destruct (String.eqb k' k) eqn:E; simpl.
    + apply andb_true_iff in W1. destruct W1 as [A _]. rewrite A, Hv, W2. reflexivity.
    + rewrite W1. simpl. apply IH. exact W2.
Qed.

Lemma build_replacements_wf (speakers : list speaker_row) (m : Map) :
  wf_replacements m = true -> wf_replacements (build_replacements m speakers) = true.
Proof.
  revert m. induction speakers as [|sp rest IH]; intros m W; simpl; [exact W|].
  destruct (isEmpty (s_label sp)) eqn:A; simpl; [auto|].
  destruct (isEmpty (trim (s_display_name sp))) eqn:B; simpl; [auto|].
  destruct (String.eqb _ _); [auto|].
  apply IH, Map_set_wf; [exact W| |]; apply isEmpty_false; assumption.
Qed.

(** ** The storage layer *)

(** Unfold the plumbing of the monad, not the statements it runs. *)
Ltac run_monad :=
  cbv beta iota delta [bind ret lift get_db put_db run_stmt Date_now randomUUID
                         getMeeting throw get_state put_state];
  cbn [w_db with_db w_clock w_tick w_uuids w_uuid_next].

Lemma find_update_meeting (meetingId : string) (f : meeting_row -> meeting_row)
    (db : DB) (id : string) :
  (forall m, m_id (f m) = m_id m) ->
  find_meeting (update_meeting meetingId f db) id
  = option_map (fun m => if String.eqb (m_id m) meetingId then f m else m)
      (find_meeting db id).
Proof.
  intros Hf. unfold find_meeting, update_meeting. simpl.
  induction (meetings db) as [|m l IH]; simpl; [reflexivity|].
  destruct (String.eqb (m_id m) meetingId) eqn:E.
  - rewrite Hf. destruct (String.eqb (m_id m) id); [simpl; rewrite E; reflexivity|exact IH].
  - destruct (String.eqb (m_id m) id); [simpl; rewrite E; reflexivity|exact IH].
Qed.

Lemma find_meeting_id (db : DB) (id : string) (row : meeting_row) :
  find_meeting db id = Some row -> m_id row = id.
Proof.
  unfold find_meeting. intros H. apply find_some in H. destruct H as [_ H].
  apply String.eqb_eq in H. exact H.
Qed.


Lemma endMeeting_run (w : world) (meetingId : string) (audioFilePath : option string)
    (row : meeting_row) :
  find_meeting (w_db w) meetingId = Some row ->
  let now := w_clock w (w_tick w) in
  let w' := with_db (tick w) (update_meeting meetingId (ended_row now audioFilePath) (w_db w)) in
  endMeeting meetingId audioFilePath w
  = Done (Some {| meeting_row_of := ended_row now audioFilePath row;
                  meeting_speakers := selectSpeakers (w_db w') meetingId |}) w' /\
  find_meeting (w_db w') meetingId = Some (ended_row now audioFilePath row).
Proof.
  intros H now w'. pose proof (find_meeting_id _ _ _ H) as Hid.
  assert (F : find_meeting (w_db w') meetingId = Some (ended_row now audioFilePath row)).
  { unfold w'. cbn [w_db with_db]. rewrite find_update_meeting by reflexivity.
    rewrite H. cbn [option_map]. rewrite Hid, String.eqb_refl. reflexivity. }
  split; [|exact F].
  unfold endMeeting. run_monad. fold (ended_row (w_clock w (w_tick w)) audioFilePath).
  fold now. fold (tick w). fold w'.
  unfold w' in F |- *. cbn [w_db with_db] in F |- *. unfold find_meeting in F.
  rewrite F. cbn [ended_row m_id]. rewrite Hid. reflexivity.
Qed.

(** What [endMeeting] keeps.  On a meeting that exists it sets the status
    to [processing], keeps an ended timestamp that is already recorded,
    and keeps the stored audio path when it is given none; a later call
    leaves the timestamp that the first call recorded. *)
Theorem endMeeting_keeps_ended_at_and_audio (w : world) (meetingId : string)
    (audioFilePath : option string) (row : meeting_row) :
  find_meeting (w_db w) meetingId = Some row ->
  exists m' w',
    endMeeting meetingId audioFilePath w = Done (Some m') w' /\
    find_meeting (w_db w') meetingId = Some (meeting_row_of m') /\
    m_status (meeting_row_of m') = "processing" /\
    (forall t, m_ended_at row = Some t -> m_ended_at (meeting_row_of m') = Some t) /\
    (audioFilePath = None ->
       m_audio_file_path (meeting_row_of m') = m_audio_file_path row) /\
    m_ended_at (meeting_row_of m') <> None /\
    forall later : option string,
    exists m'' w'',
      endMeeting meetingId later w' = Done (Some m'') w'' /\
      m_status (meeting_row_of m'') = "processing" /\
      m_ended_at (meeting_row_of m'') = m_ended_at (meeting_row_of m') /\
      (later = None ->
         m_audio_file_path (meeting_row_of m'') = m_audio_file_path (meeting_row_of m')).
Proof.
  intros H. destruct (endMeeting_run w meetingId audioFilePath row H) as (E & F).
  eexists _, _. split; [exact E|]. cbn [meeting_row_of].
  split; [exact F|]. split; [reflexivity|].
  split; [intros t Ht; cbn; rewrite Ht; reflexivity|].
  split; [intros ->; reflexivity|].
  split; [cbn; destruct (m_ended_at row); discriminate|].
  intros later. destruct (endMeeting_run _ meetingId later _ F) as (E' & _).
  eexists _, _. split; [exact E'|]. cbn [meeting_row_of].
  split; [reflexivity|]. split; [cbn; destruct (m_ended_at row); reflexivity|].
  intros ->. reflexivity.
Qed.

Example world1_db :
  w_db world1 =
  {| meetings := [row1];
     speakers :=
       [{| s_id := "uuid-1"; s_meeting_id := "uuid-0"; s_label := "Speaker 1";
           s_display_name := "Speaker 1"; s_created_at := "2025-01-01T00:00:00.000Z" |};
        {| s_id := "uuid-2"; s_meeting_id := "uuid-0"; s_label := "Speaker 2";
           s_display_name := "Speaker 2"; s_created_at := "2025-01-01T00:00:00.000Z" |}];
     segments := [] |}.
Proof. reflexivity. Qed.

Lemma endMeeting_keeps_ended_at_and_audio_witness :
  find_meeting (w_db world1) "uuid-0" = Some row1 /\
  exists m' w',
    endMeeting "uuid-0" None world1 = Done (Some m') w' /\
    m_status (meeting_row_of m') = "processing" /\
    m_audio_file_path (meeting_row_of m') = None.
Proof.
  split; [reflexivity|].
  destruct (endMeeting_keeps_ended_at_and_audio world1 "uuid-0" None row1 eq_refl)
    as (m' & w' & E & _ & S & _ & A & _).
  exists m', w'. split; [exact E|]. split; [exact S|]. exact (A eq_refl).
Defined.

(** ** The end of a meeting with an empty audio path *)

(** C9, the code at a failing input.  The meeting has a stored audio path.
    [endMeeting] with no path keeps it; with the empty text, which the
    route itself takes for no audio, it stores the empty text in its
    place.  Through the route that ends a meeting, with [null] and with
    the empty text alike the answer is 200, no job is queued and the
    meeting is left [failed]; after [null] the stored path is there and
    the route that processes the stored audio again queues a job on it,
    after the empty text the path is the empty text and that route
    answers that there is no audio. *)
Theorem endMeeting_empty_path_clears_audio :
  option_map m_audio_file_path (find_meeting (w_db world_ended) "uuid-0")
  = Some (Some "data/audio/uuid-0/rec.wav") /\
  match endMeeting "uuid-0" None world_ended with
  | Done (Some m) _ => m_audio_file_path (meeting_row_of m)
  | _ => None
  end = Some "data/audio/uuid-0/rec.wav" /\
  match endMeeting "uuid-0" (Some EmptyString) world_ended with
  | Done (Some m) _ => m_audio_file_path (meeting_row_of m)
  | _ => None
  end = Some EmptyString /\
  end_then_reprocess JNull
  = Some (200, [], Some (Some "data/audio/uuid-0/rec.wav"), Some "failed",
          Some (200, [{| job_meetingId := "uuid-0";
                         job_audioPath := "data/audio/uuid-0/rec.wav" |}])) /\
  end_then_reprocess (JStr EmptyString)
  = Some (200, [], Some (Some EmptyString), Some "failed", Some (400, [])).
Proof. repeat split. Qed.

(** *** Renaming a speaker *)

Lemma rename_no_match (db : DB) (meetingId speakerId displayName : string) :
  speaker_in_meeting db meetingId speakerId = false ->
  map (fun sp =>
         if String.eqb (s_id sp) speakerId && String.eqb (s_meeting_id sp) meetingId
         then {| s_id := s_id sp; s_meeting_id := s_meeting_id sp;
                 s_label := s_label sp; s_display_name := displayName;
                 s_created_at := s_created_at sp |}
         else sp) (speakers db)
  = speakers db.
Proof.
  unfold speaker_in_meeting. induction (speakers db) as [|sp l IH]; simpl; [reflexivity|].
  intros H. apply orb_false_iff in H. destruct H as [H1 H2].
  rewrite H1, (IH H2). reflexivity.
Qed.

Lemma db_eta (db : DB) :
  {| meetings := meetings db; speakers := speakers db; segments := segments db |} = db.
Proof. destruct db; reflexivity. Qed.

Lemma with_db_same (w : world) : with_db w (w_db w) = w.
Proof. destruct w; reflexivity. Qed.

Lemma getMeeting_run (w : world) (meetingId : string) :
  getMeeting meetingId w
  = Done (match find_meeting (w_db w) meetingId with
          | Some row => Some {| meeting_row_of := row;
                                meeting_speakers := selectSpeakers (w_db w) (m_id row) |}
          | None => None
          end) w.
Proof. reflexivity. Qed.

(** On the storage layer the update matches no row and nothing is
    reported, whatever the name. *)
Lemma renameSpeaker_no_match (w : world) (meetingId speakerId displayName : string) :
  speaker_in_meeting (w_db w) meetingId speakerId = false ->
  renameSpeaker meetingId speakerId displayName w = getMeeting meetingId w.
Proof.
  intros H. unfold renameSpeaker. run_monad.
  rewrite (rename_no_match _ _ _ _ H), db_eta, with_db_same. reflexivity.
Qed.

Lemma trimmed_text_nonblank (s : string) :
  trim s <> EmptyString -> trimmed_text (JStr s) = Ok (Some (trim s)).
Proof.
  intros H. unfold trimmed_text. simpl.
  destruct s as [|c r]; [simpl in H; tauto|]. simpl negb. cbv iota.
  apply isEmpty_false in H. rewrite H. reflexivity.
Qed.

(** C8 (amended).  On a meeting that exists, the rename route called with
    the identifier of a speaker that is not one of the meeting's and with a
    display name that is not blank answers 200 with the meeting, queues no
    job and leaves the database, hence every speaker row, as it was. *)
Theorem rename_unknown_speaker_succeeds (w : world) (meetingId speakerId displayName : string)
    (row : meeting_row) :
  find_meeting (w_db w) meetingId = Some row ->
  speaker_in_meeting (w_db w) meetingId speakerId = false ->
  trim displayName <> EmptyString ->
  exists m,
    serve (PATCH_speaker meetingId speakerId (JStr displayName)) w
    = Some (json_meeting 200 (Some m), [], w) /\
    meeting_row_of m = row.
Proof.
  intros Hm Hs Hd. unfold serve, handle.
  unfold bind at 1. rewrite getMeeting_run, Hm.
  unfold bind at 1. unfold lift. rewrite (trimmed_text_nonblank _ Hd).
  unfold bind at 1. rewrite (renameSpeaker_no_match _ _ _ _ Hs), getMeeting_run, Hm.
  unfold ret. eexists. split; reflexivity.
Qed.

Lemma rename_unknown_speaker_succeeds_witness :
  find_meeting (w_db world1) "uuid-0" = Some row1 /\
  speaker_in_meeting (w_db world1) "uuid-0" "uuid-9" = false /\
  trim " Carol " <> EmptyString /\
  exists m,
    serve (PATCH_speaker "uuid-0" "uuid-9" (JStr " Carol ")) world1
    = Some (json_meeting 200 (Some m), [], world1).
Proof.
  split; [reflexivity|]. split; [reflexivity|]. split; [discriminate|].
  destruct (rename_unknown_speaker_succeeds world1 "uuid-0" "uuid-9" " Carol " row1
              eq_refl eq_refl) as (m & E & _); [discriminate|].
  exists m. exact E.
Defined.

(** C8 as stated fails on a display name that is not empty but blank: the
    route answers 400. *)
Lemma rename_blank_name_rejected :
  find_meeting (w_db world1) "uuid-0" = Some row1 /\
  speaker_in_meeting (w_db world1) "uuid-0" "uuid-9" = false /\
  " "%string <> EmptyString /\
  serve (PATCH_speaker "uuid-0" "uuid-9" (JStr " ")) world1
  = Some (json_error 400 "Speaker display name is required", [], world1).
Proof. repeat split; try reflexivity. discriminate. Qed.

(** *** Inserting speakers *)

Lemma meeting_exists_find (db : DB) (id : string) (row : meeting_row) :
  find_meeting db id = Some row -> meeting_exists db id = true.
Proof.
  unfold find_meeting, meeting_exists. intros H. apply find_some in H.
  apply existsb_exists. exists row. exact H.
Qed.

Lemma insert_one (w : world) (meetingId l d now : string) :
  speaker_exists (w_db w) (w_uuids w (w_uuid_next w)) = false ->
  meeting_exists (w_db w) meetingId = true ->
  (id <- randomUUID ;;
   run_stmt (insertSpeakerStmt id meetingId (JStr l) (JStr d) now)) w
  = Done tt (add_speakers w (roster_rows [w_uuids w (w_uuid_next w)] meetingId now [(l, d)])).
Proof.
  intros Hs Hm. run_monad. unfold insertSpeakerStmt, bind_text, rbind.
  cbn [w_db]. rewrite Hs, Hm. simpl negb. cbv iota.
  unfold add_speakers, with_db. cbn. rewrite Nat.add_1_r. reflexivity.
Qed.

Lemma add_speakers_app (w : world) (rows rows' : list speaker_row) :
  add_speakers (add_speakers w rows) rows' = add_speakers w (rows ++ rows').
Proof.
  unfold add_speakers. cbn. rewrite <- app_assoc, length_app, Nat.add_assoc. reflexivity.
Qed.

Lemma speaker_exists_app (db : DB) (rows : list speaker_row) (u : string) :
  speaker_exists {| meetings := meetings db; speakers := speakers db ++ rows;
                    segments := segments db |} u
  = speaker_exists db u || existsb (fun sp => String.eqb (s_id sp) u) rows.
Proof. unfold speaker_exists. cbn. apply existsb_app. Qed.

Lemma fresh_ids_cons (u : string) (us : list string) (db : DB) (row : speaker_row) :
  fresh_ids (u :: us) db = true -> s_id row = u ->
  speaker_exists db u = false /\
  fresh_ids us {| meetings := meetings db; speakers := speakers db ++ [row];
                  segments := segments db |} = true.
Proof.
  unfold fresh_ids. cbn [distinct forallb]. intros H Hr.
  apply andb_true_iff in H. destruct H as [H1 H2].
  apply andb_true_iff in H1. destruct H1 as [Hn Hd].
  apply andb_true_iff in H2. destruct H2 as [Hu Hf].
  apply negb_true_iff in Hu, Hn. split; [exact Hu|].
  rewrite Hd. simpl. apply forallb_forall. intros x Hx.
  rewrite forallb_forall in Hf. specialize (Hf x Hx).
  rewrite speaker_exists_app. cbn [existsb]. rewrite Hr.
  apply negb_true_iff in Hf. rewrite Hf. simpl. rewrite orb_false_r.
  apply negb_true_iff. destruct (String.eqb u x) eqn:E; [|reflexivity].
  exfalso. assert (existsb (String.eqb u) us = true); [|congruence].
  apply existsb_exists. exists x. auto.
Qed.

Lemma upcoming_uuids_S (w : world) (k : nat) :
  upcoming_uuids w (S k)
  = w_uuids w (w_uuid_next w) :: map (w_uuids w) (seq (S (w_uuid_next w)) k).
Proof. reflexivity. Qed.

(** The loop of the array branch of [resetSpeakersInternal], on named
    entries. *)
Lemma insert_named_loop (meetingId now : string) (entries : list jsval)
    (named : list (string * string)) :
  Forall2 (fun e n => named_entry e = Some n) entries named ->
  forall (index : nat) (w : world),
    meeting_exists (w_db w) meetingId = true ->
    fresh_ids (upcoming_uuids w (List.length named)) (w_db w) = true ->
    forEach (fun speaker index =>
               l <- lift (get_prop speaker "label") ;;
               d <- lift (get_prop speaker "displayName") ;;
               id <- randomUUID ;;
               run_stmt (insertSpeakerStmt id meetingId
                           (coalesce l (JStr (speaker_n (index + 1))))
                           (coalesce d (coalesce l (JStr (speaker_n (index + 1)))))
                           now))
      index entries w
    = Done tt (add_speakers w
                 (roster_rows (upcoming_uuids w (List.length named)) meetingId now named)).
Proof.
  induction 1 as [|e [l d] entries named He _ IH]; intros index w Hm Hf.
  - cbn. unfold ret, add_speakers. cbn. rewrite app_nil_r, Nat.add_0_r, db_eta.
    destruct w; reflexivity.
  - cbn [forEach]. change (List.length ((l, d) :: named)) with (S (List.length named)) in *.
    rewrite upcoming_uuids_S in Hf |- *.
    set (us := map (w_uuids w) (seq (S (w_uuid_next w)) (List.length named))) in *.
    cbn [roster_rows].
    set (row := {| s_id := w_uuids w (w_uuid_next w); s_meeting_id := meetingId;
                   s_label := l; s_display_name := d; s_created_at := now |}).
    destruct (fresh_ids_cons (w_uuids w (w_uuid_next w)) us (w_db w) row Hf eq_refl)
      as [Hs Hf'].
    assert (Hbody :
      (l0 <- lift (get_prop e "label") ;;
       d0 <- lift (get_prop e "displayName") ;;
       id <- randomUUID ;;
       run_stmt (insertSpeakerStmt id meetingId
                   (coalesce l0 (JStr (speaker_n (index + 1))))
                   (coalesce d0 (coalesce l0 (JStr (speaker_n (index + 1)))))
                   now)) w
      = Done tt (add_speakers w [row])).
    { destruct e as [| | | | |?|props]; try discriminate.
      unfold named_entry in He.
      destruct (props_get props "label") as [| | | |lab| |] eqn:El; try discriminate.
      unfold bind at 1. unfold lift at 1. cbn [get_prop]. rewrite El. cbn [coalesce nullish].
      unfold bind at 1. unfold lift at 1.
      destruct (props_get props "displayName") as [| | | |dis| |] eqn:Ed;
        try discriminate; injection He as <- <-; cbn [coalesce nullish];
        apply (insert_one w meetingId); assumption. }
    unfold bind at 1. cbv beta. rewrite Hbody.
    assert (HU : upcoming_uuids (add_speakers w [row]) (List.length named) = us).
    { unfold upcoming_uuids, add_speakers. cbn [w_uuids w_uuid_next List.length].
      rewrite Nat.add_1_r. reflexivity. }
    rewrite (IH (S index) (add_speakers w [row])).
    + rewrite HU, add_speakers_app. reflexivity.
    + exact Hm.
    + rewrite HU. exact Hf'.
Qed.


Lemma bind_assoc {St A B C} (a : ST St A) (f : A -> ST St B) (g : B -> ST St C)
    (s : St) :
  bind (bind a f) g s = bind a (fun x => bind (f x) g) s.
Proof. unfold bind. destruct (a s); reflexivity. Qed.

Lemma insert_defaults_loop (meetingId now : string) (n : nat) :
  forall (index : nat) (w : world),
    meeting_exists (w_db w) meetingId = true ->
    fresh_ids (upcoming_uuids w n) (w_db w) = true ->
    insert_defaults meetingId now index n w
    = Done tt (add_speakers w
                 (roster_rows (upcoming_uuids w n) meetingId now (default_names index n))).
Proof.
  induction n as [|n IH]; intros index w Hm Hf.
  - cbn. unfold ret, add_speakers. cbn. rewrite app_nil_r, Nat.add_0_r, db_eta.
    destruct w; reflexivity.
  - cbn [insert_defaults]. rewrite upcoming_uuids_S in Hf |- *.
    set (us := map (w_uuids w) (seq (S (w_uuid_next w)) n)) in *.
    unfold default_names. cbn [seq map roster_rows].
    set (row := {| s_id := w_uuids w (w_uuid_next w); s_meeting_id := meetingId;
                   s_label := speaker_n index; s_display_name := speaker_n index;
                   s_created_at := now |}).
    destruct (fresh_ids_cons (w_uuids w (w_uuid_next w)) us (w_db w) row Hf eq_refl)
      as [Hs Hf'].
    rewrite <- bind_assoc. unfold bind at 1.
    rewrite (insert_one w meetingId (speaker_n index) (speaker_n index) now Hs Hm).
    cbn [roster_rows].
    assert (HU : upcoming_uuids (add_speakers w [row]) n = us).
    { unfold upcoming_uuids, add_speakers. cbn [w_uuids w_uuid_next List.length].
      rewrite Nat.add_1_r. reflexivity. }
    fold row. rewrite (IH (S index) (add_speakers w [row])).
    + rewrite HU, add_speakers_app. reflexivity.
    + exact Hm.
    + rewrite HU. exact Hf'.
Qed.

Lemma ascii_compare_refl (c : ascii) : Ascii.compare c c = Eq.
Proof. unfold Ascii.compare. apply N.compare_refl. Qed.

Lemma string_compare_refl (s : string) : String.compare s s = Eq.
Proof. induction s; simpl; [reflexivity|]. rewrite ascii_compare_refl. exact IHs. Qed.

Lemma insert_same_time (now : string) (sp : speaker_row) (acc : list speaker_row) :
  Forall (fun x => s_created_at x = now) acc -> s_created_at sp = now ->
  insert_by_created_at sp acc = acc ++ [sp].
Proof.
  intros H Hs. induction H as [|x acc Hx _ IH]; simpl; [reflexivity|].
  rewrite Hs, Hx. unfold String.ltb. rewrite string_compare_refl. rewrite IH. reflexivity.
Qed.

Lemma sort_same_time (now : string) (rows : list speaker_row) :
  Forall (fun x => s_created_at x = now) rows -> sort_by_created_at rows = rows.
Proof.
  unfold sort_by_created_at.
  assert (G : forall acc, Forall (fun x => s_created_at x = now) acc ->
                          Forall (fun x => s_created_at x = now) rows ->
                          fold_left (fun sorted sp => insert_by_created_at sp sorted) rows acc
                          = acc ++ rows).
  { induction rows as [|sp rows IH]; intros acc Ha Hr; simpl; [now rewrite app_nil_r|].
    inversion Hr as [|? ? H1 H2]; subst.
    rewrite (insert_same_time _ _ _ Ha eq_refl). rewrite IH; auto.
    - rewrite <- app_assoc. reflexivity.
    - apply Forall_app. split; [exact Ha|]. constructor; auto. }
  intros H. apply (G [] (Forall_nil _) H).
Qed.

Lemma roster_rows_time (ids : list string) (meetingId now : string)
    (named : list (string * string)) :
  Forall (fun x => s_created_at x = now) (roster_rows ids meetingId now named).
Proof.
  revert named. induction ids as [|u us IH]; intros [|[l d] named]; simpl; constructor; auto.
Qed.

Lemma roster_rows_meeting (ids : list string) (meetingId now : string)
    (named : list (string * string)) :
  filter (fun sp => String.eqb (s_meeting_id sp) meetingId)
    (roster_rows ids meetingId now named)
  = roster_rows ids meetingId now named.
Proof.
  revert named. induction ids as [|u us IH]; intros [|[l d] named]; simpl; auto.
  rewrite String.eqb_refl, IH. reflexivity.
Qed.

Lemma roster_rows_names (ids : list string) (meetingId now : string)
    (named : list (string * string)) :
  List.length ids = List.length named ->
  map label_and_name (roster_rows ids meetingId now named) = named.
Proof.
  revert named. induction ids as [|u us IH]; intros [|[l d] named]; simpl; intros H;
    try discriminate; auto.
  injection H as H. rewrite (IH _ H). reflexivity.
Qed.

Lemma upcoming_uuids_length (w : world) (k : nat) : List.length (upcoming_uuids w k) = k.
Proof. unfold upcoming_uuids. rewrite length_map, length_seq. reflexivity. Qed.

Lemma filter_other_meetings (meetingId : string) (l : list speaker_row) :
  filter (fun sp => String.eqb (s_meeting_id sp) meetingId)
    (filter (fun sp => negb (String.eqb (s_meeting_id sp) meetingId)) l) = [].
Proof.
  induction l as [|sp l IH]; simpl; [reflexivity|].
  destruct (String.eqb (s_meeting_id sp) meetingId) eqn:E; simpl; [exact IH|].
  rewrite E. exact IH.
Qed.

(** The speakers of the meeting after a reset are the rows of the roster,
    and [getMeeting] lists them in that order. *)
Lemma reset_world_speakers (w : world) (meetingId : string) (row : meeting_row)
    (ids : list string) (now : string) (named : list (string * string)) :
  find_meeting (w_db w) meetingId = Some row ->
  let rows := roster_rows ids meetingId now named in
  let w' := reset_world w meetingId rows in
  getMeeting meetingId w'
  = Done (Some {| meeting_row_of := row; meeting_speakers := rows |}) w' /\
  speakers_of (w_db w') meetingId = rows.
Proof.
  intros H rows w'.
  assert (S1 : speakers_of (w_db w') meetingId = rows).
  { unfold speakers_of, w', reset_world, add_speakers, deleteSpeakersStmt.
    cbn [w_db with_db speakers tick]. rewrite filter_app, filter_other_meetings.
    apply roster_rows_meeting. }
  split; [|exact S1].
  rewrite getMeeting_run.
  assert (F : find_meeting (w_db w') meetingId = Some row) by exact H.
  rewrite F. rewrite (find_meeting_id _ _ _ H).
  unfold selectSpeakers. fold (speakers_of (w_db w') meetingId). rewrite S1.
  rewrite (sort_same_time now); [reflexivity|apply roster_rows_time].
Qed.

Lemma resetSpeakers_items_run (w : world) (meetingId : string) (row : meeting_row)
    (entries : list jsval) (named : list (string * string)) :
  find_meeting (w_db w) meetingId = Some row ->
  Forall2 (fun e n => named_entry e = Some n)
    (match entries with [] => [JObj [("label", JStr "Speaker 1")]] | _ => entries end)
    named ->
  fresh_for_reset w meetingId (List.length named) = true ->
  let rows := roster_rows (upcoming_uuids w (List.length named)) meetingId
                (w_clock w (w_tick w)) named in
  resetSpeakers meetingId (JArr entries) w
  = Done (Some {| meeting_row_of := row; meeting_speakers := rows |})
      (reset_world w meetingId rows) /\
  speakers_of (w_db (reset_world w meetingId rows)) meetingId = rows.
Proof.
  intros Hm Hn Hf rows.
  destruct (reset_world_speakers w meetingId row
              (upcoming_uuids w (List.length named)) (w_clock w (w_tick w)) named Hm)
    as [G S1].
  fold rows in G, S1. split; [|exact S1].
  unfold resetSpeakers, resetSpeakersInternal.
  unfold bind at 1. unfold Date_now at 1. fold (tick w).
  unfold bind at 1. unfold transaction. unfold bind at 1.
  unfold run_stmt at 1. unfold bind at 1. unfold get_db at 1.
  unfold bind at 1. unfold lift at 1. unfold put_db at 1.
  cbv zeta.
  rewrite (insert_named_loop meetingId (w_clock w (w_tick w)) _ named Hn).
  - exact G.
  - cbn [w_db with_db tick]. unfold meeting_exists, deleteSpeakersStmt. cbn [meetings].
    exact (meeting_exists_find _ _ _ Hm).
  - exact Hf.
Qed.

(** C7.  On a meeting that exists and with fresh identifiers, a reset of
    the speakers from an empty list leaves the meeting with exactly one
    speaker, [Speaker 1]; a reset from a list of named entries leaves it
    with exactly one speaker per entry, in order, each with the label and
    the display name of its entry, whether or not display names repeat. *)
Theorem resetSpeakers_from_list (w : world) (meetingId : string) (row : meeting_row)
    (entries : list jsval) (named : list (string * string)) :
  find_meeting (w_db w) meetingId = Some row ->
  Forall2 (fun e n => named_entry e = Some n) entries named ->
  fresh_for_reset w meetingId (Nat.max 1 (List.length entries)) = true ->
  exists m' w',
    resetSpeakers meetingId (JArr entries) w = Done (Some m') w' /\
    speakers_of (w_db w') meetingId = meeting_speakers m' /\
    (entries = [] ->
       map label_and_name (meeting_speakers m') = [("Speaker 1", "Speaker 1")]) /\
    (entries <> [] ->
       map label_and_name (meeting_speakers m') = named /\
       List.length (meeting_speakers m') = List.length entries).
Proof.
  intros Hm Hn Hf. pose proof (Forall2_length Hn) as HL.
  destruct entries as [|e entries].
  - inversion Hn; subst.
    destruct (resetSpeakers_items_run w meetingId row [] [("Speaker 1", "Speaker 1")] Hm)
      as [E S1]; [repeat constructor|exact Hf|].
    eexists _, _. split; [exact E|]. split; [exact S1|]. cbn [meeting_speakers].
    split; [|tauto]. intros _. apply roster_rows_names.
    rewrite upcoming_uuids_length. reflexivity.
  - destruct named as [|n named]; [discriminate|].
    assert (Hk : Nat.max 1 (List.length (e :: entries)) = List.length (n :: named)).
    { rewrite HL. simpl. reflexivity. }
    rewrite Hk in Hf.
    destruct (resetSpeakers_items_run w meetingId row (e :: entries) (n :: named) Hm Hn Hf)
      as [E S1].
    eexists _, _. split; [exact E|]. split; [exact S1|]. cbn [meeting_speakers].
    split; [discriminate|]. intros _.
    assert (N : map label_and_name
                  (roster_rows (upcoming_uuids w (List.length (n :: named))) meetingId
                     (w_clock w (w_tick w)) (n :: named)) = n :: named).
    { apply roster_rows_names. rewrite upcoming_uuids_length. reflexivity. }
    split; [exact N|].
    rewrite <- (length_map label_and_name), N. symmetry. exact HL.
Qed.


Lemma resetSpeakers_from_list_witness :
  find_meeting (w_db world1) "uuid-0" = Some row1 /\
  Forall2 (fun e n => named_entry e = Some n) two_bobs
    [("SPEAKER_00", "Bob"); ("SPEAKER_01", "Bob"); ("SPEAKER_02", "SPEAKER_02")] /\
  fresh_for_reset world1 "uuid-0" (Nat.max 1 (List.length two_bobs)) = true /\
  exists m' w',
    resetSpeakers "uuid-0" (JArr two_bobs) world1 = Done (Some m') w' /\
    List.length (meeting_speakers m') = 3.
Proof.
  split; [reflexivity|].
  assert (F : Forall2 (fun e n => named_entry e = Some n) two_bobs
                [("SPEAKER_00", "Bob"); ("SPEAKER_01", "Bob"); ("SPEAKER_02", "SPEAKER_02")])
    by (repeat constructor).
  split; [exact F|]. split; [reflexivity|].
  destruct (resetSpeakers_from_list world1 "uuid-0" row1 two_bobs _ eq_refl F eq_refl)
    as (m' & w' & E & _ & _ & H).
  exists m', w'. split; [exact E|].
  destruct H as [_ H]; [discriminate|exact H].
Defined.

Example resetSpeakers_empty_list_run :
  match resetSpeakers "uuid-0" (JArr []) world1 with
  | Done (Some m) w' => map label_and_name (meeting_speakers m)
  | _ => []
  end = [("Speaker 1", "Speaker 1")].
Proof. reflexivity. Qed.

(** *** A reset by count *)

Lemma loop_rounds_two : loop_rounds (Fin 2 0) = Ok 2.
Proof. reflexivity. Qed.

(** C10.  A reset of the speakers by a count, that is by any value that is
    not an array, which [Number] converts to a number that is not finite
    or is not greater than zero leaves the meeting with exactly two
    speakers, [Speaker 1] and [Speaker 2], each named by its label. *)
Theorem resetSpeakers_by_bad_count (w : world) (meetingId : string) (row : meeting_row)
    (count : jsval) (n : number) :
  find_meeting (w_db w) meetingId = Some row ->
  Array_isArray count = false ->
  Number_ count = Ok n ->
  number_isFinite n && number_gt0 n = false ->
  fresh_for_reset w meetingId 2 = true ->
  exists m' w',
    resetSpeakers meetingId count w = Done (Some m') w' /\
    speakers_of (w_db w') meetingId = meeting_speakers m' /\
    map label_and_name (meeting_speakers m')
    = [("Speaker 1", "Speaker 1"); ("Speaker 2", "Speaker 2")].
Proof.
  intros Hm Ha Hn Hbad Hf.
  destruct (reset_world_speakers w meetingId row (upcoming_uuids w 2)
              (w_clock w (w_tick w)) (default_names 1 2) Hm) as [G S1].
  exists {| meeting_row_of := row;
            meeting_speakers := roster_rows (upcoming_uuids w 2) meetingId
                                  (w_clock w (w_tick w)) (default_names 1 2) |},
    (reset_world w meetingId
       (roster_rows (upcoming_uuids w 2) meetingId (w_clock w (w_tick w))
          (default_names 1 2))).
  split; [|split; [exact S1|reflexivity]].
  unfold resetSpeakers, resetSpeakersInternal.
  unfold bind at 1. unfold Date_now at 1. fold (tick w).
  unfold bind at 1. unfold transaction. unfold bind at 1.
  unfold run_stmt at 1. unfold bind at 1. unfold get_db at 1.
  unfold bind at 1. unfold lift at 1. unfold put_db at 1.
  assert (Hsafe : (if number_gt0 (if number_isFinite n then n else Fin 0 0)
                   then (if number_isFinite n then n else Fin 0 0) else Fin 2 0) = Fin 2 0).
  { destruct (number_isFinite n); simpl in Hbad; [rewrite Hbad|]; reflexivity. }
  assert (Hloop :
    (k <- lift (Number_ count) ;;
     let c := if number_isFinite k then k else Fin 0 0 in
     let safeCount := if number_gt0 c then c else Fin 2 0 in
     rounds <- lift (loop_rounds safeCount) ;;
     insert_defaults meetingId (w_clock w (w_tick w)) 1 rounds)
      (with_db (tick w) (deleteSpeakersStmt meetingId (w_db (tick w))))
    = Done tt (reset_world w meetingId
                 (roster_rows (upcoming_uuids w 2) meetingId (w_clock w (w_tick w))
                    (default_names 1 2)))).
  { unfold bind at 1. rewrite Hn. unfold lift at 1. cbv zeta. rewrite Hsafe.
    unfold bind at 1. rewrite loop_rounds_two. unfold lift at 1.
    rewrite insert_defaults_loop.
    - reflexivity.
    - cbn [w_db with_db tick]. unfold meeting_exists, deleteSpeakersStmt. cbn [meetings].
      exact (meeting_exists_find _ _ _ Hm).
    - exact Hf. }
  destruct count; try discriminate; cbv zeta in Hloop |- *; rewrite Hloop; exact G.
Qed.

Lemma resetSpeakers_by_bad_count_witness :
  find_meeting (w_db world1) "uuid-0" = Some row1 /\
  Number_ (JStr "-3") = Ok (Fin (-3) 0) /\
  fresh_for_reset world1 "uuid-0" 2 = true /\
  exists m' w',
    resetSpeakers "uuid-0" (JStr "-3") world1 = Done (Some m') w' /\
    map label_and_name (meeting_speakers m')
    = [("Speaker 1", "Speaker 1"); ("Speaker 2", "Speaker 2")].
Proof.
  split; [reflexivity|]. split; [reflexivity|]. split; [reflexivity|].
  destruct (resetSpeakers_by_bad_count world1 "uuid-0" row1 (JStr "-3") (Fin (-3) 0)
              eq_refl eq_refl eq_refl eq_refl eq_refl) as (m' & w' & E & _ & H).
  exists m', w'. split; [exact E|exact H].
Defined.

(** C10 as stated fails on a count that is an object with a property
    [toString] of its own: [Number] throws, the reset is rolled back and
    the route answers 500. *)
Lemma resetSpeakers_count_conversion_throws :
  Array_isArray count_with_toString = false /\
  find_meeting (w_db world1) "uuid-0" = Some row1 /\
  fresh_for_reset world1 "uuid-0" 2 = true /\
  match resetSpeakers "uuid-0" count_with_toString world1 with
  | Thrown (TypeError _) w' => Some (w_db w')
  | _ => None
  end = Some (w_db world1) /\
  match serve (POST_reset "uuid-0" count_with_toString JUndefined) world1 with
  | Some (r, jobs, w') => Some (r, jobs, w_db w')
  | None => None
  end = Some (json_error 500 "Internal server error", [], w_db world1).
Proof. repeat split. Qed.

Example resetSpeakers_bad_counts :
  map (fun count =>
         match resetSpeakers "uuid-0" count world1 with
         | Done (Some m) _ => map s_label (meeting_speakers m)
         | _ => []
         end)
    [JNum (Fin 0 0); JNum (Fin (-1) 0); JNum NaN; JStr "many"; JNull; JUndefined;
     JBool false; JObj []]
  = repeat ["Speaker 1"; "Speaker 2"] 8.
Proof. reflexivity. Qed.

(** ** The evolution of the meetings table *)

Section Evolution.

Variable allowed : list string.

Lemma evolves_refl (db : DB) : evolves allowed db db.
Proof. split; [auto|]. apply incl_appr, incl_refl. Qed.

Lemma evolves_trans (a b c : DB) :
  evolves allowed a b -> evolves allowed b c -> evolves allowed a c.
Proof.
  intros [E1 I1] [E2 I2]. split; [auto|].
  intros s Hs. apply I2 in Hs. apply in_app_or in Hs. destruct Hs as [Hs|Hs].
  - apply in_or_app. left. exact Hs.
  - apply I1. exact Hs.
Qed.

Lemma evolves_same_meetings (db db' : DB) :
  meetings db' = meetings db -> evolves allowed db db'.
Proof.
  intros H. unfold evolves, meeting_exists, statuses. rewrite H.
  split; [auto|]. apply incl_appr, incl_refl.
Qed.

Lemma evolves_update (meetingId : string) (f : meeting_row -> meeting_row) (db : DB) :
  (forall m, m_id (f m) = m_id m) ->
  (forall m, In (m_status (f m)) allowed \/ m_status (f m) = m_status m) ->
  evolves allowed db (update_meeting meetingId f db).
Proof.
  intros Hid Hst. unfold evolves, meeting_exists, statuses, update_meeting. cbn [meetings].
  split.
  - intros id H. apply existsb_exists in H. destruct H as (m & Hin & Hm).
    apply existsb_exists.
    exists (if String.eqb (m_id m) meetingId then f m else m). split.
    + apply (in_map (fun m => if String.eqb (m_id m) meetingId then f m else m)) in Hin.
      exact Hin.
    + destruct (String.eqb (m_id m) meetingId); [rewrite Hid|]; exact Hm.
  - intros s Hs. apply in_map_iff in Hs. destruct Hs as (m' & <- & Hin).
    apply in_map_iff in Hin. destruct Hin as (m & <- & Hin).
    apply in_or_app. destruct (String.eqb (m_id m) meetingId).
    + destruct (Hst m) as [H|H]; [left; exact H|].
      right. rewrite H. apply in_map. exact Hin.
    + right. apply in_map. exact Hin.
Qed.

Lemma preserves_ret {A} (a : A) : preserves allowed (ret a).
Proof. intros w. apply evolves_refl. Qed.

Lemma preserves_throw {A} (e : js_error) : preserves allowed (@throw world A e).
Proof. intros w. apply evolves_refl. Qed.

Lemma preserves_lift {A} (r : result A) : preserves allowed (lift r).
Proof. intros w. unfold lift. destruct r; try apply evolves_refl. exact I. Qed.

Lemma preserves_get_db : preserves allowed get_db.
Proof. intros w. apply evolves_refl. Qed.

Lemma preserves_randomUUID : preserves allowed randomUUID.
Proof. intros w. apply evolves_refl. Qed.

Lemma preserves_Date_now : preserves allowed Date_now.
Proof. intros w. apply evolves_refl. Qed.

Lemma preserves_getMeeting (meetingId : string) : preserves allowed (getMeeting meetingId).
Proof. intros w. apply evolves_refl. Qed.

Lemma preserves_bind {A B} (c : M A) (k : A -> M B) :
  preserves allowed c -> (forall a, preserves allowed (k a)) ->
  preserves allowed (bind c k).
Proof.
  intros Hc Hk w. unfold bind. specialize (Hc w).
  destruct (c w) as [a w1|e w1|]; [|exact Hc|exact I].
  specialize (Hk a w1). destruct (k a w1); try exact I;
    eapply evolves_trans; eassumption.
Qed.

Lemma preserves_try_catch {A} (body : M A) (handler : js_error -> M A) :
  preserves allowed body -> (forall e, preserves allowed (handler e)) ->
  preserves allowed (try_catch body handler).
Proof.
  intros Hb Hh w. unfold try_catch. specialize (Hb w).
  destruct (body w) as [a w1|e w1|]; [exact Hb| |exact I].
  specialize (Hh e w1). destruct (handler e w1); try exact I;
    eapply evolves_trans; eassumption.
Qed.

Lemma preserves_transaction {A} (body : M A) :
  preserves allowed body -> preserves allowed (transaction body).
Proof.
  intros Hb w. unfold transaction. specialize (Hb w).
  destruct (body w) as [a w1|e w1|]; [exact Hb| |exact I].
  cbn [w_db with_db]. apply evolves_refl.
Qed.

Lemma preserves_forEach {A} (body : A -> nat -> M unit) (items : list A) :
  (forall item index, preserves allowed (body item index)) ->
  forall index, preserves allowed (forEach body index items).
Proof.
  intros Hb. induction items as [|x items IH]; intros index; cbn [forEach].
  - apply preserves_ret.
  - apply preserves_bind; [apply Hb|]. intros _. apply IH.
Qed.

Lemma preserves_run_stmt (stmt : DB -> result DB) :
  (forall db db', stmt db = Ok db' -> evolves allowed db db') ->
  preserves allowed (run_stmt stmt).
Proof.
  intros H w. unfold run_stmt, bind, get_db, lift, put_db.
  destruct (stmt (w_db w)) as [db'| |] eqn:E; try apply evolves_refl; [|exact I].
  cbn [w_db with_db]. apply H. exact E.
Qed.

(** The statements *)

Lemma insertSpeakerStmt_evolves (id meetingId : string) (l d : jsval) (now : string)
    (db db' : DB) :
  insertSpeakerStmt id meetingId l d now db = Ok db' -> evolves allowed db db'.
Proof.
  unfold insertSpeakerStmt, rbind. intros H.
  destruct (bind_text _ l); try discriminate.
  destruct (bind_text _ d); try discriminate.
  destruct (speaker_exists db id); try discriminate.
  destruct (negb (meeting_exists db meetingId)); try discriminate.
  injection H as <-. apply evolves_same_meetings. reflexivity.
Qed.

Lemma insertSegment_evolves (id : jsval) (meetingId : string) (a b c d e : jsval)
    (db db' : DB) :
  insertSegment id meetingId a b c d e db = Ok db' -> evolves allowed db db'.
Proof.
  unfold insertSegment, rbind, unique_error, foreign_key_error. intros H.
  repeat match type of H with
         | match ?x with _ => _ end = _ => destruct x; try discriminate
         | (if ?x then _ else _) = _ => destruct x; try discriminate
         end.
  all: injection H as <-; apply evolves_same_meetings; reflexivity.
Qed.

End Evolution.

Create HintDb pres.

#[local] Hint Resolve preserves_ret preserves_throw preserves_lift preserves_get_db
  preserves_randomUUID preserves_Date_now preserves_getMeeting : pres.

(** One rule of the calculus: an operation already treated, else the shape
    of the computation. *)
Ltac pres_step :=
  first
    [ solve [auto 3 with pres]
    | apply preserves_run_stmt; intros ? ? ?
    | apply preserves_transaction
    | apply preserves_try_catch; [|intros ?]
    | apply preserves_forEach; intros ? ?
    | match goal with
      | |- preserves _ (match ?x with _ => _ end) => destruct x
      | |- preserves _ (if ?x then _ else _) => destruct x
      | |- preserves _ (bind _ _) => apply preserves_bind; [|intros ?]
      end ].

Ltac pres := cbv zeta; repeat pres_step.

(** A statement that leaves the meetings table as it is. *)
Ltac same_meetings :=
  match goal with
  | H : Ok _ = Ok _ |- evolves _ _ _ =>
      injection H as <-; apply evolves_same_meetings; reflexivity
  | H : (if ?c then _ else _) = Ok _ |- evolves _ _ _ =>
      destruct c; [discriminate|]; same_meetings
  | H : insertSpeakerStmt _ _ _ _ _ _ = Ok _ |- evolves _ _ _ =>
      exact (insertSpeakerStmt_evolves _ _ _ _ _ _ _ _ H)
  | H : insertSegment _ _ _ _ _ _ _ _ = Ok _ |- evolves _ _ _ =>
      exact (insertSegment_evolves _ _ _ _ _ _ _ _ _ _ H)
  end.

Lemma insert_defaults_preserves (allowed : list string) (meetingId now : string)
    (n index : nat) :
  preserves allowed (insert_defaults meetingId now index n).
Proof.
  revert index. induction n as [|n IH]; intros index; cbn [insert_defaults].
  - apply preserves_ret.
  - pres. same_meetings.
Qed.
#[local] Hint Resolve insert_defaults_preserves : pres.

Lemma resetSpeakersInternal_preserves (allowed : list string) (meetingId : string)
    (v : jsval) (now : string) :
  preserves allowed (resetSpeakersInternal meetingId v now).
Proof.
  unfold resetSpeakersInternal. pres; same_meetings.
Qed.
#[local] Hint Resolve resetSpeakersInternal_preserves : pres.

Lemma resetSpeakers_preserves (allowed : list string) (meetingId : string) (v : jsval) :
  preserves allowed (resetSpeakers meetingId v).
Proof. unfold resetSpeakers. pres. Qed.
#[local] Hint Resolve resetSpeakers_preserves : pres.

Lemma storeSegments_preserves (allowed : list string) (meetingId : string)
    (segs : list segment_input) :
  preserves allowed (storeSegments meetingId segs).
Proof. unfold storeSegments. pres; same_meetings. Qed.
#[local] Hint Resolve storeSegments_preserves : pres.

Lemma updateMeetingStatus_preserves (allowed : list string) (meetingId status : string) :
  In status allowed -> preserves allowed (updateMeetingStatus meetingId status).
Proof.
  intros H. unfold updateMeetingStatus. pres.
  match goal with E : Ok _ = Ok _ |- _ => injection E as <- end.
  apply evolves_update; [reflexivity|]. intros m. left. exact H.
Qed.
#[local] Hint Resolve updateMeetingStatus_preserves : pres.

Lemma createMeeting_preserves (allowed : list string) (name : string) (count : jsval) :
  In "pending"%string allowed -> preserves allowed (createMeeting name count).
Proof.
  intros H. unfold createMeeting. pres.
  match goal with E : (if ?c then _ else _) = Ok _ |- _ =>
    destruct c; [discriminate|]; injection E as <- end.
  unfold evolves, meeting_exists, statuses. cbn [meetings]. split.
  - intros id Hid. rewrite existsb_app, Hid. reflexivity.
  - intros s Hs. rewrite map_app in Hs. apply in_app_or in Hs. apply in_or_app.
    destruct Hs as [Hs|[<-|[]]]; [right; exact Hs|left; exact H].
Qed.
#[local] Hint Resolve createMeeting_preserves : pres.

Lemma updateMeeting_preserves (allowed : list string) (meetingId name : string) :
  preserves allowed (updateMeeting meetingId name).
Proof.
  unfold updateMeeting. pres.
  match goal with E : Ok _ = Ok _ |- _ => injection E as <- end.
  apply evolves_update; [reflexivity|]. intros m. right. reflexivity.
Qed.
#[local] Hint Resolve updateMeeting_preserves : pres.

Lemma startMeeting_preserves (allowed : list string) (meetingId : string) :
  preserves allowed (startMeeting meetingId).
Proof.
  unfold startMeeting. pres.
  match goal with E : Ok _ = Ok _ |- _ => injection E as <- end.
  apply evolves_update; [reflexivity|]. intros m. right. reflexivity.
Qed.
#[local] Hint Resolve startMeeting_preserves : pres.

Lemma endMeeting_preserves (allowed : list string) (meetingId : string)
    (audio : option string) :
  In "processing"%string allowed -> preserves allowed (endMeeting meetingId audio).
Proof.
  intros H. unfold endMeeting. pres.
  match goal with E : Ok _ = Ok _ |- _ => injection E as <- end.
  apply evolves_update; [reflexivity|]. intros m. left. exact H.
Qed.
#[local] Hint Resolve endMeeting_preserves : pres.

Lemma renameSpeaker_preserves (allowed : list string) (meetingId speakerId name : string) :
  preserves allowed (renameSpeaker meetingId speakerId name).
Proof. unfold renameSpeaker. pres. same_meetings. Qed.
#[local] Hint Resolve renameSpeaker_preserves : pres.

Lemma addSpeaker_preserves (allowed : list string) (meetingId name : string) :
  preserves allowed (addSpeaker meetingId name).
Proof. unfold addSpeaker. pres. same_meetings. Qed.
#[local] Hint Resolve addSpeaker_preserves : pres.

(** Every route leaves the statuses among [pending], [processing] and
    [failed] and those that were there. *)
Lemma handle_preserves (allowed : list string) (req : request) :
  In "pending"%string allowed -> In "processing"%string allowed ->
  In "failed"%string allowed ->
  preserves allowed (handle req).
Proof.
  intros Hp Hr Hf. destruct req; unfold handle; pres.
Qed.

(** Roster mode and the final status. *)
Lemma persist_payload_preserves (allowed : list string) (meetingId : string)
    (payload : jsval) :
  (forall st, get_prop payload "status" = Ok st -> In (next_status st) allowed) ->
  preserves allowed (persist_payload meetingId payload).
Proof.
  intros H. unfold persist_payload.
  apply preserves_bind; [pres|]. intros speakers.
  apply preserves_bind.
  - pres.
  - intros _. intros w. unfold bind at 1. unfold lift at 1.
    destruct (get_prop payload "status") as [st| |] eqn:E; try apply evolves_refl; [|exact I].
    revert w. change (preserves allowed (updateMeetingStatus meetingId (next_status st) ;;; ret tt)).
    pose proof (H st eq_refl). pres.
Qed.

(** ** Jobs *)

Lemma meeting_exists_row (db : DB) (id : string) :
  meeting_exists db id = true -> exists row, find_meeting db id = Some row /\ m_id row = id.
Proof.
  unfold meeting_exists, find_meeting. intros H.
  destruct (find (fun m => String.eqb (m_id m) id) (meetings db)) as [row|] eqn:E.
  - exists row. split; [reflexivity|]. apply find_some in E. destruct E as [_ E].
    apply String.eqb_eq. exact E.
  - apply existsb_exists in H. destruct H as (m & Hin & Hm).
    apply (find_none _ _ E) in Hin. congruence.
Qed.

Lemma status_of_set_status (db : DB) (id status : string) :
  meeting_exists db id = true ->
  status_of (update_meeting id (set_status status) db) id = Some status.
Proof.
  intros H. destruct (meeting_exists_row db id H) as (row & F & Hid).
  unfold status_of.
  change (find (fun m => String.eqb (m_id m) id)
            (meetings (update_meeting id (set_status status) db)))
    with (find_meeting (update_meeting id (set_status status) db) id).
  rewrite find_update_meeting by reflexivity. rewrite F. cbn [option_map].
  rewrite Hid, String.eqb_refl. reflexivity.
Qed.

Lemma updateMeetingStatus_then (meetingId status : string) (w : world) :
  (updateMeetingStatus meetingId status ;;; ret tt) w
  = Done tt (with_db w (update_meeting meetingId (set_status status) (w_db w))).
Proof. reflexivity. Qed.

Lemma status_of_mark_failed (meetingId : string) (w : world) :
  meeting_exists (w_db w) meetingId = true ->
  status_of (w_db (mark_failed meetingId w)) meetingId = Some "failed"%string.
Proof. intros H. unfold mark_failed. cbn [w_db with_db]. apply status_of_set_status, H. Qed.

(** A job, case by case. *)
Lemma handleDiarization_cases (meetingId audioPath : string) (env : job_env) (w : world) :
  handleDiarization meetingId audioPath env w
  = if isEmpty audioPath || negb (env_audio_exists env)
    then Done tt (mark_failed meetingId w)
    else
      match runDiarization meetingId audioPath (env_audio_exists env) (env_process env) with
      | Ok result =>
          match resolve_payload (r_stdout result) (env_result_file env) with
          | Ok payload =>
              match persist_payload meetingId payload w with
              | Done _ w' => Done tt w'
              | Thrown _ w1 => Done tt (mark_failed meetingId w1)
              | NotModelled => NotModelled
              end
          | Throw _ => Done tt (mark_failed meetingId w)
          | Unmodelled => NotModelled
          end
      | Throw _ => Done tt (mark_failed meetingId w)
      | Unmodelled => NotModelled
      end.
Proof.
  unfold handleDiarization.
  destruct (isEmpty audioPath); [reflexivity|].
  destruct (env_audio_exists env); [|reflexivity].
  cbn [negb orb]. unfold try_catch, bind, lift.
  destruct (runDiarization meetingId audioPath true (env_process env)); try reflexivity.
  destruct (resolve_payload _ _); try reflexivity.
  destruct (persist_payload meetingId a0 w) as [[] ?|? ?|]; reflexivity.
Qed.

Lemma runDiarization_ok_audio (meetingId audioPath : string) (audio_exists : bool)
    (proc : process_outcome) (result : diarization_result) :
  runDiarization meetingId audioPath audio_exists proc = Ok result ->
  isEmpty audioPath || negb audio_exists = false.
Proof.
  unfold runDiarization. destruct (isEmpty audioPath || negb audio_exists);
    [discriminate|reflexivity].
Qed.

(** When the payload is persisted the status is the one that the payload
    carries, or [done]. *)
Lemma persist_payload_done (meetingId : string) (payload : jsval) (w w' : world) :
  meeting_exists (w_db w) meetingId = true ->
  persist_payload meetingId payload w = Done tt w' ->
  exists st,
    get_prop payload "status" = Ok st /\
    status_of (w_db w') meetingId = Some (next_status st).
Proof.
  intros Hm. unfold persist_payload.
  unfold bind at 1. unfold lift at 1.
  destruct (get_prop payload "speakers") as [speakers| |]; try discriminate.
  unfold bind at 1.
  match goal with |- match ?c w with _ => _ end = _ -> _ =>
    assert (P : preserves [] c) by pres;
    specialize (P w); destruct (c w) as [u w2|e w2|]; try discriminate
  end.
  unfold bind at 1. unfold lift at 1.
  destruct (get_prop payload "status") as [st| |]; try discriminate.
  rewrite updateMeetingStatus_then. intros E. injection E as <-.
  exists st. split; [reflexivity|]. cbn [w_db with_db].
  apply status_of_set_status. apply P. exact Hm.
Qed.

(** A persistence failure leaves the meetings where they were. *)
Lemma persist_payload_thrown (meetingId : string) (payload : jsval) (w w1 : world)
    (e : js_error) :
  meeting_exists (w_db w) meetingId = true ->
  persist_payload meetingId payload w = Thrown e w1 ->
  meeting_exists (w_db w1) meetingId = true.
Proof.
  intros Hm E.
  pose proof (persist_payload_preserves
                (match get_prop payload "status" with
                 | Ok st => [next_status st]
                 | _ => []
                 end) meetingId payload) as P.
  assert (Q : forall st, get_prop payload "status" = Ok st ->
                         In (next_status st)
                           (match get_prop payload "status" with
                            | Ok st => [next_status st]
                            | _ => []
                            end)).
  { intros st Hst. rewrite Hst. left. reflexivity. }
  specialize (P Q w). rewrite E in P. apply P. exact Hm.
Qed.

(** ** The job launcher *)

Lemma is_zero_exit_false (code : option Z) : code <> Some 0%Z -> is_zero_exit code = false.
Proof.
  destruct code as [z|]; [|reflexivity]. simpl. intros H.
  apply Z.eqb_neq. congruence.
Qed.

(** C5.  A process that ends with an exit code other than zero (or is
    killed by a signal) makes [runDiarization] fail with an error whose
    message ends with the text of the error stream, or of the output
    stream when the error stream is empty, and the job leaves the meeting
    in status [failed].  Exit code zero gives the captured output and the
    output directory, and nothing else gives a result. *)
Theorem process_exit_contract (meetingId audioPath : string) (code : option Z)
    (stdout stderr : string) :
  audioPath <> EmptyString ->
  (code <> Some 0%Z ->
     runDiarization meetingId audioPath true (Closed code stdout stderr)
     = Throw (Error ("Diarization process exited with code " ++ exit_code_text code
                       ++ "." ++ LFs ++ (if isEmpty stderr then stdout else stderr))) /\
     forall (env : job_env) (w : world),
       env_process env = Closed code stdout stderr ->
       meeting_exists (w_db w) meetingId = true ->
       exists w',
         handleDiarization meetingId audioPath env w = Done tt w' /\
         status_of (w_db w') meetingId = Some "failed"%string) /\
  runDiarization meetingId audioPath true (Closed (Some 0%Z) stdout stderr)
  = Ok {| r_stdout := stdout; r_stderr := stderr; r_outputDir := outputDir_of meetingId |} /\
  (forall (audio_exists : bool) (proc : process_outcome) (r : diarization_result),
      runDiarization meetingId audioPath audio_exists proc = Ok r ->
      proc = Closed (Some 0%Z) (r_stdout r) (r_stderr r) /\
      r_outputDir r = outputDir_of meetingId).
Proof.
  intros Ha. apply isEmpty_false in Ha.
  split; [|split].
  - intros Hc. apply is_zero_exit_false in Hc.
    assert (E : runDiarization meetingId audioPath true (Closed code stdout stderr)
                = Throw (Error ("Diarization process exited with code "
                                  ++ exit_code_text code ++ "." ++ LFs
                                  ++ (if isEmpty stderr then stdout else stderr)))).
    { unfold runDiarization. rewrite Ha, Hc. reflexivity. }
    split; [exact E|]. intros env w Hp Hm.
    exists (mark_failed meetingId w). split; [|apply status_of_mark_failed, Hm].
    rewrite handleDiarization_cases, Ha.
    destruct (env_audio_exists env); [|reflexivity].
    cbn [negb orb]. rewrite Hp, E. reflexivity.
  - unfold runDiarization. rewrite Ha. reflexivity.
  - intros audio_exists proc r. unfold runDiarization. rewrite Ha.
    destruct audio_exists; [|discriminate]. cbn [negb orb].
    destruct proc as [e|c out err]; [discriminate|].
    destruct c as [z|]; [|discriminate]. cbn [is_zero_exit].
    destruct (Z.eqb_spec z 0) as [->|]; [|discriminate].
    cbn [negb]. intros H. injection H as <-. split; reflexivity.
Qed.

Lemma process_exit_contract_witness :
  "data/audio/uuid-0/rec.wav"%string <> EmptyString /\
  Some 1%Z <> Some 0%Z /\
  runDiarization "uuid-0" "data/audio/uuid-0/rec.wav" true
    (Closed (Some 1%Z) "loading model" "CUDA out of memory")
  = Throw (Error ("Diarization process exited with code 1." ++ LFs ++ "CUDA out of memory")).
Proof.
  split; [discriminate|]. split; [discriminate|].
  destruct (process_exit_contract "uuid-0" "data/audio/uuid-0/rec.wav" (Some 1%Z)
              "loading model" "CUDA out of memory") as [H _]; [discriminate|].
  destruct H as [E _]; [discriminate|]. exact E.
Defined.


Example job_exit_1_fails :
  match handleDiarization "uuid-0" "data/audio/uuid-0/rec.wav" env_exit_1 world1 with
  | Done _ w' => status_of (w_db w') "uuid-0"
  | _ => None
  end = Some "failed"%string.
Proof. reflexivity. Qed.

(** ** The output resolver *)

Lemma scan_lines_skip (fails rest : list string) :
  Forall unparseable fails -> scan_lines (fails ++ rest) = scan_lines rest.
Proof.
  induction 1 as [|l fails [e He] _ IH]; [reflexivity|].
  cbn [app scan_lines]. rewrite He. exact IH.
Qed.

Lemma payload_of_stdout_scan (stdout : string) :
  payload_of_stdout stdout = scan_lines (rev (nonblank_lines (trim stdout))).
Proof.
  unfold payload_of_stdout. destruct (isEmpty (trim stdout)) eqn:E; [|reflexivity].
  apply isEmpty_true in E. rewrite E. reflexivity.
Qed.

Lemma payload_of_stdout_found (stdout : string) (earlier later : list string)
    (line : string) (v : jsval) :
  nonblank_lines (trim stdout) = earlier ++ line :: later ->
  Forall unparseable later ->
  JSON_parse (trim line) = Ok v ->
  payload_of_stdout stdout = Ok v.
Proof.
  intros H F P. rewrite payload_of_stdout_scan, H, rev_app_distr. cbn [rev].
  rewrite <- app_assoc, scan_lines_skip by (apply Forall_rev; exact F).
  cbn [app scan_lines]. rewrite P. reflexivity.
Qed.

Lemma payload_of_stdout_none (stdout : string) :
  Forall unparseable (nonblank_lines (trim stdout)) ->
  payload_of_stdout stdout = Ok JUndefined.
Proof.
  intros F. rewrite payload_of_stdout_scan.
  rewrite <- (app_nil_r (rev _)), scan_lines_skip by (apply Forall_rev; exact F).
  reflexivity.
Qed.

(** C2 (amended).  The scan takes the value of the last line that parses;
    when that value is truthy it is the payload.  When no line parses, or
    when the value of the last line that parses is falsy, the payload is
    that of the result file, which must parse to a truthy value; without
    such a file the job fails with [Diarization payload missing], and a
    job that has no payload leaves the meeting in status [failed]. *)
Theorem output_resolver_contract (stdout : string) (result_file : option string) :
  (forall earlier line later v,
      nonblank_lines (trim stdout) = earlier ++ line :: later ->
      Forall unparseable later ->
      JSON_parse (trim line) = Ok v ->
      payload_of_stdout stdout = Ok v /\
      (truthy v = true -> resolve_payload stdout result_file = Ok v)) /\
  (Forall unparseable (nonblank_lines (trim stdout)) ->
   payload_of_stdout stdout = Ok JUndefined) /\
  (forall v,
      payload_of_stdout stdout = Ok v -> truthy v = false ->
      (result_file = None -> resolve_payload stdout result_file = Throw payload_missing) /\
      (forall content v',
          result_file = Some content -> JSON_parse content = Ok v' ->
          resolve_payload stdout result_file
          = if truthy v' then Ok v' else Throw payload_missing) /\
      (forall content e,
          result_file = Some content -> JSON_parse content = Throw e ->
          resolve_payload stdout result_file = Throw e)) /\
  (forall meetingId audioPath env w result e,
      runDiarization meetingId audioPath (env_audio_exists env) (env_process env)
      = Ok result ->
      r_stdout result = stdout -> env_result_file env = result_file ->
      resolve_payload stdout result_file = Throw e ->
      meeting_exists (w_db w) meetingId = true ->
      exists w',
        handleDiarization meetingId audioPath env w = Done tt w' /\
        status_of (w_db w') meetingId = Some "failed"%string).
Proof.
  split; [|split; [|split]].
  - intros earlier line later v H F P.
    pose proof (payload_of_stdout_found _ _ _ _ _ H F P) as E.
    split; [exact E|]. intros T. unfold resolve_payload. rewrite E. cbn [rbind].
    rewrite T. cbn [negb rbind]. rewrite T. reflexivity.
  - apply payload_of_stdout_none.
  - intros v E T. unfold resolve_payload. rewrite E. cbn [rbind]. rewrite T. cbn [negb].
    split; [|split].
    + intros ->. cbn [rbind]. rewrite T. reflexivity.
    + intros content v' -> P. rewrite P. cbn [rbind].
      destruct (truthy v'); reflexivity.
    + intros content e -> P. rewrite P. reflexivity.
  - intros meetingId audioPath env w result e R <- <- E Hm.
    exists (mark_failed meetingId w). split; [|apply status_of_mark_failed, Hm].
    rewrite handleDiarization_cases, (runDiarization_ok_audio _ _ _ _ _ R), R, E.
    reflexivity.
Qed.


Lemma output_resolver_contract_witness :
  nonblank_lines (trim stdout_with_logs)
  = ["log line 1"; "log line 2"] ++ ("{" ++ quoted "speakers" ++ ":[]}")%string :: [] /\
  JSON_parse (trim ("{" ++ quoted "speakers" ++ ":[]}")) = Ok (JObj [("speakers", JArr [])]) /\
  resolve_payload stdout_with_logs None = Ok (JObj [("speakers", JArr [])]).
Proof.
  split; [reflexivity|]. split; [reflexivity|].
  destruct (output_resolver_contract stdout_with_logs None) as [H _].
  destruct (H ["log line 1"; "log line 2"]%string ("{" ++ quoted "speakers" ++ ":[]}")%string []
              (JObj [("speakers", JArr [])]) eq_refl (Forall_nil _) eq_refl) as [_ T].
  exact (T eq_refl).
Defined.

Example resolver_falls_back_to_file :
  resolve_payload ("starting" ++ LFs ++ "done" ++ LFs) (Some result_file_example)
  = Ok (JObj [("speakers", JArr [JObj [("label", JStr "A")]])]) /\
  resolve_payload ("starting" ++ LFs ++ "done" ++ LFs) None = Throw payload_missing.
Proof. split; reflexivity. Qed.

(** C2 as stated fails when the last line that parses is [null]: that
    line ends the scan, its value is not the payload, and no earlier line
    is tried.  Without a result file the job fails although a line of the
    output holds a result; with one, the payload is that of the file. *)
Lemma resolver_stops_at_falsy_line :
  nonblank_lines (trim stdout_then_null)
  = [("{" ++ quoted "speakers" ++ ":[]}")%string; "null"%string] /\
  JSON_parse (trim "null") = Ok JNull /\
  JSON_parse (trim ("{" ++ quoted "speakers" ++ ":[]}")) = Ok (JObj [("speakers", JArr [])]) /\
  resolve_payload stdout_then_null None = Throw payload_missing /\
  resolve_payload stdout_then_null (Some result_file_example)
  = Ok (JObj [("speakers", JArr [JObj [("label", JStr "A")]])]).
Proof. repeat split; reflexivity. Qed.

(** ** The lifecycle of a meeting *)

Lemma supplied_status_spec (meetingId audioPath : string) (env : job_env)
    (result : diarization_result) (payload st : jsval) :
  runDiarization meetingId audioPath (env_audio_exists env) (env_process env) = Ok result ->
  resolve_payload (r_stdout result) (env_result_file env) = Ok payload ->
  get_prop payload "status" = Ok st ->
  In (next_status st) ("done"%string :: supplied_status meetingId audioPath env).
Proof.
  intros R P S. unfold supplied_status. rewrite R, P, S.
  destruct st as [| | | |s| |]; try (left; reflexivity).
  cbn [next_status]. destruct (isEmpty s); [left; reflexivity|right; left; reflexivity].
Qed.

Lemma mark_failed_evolves (allowed : list string) (meetingId : string) (w : world) :
  In "failed"%string allowed ->
  evolves allowed (w_db w) (w_db (mark_failed meetingId w)).
Proof.
  intros H. unfold mark_failed. cbn [w_db with_db].
  apply evolves_update; [reflexivity|]. intros m. left. exact H.
Qed.

(** A job leaves every status among [failed], [done], the status that its
    payload carries, and those that were there. *)
Lemma handleDiarization_preserves (allowed : list string) (meetingId audioPath : string)
    (env : job_env) :
  In "failed"%string allowed -> In "done"%string allowed ->
  incl (supplied_status meetingId audioPath env) allowed ->
  preserves allowed (handleDiarization meetingId audioPath env).
Proof.
  intros Hf Hd Hs w. rewrite handleDiarization_cases.
  destruct (isEmpty audioPath || negb (env_audio_exists env));
    [apply mark_failed_evolves, Hf|].
  destruct (runDiarization _ _ _ _) as [result|e|] eqn:R;
    [|apply mark_failed_evolves, Hf|exact I].
  destruct (resolve_payload _ _) as [payload|e|] eqn:P;
    [|apply mark_failed_evolves, Hf|exact I].
  assert (Q : preserves allowed (persist_payload meetingId payload)).
  { apply persist_payload_preserves. intros st S.
    destruct (supplied_status_spec _ _ _ _ _ _ R P S) as [<-|H]; [exact Hd|].
    apply Hs. exact H. }
  specialize (Q w).
  destruct (persist_payload meetingId payload w) as [u w'|e w1|]; [exact Q| |exact I].
  eapply evolves_trans; [exact Q|]. apply mark_failed_evolves, Hf.
Qed.

Lemma evolves_statuses (allowed : list string) (db db' : DB) (known : list string) :
  evolves allowed db db' ->
  (forall row, In row (meetings db) -> In (m_status row) known) ->
  incl allowed known ->
  forall row, In row (meetings db') -> In (m_status row) known.
Proof.
  intros [_ E] H A row Hin.
  assert (S : In (m_status row) (statuses db')) by (apply in_map; exact Hin).
  apply E in S. apply in_app_or in S. destruct S as [S|S]; [apply A; exact S|].
  apply in_map_iff in S. destruct S as (r & <- & Hr). auto.
Qed.

(** In every state that the server reaches, the status of every meeting is
    one of [pending], [processing], [done] and [failed], or is a status
    that an analysis result has carried. *)
Lemma reachable_statuses (w : world) (sup : list string) :
  reachable w sup ->
  forall row, In row (meetings (w_db w)) ->
              In (m_status row) (lifecycle_statuses ++ sup).
Proof.
  induction 1 as [w E|w w' sup req r jobs _ IH S|w w' sup meetingId audioPath env _ IH J].
  - rewrite E. intros row [].
  - assert (P : evolves lifecycle_statuses (w_db w) (w_db w')).
    { pose proof (handle_preserves lifecycle_statuses req) as P.
      specialize (P ltac:(simpl; tauto) ltac:(simpl; tauto) ltac:(simpl; tauto) w).
      unfold serve in S. destruct (handle req w) as [[r0 j0] w0|e w0|];
        try discriminate; injection S as <- <- <-; try exact P.
      all: injection S as <-; exact P. }
    apply (evolves_statuses _ _ _ _ P IH). apply incl_appl, incl_refl.
  - assert (P : evolves (lifecycle_statuses ++ supplied_status meetingId audioPath env)
                  (w_db w) (w_db w')).
    { pose proof (handleDiarization_preserves
                    (lifecycle_statuses ++ supplied_status meetingId audioPath env)
                    meetingId audioPath env) as P.
      specialize (P ltac:(simpl; tauto) ltac:(simpl; tauto)
                    ltac:(apply incl_appr, incl_refl) w).
      rewrite J in P. exact P. }
    apply (evolves_statuses _ _ _ _ P).
    + intros row Hin. specialize (IH row Hin). apply in_app_or in IH.
      apply in_or_app. destruct IH as [H|H]; [left; exact H|].
      right. apply in_or_app. right. exact H.
    + intros s Hs. apply in_app_or in Hs. apply in_or_app.
      destruct Hs as [H|H]; [left; exact H|]. right. apply in_or_app. left. exact H.
Qed.

(** The status texts on record are not empty. *)
Lemma reachable_supplied (w : world) (sup : list string) :
  reachable w sup -> forall s, In s sup -> s <> EmptyString.
Proof.
  induction 1 as [w E|w w' sup req r jobs _ IH S|w w' sup meetingId audioPath env _ IH J];
    [intros s []|exact IH|].
  intros s Hin. apply in_app_or in Hin. destruct Hin as [Hin|Hin]; [|exact (IH s Hin)].
  unfold supplied_status in Hin.
  destruct (runDiarization _ _ _ _) as [result|e|]; try contradiction.
  destruct (resolve_payload _ _) as [payload|e|]; try contradiction.
  destruct (get_prop payload "status") as [[| | | |t| |]|e|]; try contradiction.
  destruct t as [|c t]; [contradiction|].
  destruct Hin as [<-|[]]. discriminate.
Qed.

(** C1 (amended).  In every state that the server reaches the status of
    every meeting is one of [pending], [processing], [done], [failed] or a
    non-empty status text that an analysis result has carried.  A job on a meeting
    of such a state whose payload is extracted and persisted sets the
    status to the text that the payload carries as [status], when that is
    a non-empty text, and to [done] otherwise; a job that meets any error
    (no audio, the launch, the process, the payload, the persistence)
    sets it to [failed]. *)
Theorem job_status_contract (w : world) (sup : list string)
    (meetingId audioPath : string) (env : job_env) :
  reachable w sup ->
  meeting_exists (w_db w) meetingId = true ->
  (forall row, In row (meetings (w_db w)) ->
               In (m_status row) (lifecycle_statuses ++ sup)) /\
  (forall s, In s sup -> s <> EmptyString) /\
  (forall result payload w',
      runDiarization meetingId audioPath (env_audio_exists env) (env_process env)
      = Ok result ->
      resolve_payload (r_stdout result) (env_result_file env) = Ok payload ->
      persist_payload meetingId payload w = Done tt w' ->
      handleDiarization meetingId audioPath env w = Done tt w' /\
      exists st,
        get_prop payload "status" = Ok st /\
        status_of (w_db w') meetingId = Some (next_status st) /\
        (forall s, st = JStr s -> s <> EmptyString -> next_status st = s) /\
        ((forall s, st = JStr s -> s = EmptyString) -> next_status st = "done"%string)) /\
  (isEmpty audioPath || negb (env_audio_exists env) = true ->
   handleDiarization meetingId audioPath env w = Done tt (mark_failed meetingId w)) /\
  (forall e,
      runDiarization meetingId audioPath (env_audio_exists env) (env_process env)
      = Throw e ->
      handleDiarization meetingId audioPath env w = Done tt (mark_failed meetingId w)) /\
  (forall result e,
      runDiarization meetingId audioPath (env_audio_exists env) (env_process env)
      = Ok result ->
      resolve_payload (r_stdout result) (env_result_file env) = Throw e ->
      handleDiarization meetingId audioPath env w = Done tt (mark_failed meetingId w)) /\
  (forall result payload e w1,
      runDiarization meetingId audioPath (env_audio_exists env) (env_process env)
      = Ok result ->
      resolve_payload (r_stdout result) (env_result_file env) = Ok payload ->
      persist_payload meetingId payload w = Thrown e w1 ->
      handleDiarization meetingId audioPath env w = Done tt (mark_failed meetingId w1) /\
      status_of (w_db (mark_failed meetingId w1)) meetingId = Some "failed"%string) /\
  status_of (w_db (mark_failed meetingId w)) meetingId = Some "failed"%string.
Proof.
  intros Hr Hm.
  split; [exact (reachable_statuses w sup Hr)|].
  split; [exact (reachable_supplied w sup Hr)|].
  split.
  { intros result payload w' R P E. split.
    - rewrite handleDiarization_cases, (runDiarization_ok_audio _ _ _ _ _ R), R, P, E.
      reflexivity.
    - destruct (persist_payload_done _ _ _ _ Hm E) as (st & S1 & S2).
      exists st. split; [exact S1|]. split; [exact S2|]. split.
      + intros s -> Hs. cbn [next_status]. apply isEmpty_false in Hs. rewrite Hs. reflexivity.
      + intros H. destruct st as [| | | |s| |]; try reflexivity.
        rewrite (H s eq_refl). reflexivity. }
  split.
  { intros H. rewrite handleDiarization_cases, H. reflexivity. }
  split.
  { intros e R. rewrite handleDiarization_cases, R.
    destruct (isEmpty audioPath || negb (env_audio_exists env)); reflexivity. }
  split.
  { intros result e R P.
    rewrite handleDiarization_cases, (runDiarization_ok_audio _ _ _ _ _ R), R, P.
    reflexivity. }
  split.
  { intros result payload e w1 R P E. split.
    - rewrite handleDiarization_cases, (runDiarization_ok_audio _ _ _ _ _ R), R, P, E.
      reflexivity.
    - apply status_of_mark_failed. exact (persist_payload_thrown _ _ _ _ _ Hm E). }
  apply status_of_mark_failed, Hm.
Qed.


Lemma reachable_world1 : reachable world1 [].
Proof.
  destruct (serve (POST_meetings (JStr "Weekly sync") JUndefined) world0)
    as [[[r jobs] w1]|] eqn:E; [|vm_compute in E; discriminate].
  apply (reach_request world0 world1 [] (POST_meetings (JStr "Weekly sync") JUndefined)
           r jobs); [apply reach_start; reflexivity|].
  rewrite E. unfold world1, world_after. rewrite E. reflexivity.
Qed.

Lemma job_status_contract_witness :
  reachable world1 [] /\
  meeting_exists (w_db world1) "uuid-0" = true /\
  exists w',
    handleDiarization "uuid-0" "data/audio/uuid-0/rec.wav" env_two_speakers world1
    = Done tt w' /\
    status_of (w_db w') "uuid-0" = Some "done"%string.
Proof.
  split; [exact reachable_world1|]. split; [reflexivity|].
  destruct (job_status_contract world1 [] "uuid-0" "data/audio/uuid-0/rec.wav"
              env_two_speakers reachable_world1 eq_refl) as (_ & _ & H & _).
  destruct (persist_payload "uuid-0"
              (JObj [("speakers", JArr [JObj [("label", JStr "SPEAKER_00")];
                                        JObj [("label", JStr "SPEAKER_01")]]);
                     ("segments", JArr [JObj [("start", JNum (Fin 5 (-1)));
                                              ("end", JNum (Fin 225 (-2)));
                                              ("text", JStr "hello");
                                              ("speaker", JStr "SPEAKER_01")]])])
              world1) as [[] w'|e w1|] eqn:E; [|vm_compute in E; discriminate..].
  destruct (H _ _ w' eq_refl eq_refl E) as (J & st & S1 & S2 & _).
  exists w'. split; [exact J|].
  vm_compute in S1. injection S1 as <-. exact S2.
Defined.

Example job_two_speakers_run :
  match handleDiarization "uuid-0" "data/audio/uuid-0/rec.wav" env_two_speakers world1 with
  | Done _ w' =>
      (status_of (w_db w') "uuid-0",
       map label_and_name (speakers_of (w_db w') "uuid-0"),
       map (fun g => (g_speaker_id g, g_start_ms g, g_end_ms g, g_transcript g))
         (segments (w_db w')))
  | _ => (None, [], [])
  end
  = (Some "done"%string,
     [("SPEAKER_00", "SPEAKER_00"); ("SPEAKER_01", "SPEAKER_01")]%string,
     [(Some "uuid-4"%string, Fin 5 2, Fin 225 1, "hello"%string)]).
Proof. vm_compute. reflexivity. Qed.

(** C1 as stated fails on a result that carries a status: the payload is
    extracted and persisted, and the meeting ends with that status, which
    is neither [done] nor any of the four lifecycle statuses, in a state
    that the server reaches. *)
Lemma job_takes_status_of_payload :
  resolve_payload stdout_partial None = Ok payload_partial /\
  persist_payload "uuid-0" payload_partial world1 = Done tt world_partial /\
  handleDiarization "uuid-0" "data/audio/uuid-0/rec.wav" env_partial world1
  = Done tt world_partial /\
  status_of (w_db world_partial) "uuid-0" = Some "partial"%string /\
  ~ In "partial"%string lifecycle_statuses /\
  reachable world_partial ["partial"%string].
Proof.
  assert (J : handleDiarization "uuid-0" "data/audio/uuid-0/rec.wav" env_partial world1
              = Done tt world_partial) by reflexivity.
  split; [reflexivity|]. split; [reflexivity|]. split; [exact J|].
  split; [reflexivity|]. split.
  - simpl. intros [H|[H|[H|[H|[]]]]]; discriminate.
  - exact (reach_job world1 world_partial [] _ _ env_partial reachable_world1 J).
Qed.

(** ** The plain-text rewriter *)

Example text_rewriter_line_start :
  replaceSpeakerPrefixes "Speaker 2: good morning" [("Speaker 2", "Bob")]
  = Ok "Bob: good morning"%string.
Proof. reflexivity. Qed.

Example text_rewriter_mid_line :
  replaceSpeakerPrefixes "I said Speaker 2: was right" [("Speaker 2", "Bob")]
  = Ok "I said Speaker 2: was right"%string.
Proof. reflexivity. Qed.

Example text_rewriter_after_line_break :
  replaceSpeakerPrefixes ("Speaker 1: a" ++ CRLF ++ "Speaker 2 : b" ++ LFs ++ "x Speaker 2: c")
    [("Speaker 2", "Bob")]
  = Ok ("Speaker 1: a" ++ CRLF ++ "Bob : b" ++ LFs ++ "x Speaker 2: c")%string.
Proof. reflexivity. Qed.

(** C3, the code at failing inputs.  [escapeRegExp] escapes nothing in a
    label such as [Speaker.1], so the label is read as a pattern: its dot
    stands for any character and a line that does not hold the label is
    rewritten; the parentheses of [Speaker (1)] form a group and the line
    that holds the label is not rewritten; the bar of [A|B] splits the
    pattern and a label in the middle of a line is rewritten; an open
    parenthesis makes the rewriter throw. *)
Theorem text_rewriter_reads_label_as_pattern :
  escapeRegExp "Speaker.1" = "Speaker.1"%string /\
  replaceSpeakerPrefixes "SpeakerX1: hi" [("Speaker.1", "Bob")] = Ok "Bob: hi"%string /\
  replaceSpeakerPrefixes "Speaker (1): hi" [("Speaker (1)", "Bob")]
  = Ok "Speaker (1): hi"%string /\
  replaceSpeakerPrefixes "I said A|B: yes" [("A|B", "Bob")]
  = Ok "I said A|undefinedBob: yes"%string /\
  (exists message,
      replaceSpeakerPrefixes "Speaker (: hi" [("Speaker (", "Bob")]
      = Throw (SyntaxError message)).
Proof. repeat split; try reflexivity. eexists. reflexivity. Qed.

(** ** Export-sync *)

Example world_renamed_speakers :
  map label_and_name (speakers_of (w_db world_renamed) "uuid-0")
  = [("Speaker 1", "Alice"); ("Speaker 2", "Speaker 1")]%string.
Proof. reflexivity. Qed.

(** C4, the code at a failing input.  With [Speaker 1] shown as [Alice]
    and [Speaker 2] shown as [Speaker 1], the first run of export-sync
    rewrites the four files; the second run, with the same display names,
    reports the text, subtitle and CSV files as changed again and rewrites
    the lines of [Speaker 2], which the first run had named [Speaker 1],
    to [Alice]. *)
Theorem export_sync_second_run_changes_files :
  sync_report "2025-01-01T00:10:00.000Z" exports_fs
  = Some (200,
          {| updated := true;
             files := ["transcript.txt"; "segments.srt"; "segments.csv"; "diarization.json"] |},
          Some ("Alice: hello" ++ LFs ++ "Speaker 1: hi there" ++ LFs),
          Some ("speaker,start,end,text" ++ LFs ++ "Alice,0,1200,hello" ++ LFs
                  ++ "Speaker 1,1200,2000,hi there" ++ LFs))%string /\
  sync_report "2025-01-01T00:20:00.000Z" exports_fs_once
  = Some (200,
          {| updated := true;
             files := ["transcript.txt"; "segments.srt"; "segments.csv"] |},
          Some ("Alice: hello" ++ LFs ++ "Alice: hi there" ++ LFs),
          Some ("speaker,start,end,text" ++ LFs ++ "Alice,0,1200,hello" ++ LFs
                  ++ "Alice,1200,2000,hi there" ++ LFs))%string.
Proof. split; vm_compute; reflexivity. Qed.

Lemma resetSpeakersInternal_split (meetingId : string) (v : jsval) (now : string) :
  resetSpeakersInternal meetingId v now
  = (run_stmt (fun db => Ok (deleteSpeakersStmt meetingId db)) ;;;
     insert_roster meetingId v now).
Proof. reflexivity. Qed.

Create HintDb keep.

(** ** Relations that every statement keeps

    [R] relates the database before a statement to the database after it,
    for the statements on the meetings of [scope]. *)

Section Keeping.

Variable R : DB -> DB -> Prop.
Variable scope : string -> Prop.
Hypothesis R_refl : forall db, R db db.
Hypothesis R_trans : forall a b c, R a b -> R b c -> R a c.

Lemma keeps_ret {A} (a : A) : keeps R (ret a).
Proof. intros w. apply R_refl. Qed.

Lemma keeps_throw {A} (e : js_error) : keeps R (@throw world A e).
Proof. intros w. apply R_refl. Qed.

Lemma keeps_lift {A} (r : result A) : keeps R (lift r).
Proof. intros w. unfold lift. destruct r; try apply R_refl. exact I. Qed.

Lemma keeps_get_db : keeps R get_db.
Proof. intros w. apply R_refl. Qed.

Lemma keeps_randomUUID : keeps R randomUUID.
Proof. intros w. apply R_refl. Qed.

Lemma keeps_Date_now : keeps R Date_now.
Proof. intros w. apply R_refl. Qed.

Lemma keeps_getMeeting (meetingId : string) : keeps R (getMeeting meetingId).
Proof. intros w. apply R_refl. Qed.

Lemma keeps_bind {A B} (c : M A) (k : A -> M B) :
  keeps R c -> (forall a, keeps R (k a)) -> keeps R (bind c k).
Proof.
  intros Hc Hk w. unfold bind. specialize (Hc w).
  destruct (c w) as [a w1|e w1|]; [|exact Hc|exact I].
  specialize (Hk a w1). destruct (k a w1); try exact I; eapply R_trans; eassumption.
Qed.

Lemma keeps_try_catch {A} (body : M A) (handler : js_error -> M A) :
  keeps R body -> (forall e, keeps R (handler e)) -> keeps R (try_catch body handler).
Proof.
  intros Hb Hh w. unfold try_catch. specialize (Hb w).
  destruct (body w) as [a w1|e w1|]; [exact Hb| |exact I].
  specialize (Hh e w1). destruct (handler e w1); try exact I; eapply R_trans; eassumption.
Qed.

Lemma keeps_transaction {A} (body : M A) : keeps R body -> keeps R (transaction body).
Proof.
  intros Hb w. unfold transaction. specialize (Hb w).
  destruct (body w) as [a w1|e w1|]; [exact Hb| |exact I].
  cbn [w_db with_db]. apply R_refl.
Qed.

Lemma keeps_forEach {A} (body : A -> nat -> M unit) (items : list A) :
  (forall item index, keeps R (body item index)) ->
  forall index, keeps R (forEach body index items).
Proof.
  intros Hb. induction items as [|x items IH]; intros index; cbn [forEach].
  - apply keeps_ret.
  - apply keeps_bind; [apply Hb|]. intros _. apply IH.
Qed.

Lemma keeps_run_stmt (stmt : DB -> result DB) :
  (forall db db', stmt db = Ok db' -> R db db') -> keeps R (run_stmt stmt).
Proof.
  intros H w. unfold run_stmt, bind, get_db, lift, put_db.
  destruct (stmt (w_db w)) as [db'| |] eqn:E; try apply R_refl; [|exact I].
  cbn [w_db with_db]. apply H. exact E.
Qed.

#[local] Hint Resolve keeps_ret keeps_throw keeps_lift keeps_get_db keeps_randomUUID
  keeps_Date_now keeps_getMeeting : keep.

(** One rule of the calculus: an operation already treated, else the shape
    of the computation. *)
Ltac keeps_step :=
  first
    [ solve [auto 3 with keep]
    | apply keeps_run_stmt; intros ? ? ?
    | apply keeps_transaction
    | apply keeps_try_catch; [|intros ?]
    | apply keeps_forEach; intros ? ?
    | match goal with
      | |- keeps _ (match ?x with _ => _ end) => destruct x
      | |- keeps _ (if ?x then _ else _) => destruct x
      | |- keeps _ (bind _ _) => apply keeps_bind; [|intros ?]
      end ].

Ltac keeps_all := cbv zeta; repeat keeps_step.

(** *** The statements on speakers *)

Hypothesis R_delete_speakers :
  forall id db, scope id -> R db (deleteSpeakersStmt id db).
Hypothesis R_insert_speaker :
  forall id meetingId l d now db db',
    scope meetingId -> insertSpeakerStmt id meetingId l d now db = Ok db' -> R db db'.

Lemma insert_defaults_keeps (meetingId now : string) (n index : nat) :
  scope meetingId -> keeps R (insert_defaults meetingId now index n).
Proof.
  intros Hs. revert index. induction n as [|n IH]; intros index; cbn [insert_defaults].
  - apply keeps_ret.
  - keeps_all. eapply R_insert_speaker; eassumption.
Qed.
#[local] Hint Resolve insert_defaults_keeps : keep.

Lemma insert_roster_keeps (meetingId : string) (v : jsval) (now : string) :
  scope meetingId -> keeps R (insert_roster meetingId v now).
Proof.
  intros Hs. unfold insert_roster. keeps_all; eapply R_insert_speaker; eassumption.
Qed.

Lemma resetSpeakersInternal_keeps (meetingId : string) (v : jsval) (now : string) :
  scope meetingId -> keeps R (resetSpeakersInternal meetingId v now).
Proof.
  intros Hs. unfold resetSpeakersInternal. keeps_all;
    match goal with
    | H : Ok _ = Ok _ |- _ => injection H as <-; apply R_delete_speakers; exact Hs
    | H : insertSpeakerStmt _ _ _ _ _ _ = Ok _ |- _ => eapply R_insert_speaker; eassumption
    end.
Qed.
#[local] Hint Resolve resetSpeakersInternal_keeps : keep.

Lemma resetSpeakers_keeps (meetingId : string) (v : jsval) :
  scope meetingId -> keeps R (resetSpeakers meetingId v).
Proof. intros Hs. unfold resetSpeakers. keeps_all. Qed.
#[local] Hint Resolve resetSpeakers_keeps : keep.

Lemma addSpeaker_keeps (meetingId name : string) :
  scope meetingId -> keeps R (addSpeaker meetingId name).
Proof. intros Hs. unfold addSpeaker. keeps_all. eapply R_insert_speaker; eassumption. Qed.
#[local] Hint Resolve addSpeaker_keeps : keep.

Hypothesis R_rename :
  forall meetingId speakerId name db,
    scope meetingId -> R db (renamed_speakers meetingId speakerId name db).

Lemma renameSpeaker_keeps (meetingId speakerId name : string) :
  scope meetingId -> keeps R (renameSpeaker meetingId speakerId name).
Proof.
  intros Hs. unfold renameSpeaker. keeps_all.
  match goal with H : Ok _ = Ok _ |- _ => injection H as <- end.
  apply (R_rename meetingId speakerId name _ Hs).
Qed.
#[local] Hint Resolve renameSpeaker_keeps : keep.

(** *** The statements on segments *)

Hypothesis R_delete_segments :
  forall id db, scope id -> R db (without_segments id db).
Hypothesis R_insert_segment :
  forall id meetingId a b c d e db db',
    scope meetingId -> insertSegment id meetingId a b c d e db = Ok db' -> R db db'.

Lemma storeSegments_keeps (meetingId : string) (segs : list segment_input) :
  scope meetingId -> keeps R (storeSegments meetingId segs).
Proof.
  intros Hs. unfold storeSegments. keeps_all;
    match goal with
    | H : Ok _ = Ok _ |- _ =>
        injection H as <-; apply (R_delete_segments meetingId _ Hs)
    | H : insertSegment _ _ _ _ _ _ _ _ = Ok _ |- _ => eapply R_insert_segment; eassumption
    end.
Qed.
#[local] Hint Resolve storeSegments_keeps : keep.

(** *** The statements on meetings *)

Hypothesis R_set_status :
  forall id status db, scope id -> R db (update_meeting id (set_status status) db).

Lemma updateMeetingStatus_keeps (meetingId status : string) :
  scope meetingId -> keeps R (updateMeetingStatus meetingId status).
Proof.
  intros Hs. unfold updateMeetingStatus. keeps_all.
  match goal with H : Ok _ = Ok _ |- _ => injection H as <- end.
  apply R_set_status, Hs.
Qed.
#[local] Hint Resolve updateMeetingStatus_keeps : keep.

(** Roster mode and the final status. *)
Lemma persist_payload_keeps (meetingId : string) (payload : jsval) :
  scope meetingId -> keeps R (persist_payload meetingId payload).
Proof. intros Hs. unfold persist_payload. keeps_all. Qed.
#[local] Hint Resolve persist_payload_keeps : keep.

Lemma handleDiarization_keeps (meetingId audioPath : string) (env : job_env) :
  scope meetingId -> keeps R (handleDiarization meetingId audioPath env).
Proof. intros Hs. unfold handleDiarization. keeps_all. Qed.

Hypothesis R_create :
  forall id name now db,
    scope id -> meeting_exists db id = false ->
    R db (with_meeting (new_meeting id name now) db).
Hypothesis R_set_name :
  forall id name db, scope id -> R db (update_meeting id (set_name name) db).
Hypothesis R_start :
  forall id now db, scope id -> R db (update_meeting id (started_row now) db).
Hypothesis R_end :
  forall id now audio db, scope id -> R db (update_meeting id (ended_row now audio) db).

Lemma createMeeting_keeps (name : string) (count : jsval) :
  (forall id, scope id) -> keeps R (createMeeting name count).
Proof.
  intros Hs. unfold createMeeting. keeps_all.
  match goal with E : (if ?c then _ else _) = Ok _ |- _ =>
    destruct c eqn:Hc; [discriminate|]; injection E as <- end.
  apply (R_create _ name _ _ (Hs _) Hc).
Qed.
#[local] Hint Resolve createMeeting_keeps : keep.

Lemma updateMeeting_keeps (meetingId name : string) :
  scope meetingId -> keeps R (updateMeeting meetingId name).
Proof.
  intros Hs. unfold updateMeeting. keeps_all.
  match goal with H : Ok _ = Ok _ |- _ => injection H as <- end. apply R_set_name, Hs.
Qed.
#[local] Hint Resolve updateMeeting_keeps : keep.

Lemma startMeeting_keeps (meetingId : string) :
  scope meetingId -> keeps R (startMeeting meetingId).
Proof.
  intros Hs. unfold startMeeting. keeps_all.
  match goal with H : Ok _ = Ok _ |- _ => injection H as <- end.
  match goal with now : string |- _ => apply (R_start meetingId now _ Hs) end.
Qed.
#[local] Hint Resolve startMeeting_keeps : keep.

Lemma endMeeting_keeps (meetingId : string) (audio : option string) :
  scope meetingId -> keeps R (endMeeting meetingId audio).
Proof.
  intros Hs. unfold endMeeting. keeps_all.
  match goal with H : Ok _ = Ok _ |- _ => injection H as <- end.
  match goal with now : string |- _ => apply (R_end meetingId now audio _ Hs) end.
Qed.
#[local] Hint Resolve endMeeting_keeps : keep.

Lemma handle_keeps (req : request) :
  (forall id, request_scope req id -> scope id) -> keeps R (handle req).
Proof.
  intros Hs. destruct req; cbn [request_scope] in Hs;
    try (match goal with meetingId : string |- _ =>
           pose proof (Hs meetingId eq_refl) end);
    try (assert (forall id, scope id) by (intros id; apply Hs; exact I));
    unfold handle; keeps_all.
Qed.

Lemma serve_keeps (req : request) (w w' : world) (r : reply) (jobs : list job) :
  (forall id, request_scope req id -> scope id) ->
  serve req w = Some (r, jobs, w') -> R (w_db w) (w_db w').
Proof.
  intros Hs. unfold serve. pose proof (handle_keeps req Hs w) as H.
  destruct (handle req w) as [[r0 j0] w0|e w0|]; [| |discriminate];
    intros E; injection E as <- <- <-; exact H.
Qed.

End Keeping.

(** ** Integrity of the database *)

(** The rows that a [DELETE] leaves have distinct keys when the rows had. *)
Lemma NoDup_map_filter {Row Key : Type} (key : Row -> Key) (keep : Row -> bool)
    (rows : list Row) :
  NoDup (map key rows) -> NoDup (map key (filter keep rows)).
Proof.
  intros H. induction rows as [|row rows IH]; [constructor|].
  cbn [map] in H. apply NoDup_cons_iff in H. destruct H as [Hn Hd].
  cbn [filter]. destruct (keep row); [|exact (IH Hd)].
  cbn [map]. apply NoDup_cons; [|exact (IH Hd)].
  intros Hin. apply Hn. apply in_map_iff in Hin. destruct Hin as (other & E & Ho).
  apply filter_In in Ho. apply in_map_iff. exists other. tauto.
Qed.

Lemma NoDup_map_snoc {A} (f : A -> string) (l : list A) (x : A) :
  NoDup (map f l) -> existsb (fun y => String.eqb (f y) (f x)) l = false ->
  NoDup (map f (l ++ [x])).
Proof.
  intros H E. rewrite map_app. cbn [map].
  apply NoDup_app.
  - exact H.
  - constructor; [intros []|constructor].
  - intros a Ha [<-|[]]. apply in_map_iff in Ha. destruct Ha as (y & Ey & Hy).
    assert (existsb (fun y => String.eqb (f y) (f x)) l = true); [|congruence].
    apply existsb_exists. exists y. split; [exact Hy|]. apply String.eqb_eq. exact Ey.
Qed.

Lemma existsb_map {Row Key : Type} (test : Key -> bool) (key : Row -> Key)
    (rows : list Row) :
  existsb test (map key rows) = existsb (fun row => test (key row)) rows.
Proof.
  induction rows as [|row rows IH]; [reflexivity|].
  cbn [map existsb]. rewrite IH. reflexivity.
Qed.

Lemma speaker_exists_in (db : DB) (id : string) :
  speaker_exists db id = true <-> exists sp, In sp (speakers db) /\ s_id sp = id.
Proof.
  unfold speaker_exists. rewrite existsb_exists. split; intros (sp & H1 & H2);
    exists sp; (split; [exact H1|]); apply String.eqb_eq; exact H2.
Qed.

Lemma integrity_empty : integrity empty_db.
Proof. repeat split; constructor. Qed.

(** A statement that writes to the meetings without a change of their
    identifiers. *)
Lemma integrity_same_ids (db db' : DB) :
  map m_id (meetings db') = map m_id (meetings db) ->
  speakers db' = speakers db -> segments db' = segments db ->
  keeps_integrity db db'.
Proof.
  intros Hm Hs Hg (I1 & I2 & I3 & I4 & I5).
  assert (E : forall id, meeting_exists db' id = meeting_exists db id).
  { intros id. unfold meeting_exists.
    change (existsb (fun m => String.eqb (m_id m) id) (meetings db')
            = existsb (fun m => String.eqb (m_id m) id) (meetings db)).
    rewrite <- !(existsb_map (fun x => String.eqb x id) m_id).
    rewrite Hm. reflexivity. }
  assert (E' : forall id, speaker_exists db' id = speaker_exists db id).
  { intros id. unfold speaker_exists. rewrite Hs. reflexivity. }
  unfold integrity. rewrite Hm, Hs, Hg.
  repeat split; try assumption.
  - eapply Forall_impl; [|exact I4]. intros sp H. rewrite E. exact H.
  - eapply Forall_impl; [|exact I5]. intros g [H1 H2]. rewrite E. split; [exact H1|].
    destruct (g_speaker_id g); [rewrite E'|]; exact H2.
Qed.

Lemma update_meeting_ids (id : string) (f : meeting_row -> meeting_row) (db : DB) :
  (forall m, m_id (f m) = m_id m) ->
  map m_id (meetings (update_meeting id f db)) = map m_id (meetings db).
Proof.
  intros H. unfold update_meeting. cbn [meetings]. rewrite map_map.
  apply map_ext. intros m. destruct (String.eqb (m_id m) id); [apply H|reflexivity].
Qed.

Lemma integrity_update (id : string) (f : meeting_row -> meeting_row) (db : DB) :
  (forall m, m_id (f m) = m_id m) -> keeps_integrity db (update_meeting id f db).
Proof.
  intros H. apply integrity_same_ids; [apply update_meeting_ids, H|reflexivity..].
Qed.

Lemma integrity_delete_speakers (id : string) (db : DB) :
  keeps_integrity db (deleteSpeakersStmt id db).
Proof.
  intros (I1 & I2 & I3 & I4 & I5). unfold integrity, deleteSpeakersStmt, meeting_exists.
  cbn [meetings speakers segments].
  split; [exact I1|]. split; [apply NoDup_map_filter, I2|].
  split.
  { rewrite map_map.
    replace (map _ (segments db)) with (map g_id (segments db)); [exact I3|].
    apply map_ext. intros g. destruct (g_speaker_id g) as [sid|]; [|reflexivity].
    destruct (existsb _ _); reflexivity. }
  split.
  { apply Forall_forall. intros sp Hin. apply filter_In in Hin.
    rewrite Forall_forall in I4. apply I4. tauto. }
  apply Forall_forall. intros g' Hin. apply in_map_iff in Hin.
  destruct Hin as (g & <- & Hin). rewrite Forall_forall in I5.
  destruct (I5 g Hin) as [H1 H2].
  destruct (g_speaker_id g) as [sid|] eqn:Eg; [|rewrite Eg; split; assumption].
  destruct (existsb (fun sp => String.eqb (s_id sp) sid)
              (filter (fun sp => String.eqb (s_meeting_id sp) id) (speakers db))) eqn:Egone.
  - cbn [g_meeting_id g_speaker_id]. split; [exact H1|exact I].
  - rewrite Eg. split; [exact H1|].
    apply speaker_exists_in in H2. destruct H2 as (sp & Hsp & Hid).
    unfold speaker_exists. cbn [speakers]. apply existsb_exists. exists sp.
    split; [|apply String.eqb_eq; exact Hid].
    apply filter_In. split; [exact Hsp|].
    destruct (String.eqb (s_meeting_id sp) id) eqn:Em; [|reflexivity].
    exfalso. assert (existsb (fun sp => String.eqb (s_id sp) sid)
                       (filter (fun sp => String.eqb (s_meeting_id sp) id) (speakers db))
                     = true); [|congruence].
    apply existsb_exists. exists sp. split; [|apply String.eqb_eq; exact Hid].
    apply filter_In. split; assumption.
Qed.

Lemma integrity_insert_speaker (id meetingId : string) (l d : jsval) (now : string)
    (db db' : DB) :
  insertSpeakerStmt id meetingId l d now db = Ok db' -> keeps_integrity db db'.
Proof.
  unfold insertSpeakerStmt, rbind. intros H.
  destruct (bind_text _ l) as [l'| |]; try discriminate.
  destruct (bind_text _ d) as [d'| |]; try discriminate.
  destruct (speaker_exists db id) eqn:Es; try discriminate.
  destruct (meeting_exists db meetingId) eqn:Em; try discriminate.
  injection H as <-. intros (I1 & I2 & I3 & I4 & I5).
  unfold integrity, meeting_exists. cbn [meetings speakers segments].
  split; [exact I1|]. split; [apply NoDup_map_snoc; [exact I2|exact Es]|].
  split; [exact I3|]. split.
  - apply Forall_app. split; [exact I4|]. constructor; [exact Em|constructor].
  - eapply Forall_impl; [|exact I5]. intros g [H1 H2]. split; [exact H1|].
    destruct (g_speaker_id g) as [sid|]; [|exact I].
    unfold speaker_exists in *. cbn [speakers]. rewrite existsb_app, H2. reflexivity.
Qed.

Lemma integrity_rename (meetingId speakerId name : string) (db : DB) :
  keeps_integrity db (renamed_speakers meetingId speakerId name db).
Proof.
  intros (I1 & I2 & I3 & I4 & I5).
  set (f := fun sp : speaker_row =>
              if String.eqb (s_id sp) speakerId && String.eqb (s_meeting_id sp) meetingId
              then {| s_id := s_id sp; s_meeting_id := s_meeting_id sp;
                      s_label := s_label sp; s_display_name := name;
                      s_created_at := s_created_at sp |}
              else sp).
  assert (Fid : forall sp, s_id (f sp) = s_id sp).
  { intros sp. unfold f. destruct (_ && _); reflexivity. }
  assert (Fm : forall sp, s_meeting_id (f sp) = s_meeting_id sp).
  { intros sp. unfold f. destruct (_ && _); reflexivity. }
  assert (Ids : map s_id (map f (speakers db)) = map s_id (speakers db)).
  { rewrite map_map. apply map_ext. exact Fid. }
  unfold integrity, renamed_speakers, meeting_exists, speaker_exists.
  cbn [meetings speakers segments]. fold f.
  split; [exact I1|]. split; [rewrite Ids; exact I2|]. split; [exact I3|]. split.
  - apply Forall_forall. intros sp' Hin. apply in_map_iff in Hin.
    destruct Hin as (sp & <- & Hin). rewrite Fm.
    rewrite Forall_forall in I4. apply I4. exact Hin.
  - eapply Forall_impl; [|exact I5]. intros g [H1 H2]. split; [exact H1|].
    destruct (g_speaker_id g) as [sid|]; [|exact I].
    unfold speaker_exists in H2.
    change (existsb (fun x => String.eqb (s_id x) sid) (map f (speakers db)) = true).
    rewrite <- (existsb_map (fun x => String.eqb x sid) s_id) in H2 |- *.
    rewrite Ids. exact H2.
Qed.

Lemma integrity_delete_segments (id : string) (db : DB) :
  keeps_integrity db (without_segments id db).
Proof.
  intros (I1 & I2 & I3 & I4 & I5).
  unfold integrity, without_segments, meeting_exists, speaker_exists.
  cbn [meetings speakers segments].
  split; [exact I1|]. split; [exact I2|]. split; [apply NoDup_map_filter, I3|].
  split; [exact I4|].
  apply Forall_forall. intros g Hin. apply filter_In in Hin.
  rewrite Forall_forall in I5. apply I5. tauto.
Qed.

Lemma integrity_insert_segment (id : jsval) (meetingId : string) (a b c d e : jsval)
    (db db' : DB) :
  insertSegment id meetingId a b c d e db = Ok db' -> keeps_integrity db db'.
Proof.
  unfold insertSegment, rbind. intros H.
  destruct (bind_text _ id) as [id'| |]; try discriminate.
  destruct (bind_text_nullable a) as [sid| |]; try discriminate.
  destruct (bind_integer _ b) as [b'| |]; try discriminate.
  destruct (bind_integer _ c) as [c'| |]; try discriminate.
  destruct (bind_text _ d) as [d'| |]; try discriminate.
  destruct (bind_text _ e) as [e'| |]; try discriminate.
  destruct (segment_exists db id') eqn:Eg; try discriminate.
  destruct (meeting_exists db meetingId) eqn:Em; try discriminate.
  cbn [negb] in H.
  destruct (match sid with Some s => negb (speaker_exists db s) | None => false end) eqn:Esp;
    try discriminate.
  injection H as <-. intros (I1 & I2 & I3 & I4 & I5).
  unfold integrity, meeting_exists, speaker_exists. cbn [meetings speakers segments].
  split; [exact I1|]. split; [exact I2|].
  split; [apply NoDup_map_snoc; [exact I3|exact Eg]|]. split; [exact I4|].
  apply Forall_app. split; [exact I5|]. constructor; [|constructor].
  cbn [g_meeting_id g_speaker_id]. split; [exact Em|].
  destruct sid as [s|]; [|exact I]. apply negb_false_iff in Esp. exact Esp.
Qed.

Lemma integrity_create (id name now : string) (db : DB) :
  meeting_exists db id = false ->
  keeps_integrity db (with_meeting (new_meeting id name now) db).
Proof.
  intros Hn (I1 & I2 & I3 & I4 & I5).
  unfold integrity, with_meeting, meeting_exists. cbn [meetings speakers segments].
  split; [apply NoDup_map_snoc; [exact I1|exact Hn]|].
  split; [exact I2|]. split; [exact I3|]. split.
  - eapply Forall_impl; [|exact I4]. intros sp H. unfold meeting_exists in H.
    rewrite existsb_app, H. reflexivity.
  - eapply Forall_impl; [|exact I5]. intros g [H1 H2]. unfold meeting_exists in H1.
    rewrite existsb_app, H1. split; [reflexivity|exact H2].
Qed.

Lemma keeps_integrity_refl (db : DB) : keeps_integrity db db.
Proof. intros H. exact H. Qed.

Lemma keeps_integrity_trans (a b c : DB) :
  keeps_integrity a b -> keeps_integrity b c -> keeps_integrity a c.
Proof. unfold keeps_integrity. auto. Qed.

(** Every request that is served keeps the integrity of the database. *)
Lemma serve_integrity (req : request) (w w' : world) (r : reply) (jobs : list job) :
  serve req w = Some (r, jobs, w') -> integrity (w_db w) -> integrity (w_db w').
Proof.
  apply (serve_keeps keeps_integrity everywhere keeps_integrity_refl keeps_integrity_trans).
  - intros; apply integrity_delete_speakers.
  - intros; eapply integrity_insert_speaker; eassumption.
  - intros; apply integrity_rename.
  - intros; apply integrity_update; reflexivity.
  - intros; apply integrity_create; assumption.
  - intros; apply integrity_update; reflexivity.
  - intros; apply integrity_update; reflexivity.
  - intros; apply integrity_update; reflexivity.
  - intros; exact I.
Qed.

(** Every job keeps it. *)
Lemma job_integrity (meetingId audioPath : string) (env : job_env) (w w' : world) :
  handleDiarization meetingId audioPath env w = Done tt w' ->
  integrity (w_db w) -> integrity (w_db w').
Proof.
  intros E.
  pose proof (handleDiarization_keeps keeps_integrity everywhere keeps_integrity_refl
                keeps_integrity_trans) as H.
  specialize (H (fun id db _ => integrity_delete_speakers id db)).
  specialize (H (fun id m l d now db db' _ E => integrity_insert_speaker id m l d now db db' E)).
  specialize (H (fun id db _ => integrity_delete_segments id db)).
  specialize (H (fun id m a b c d e db db' _ E =>
                   integrity_insert_segment id m a b c d e db db' E)).
  specialize (H (fun id status db _ => integrity_update id (set_status status) db
                                         (fun _ => eq_refl))).
  specialize (H meetingId audioPath env I w). rewrite E in H. exact H.
Qed.

(** X1.  In every state that the server reaches the database satisfies its
    schema: the identifiers of meetings, of speakers and of segments are
    unique, every speaker and every segment belongs to a meeting that
    exists, and the speaker of a segment exists. *)
Theorem reachable_integrity (w : world) (sup : list string) :
  reachable w sup -> integrity (w_db w).
Proof.
  induction 1 as [w E|w w' sup req r jobs _ IH S|w w' sup meetingId audioPath env _ IH J].
  - rewrite E. exact integrity_empty.
  - exact (serve_integrity _ _ _ _ _ S IH).
  - exact (job_integrity _ _ _ _ _ J IH).
Qed.

Lemma reachable_integrity_witness :
  reachable world1 [] /\ integrity (w_db world1).
Proof.
  split; [exact reachable_world1|].
  exact (reachable_integrity world1 [] reachable_world1).
Defined.

(** ** What the rows of a meeting keep *)

Lemma row_keeps_refl (m : meeting_row) : row_keeps m m.
Proof. repeat split; auto. Qed.

Lemma row_keeps_trans (a b c : meeting_row) :
  row_keeps a b -> row_keeps b c -> row_keeps a c.
Proof.
  intros (A1 & A2 & A3 & A4 & A5) (B1 & B2 & B3 & B4 & B5).
  repeat split; try congruence; auto.
Qed.

Lemma Forall2_refl {A} (P : A -> A -> Prop) (l : list A) :
  (forall x, P x x) -> Forall2 P l l.
Proof. intros H. induction l; constructor; auto. Qed.

Lemma Forall2_trans {A} (P : A -> A -> Prop) (a b c : list A) :
  (forall x y z, P x y -> P y z -> P x z) ->
  Forall2 P a b -> Forall2 P b c -> Forall2 P a c.
Proof.
  intros H Hab. revert c. induction Hab as [|x y a b Hxy _ IH]; intros c Hbc;
    inversion Hbc; subst; constructor; eauto.
Qed.

Lemma meetings_kept_refl (db : DB) : meetings_kept db db.
Proof.
  exists (meetings db), []. split; [symmetry; apply app_nil_r|].
  apply Forall2_refl, row_keeps_refl.
Qed.

Lemma meetings_kept_trans (a b c : DB) :
  meetings_kept a b -> meetings_kept b c -> meetings_kept a c.
Proof.
  intros (k1 & a1 & E1 & F1) (k2 & a2 & E2 & F2).
  rewrite E1 in F2. apply Forall2_app_inv_l in F2.
  destruct F2 as (k2a & k2b & Fa & Fb & ->).
  exists k2a, (k2b ++ a2). split; [rewrite E2, app_assoc; reflexivity|].
  exact (Forall2_trans _ _ _ _ row_keeps_trans F1 Fa).
Qed.

Lemma meetings_kept_same (db db' : DB) :
  meetings db' = meetings db -> meetings_kept db db'.
Proof.
  intros H. exists (meetings db), []. split; [rewrite H; symmetry; apply app_nil_r|].
  apply Forall2_refl, row_keeps_refl.
Qed.

Lemma Forall2_map_r {A} (P : A -> A -> Prop) (f : A -> A) (l : list A) :
  (forall x, P x (f x)) -> Forall2 P l (map f l).
Proof. intros H. induction l; simpl; constructor; auto. Qed.

Lemma meetings_kept_update (id : string) (f : meeting_row -> meeting_row) (db : DB) :
  (forall m, row_keeps m (f m)) -> meetings_kept db (update_meeting id f db).
Proof.
  intros H. exists (meetings (update_meeting id f db)), [].
  split; [symmetry; apply app_nil_r|].
  unfold update_meeting. cbn [meetings]. apply Forall2_map_r.
  intros m. destruct (String.eqb (m_id m) id); [apply H|apply row_keeps_refl].
Qed.

Lemma insertSpeakerStmt_tables (id meetingId : string) (l d : jsval) (now : string)
    (db db' : DB) :
  insertSpeakerStmt id meetingId l d now db = Ok db' ->
  exists row,
    s_id row = id /\ s_meeting_id row = meetingId /\
    speaker_exists db id = false /\ meeting_exists db meetingId = true /\
    db' = {| meetings := meetings db; speakers := speakers db ++ [row];
             segments := segments db |}.
Proof.
  unfold insertSpeakerStmt, rbind. intros H.
  destruct (bind_text _ l) as [l'| |]; try discriminate.
  destruct (bind_text _ d) as [d'| |]; try discriminate.
  destruct (speaker_exists db id) eqn:Es; try discriminate.
  destruct (meeting_exists db meetingId) eqn:Em; try discriminate.
  injection H as <-. eexists. repeat split; reflexivity || assumption.
Qed.



(** ** What a step on one meeting leaves alone *)

Lemma unlinked_twice (g : segment_row) : unlinked (unlinked g) = unlinked g.
Proof. reflexivity. Qed.

Lemma isolated_refl (id : string) (db : DB) : isolated id db db.
Proof.
  split; [reflexivity|]. split; [reflexivity|].
  apply Forall2_refl. intros g. left. reflexivity.
Qed.

Lemma isolated_trans (id : string) (a b c : DB) :
  isolated id a b -> isolated id b c -> isolated id a c.
Proof.
  intros (A1 & A2 & A3) (B1 & B2 & B3). split; [congruence|]. split; [congruence|].
  eapply Forall2_trans; [|exact A3|exact B3]. cbv beta.
  intros x y z [-> | ->] [-> | ->]; auto.
Qed.

Lemma filter_idem {A} (p : A -> bool) (l : list A) : filter p (filter p l) = filter p l.
Proof.
  induction l as [|x l IH]; simpl; [reflexivity|].
  destruct (p x) eqn:E; simpl; [rewrite E, IH|]; auto.
Qed.

Lemma filter_snoc_out {A} (p : A -> bool) (l : list A) (x : A) :
  p x = false -> filter p (l ++ [x]) = filter p l.
Proof. intros H. rewrite filter_app. simpl. rewrite H. apply app_nil_r. Qed.

Lemma filter_map_fixed {A} (p : A -> bool) (f : A -> A) (l : list A) :
  (forall x, p (f x) = p x) -> (forall x, p x = true -> f x = x) ->
  filter p (map f l) = filter p l.
Proof.
  intros H1 H2. induction l as [|x l IH]; simpl; [reflexivity|].
  rewrite H1. destruct (p x) eqn:E; [rewrite (H2 x E), IH|]; auto.
Qed.

Lemma isolated_same_others (id : string) (db db' : DB) :
  filter (other_meeting id) (meetings db') = filter (other_meeting id) (meetings db) ->
  filter (other_speaker id) (speakers db') = filter (other_speaker id) (speakers db) ->
  filter (other_segment id) (segments db') = filter (other_segment id) (segments db) ->
  isolated id db db'.
Proof.
  intros H1 H2 H3. split; [exact H1|]. split; [exact H2|]. rewrite H3.
  apply Forall2_refl. intros g. left. reflexivity.
Qed.

Lemma isolated_update (id : string) (f : meeting_row -> meeting_row) (db : DB) :
  (forall m, m_id (f m) = m_id m) -> isolated id db (update_meeting id f db).
Proof.
  intros H. apply isolated_same_others; try reflexivity.
  unfold update_meeting. cbn [meetings]. apply filter_map_fixed.
  - intros m. unfold other_meeting. cbv beta.
    destruct (String.eqb (m_id m) id) eqn:E; [rewrite H|]; rewrite E; reflexivity.
  - intros m. unfold other_meeting. destruct (String.eqb (m_id m) id); [discriminate|].
    reflexivity.
Qed.

Lemma unlinked_or_same (id : string) (f : segment_row -> segment_row)
    (l : list segment_row) :
  (forall g, f g = g \/ f g = unlinked g) ->
  Forall2 (fun g g' => g' = g \/ g' = unlinked g)
    (filter (other_segment id) l) (filter (other_segment id) (map f l)).
Proof.
  intros H. induction l as [|g l IH]; simpl; [constructor|].
  assert (Hm : other_segment id (f g) = other_segment id g).
  { unfold other_segment. destruct (H g) as [->| ->]; reflexivity. }
  rewrite Hm. destruct (other_segment id g); [|exact IH].
  constructor; [apply H|exact IH].
Qed.

Lemma isolated_delete_speakers (id : string) (db : DB) :
  isolated id db (deleteSpeakersStmt id db).
Proof.
  unfold deleteSpeakersStmt. split; [reflexivity|]. cbn [speakers segments]. split.
  - apply (filter_idem (other_speaker id)).
  - apply unlinked_or_same. intros g.
    destruct (g_speaker_id g) eqn:E; [|left; reflexivity].
    destruct (existsb _ _); [right|left]; reflexivity.
Qed.

Lemma isolated_insert_speaker (id meetingId : string) (l d : jsval) (now : string)
    (db db' : DB) :
  insertSpeakerStmt id meetingId l d now db = Ok db' -> isolated meetingId db db'.
Proof.
  intros H. destruct (insertSpeakerStmt_tables _ _ _ _ _ _ _ H)
    as (row & _ & Hm & _ & _ & ->).
  apply isolated_same_others; try reflexivity. cbn [speakers].
  apply filter_snoc_out. unfold other_speaker. rewrite Hm, String.eqb_refl. reflexivity.
Qed.

Lemma isolated_rename (meetingId speakerId name : string) (db : DB) :
  isolated meetingId db (renamed_speakers meetingId speakerId name db).
Proof.
  apply isolated_same_others; try reflexivity.
  unfold renamed_speakers. cbn [speakers]. apply filter_map_fixed.
  - intros sp. destruct (_ && _); reflexivity.
  - intros sp. unfold other_speaker. intros H. apply negb_true_iff in H. rewrite H.
    rewrite andb_false_r. reflexivity.
Qed.



Lemma isolated_create (id name now : string) (db : DB) :
  isolated id db (with_meeting (new_meeting id name now) db).
Proof.
  apply isolated_same_others; try reflexivity. unfold with_meeting. cbn [meetings].
  apply filter_snoc_out. unfold other_meeting. cbn. rewrite String.eqb_refl. reflexivity.
Qed.

Lemma request_scope_meeting (req : request) (meetingId : string) :
  request_meeting req = Some meetingId ->
  forall id, request_scope req id -> id = meetingId.
Proof.
  destruct req; cbn; intros H id Hid; try discriminate; injection H as <-; exact Hid.
Qed.

(** X2.  A request on a meeting leaves alone the rows of every other
    meeting: their meeting rows and speakers are as they were, and their
    segments are as they were or have lost their link to a speaker. *)
Theorem request_leaves_other_meetings (req : request) (meetingId : string)
    (w w' : world) (r : reply) (jobs : list job) :
  request_meeting req = Some meetingId ->
  serve req w = Some (r, jobs, w') ->
  isolated meetingId (w_db w) (w_db w').
Proof.
  intros Hs.
  apply (serve_keeps (isolated meetingId) (fun id => id = meetingId)
           (isolated_refl meetingId) (isolated_trans meetingId)).
  - intros id db ->. apply isolated_delete_speakers.
  - intros id m l d now db db' -> H. exact (isolated_insert_speaker _ _ _ _ _ _ _ H).
  - intros m s n db ->. apply isolated_rename.
  - intros id st db ->. apply isolated_update. reflexivity.
  - intros id name now db -> _. apply isolated_create.
  - intros id name db ->. apply isolated_update. reflexivity.
  - intros id now db ->. apply isolated_update. reflexivity.
  - intros id now audio db ->. apply isolated_update. reflexivity.
  - exact (request_scope_meeting req meetingId Hs).
Qed.

Lemma request_leaves_other_meetings_witness :
  request_meeting (POST_reset "uuid-0" JUndefined (JArr [])) = Some "uuid-0" /\
  segment_links (w_db world_two_meetings)
  = [("uuid-5", "uuid-0", Some "uuid-4"); ("uuid-11", "uuid-6", Some "uuid-10")] /\
  exists r jobs,
    let w' := world_after (POST_reset "uuid-0" JUndefined (JArr [])) world_two_meetings in
    serve (POST_reset "uuid-0" JUndefined (JArr [])) world_two_meetings = Some (r, jobs, w') /\
    isolated "uuid-0" (w_db world_two_meetings) (w_db w') /\
    segment_links (w_db w')
    = [("uuid-5", "uuid-0", None); ("uuid-11", "uuid-6", Some "uuid-10")] /\
    map label_and_name (speakers_of (w_db w') "uuid-6")
    = map label_and_name (speakers_of (w_db world_two_meetings) "uuid-6") /\
    map label_and_name (speakers_of (w_db w') "uuid-0") = [("Speaker 1", "Speaker 1")].
Proof.
  split; [reflexivity|]. split; [reflexivity|].
  destruct (serve (POST_reset "uuid-0" JUndefined (JArr [])) world_two_meetings)
    as [[[r jobs] w']|] eqn:E; [|vm_compute in E; discriminate].
  exists r, jobs. cbv zeta.
  assert (W : world_after (POST_reset "uuid-0" JUndefined (JArr [])) world_two_meetings = w')
    by (unfold world_after; rewrite E; reflexivity).
  split; [rewrite W; reflexivity|].
  split; [rewrite W;
          exact (request_leaves_other_meetings (POST_reset "uuid-0" JUndefined (JArr []))
                   "uuid-0" world_two_meetings w' r jobs eq_refl E)|].
  repeat split.
Defined.

(** X3.  Whatever request is served, no meeting is removed or moved, and
    every meeting keeps its identifier and its time of creation and a
    start and an end that were recorded; an audio path that is stored is
    never set back to [NULL], though a request may store another text in
    its place, even the empty one. *)
Theorem request_keeps_meetings (req : request) (w w' : world) (r : reply)
    (jobs : list job) :
  serve req w = Some (r, jobs, w') -> meetings_kept (w_db w) (w_db w').
Proof.
  apply (serve_keeps meetings_kept everywhere meetings_kept_refl meetings_kept_trans).
  - intros. apply meetings_kept_same. reflexivity.
  - intros id meetingId l d now db db' _ H.
    destruct (insertSpeakerStmt_tables _ _ _ _ _ _ _ H) as (row & _ & _ & _ & _ & ->).
    apply meetings_kept_same. reflexivity.
  - intros. apply meetings_kept_same. reflexivity.
  - intros. apply meetings_kept_update. intros m. repeat split; auto.
  - intros id name now db _ _. exists (meetings db), [new_meeting id name now].
    split; [reflexivity|]. apply Forall2_refl, row_keeps_refl.
  - intros. apply meetings_kept_update. intros m. repeat split; auto.
  - intros id now db _. apply meetings_kept_update. intros m.
    repeat split; auto. cbn. intros t ->. reflexivity.
  - intros id now audio db _. apply meetings_kept_update. intros m.
    repeat split; auto.
    + cbn. intros t ->. reflexivity.
    + cbn. destruct audio; [discriminate|]. auto.
  - intros; exact I.
Qed.

Lemma request_keeps_meetings_witness :
  map (fun m => (m_started_at m, m_ended_at m, m_audio_file_path m))
    (meetings (w_db world_ended))
  = [(Some "2025-01-01T00:00:01.000Z", Some "2025-01-01T00:00:02.000Z",
      Some "data/audio/uuid-0/rec.wav")] /\
  exists r jobs,
    let w' := world_after (POST_end "uuid-0" (JStr EmptyString)) world_ended in
    serve (POST_end "uuid-0" (JStr EmptyString)) world_ended = Some (r, jobs, w') /\
    meetings_kept (w_db world_ended) (w_db w') /\
    map (fun m => (m_started_at m, m_ended_at m, m_audio_file_path m)) (meetings (w_db w'))
    = [(Some "2025-01-01T00:00:01.000Z", Some "2025-01-01T00:00:02.000Z",
        Some EmptyString)].
Proof.
  split; [reflexivity|].
  destruct (serve (POST_end "uuid-0" (JStr EmptyString)) world_ended)
    as [[[r jobs] w']|] eqn:E; [|vm_compute in E; discriminate].
  exists r, jobs. cbv zeta.
  assert (W : world_after (POST_end "uuid-0" (JStr EmptyString)) world_ended = w')
    by (unfold world_after; rewrite E; reflexivity).
  split; [rewrite W; reflexivity|].
  split; [rewrite W; exact (request_keeps_meetings _ world_ended w' r jobs E)|].
  reflexivity.
Defined.

(** *** Jobs *)







(** X4.  A job throws only before its [try]: when the audio path that it
    is given is truthy and no text, [path.resolve] throws a [TypeError],
    the job is rejected and the database is as it was.  On a text, or on
    a falsy value, every error of the launcher, of the result and of the
    storage is caught and the job returns. *)
Theorem job_throws_only_on_non_text_path (meetingId : string) (audioPath : jsval)
    (env : job_env) (w : world) :
  if negb (truthy audioPath) || typeof_string audioPath
  then throws (handleDiarization_value meetingId audioPath env w) = false
  else exists message,
         handleDiarization_value meetingId audioPath env w = Thrown (TypeError message) w.
Proof.
  assert (T : forall text, throws (handleDiarization meetingId text env w) = false).
  { intros text. rewrite handleDiarization_cases.
    destruct (isEmpty text || negb (env_audio_exists env)); [reflexivity|].
    destruct (runDiarization _ _ _ _); try reflexivity.
    destruct (resolve_payload _ _); try reflexivity.
    destruct (persist_payload _ _ _); reflexivity. }
  unfold handleDiarization_value.
  destruct audioPath as [| |b|n|text|items|props]; cbn [truthy negb orb typeof_string].
  - reflexivity.
  - reflexivity.
  - destruct b; cbn [negb]; [eexists; reflexivity|reflexivity].
  - destruct (number_truthy n); cbn [negb]; [eexists; reflexivity|reflexivity].
  - rewrite orb_true_r. destruct (negb (negb (isEmpty text))); [reflexivity|apply T].
  - eexists. reflexivity.
  - eexists. reflexivity.
Qed.

Lemma job_throws_only_on_non_text_path_witness :
  option_map m_status (find_meeting (w_db world_ended) "uuid-0") = Some "processing" /\
  exists message,
    handleDiarization_value "uuid-0" (JNum (Fin 5 0)) env_two_speakers world_ended
    = Thrown (TypeError message) world_ended.
Proof.
  split; [reflexivity|].
  exact (job_throws_only_on_non_text_path "uuid-0" (JNum (Fin 5 0)) env_two_speakers
           world_ended).
Defined.



(** ** Further properties of the storage layer *)

(** *** A reset by a count *)

Lemma number_floor_nonneg (m e : Z) : (0 < m)%Z -> (0 <= number_floor m e)%Z.
Proof.
  intros H. unfold number_floor. destruct (0 <=? e)%Z eqn:E.
  - apply Z.leb_le in E. apply Z.mul_nonneg_nonneg; [lia|]. apply Z.pow_nonneg. lia.
  - apply Z.div_pos; [lia|]. apply Z.pow_pos_nonneg; [lia|]. apply Z.leb_gt in E. lia.
Qed.

(** X6.  A reset of the speakers by a count that is a finite number greater
    than zero leaves the meeting with the speakers [Speaker 1], ...,
    [Speaker k], where [k] is the integer part of the count: none at all
    for a count below one.  The count is a number of the model, of at most
    fifteen digits: on those the integer part of the double is that of the
    decimal. *)
Theorem resetSpeakers_by_count (w : world) (meetingId : string) (row : meeting_row)
    (count : jsval) (m e : Z) :
  find_meeting (w_db w) meetingId = Some row ->
  Array_isArray count = false ->
  Number_ count = Ok (Fin m e) ->
  (0 < m)%Z ->
  (number_floor m e < 2 ^ 53)%Z ->
  let k := Z.to_nat (number_floor m e) in
  fresh_for_reset w meetingId k = true ->
  exists m' w',
    resetSpeakers meetingId count w = Done (Some m') w' /\
    speakers_of (w_db w') meetingId = meeting_speakers m' /\
    map label_and_name (meeting_speakers m') = default_names 1 k.
Proof.
  intros Hm Ha Hn Hpos Hbig k Hf.
  destruct (reset_world_speakers w meetingId row (upcoming_uuids w k)
              (w_clock w (w_tick w)) (default_names 1 k) Hm) as [G S1].
  exists {| meeting_row_of := row;
            meeting_speakers := roster_rows (upcoming_uuids w k) meetingId
                                  (w_clock w (w_tick w)) (default_names 1 k) |},
    (reset_world w meetingId
       (roster_rows (upcoming_uuids w k) meetingId (w_clock w (w_tick w))
          (default_names 1 k))).
  split; [|split; [exact S1|]].
  2:{ cbn [meeting_speakers]. apply roster_rows_names.
      rewrite upcoming_uuids_length. unfold default_names.
      rewrite length_map, length_seq. reflexivity. }
  unfold resetSpeakers, resetSpeakersInternal.
  unfold bind at 1. unfold Date_now at 1. fold (tick w).
  unfold bind at 1. unfold transaction. unfold bind at 1.
  unfold run_stmt at 1. unfold bind at 1. unfold get_db at 1.
  unfold bind at 1. unfold lift at 1. unfold put_db at 1.
  assert (Hrounds : loop_rounds (Fin m e) = Ok k).
  { unfold loop_rounds. pose proof (number_floor_nonneg m e Hpos) as Hge.
    destruct (number_floor m e <? 0)%Z eqn:E1; [apply Z.ltb_lt in E1; lia|].
    destruct (number_floor m e <? 2 ^ 53)%Z eqn:E2; [reflexivity|].
    apply Z.ltb_ge in E2. lia. }
  assert (Hgt : number_gt0 (Fin m e) = true) by (apply Z.ltb_lt; exact Hpos).
  assert (Hloop :
    (n <- lift (Number_ count) ;;
     let c := if number_isFinite n then n else Fin 0 0 in
     let safeCount := if number_gt0 c then c else Fin 2 0 in
     rounds <- lift (loop_rounds safeCount) ;;
     insert_defaults meetingId (w_clock w (w_tick w)) 1 rounds)
      (with_db (tick w) (deleteSpeakersStmt meetingId (w_db (tick w))))
    = Done tt (reset_world w meetingId
                 (roster_rows (upcoming_uuids w k) meetingId (w_clock w (w_tick w))
                    (default_names 1 k)))).
  { unfold bind at 1. rewrite Hn. unfold lift at 1. cbv zeta.
    cbn [number_isFinite]. rewrite Hgt.
    unfold bind at 1. rewrite Hrounds. unfold lift at 1.
    rewrite insert_defaults_loop.
    - reflexivity.
    - cbn [w_db with_db tick]. unfold meeting_exists, deleteSpeakersStmt. cbn [meetings].
      exact (meeting_exists_find _ _ _ Hm).
    - exact Hf. }
  destruct count; try discriminate; cbv zeta in Hloop |- *; rewrite Hloop; exact G.
Qed.

Lemma resetSpeakers_by_count_witness :
  find_meeting (w_db world1) "uuid-0" = Some row1 /\
  Number_ (JStr "0.5") = Ok (Fin 5 (-1)) /\
  exists m' w',
    resetSpeakers "uuid-0" (JStr "0.5") world1 = Done (Some m') w' /\
    meeting_speakers m' = [].
Proof.
  split; [reflexivity|]. split; [reflexivity|].
  destruct (resetSpeakers_by_count world1 "uuid-0" row1 (JStr "0.5") 5 (-1)
              eq_refl eq_refl eq_refl eq_refl eq_refl eq_refl) as (m' & w' & E & _ & H).
  exists m', w'. split; [exact E|].
  apply map_eq_nil in H. exact H.
Defined.

(** *** Transactions *)

Lemma transaction_thrown {A} (body : M A) (w w' : world) (e : js_error) :
  transaction body w = Thrown e w' -> w_db w' = w_db w.
Proof.
  unfold transaction. destruct (body w); try discriminate.
  intros H. injection H as _ <-. reflexivity.
Qed.

(** X7.  The three operations that write in a transaction are all or
    nothing: when [resetSpeakers], [storeSegments] or [createMeeting]
    throws, the database is what it was before the call. *)
Theorem transactions_roll_back (w w' : world) (e : js_error) (meetingId name : string)
    (speakersOrCount count : jsval) (segs : list segment_input) :
  resetSpeakers meetingId speakersOrCount w = Thrown e w' \/
  storeSegments meetingId segs w = Thrown e w' \/
  createMeeting name count w = Thrown e w' ->
  w_db w' = w_db w.
Proof.
  intros [H|[H|H]].
  - unfold resetSpeakers in H. unfold bind at 1 in H. unfold Date_now at 1 in H.
    unfold bind at 1 in H.
    match type of H with match ?t ?w0 with _ => _ end = _ =>
      destruct (t w0) as [a w1|e1 w1|] eqn:T; try discriminate end.
    injection H as <- <-. apply transaction_thrown in T. exact T.
  - unfold storeSegments in H. unfold bind at 1 in H. unfold Date_now at 1 in H.
    unfold bind at 1 in H.
    match type of H with match ?t ?w0 with _ => _ end = _ =>
      destruct (t w0) as [a w1|e1 w1|] eqn:T; try discriminate end.
    injection H as <- <-. apply transaction_thrown in T. exact T.
  - unfold createMeeting in H. cbv zeta in H.
    unfold bind at 1 in H. unfold Date_now at 1 in H.
    unfold bind at 1 in H. unfold randomUUID at 1 in H.
    unfold bind at 1 in H.
    match type of H with match ?t ?w0 with _ => _ end = _ =>
      destruct (t w0) as [a w1|e1 w1|] eqn:T; try discriminate end.
    injection H as <- <-. apply transaction_thrown in T. exact T.
Qed.

Lemma transactions_roll_back_witness :
  exists e w',
    resetSpeakers "uuid-0" (JArr [JObj [("label", JStr "A")]; JNull]) world1 = Thrown e w' /\
    w_db w' = w_db world1.
Proof.
  destruct (resetSpeakers "uuid-0" (JArr [JObj [("label", JStr "A")]; JNull]) world1)
    as [a w'|e w'|] eqn:E; [vm_compute in E; discriminate| |vm_compute in E; discriminate].
  exists e, w'. split; [reflexivity|].
  exact (transactions_roll_back world1 w' e "uuid-0" EmptyString (JArr [JObj [("label", JStr "A")]; JNull])
           JNull [] (or_introl E)).
Defined.

Example storeSegments_rolls_back :
  match storeSegments "uuid-0" [segment_without_start] world1 with
  | Thrown e w' => Some (e, w_db w')
  | _ => None
  end = Some (SqliteError "NOT NULL constraint failed: segments.start_ms", w_db world1).
Proof. reflexivity. Qed.

(** *** Adding a speaker *)

Lemma insert_by_created_at_length (sp : speaker_row) (l : list speaker_row) :
  List.length (insert_by_created_at sp l) = S (List.length l).
Proof.
  induction l as [|x l IH]; simpl; [reflexivity|].
  destruct (String.ltb _ _); simpl; [reflexivity|]. rewrite IH. reflexivity.
Qed.

Lemma sort_by_created_at_length (l : list speaker_row) :
  List.length (sort_by_created_at l) = List.length l.
Proof.
  unfold sort_by_created_at.
  assert (G : forall acc, List.length
                (fold_left (fun sorted sp => insert_by_created_at sp sorted) l acc)
              = List.length acc + List.length l).
  { induction l as [|x l IH]; intros acc; simpl; [lia|].
    rewrite IH, insert_by_created_at_length. lia. }
  apply (G []).
Qed.

(** X8.  On a meeting that exists, and with a fresh identifier,
    [addSpeaker] adds exactly one row, after the rows that are there: a
    speaker of that meeting with the display name that was given and the
    label [Speaker (k + 1)], where [k] is the number of speakers that the
    meeting has, whatever their labels are.  Nothing else changes. *)
Theorem addSpeaker_appends (w : world) (meetingId displayName : string)
    (row : meeting_row) :
  find_meeting (w_db w) meetingId = Some row ->
  speaker_exists (w_db w) (w_uuids w (w_uuid_next w)) = false ->
  exists m' w',
    addSpeaker meetingId displayName w = Done (Some m') w' /\
    meeting_row_of m' = row /\
    meetings (w_db w') = meetings (w_db w) /\
    speakers (w_db w') = speakers (w_db w) ++ [added_speaker w meetingId displayName] /\
    segments (w_db w') = segments (w_db w).
Proof.
  intros Hm Hs. pose proof (find_meeting_id _ _ _ Hm) as Hid.
  pose proof (meeting_exists_find _ _ _ Hm) as He.
  unfold addSpeaker. unfold bind at 1. rewrite getMeeting_run, Hm.
  cbv zeta. cbn [meeting_speakers].
  unfold selectSpeakers. rewrite sort_by_created_at_length.
  rewrite Hid. fold (speakers_of (w_db w) meetingId).
  unfold bind at 1. unfold Date_now at 1.
  unfold bind at 1. unfold randomUUID at 1. cbn [w_uuids w_uuid_next w_db].
  unfold bind at 1. unfold run_stmt at 1. unfold bind at 1. unfold get_db at 1.
  cbn [w_db]. unfold bind at 1.
  unfold insertSpeakerStmt, bind_text, rbind. rewrite Hs, He. cbn [negb].
  unfold lift at 1. unfold put_db at 1. rewrite getMeeting_run.
  cbn [w_db with_db].
  assert (F : find_meeting
                {| meetings := meetings (w_db w);
                   speakers := speakers (w_db w) ++
                     [{| s_id := w_uuids w (w_uuid_next w); s_meeting_id := meetingId;
                         s_label := speaker_n (List.length (speakers_of (w_db w) meetingId) + 1);
                         s_display_name := displayName;
                         s_created_at := w_clock w (w_tick w) |}];
                   segments := segments (w_db w) |} meetingId = Some row) by exact Hm.
  rewrite F. eexists _, _. split; [reflexivity|]. cbn [meeting_row_of w_db].
  repeat split.
Qed.

Lemma addSpeaker_appends_witness :
  find_meeting (w_db world1) "uuid-0" = Some row1 /\
  speaker_exists (w_db world1) (w_uuids world1 (w_uuid_next world1)) = false /\
  exists m' w',
    addSpeaker "uuid-0" "Carol" world1 = Done (Some m') w' /\
    map label_and_name (speakers_of (w_db w') "uuid-0")
    = [("Speaker 1", "Speaker 1"); ("Speaker 2", "Speaker 2"); ("Speaker 3", "Carol")].
Proof.
  split; [reflexivity|]. split; [reflexivity|].
  destruct (addSpeaker_appends world1 "uuid-0" "Carol" row1 eq_refl eq_refl)
    as (m' & w' & E & _ & _ & S & _).
  exists m', w'. split; [exact E|]. unfold speakers_of. rewrite S. reflexivity.
Defined.

(** *** Starting a meeting *)

Lemma update_meeting_fixed (id : string) (f : meeting_row -> meeting_row) (db : DB) :
  (forall m, In m (meetings db) -> String.eqb (m_id m) id = true -> f m = m) ->
  update_meeting id f db = db.
Proof.
  intros H. unfold update_meeting. rewrite <- (db_eta db) at 4. f_equal.
  rewrite <- (map_id (meetings db)) at 2. apply map_ext_in. intros m Hin.
  destruct (String.eqb (m_id m) id) eqn:E; [apply H; assumption|reflexivity].
Qed.

(** X9.  [startMeeting] records the time of the first start only: on a
    meeting that exists it leaves a start that is recorded, records the
    time of the call otherwise, and changes no other column; a second
    call leaves the database as the first call left it. *)
Theorem startMeeting_once (w : world) (meetingId : string) (row : meeting_row) :
  find_meeting (w_db w) meetingId = Some row ->
  exists m1 w1,
    startMeeting meetingId w = Done (Some m1) w1 /\
    meeting_row_of m1 = started_row (w_clock w (w_tick w)) row /\
    find_meeting (w_db w1) meetingId = Some (meeting_row_of m1) /\
    speakers (w_db w1) = speakers (w_db w) /\
    segments (w_db w1) = segments (w_db w) /\
    exists m2 w2,
      startMeeting meetingId w1 = Done (Some m2) w2 /\
      meeting_row_of m2 = meeting_row_of m1 /\
      w_db w2 = w_db w1.
Proof.
  intros Hm. pose proof (find_meeting_id _ _ _ Hm) as Hid.
  set (now := w_clock w (w_tick w)).
  set (db1 := update_meeting meetingId (started_row now) (w_db w)).
  assert (F1 : find_meeting db1 meetingId = Some (started_row now row)).
  { unfold db1. rewrite find_update_meeting by reflexivity. rewrite Hm. cbn [option_map].
    rewrite Hid, String.eqb_refl. reflexivity. }
  assert (R1 : forall w0 : world,
            startMeeting meetingId w0
            = getMeeting meetingId
                (with_db (tick w0)
                   (update_meeting meetingId (started_row (w_clock w0 (w_tick w0)))
                      (w_db w0)))).
  { intros w0. reflexivity. }
  exists {| meeting_row_of := started_row now row;
            meeting_speakers := selectSpeakers db1 meetingId |}, (with_db (tick w) db1).
  split.
  { rewrite R1, getMeeting_run. cbn [w_db with_db]. fold now. fold db1. rewrite F1.
    cbn [started_row m_id]. rewrite Hid. reflexivity. }
  cbn [meeting_row_of w_db with_db].
  split; [reflexivity|]. split; [exact F1|]. split; [reflexivity|]. split; [reflexivity|].
  assert (Fix : forall t, update_meeting meetingId (started_row t) db1 = db1).
  { intros t. apply update_meeting_fixed. intros m Hin Hm1.
    unfold db1, update_meeting in Hin. cbn [meetings] in Hin.
    apply in_map_iff in Hin. destruct Hin as (m0 & <- & Hin0).
    destruct (String.eqb (m_id m0) meetingId) eqn:E; [|congruence].
    unfold started_row. cbn. destruct (m_started_at m0); reflexivity. }
  exists {| meeting_row_of := started_row now row;
            meeting_speakers := selectSpeakers db1 meetingId |},
    (with_db (tick (with_db (tick w) db1)) db1).
  split.
  { rewrite R1. cbn [w_db with_db]. rewrite Fix, getMeeting_run.
    cbn [w_db with_db]. rewrite F1. cbn [started_row m_id]. rewrite Hid. reflexivity. }
  split; reflexivity.
Qed.

Lemma startMeeting_once_witness :
  find_meeting (w_db world1) "uuid-0" = Some row1 /\
  exists m1 w1 m2 w2,
    startMeeting "uuid-0" world1 = Done (Some m1) w1 /\
    m_started_at (meeting_row_of m1) = Some "2025-01-01T00:00:01.000Z" /\
    startMeeting "uuid-0" w1 = Done (Some m2) w2 /\
    m_started_at (meeting_row_of m2) = Some "2025-01-01T00:00:01.000Z".
Proof.
  split; [reflexivity|].
  destruct (startMeeting_once world1 "uuid-0" row1 eq_refl)
    as (m1 & w1 & E1 & R1 & _ & _ & _ & m2 & w2 & E2 & R2 & _).
  exists m1, w1, m2, w2. split; [exact E1|]. split; [rewrite R1; reflexivity|].
  split; [exact E2|]. rewrite R2, R1. reflexivity.
Defined.

(** *** What a reset of the roster does to the segments *)

(** The tables that an insertion of speakers of [id] leaves alone. *)
Lemma insert_roster_tables (meetingId : string) (v : jsval) (now : string) :
  keeps (fun db db' =>
           meetings db' = meetings db /\ segments db' = segments db /\
           filter (other_speaker meetingId) (speakers db')
           = filter (other_speaker meetingId) (speakers db))
    (insert_roster meetingId v now).
Proof.
  apply (insert_roster_keeps _ (fun id => id = meetingId)).
  - intros db. repeat split.
  - intros a b c (A1 & A2 & A3) (B1 & B2 & B3). repeat split; congruence.
  - intros id m l d t db db' -> H.
    destruct (insertSpeakerStmt_tables _ _ _ _ _ _ _ H) as (row & _ & Hrow & _ & _ & ->).
    cbn [meetings speakers segments]. split; [reflexivity|]. split; [reflexivity|].
    apply filter_snoc_out. unfold other_speaker. rewrite Hrow, String.eqb_refl. reflexivity.
  - reflexivity.
Qed.

(** The tables after a reset, by the statement that deletes the speakers. *)
Lemma resetSpeakers_tables (w w' : world) (meetingId : string)
    (speakersOrCount : jsval) (found : option meeting) :
  resetSpeakers meetingId speakersOrCount w = Done found w' ->
  meetings (w_db w') = meetings (w_db w) /\
  segments (w_db w') = segments (deleteSpeakersStmt meetingId (w_db w)) /\
  List.length (segments (w_db w')) = List.length (segments (w_db w)) /\
  filter (other_speaker meetingId) (speakers (w_db w'))
  = filter (other_speaker meetingId) (speakers (w_db w)).
Proof.
  unfold resetSpeakers. unfold bind at 1. unfold Date_now at 1. fold (tick w).
  unfold bind at 1. unfold transaction. rewrite resetSpeakersInternal_split.
  unfold bind at 1. unfold run_stmt at 1. unfold bind at 1. unfold get_db at 1.
  unfold bind at 1. unfold lift at 1. unfold put_db at 1. cbn [w_db tick].
  pose proof (insert_roster_tables meetingId speakersOrCount (w_clock w (w_tick w))
                (with_db (tick w) (deleteSpeakersStmt meetingId (w_db w)))) as K.
  destruct (insert_roster meetingId speakersOrCount (w_clock w (w_tick w))
              (with_db (tick w) (deleteSpeakersStmt meetingId (w_db w))))
    as [u w1|e w1|]; try discriminate.
  rewrite getMeeting_run. intros H. injection H as _ <-.
  cbn [w_db with_db] in K. destruct K as (K1 & K2 & K3).
  split; [rewrite K1; reflexivity|]. split; [exact K2|]. split.
  - rewrite K2. unfold deleteSpeakersStmt. cbn [segments]. apply length_map.
  - rewrite K3. unfold deleteSpeakersStmt. cbn [speakers].
    apply (filter_idem (other_speaker meetingId)).
Qed.

Lemma gone_speaker (db : DB) (meetingId id : string) :
  existsb (fun sp => String.eqb (s_id sp) id)
    (filter (fun sp => String.eqb (s_meeting_id sp) meetingId) (speakers db)) = true
  <-> speaker_of_meeting db meetingId id.
Proof.
  unfold speaker_of_meeting. rewrite existsb_exists. split.
  - intros (sp & Hin & E). apply filter_In in Hin. destruct Hin as [Hin M].
    exists sp. split; [exact Hin|]. split; apply String.eqb_eq; assumption.
  - intros (sp & Hin & E & M). exists sp. split.
    + apply filter_In. split; [exact Hin|]. apply String.eqb_eq. exact M.
    + apply String.eqb_eq. exact E.
Qed.

Lemma deleteSpeakersStmt_links (meetingId : string) (db : DB) :
  Forall2 (link_cleared db meetingId) (segments db)
    (segments (deleteSpeakersStmt meetingId db)).
Proof.
  unfold deleteSpeakersStmt. cbn [segments]. apply Forall2_map_r.
  intros [gid gm [id|] t1 t2 tr cr]; unfold link_cleared; cbn [g_speaker_id].
  - destruct (existsb _ _) eqn:G; cbn; repeat split.
    + intros N. apply gone_speaker in G. contradiction.
    + intros S. apply gone_speaker in S. congruence.
  - cbn. repeat split.
Qed.

(** X10.  A reset of the roster deletes no segment and no meeting, and
    the speakers of the other meetings stay.  Of the segments, whatever
    their meeting, it clears the link to a speaker exactly where the
    speaker was a speaker of the meeting that is reset (the schema sets
    the link to [NULL]); every other link and every other column of a
    segment is as it was. *)
Theorem resetSpeakers_unlinks_segments (w w' : world) (meetingId : string)
    (speakersOrCount : jsval) (found : option meeting) :
  resetSpeakers meetingId speakersOrCount w = Done found w' ->
  meetings (w_db w') = meetings (w_db w) /\
  Forall2 (link_cleared (w_db w) meetingId) (segments (w_db w)) (segments (w_db w')) /\
  filter (other_speaker meetingId) (speakers (w_db w'))
  = filter (other_speaker meetingId) (speakers (w_db w)).
Proof.
  intros H. destruct (resetSpeakers_tables _ _ _ _ _ H) as (M & G & _ & S).
  split; [exact M|]. split; [|exact S].
  rewrite G. apply deleteSpeakersStmt_links.
Qed.

Lemma resetSpeakers_unlinks_segments_witness :
  segment_links (w_db world_two_meetings)
  = [("uuid-5", "uuid-0", Some "uuid-4"); ("uuid-11", "uuid-6", Some "uuid-10")] /\
  speaker_of_meeting (w_db world_two_meetings) "uuid-0" "uuid-4" /\
  ~ speaker_of_meeting (w_db world_two_meetings) "uuid-0" "uuid-10" /\
  exists found w',
    resetSpeakers "uuid-0" (JNum (Fin 1 0)) world_two_meetings = Done found w' /\
    Forall2 (link_cleared (w_db world_two_meetings) "uuid-0")
      (segments (w_db world_two_meetings)) (segments (w_db w')) /\
    segment_links (w_db w')
    = [("uuid-5", "uuid-0", None); ("uuid-11", "uuid-6", Some "uuid-10")].
Proof.
  split; [reflexivity|].
  split; [apply gone_speaker; vm_compute; reflexivity|].
  split; [intros S; apply gone_speaker in S; vm_compute in S; discriminate S|].
  destruct (resetSpeakers "uuid-0" (JNum (Fin 1 0)) world_two_meetings)
    as [found w'| |] eqn:E; [|vm_compute in E; discriminate E..].
  exists found, w'. split; [reflexivity|].
  destruct (resetSpeakers_unlinks_segments world_two_meetings w' "uuid-0"
              (JNum (Fin 1 0)) found E) as (_ & L & _).
  split; [exact L|].
  apply (f_equal (fun o => match o with
                           | Done _ x => segment_links (w_db x)
                           | _ => []
                           end)) in E.
  cbn beta iota in E. rewrite <- E. reflexivity.
Defined.


(** *** Storing segments *)

Lemma insertSegment_row (id : jsval) (meetingId : string) (a b c d e : jsval)
    (db db' : DB) :
  insertSegment id meetingId a b c d e db = Ok db' ->
  exists row,
    db' = {| meetings := meetings db; speakers := speakers db;
             segments := segments db ++ [row] |} /\
    g_meeting_id row = meetingId /\
    bind_text "segments.id" id = Ok (g_id row) /\
    bind_text_nullable a = Ok (g_speaker_id row) /\
    bind_integer "segments.start_ms" b = Ok (g_start_ms row) /\
    bind_integer "segments.end_ms" c = Ok (g_end_ms row) /\
    bind_text "segments.transcript" d = Ok (g_transcript row) /\
    bind_text "segments.created_at" e = Ok (g_created_at row).
Proof.
  unfold insertSegment, rbind. intros H.
  destruct (bind_text _ id) as [id'| |]; try discriminate.
  destruct (bind_text_nullable a) as [sid| |]; try discriminate.
  destruct (bind_integer _ b) as [b'| |]; try discriminate.
  destruct (bind_integer _ c) as [c'| |]; try discriminate.
  destruct (bind_text _ d) as [d'| |]; try discriminate.
  destruct (bind_text _ e) as [e'| |]; try discriminate.
  destruct (segment_exists db id'); try discriminate.
  destruct (negb (meeting_exists db meetingId)); try discriminate.
  destruct (match sid with Some s => negb (speaker_exists db s) | None => false end);
    try discriminate.
  injection H as <-. eexists. split; [reflexivity|]. cbn. repeat split.
Qed.

(** The loop of [storeSegments] appends one row for each segment. *)
Lemma storeSegments_loop (meetingId now : string) (segs : list segment_input) :
  forall (k : nat) (w w' : world),
    forEach (fun segment (_ : nat) =>
               id <- (if nullish (seg_id segment)
                      then (u <- randomUUID ;; ret (JStr u))
                      else ret (seg_id segment)) ;;
               run_stmt (insertSegment id meetingId
                           (coalesce (seg_speakerId segment) JNull)
                           (seg_startMs segment) (seg_endMs segment)
                           (seg_transcript segment)
                           (coalesce (seg_createdAt segment) (JStr now))))
      k segs w = Done tt w' ->
    exists added,
      Forall2 (stored_as meetingId now) segs added /\
      meetings (w_db w') = meetings (w_db w) /\
      speakers (w_db w') = speakers (w_db w) /\
      segments (w_db w') = segments (w_db w) ++ added.
Proof.
  induction segs as [|segment segs IH]; intros k w w' H.
  - cbn [forEach] in H. injection H as <-. exists []. rewrite app_nil_r.
    repeat split. constructor.
  - cbn [forEach] in H. unfold bind at 1 in H.
    match type of H with match ?c w with _ => _ end = _ =>
      destruct (c w) as [[] w1|e w1|] eqn:E; try discriminate
    end.
    destruct (IH _ _ _ H) as (added & F & M1 & S1 & G1).
    assert (R : exists row,
               stored_as meetingId now segment row /\
               meetings (w_db w1) = meetings (w_db w) /\
               speakers (w_db w1) = speakers (w_db w) /\
               segments (w_db w1) = segments (w_db w) ++ [row]).
    { unfold bind at 1 in E. destruct (nullish (seg_id segment)) eqn:N.
      - unfold bind at 1, randomUUID at 1, ret at 1 in E.
        unfold run_stmt, bind, get_db, lift, put_db in E. cbn [w_db] in E.
        destruct (insertSegment _ _ _ _ _ _ _ _) as [db'| |] eqn:I; try discriminate.
        injection E as <-. apply insertSegment_row in I.
        destruct I as (row & -> & I1 & _ & I3 & I4 & I5 & I6 & I7).
        exists row. split; [|repeat split].
        unfold stored_as. rewrite N. repeat split; try assumption. discriminate.
      - unfold ret at 1 in E.
        unfold run_stmt, bind, get_db, lift, put_db in E.
        destruct (insertSegment _ _ _ _ _ _ _ _) as [db'| |] eqn:I; try discriminate.
        injection E as <-. apply insertSegment_row in I.
        destruct I as (row & -> & I1 & I2 & I3 & I4 & I5 & I6 & I7).
        exists row. split; [|repeat split].
        unfold stored_as. repeat split; try assumption. intros _. exact I2. }
    destruct R as (row & R0 & R1 & R2 & R3).
    exists (row :: added). split; [constructor; assumption|].
    split; [congruence|]. split; [congruence|].
    rewrite G1, R3, <- app_assoc. reflexivity.
Qed.

(** X11.  [storeSegments] replaces the segments of the meeting: when it
    returns, the segments of the meeting are one row for each segment that
    was passed, in that order and with the values that were passed, after
    the segments of the other meetings, which are as they were.  The
    segments that the meeting had are gone; meetings and speakers are as
    they were. *)
Theorem storeSegments_replaces (w w' : world) (meetingId : string)
    (segs : list segment_input) (found : option meeting) :
  storeSegments meetingId segs w = Done found w' ->
  exists added,
    Forall2 (stored_as meetingId (w_clock w (w_tick w))) segs added /\
    segments (w_db w') = filter (other_segment meetingId) (segments (w_db w)) ++ added /\
    meetings (w_db w') = meetings (w_db w) /\
    speakers (w_db w') = speakers (w_db w).
Proof.
  unfold storeSegments. unfold bind at 1. unfold Date_now at 1. fold (tick w).
  unfold bind at 1. unfold transaction. unfold bind at 1.
  unfold run_stmt at 1. unfold bind at 1, get_db at 1, bind at 1, lift at 1, put_db at 1.
  cbn [w_db tick].
  match goal with |- match match ?c with _ => _ end with _ => _ end = _ -> _ =>
    destruct c as [[] w1|e w1|] eqn:E; try discriminate
  end.
  rewrite getMeeting_run. intros H. injection H as _ <-.
  apply storeSegments_loop in E. destruct E as (added & F & M1 & S1 & G1).
  cbn [w_db with_db meetings speakers segments] in M1, S1, G1.
  exists added. repeat split; assumption.
Qed.

Lemma storeSegments_replaces_witness :
  exists found w',
    storeSegments "uuid-0" two_segments world_diarized = Done found w' /\
    map g_transcript (segments (w_db world_diarized)) = ["hello"] /\
    map g_transcript (segments (w_db w')) = ["hello"; "bye"] /\
    map g_speaker_id (segments (w_db w')) = [None; Some "uuid-3"] /\
    speakers (w_db w') = speakers (w_db world_diarized).
Proof.
  destruct (storeSegments "uuid-0" two_segments world_diarized) as [found w'| |] eqn:E;
    [|vm_compute in E; discriminate E..].
  exists found, w'. split; [reflexivity|].
  destruct (storeSegments_replaces world_diarized w' "uuid-0" two_segments found E)
    as (added & F & G & _ & S).
  split; [reflexivity|]. split; [|split; [|exact S]].
  - apply (f_equal (fun o => match o with Done _ x => map g_transcript (segments (w_db x))
                                     | _ => [] end)) in E.
    cbn beta iota in E. rewrite <- E. reflexivity.
  - apply (f_equal (fun o => match o with Done _ x => map g_speaker_id (segments (w_db x))
                                     | _ => [] end)) in E.
    cbn beta iota in E. rewrite <- E. reflexivity.
Defined.

(** ** Further properties of the routes *)

Lemma find_meeting_none (db : DB) (id : string) :
  meeting_exists db id = false -> find_meeting db id = None.
Proof.
  unfold meeting_exists, find_meeting. intros H.
  destruct (find _ _) as [row|] eqn:E; [|reflexivity].
  apply find_some in E. assert (existsb (fun m => String.eqb (m_id m) id) (meetings db) = true);
    [|congruence].
  apply existsb_exists. exists row. exact E.
Qed.

(** X12.  Every route that takes a POST or a PATCH on a meeting answers
    404 when there is no such meeting, before it looks at the body of
    the request; it queues no job and leaves the database, and for
    export-sync the files, as they are.  For the route that takes an
    upload, this is the handler that runs once the upload has been
    accepted, and for the route that renames a speaker it is the first of
    its two registrations, the one that runs.  The route that serves an
    export file is no such route: it does not look the meeting up
    ([GET_file]). *)
Theorem unknown_meeting_not_found (meetingId : string) (w : world) :
  meeting_exists (w_db w) meetingId = false ->
  (forall req, request_meeting req = Some meetingId ->
               serve req w = Some (not_found, [], w)) /\
  (forall now fs,
      serve_apply meetingId now w fs = Some (404, {| updated := false; files := [] |}, fs)).
Proof.
  intros Hm. apply find_meeting_none in Hm. split.
  - intros req Hr.
    destruct req; cbn in Hr; try discriminate; injection Hr as ->;
      unfold serve, handle; unfold bind at 1; rewrite getMeeting_run, Hm; reflexivity.
  - intros now fs. unfold serve_apply. rewrite getMeeting_run, Hm. reflexivity.
Qed.

Lemma unknown_meeting_not_found_witness :
  meeting_exists (w_db world1) "uuid-7" = false /\
  serve (POST_reset "uuid-7" (JNum (Fin 3 0)) JUndefined) world1 = Some (not_found, [], world1) /\
  serve (PATCH_meeting "uuid-7" JUndefined) world1 = Some (not_found, [], world1) /\
  serve_apply "uuid-7" "2025-01-01T00:10:00.000Z" world1 exports_fs
  = Some (404, {| updated := false; files := [] |}, exports_fs).
Proof.
  split; [reflexivity|].
  destruct (unknown_meeting_not_found "uuid-7" world1 eq_refl) as [R A].
  split; [exact (R (POST_reset "uuid-7" (JNum (Fin 3 0)) JUndefined) eq_refl)|].
  split; [exact (R (PATCH_meeting "uuid-7" JUndefined) eq_refl)|]. apply A.
Defined.

(** X13.  The route that synchronises the number of speakers never
    succeeds: it calls [storage.ensureSpeakerCount], which the storage
    module does not export.  It answers 404, 400 or 500, queues no job and
    leaves the database as it is. *)
Theorem sync_count_never_succeeds (meetingId : string) (count : jsval) (w w' : world)
    (r : reply) (jobs : list job) :
  serve (POST_sync_count meetingId count) w = Some (r, jobs, w') ->
  (code r = 404 \/ code r = 400 \/ code r = 500) /\ jobs = [] /\ w' = w.
Proof.
  unfold serve, handle. unfold bind at 1. rewrite getMeeting_run.
  destruct (find_meeting (w_db w) meetingId) as [row|].
  - unfold bind at 1. unfold lift at 1.
    destruct (Number_ count) as [n| |]; try discriminate.
    + destruct (negb (number_isFinite n) || negb (number_gt0 n)
                || match n with Fin m e => (number_floor m e <? 1)%Z | _ => false end);
        intros H; injection H as <- <- <-; cbn; tauto.
    + intros H; injection H as <- <- <-; cbn; tauto.
  - intros H; injection H as <- <- <-; cbn; tauto.
Qed.

Lemma sync_count_never_succeeds_witness :
  exists r w',
    serve (POST_sync_count "uuid-0" (JNum (Fin 3 0))) world1 = Some (r, [], w') /\
    code r = 500 /\ w' = world1.
Proof.
  destruct (serve (POST_sync_count "uuid-0" (JNum (Fin 3 0))) world1)
    as [[[r jobs] w']|] eqn:E; [|vm_compute in E; discriminate].
  destruct (sync_count_never_succeeds "uuid-0" (JNum (Fin 3 0)) world1 w' r jobs E)
    as (_ & -> & ->).
  exists r, world1. split; [reflexivity|]. split; [|reflexivity].
  vm_compute in E. injection E as <-. reflexivity.
Defined.

(** *** The end of a meeting *)

Lemma status_of_find (db : DB) (id : string) :
  status_of db id = option_map m_status (find_meeting db id).
Proof. reflexivity. Qed.

(** X14.  The route that ends a meeting that exists, with an audio path that
    is a text, [null] or absent: it answers 200 with the meeting in status
    [processing] in every case.  With a path that is not empty it queues
    one job on that path and the meeting stays in [processing]; with no
    path, or an empty one, it queues no job and the meeting is stored as
    [failed], although the answer said [processing].  A path that is
    given, even the empty text, replaces the stored one. *)
Theorem end_route_contract (w : world) (meetingId : string) (audioFilePath : jsval)
    (bound : option string) (row : meeting_row) :
  find_meeting (w_db w) meetingId = Some row ->
  bind_text_nullable audioFilePath = Ok bound ->
  let ended := with_db (tick w)
                 (update_meeting meetingId (ended_row (w_clock w (w_tick w)) bound) (w_db w)) in
  let w' := if queues_job bound then ended else mark_failed meetingId ended in
  exists m,
    serve (POST_end meetingId audioFilePath) w
    = Some (json_meeting 200 (Some m),
            match bound with
            | Some audioPath =>
                if isEmpty audioPath then []
                else [{| job_meetingId := meetingId; job_audioPath := audioPath |}]
            | None => []
            end,
            w') /\
    m_status (meeting_row_of m) = "processing" /\
    m_audio_file_path (meeting_row_of m) = COALESCE bound (m_audio_file_path row) /\
    exists row',
      find_meeting (w_db w') meetingId = Some row' /\
      m_status row' = (if queues_job bound then "processing" else "failed") /\
      m_audio_file_path row' = COALESCE bound (m_audio_file_path row).
Proof.
  intros Hm Hb ended w'.
  destruct (endMeeting_run w meetingId bound row Hm) as (E & F).
  fold ended in E, F.
  pose proof (find_meeting_id _ _ _ Hm) as Hid.
  exists {| meeting_row_of := ended_row (w_clock w (w_tick w)) bound row;
            meeting_speakers := selectSpeakers (w_db ended) meetingId |}.
  assert (Ffail : find_meeting (w_db (mark_failed meetingId ended)) meetingId
                  = Some (set_status "failed" (ended_row (w_clock w (w_tick w)) bound row))).
  { unfold mark_failed. cbn [w_db with_db]. rewrite find_update_meeting by reflexivity.
    rewrite F. cbn [option_map ended_row m_id]. rewrite Hid, String.eqb_refl. reflexivity. }
  split.
  { unfold serve, handle. unfold bind at 1. rewrite getMeeting_run, Hm.
    unfold bind at 1. rewrite Hb. unfold lift at 1.
    unfold bind at 1. rewrite E. unfold w'.
    destruct bound as [p|]; cbn [queues_job]; [destruct (isEmpty p)|]; reflexivity. }
  cbn [meeting_row_of]. split; [reflexivity|]. split; [reflexivity|].
  unfold w'. destruct (queues_job bound).
  - eexists. split; [exact F|]. split; reflexivity.
  - eexists. split; [exact Ffail|]. split; reflexivity.
Qed.

Lemma end_route_contract_witness :
  find_meeting (w_db world1) "uuid-0" = Some row1 /\
  bind_text_nullable JUndefined = Ok None /\
  exists m w',
    serve (POST_end "uuid-0" JUndefined) world1 = Some (json_meeting 200 (Some m), [], w') /\
    m_status (meeting_row_of m) = "processing" /\
    status_of (w_db w') "uuid-0" = Some "failed".
Proof.
  split; [reflexivity|]. split; [reflexivity|].
  destruct (end_route_contract world1 "uuid-0" JUndefined None row1 eq_refl eq_refl)
    as (m & E & S & _ & row' & F & S' & _).
  eexists m, _. split; [exact E|]. split; [exact S|].
  apply (f_equal (option_map m_status)) in F. cbn [option_map] in F.
  rewrite S' in F. exact F.
Defined.

(** *** The jobs that the routes queue *)

Ltac head_of t := lazymatch t with ?f _ => head_of f | _ => t end.

(** Run a route whose jobs do not depend on what its operations do. *)
Ltac run_route :=
  repeat first
    [ progress (unfold bind at 1)
    | progress (unfold ret, throw)
    | progress cbv beta
    | match goal with
      | |- context [match ?x with Some _ => _ | None => _ end] => destruct x
      | |- context [if ?b then _ else _] => destruct b
      | |- context [match ?c ?w with Done _ _ => _ | Thrown _ _ => _ | NotModelled => _ end] =>
          let h := head_of c in is_const h; destruct (c w) as [? ?|? ?|]
      end ].

Lemma updateMeetingStatus_run (meetingId status : string) (w : world) :
  updateMeetingStatus meetingId status w
  = getMeeting meetingId (with_db w (update_meeting meetingId (set_status status) (w_db w))).
Proof. reflexivity. Qed.

(** X15.  Whenever a route queues a job, it queues that one job only, on the
    meeting of the request, and leaves that meeting in status [processing]
    with the audio path of the job stored as its audio path. *)
Theorem queued_job_is_processing (req : request) (w w' : world) (r : reply)
    (jobs : list job) (j : job) :
  serve req w = Some (r, jobs, w') ->
  In j jobs ->
  jobs = [j] /\
  request_meeting req = Some (job_meetingId j) /\
  exists row,
    find_meeting (w_db w') (job_meetingId j) = Some row /\
    m_status row = "processing" /\
    m_audio_file_path row = Some (job_audioPath j).
Proof.
  unfold serve. destruct req as [name count|meetingId name|meetingId|meetingId speakerId name
                                 |meetingId name|meetingId file|meetingId audioFilePath
                                 |meetingId audio_on_disk|meetingId count|meetingId count speakers];
    unfold handle.
  1-5, 9-10:
    run_route; try discriminate; intros H; injection H as _ <- _; intros [].
  - (* the upload of the audio *)
    unfold bind at 1. rewrite getMeeting_run.
    destruct (find_meeting (w_db w) meetingId) as [row|] eqn:Hm;
      [|intros H; injection H as _ <- _; intros []].
    destruct file as [audioPath|]; [|intros H; injection H as _ <- _; intros []].
    destruct (endMeeting_run w meetingId (Some audioPath) row Hm) as (E & F).
    unfold bind at 1. rewrite E. unfold ret. intros H. injection H as _ <- <-.
    intros [<-|[]]. split; [reflexivity|]. split; [reflexivity|].
    eexists. split; [exact F|]. split; reflexivity.
  - (* the end of the meeting *)
    unfold bind at 1. rewrite getMeeting_run.
    destruct (find_meeting (w_db w) meetingId) as [row|] eqn:Hm;
      [|intros H; injection H as _ <- _; intros []].
    unfold bind at 1. unfold lift at 1.
    destruct (bind_text_nullable audioFilePath) as [bound| |];
      [| intros H; injection H as _ <- _; intros [] | discriminate].
    destruct (endMeeting_run w meetingId bound row Hm) as (E & F).
    unfold bind at 1. rewrite E.
    destruct bound as [audioPath|];
      [destruct (isEmpty audioPath)|];
      try (unfold bind at 1; rewrite updateMeetingStatus_run, getMeeting_run;
           unfold ret; intros H; injection H as _ <- _; intros []).
    unfold ret. intros H. injection H as _ <- <-.
    intros [<-|[]]. split; [reflexivity|]. split; [reflexivity|].
    eexists. split; [exact F|]. split; reflexivity.
  - (* a new run of the analysis *)
    unfold bind at 1. rewrite getMeeting_run.
    destruct (find_meeting (w_db w) meetingId) as [row|] eqn:Hm;
      [|intros H; injection H as _ <- _; intros []].
    cbn [meeting_row_of].
    destruct (m_audio_file_path row) as [audioPath|] eqn:Ha;
      [|intros H; injection H as _ <- _; intros []].
    destruct (isEmpty audioPath); [intros H; injection H as _ <- _; intros []|].
    destruct audio_on_disk; cbn [negb]; [|intros H; injection H as _ <- _; intros []].
    unfold bind at 1. rewrite updateMeetingStatus_run, getMeeting_run. unfold ret.
    intros H. injection H as _ <- <-. intros [<-|[]].
    split; [reflexivity|]. split; [reflexivity|]. cbn [job_meetingId job_audioPath w_db with_db].
    pose proof (find_meeting_id _ _ _ Hm) as Hid.
    exists (set_status "processing" row). split.
    + rewrite find_update_meeting by reflexivity. rewrite Hm. cbn [option_map].
      rewrite Hid, String.eqb_refl. reflexivity.
    + split; [reflexivity|exact Ha].
Qed.

Lemma queued_job_is_processing_witness :
  exists r w' j,
    serve (POST_audio "uuid-0" (Some "data/audio/uuid-0/rec.wav")) world1 = Some (r, [j], w') /\
    status_of (w_db w') "uuid-0" = Some "processing".
Proof.
  destruct (serve (POST_audio "uuid-0" (Some "data/audio/uuid-0/rec.wav")) world1)
    as [[[r jobs] w']|] eqn:E; [|vm_compute in E; discriminate].
  assert (J : In {| job_meetingId := "uuid-0"; job_audioPath := "data/audio/uuid-0/rec.wav" |}
                jobs).
  { vm_compute in E. injection E as _ <- _. left. reflexivity. }
  destruct (queued_job_is_processing _ world1 w' r jobs _ E J)
    as (-> & _ & row & F & S & _).
  exists r, w', {| job_meetingId := "uuid-0"; job_audioPath := "data/audio/uuid-0/rec.wav" |}.
  split; [reflexivity|].
  apply (f_equal (option_map m_status)) in F. cbn [option_map job_meetingId] in F.
  rewrite S in F. exact F.
Defined.

(** *** The creation of a meeting *)

Lemma find_meeting_snoc_new (db : DB) (row : meeting_row) :
  meeting_exists db (m_id row) = false ->
  find (fun m => String.eqb (m_id m) (m_id row)) (meetings db ++ [row]) = Some row.
Proof.
  unfold meeting_exists. induction (meetings db) as [|m l IH]; simpl; intros H.
  - rewrite String.eqb_refl. reflexivity.
  - apply orb_false_iff in H. destruct H as [H1 H2]. rewrite H1. exact (IH H2).
Qed.

Lemma resetSpeakersInternal_meetings (meetingId : string) (v : jsval) (now : string) :
  keeps (fun db db' => meetings db' = meetings db) (resetSpeakersInternal meetingId v now).
Proof.
  apply (resetSpeakersInternal_keeps _ everywhere).
  - reflexivity.
  - intros a b c H1 H2. congruence.
  - reflexivity.
  - intros id mid l d t db db' _ E.
    destruct (insertSpeakerStmt_tables _ _ _ _ _ _ _ E) as (row & _ & _ & _ & _ & ->).
    reflexivity.
  - exact I.
Qed.

Lemma createMeeting_done (name : string) (count : jsval) (w w' : world)
    (found : option meeting) :
  createMeeting name count w = Done found w' ->
  let row := new_meeting (w_uuids w (w_uuid_next w)) name (w_clock w (w_tick w)) in
  meeting_exists (w_db w) (m_id row) = false /\
  meetings (w_db w') = meetings (w_db w) ++ [row] /\
  exists m, found = Some m /\ meeting_row_of m = row.
Proof.
  intros H row. unfold createMeeting in H. cbv zeta in H.
  unfold bind at 1 in H. unfold Date_now at 1 in H.
  unfold bind at 1 in H. unfold randomUUID at 1 in H. cbn [w_uuids w_uuid_next w_clock w_tick w_db] in H.
  unfold bind at 1 in H. unfold transaction in H.
  unfold bind at 1 in H. unfold run_stmt at 1 in H. unfold bind at 1 in H.
  unfold get_db at 1 in H. cbn [w_db] in H. unfold bind at 1 in H.
  destruct (meeting_exists (w_db w) (w_uuids w (w_uuid_next w))) eqn:Ex.
  { unfold lift at 1 in H. discriminate. }
  unfold lift at 1 in H. unfold put_db at 1 in H.
  match type of H with
  | match match resetSpeakersInternal ?id ?v ?now ?w0 with _ => _ end with _ => _ end = _ =>
      pose proof (resetSpeakersInternal_meetings id v now w0) as K;
      destruct (resetSpeakersInternal id v now w0) as [u w1|e w1|]; try discriminate
  end.
  cbn [w_db with_db meetings] in K.
  rewrite getMeeting_run in H. unfold find_meeting in H. rewrite K in H.
  fold (new_meeting (w_uuids w (w_uuid_next w)) name (w_clock w (w_tick w))) in H, K.
  fold row in H, K.
  change (w_uuids w (w_uuid_next w)) with (m_id row) in H.
  rewrite (find_meeting_snoc_new (w_db w) row Ex) in H.
  injection H as <- <-. split; [exact Ex|]. split; [exact K|].
  eexists. split; reflexivity.
Qed.

(** X16.  The route that creates a meeting: with a name that is blank it
    answers 400 and creates nothing.  When it answers 201, it has added
    one meeting after the meetings that were there, with a fresh
    identifier, the name without the white space around it, the status
    [pending] and neither start, end nor audio; that meeting is the one
    of the answer, and no job is queued. *)
Theorem create_route_contract (w w' : world) (name count : jsval) (text : option string)
    (r : reply) (jobs : list job) :
  trimmed_text name = Ok text ->
  serve (POST_meetings name count) w = Some (r, jobs, w') ->
  match text with
  | None => r = json_error 400 "Meeting name is required" /\ jobs = [] /\ w' = w
  | Some trimmed =>
      code r = 201 ->
      let row := new_meeting (w_uuids w (w_uuid_next w)) trimmed (w_clock w (w_tick w)) in
      meeting_exists (w_db w) (m_id row) = false /\
      meetings (w_db w') = meetings (w_db w) ++ [row] /\
      jobs = [] /\
      exists m, reply_meeting r = Some m /\ meeting_row_of m = row
  end.
Proof.
  intros Ht. unfold serve, handle. unfold bind at 1. rewrite Ht. unfold lift at 1.
  destruct text as [trimmed|].
  2:{ unfold ret. intros H. injection H as <- <- <-. repeat split. }
  unfold bind at 1.
  assert (N : forall w0 : world,
            (if truthy count then lift (Number_ count) else ret NaN) w0
            = match (if truthy count then Number_ count else Ok NaN) with
              | Ok n => Done n w0
              | Throw e => Thrown e w0
              | Unmodelled => NotModelled
              end).
  { intros w0. destruct (truthy count); reflexivity. }
  rewrite N. destruct (if truthy count then Number_ count else Ok NaN) as [n| |];
    [| intros H; injection H as <- _ _; discriminate | discriminate].
  cbv zeta. unfold bind at 1.
  destruct (createMeeting trimmed _ w) as [found w1|e w1|] eqn:C;
    [| intros H; injection H as <- _ _; discriminate | discriminate].
  unfold ret. intros H. injection H as <- <- <-. intros _.
  destruct (createMeeting_done _ _ _ _ _ C) as (Ex & Hm & m & -> & Hrow).
  split; [exact Ex|]. split; [exact Hm|]. split; [reflexivity|].
  exists m. split; [reflexivity|exact Hrow].
Qed.

Lemma create_route_contract_witness :
  trimmed_text (JStr "  Retro  ") = Ok (Some "Retro") /\
  exists r w',
    serve (POST_meetings (JStr "  Retro  ") (JStr "three")) world1 = Some (r, [], w') /\
    code r = 201 /\
    map m_name (meetings (w_db w')) = ["Weekly sync"; "Retro"].
Proof.
  split; [reflexivity|].
  destruct (serve (POST_meetings (JStr "  Retro  ") (JStr "three")) world1)
    as [[[r jobs] w']|] eqn:E; [|vm_compute in E; discriminate].
  assert (C : code r = 201) by (vm_compute in E; injection E as <- _ _; reflexivity).
  destruct (create_route_contract world1 w' (JStr "  Retro  ") (JStr "three") (Some "Retro")
              r jobs eq_refl E C) as (_ & Hm & -> & _).
  exists r, w'. split; [reflexivity|]. split; [exact C|]. rewrite Hm. reflexivity.
Defined.

(** *** A result without speakers *)

(** X17.  A job whose result has no speakers, or an empty list of them,
    stores nothing of the result, not even its segments: the speakers and
    the segments of the database stay as they are, and only the status
    of the meeting is written. *)
Theorem result_without_speakers_stores_nothing (meetingId audioPath : string)
    (env : job_env) (w : world) (result : diarization_result) (payload speakers : jsval) :
  runDiarization meetingId audioPath (env_audio_exists env) (env_process env) = Ok result ->
  resolve_payload (r_stdout result) (env_result_file env) = Ok payload ->
  get_prop payload "speakers" = Ok speakers ->
  nonempty_array speakers = false ->
  exists st,
    get_prop payload "status" = Ok st /\
    handleDiarization meetingId audioPath env w
    = Done tt (with_db w (update_meeting meetingId (set_status (next_status st)) (w_db w))).
Proof.
  intros R P S N.
  assert (St : exists st, get_prop payload "status" = Ok st).
  { destruct payload; try discriminate; eexists; reflexivity. }
  destruct St as [st St]. exists st. split; [exact St|].
  rewrite handleDiarization_cases, (runDiarization_ok_audio _ _ _ _ _ R), R, P.
  unfold persist_payload. unfold bind at 1. rewrite S. unfold lift at 1.
  rewrite N. unfold bind at 1. unfold ret at 1.
  unfold bind at 1. rewrite St. unfold lift at 1.
  rewrite updateMeetingStatus_then. reflexivity.
Qed.

Lemma result_without_speakers_stores_nothing_witness :
  exists w',
    handleDiarization "uuid-0" "data/audio/uuid-0/rec.wav" env_segments_only world1
    = Done tt w' /\
    speakers (w_db w') = speakers (w_db world1) /\
    segments (w_db w') = [] /\
    status_of (w_db w') "uuid-0" = Some "done".
Proof.
  destruct (result_without_speakers_stores_nothing "uuid-0" "data/audio/uuid-0/rec.wav"
              env_segments_only world1
              {| r_stdout := stdout_segments_only; r_stderr := EmptyString;
                 r_outputDir := outputDir_of "uuid-0" |}
              (JObj [("segments", JArr [JObj [("start", JNum (Fin 5 (-1)));
                                              ("end", JNum (Fin 225 (-2)));
                                              ("text", JStr "hello")]])])
              JUndefined eq_refl eq_refl eq_refl eq_refl) as (st & S & E).
  eexists. split; [exact E|]. vm_compute in S. injection S as <-.
  repeat split.
Defined.

(** ** The pattern of a plain label *)

Lemma parse_disjunction_S (f : nat) (s : string) (gi : nat) :
  parse_disjunction (S f) s gi
  = let? (a, rest, gi1) := parse_alternative f s gi in
    match rest with
    | String c r =>
        if Ascii.eqb c "|"%char then
          let? (b, rest2, gi2) := parse_disjunction f r gi1 in
          Ok (RE_alt a b, rest2, gi2)
        else Ok (a, rest, gi1)
    | EmptyString => Ok (a, rest, gi1)
    end.
Proof. reflexivity. Qed.

Lemma parse_group_open (f : nat) (s : string) (gi : nat) :
  parse_alternative (S f) (String "(" (String "^" (String "|" s))) gi
  = let? (t, rest, gi1) :=
      (let? (d, rest, gi1) := parse_disjunction f (String "^" (String "|" s)) (S gi) in
       match rest with
       | String p r3 =>
           if Ascii.eqb p ")"%char then
             let? (a, rest') := parse_quantifier (RE_group gi d) r3 in
             Ok (a, rest', gi1)
           else regex_syntax_error "Unterminated group"
       | EmptyString => regex_syntax_error "Unterminated group"
       end) in
    let? (ts, rest2, gi2) := parse_alternative f rest gi1 in
    Ok (match ts with RE_empty => t | _ => RE_seq t ts end, rest2, gi2).
Proof. reflexivity. Qed.

(** The body of the group, with any fuel that suffices. *)
Lemma parse_line_start (f : nat) (s : string) :
  10 <= f ->
  parse_disjunction f ("^|\r?\n)" ++ s)%string 2
  = Ok (RE_alt RE_bol (RE_seq (RE_quant 0 (Some 1) true (RE_char CR)) (RE_char LF)),
        String ")" s, 2).
Proof.
  intros H. replace f with (10 + (f - 10)) by lia. reflexivity.
Qed.

Lemma parse_colon_ahead (f : nat) :
  10 <= f -> parse_alternative f "(?=\s*:)" 2 = Ok (colon_ahead, EmptyString, 2).
Proof.
  intros H. replace f with (10 + (f - 10)) by lia. reflexivity.
Qed.

Lemma literal_not_empty (label : string) (t : regex) :
  t <> RE_empty -> literal label t <> RE_empty.
Proof. intros H. destruct label; simpl; [exact H|discriminate]. Qed.

Lemma syntax_char_cases (c : ascii) :
  is_syntax_char c = false ->
  Ascii.eqb c "|" = false /\ Ascii.eqb c ")" = false /\ Ascii.eqb c "^" = false /\
  Ascii.eqb c "$" = false /\ is_quantifier_char c = false /\ Ascii.eqb c "{" = false /\
  Ascii.eqb c "[" = false /\ Ascii.eqb c "." = false /\ Ascii.eqb c backslash = false /\
  Ascii.eqb c "(" = false.
Proof.
  unfold is_syntax_char, is_quantifier_char, backslash. cbn [existsb]. intros H.
  repeat (apply orb_false_iff in H; destruct H as [? H]).
  repeat split; try assumption.
  repeat (apply orb_false_iff; split); assumption.
Qed.

(** No quantifier follows: the text goes on with a plain character or with
    the parenthesis of the look-ahead. *)
Lemma parse_quantifier_none (atom : regex) (label tail : string) :
  plain label = true ->
  parse_quantifier atom (label ++ "(" ++ tail)%string = Ok (atom, (label ++ "(" ++ tail)%string).
Proof.
  intros H. destruct label as [|c r]; [reflexivity|].
  cbn [plain] in H. apply andb_true_iff in H. destruct H as [H _].
  apply negb_true_iff in H. destruct (syntax_char_cases c H) as (_ & _ & _ & _ & Q & B & _).
  cbn [append parse_quantifier]. rewrite B, Q. reflexivity.
Qed.

Lemma parse_plain (label : string) :
  plain label = true ->
  forall f, String.length label + 10 <= f ->
  parse_alternative f (label ++ "(?=\s*:)")%string 2 = Ok (literal label colon_ahead, EmptyString, 2).
Proof.
  induction label as [|c r IH]; intros Hp f Hf.
  - apply parse_colon_ahead. simpl in Hf. lia.
  - cbn [plain] in Hp. apply andb_true_iff in Hp. destruct Hp as [Hc Hr].
    apply negb_true_iff in Hc.
    destruct (syntax_char_cases c Hc) as (E1 & E2 & E3 & E4 & E5 & E6 & E7 & E8 & E9 & E10).
    cbn [String.length] in Hf. destruct f as [|f]; [lia|].
    assert (Hf' : String.length r + 10 <= f) by (clear - Hf; lia).
    cbn [append parse_alternative].
    rewrite E1, E2, E3, E4, E5, E6, E7, E8, E9, E10. cbn [orb].
    change (r ++ "(?=\s*:)")%string with (r ++ "(" ++ "?=\s*:)")%string.
    rewrite (parse_quantifier_none (RE_char c) r "?=\s*:)" Hr).
    cbn [rbind].
    change (r ++ "(" ++ "?=\s*:)")%string with (r ++ "(?=\s*:)")%string.
    rewrite (IH Hr f Hf').
    cbn [rbind literal].
    destruct (literal r colon_ahead) eqn:E; try reflexivity.
    exfalso. revert E. apply literal_not_empty. discriminate.
Qed.

Lemma escapeRegExp_plain (label : string) : plain label = true -> escapeRegExp label = label.
Proof.
  induction label as [|c t IH]; intros H; [reflexivity|].
  cbn [plain] in H. apply andb_true_iff in H. destruct H as [Hc Ht].
  cbn [escapeRegExp]. destruct t as [|b [|d r]]; try (rewrite (IH Ht); reflexivity).
  cbn [plain] in Ht. apply andb_true_iff in Ht. destruct Ht as [Hb Ht'].
  apply negb_true_iff in Hb. destruct (syntax_char_cases b Hb) as (_ & _ & _ & _ & _ & _ & _ & _ & B & _).
  rewrite B, andb_false_r. cbn [andb].
  rewrite IH; [reflexivity|]. cbn [plain]. rewrite Hb, Ht'. reflexivity.
Qed.

(** The pattern that [replaceSpeakerPrefixes] builds for a plain label. *)
Lemma RegExp_plain (label : string) :
  plain label = true ->
  RegExp (speaker_pattern label) = Ok (RE_seq line_start (literal label colon_ahead)).
Proof.
  intros H. unfold RegExp, speaker_pattern. rewrite (escapeRegExp_plain label H).
  set (n := String.length label).
  replace (2 * String.length ("(^|\r?\n)" ++ label ++ "(?=\s*:)")%string + 2)
    with (S (S (n + 34 + n))).
  2:{ rewrite !length_append. fold n. cbn [String.length]. lia. }
  rewrite parse_disjunction_S.
  change ("(^|\r?\n)" ++ label ++ "(?=\s*:)")%string
    with (String "(" (String "^" (String "|" ("\r?\n)" ++ label ++ "(?=\s*:)")%string))).
  rewrite parse_group_open.
  change (String "^" (String "|" ("\r?\n)" ++ label ++ "(?=\s*:)")%string))
    with ("^|\r?\n)" ++ (label ++ "(?=\s*:)"))%string.
  rewrite parse_line_start by lia. cbn [rbind].
  change (Ascii.eqb ")" ")") with true. cbv iota.
  change (label ++ "(?=\s*:)")%string with (label ++ "(" ++ "?=\s*:)")%string.
  rewrite (parse_quantifier_none _ label "?=\s*:)" H). cbn [rbind].
  change (label ++ "(" ++ "?=\s*:)")%string with (label ++ "(?=\s*:)")%string.
  rewrite (parse_plain label H) by (fold n; lia). cbn [rbind].
  destruct (literal label colon_ahead) eqn:E; try reflexivity.
  exfalso. revert E. apply literal_not_empty. discriminate.
Qed.

(** ** Where the pattern of a plain label matches *)

Lemma eqb_succ_self (n : nat) : Nat.eqb (S n) n = false.
Proof. apply Nat.eqb_neq. lia. Qed.

(** [\s*], greedy: one more white space first, else what follows. *)
Lemma rmatch_star_cons (pos : nat) (c : ascii) (r : string) (cap : option string)
    (k : mstate -> option mstate) :
  rmatch (RE_quant 0 None true (RE_class false ClsSpace)) (mstate_at pos (String c r) cap) k
  = if isWhiteSpace c
    then match rmatch (RE_quant 0 None true (RE_class false ClsSpace)) (mstate_at (S pos) r cap) k with
         | Some z => Some z
         | None => k (mstate_at pos (String c r) cap)
         end
    else k (mstate_at pos (String c r) cap).
Proof.
  change (rmatch (RE_quant 0 None true (RE_class false ClsSpace)) (mstate_at pos (String c r) cap) k)
    with (match (if Bool.eqb (isWhiteSpace c) false then None
                 else if Nat.eqb 0 0 && Nat.eqb (S pos) pos then None
                      else rmatch (RE_quant 0 None true (RE_class false ClsSpace))
                             (mstate_at (S pos) r cap) k) with
          | Some z => Some z
          | None => k (mstate_at pos (String c r) cap)
          end).
  rewrite eqb_succ_self. destruct (isWhiteSpace c); reflexivity.
Qed.

Lemma rmatch_star_nil (pos : nat) (cap : option string) (k : mstate -> option mstate) :
  rmatch (RE_quant 0 None true (RE_class false ClsSpace)) (mstate_at pos EmptyString cap) k
  = k (mstate_at pos EmptyString cap).
Proof. reflexivity. Qed.

(** [\r?\n] *)
Lemma rmatch_line_break (pos : nat) (rest : string) (cap : option string)
    (k : mstate -> option mstate) :
  rmatch (RE_seq (RE_quant 0 (Some 1) true (RE_char CR)) (RE_char LF)) (mstate_at pos rest cap) k
  = if startsWith CRLF rest then k (mstate_at (S (S pos)) (slice_from 2 rest) cap)
    else if startsWith LFs rest then k (mstate_at (S pos) (slice_from 1 rest) cap)
    else None.
Proof.
  destruct rest as [|c1 rest]; [reflexivity|].
  change (rmatch (RE_seq (RE_quant 0 (Some 1) true (RE_char CR)) (RE_char LF))
            (mstate_at pos (String c1 rest) cap) k)
    with (match (if Ascii.eqb c1 CR
                 then if Nat.eqb 0 0 && Nat.eqb (S pos) pos then None
                      else match rest with
                           | String d r => if Ascii.eqb d LF then k (mstate_at (S (S pos)) r cap) else None
                           | EmptyString => None
                           end
                 else None) with
          | Some z => Some z
          | None => if Ascii.eqb c1 LF then k (mstate_at (S pos) rest cap) else None
          end).
  rewrite eqb_succ_self. cbn [andb Nat.eqb].
  unfold startsWith, CRLF, LFs.
  destruct (Ascii.eqb_spec c1 CR) as [->|N1]; destruct rest as [|d r];
    cbn [String.prefix slice_from];
    repeat match goal with
           | |- context [ascii_dec ?a ?b] =>
               destruct (ascii_dec a b); try congruence; try discriminate
           end;
    repeat match goal with
           | |- context [Ascii.eqb ?a ?b] =>
               destruct (Ascii.eqb_spec a b); try congruence; try discriminate
           end;
    try reflexivity; try (destruct (k _); reflexivity).
  destruct r; cbn [String.prefix]; destruct (k _); reflexivity.
Qed.

Lemma startsWith_cons (c d : ascii) (p s : string) :
  startsWith (String c p) (String d s) = Ascii.eqb d c && startsWith p s.
Proof.
  unfold startsWith. cbn [String.prefix].
  destruct (ascii_dec c d) as [->|N].
  - rewrite Ascii.eqb_refl. reflexivity.
  - destruct (Ascii.eqb_spec d c); [congruence|reflexivity].
Qed.

Lemma startsWith_nil_l (s : string) : startsWith EmptyString s = true.
Proof. destruct s; reflexivity. Qed.

Lemma startsWith_nil_r (c : ascii) (p : string) : startsWith (String c p) EmptyString = false.
Proof. reflexivity. Qed.

Lemma rmatch_literal (label : string) (t : regex) (k : mstate -> option mstate) :
  forall pos rest cap,
    rmatch (literal label t) (mstate_at pos rest cap) k
    = if startsWith label rest
      then rmatch t (mstate_at (pos + String.length label)
                       (slice_from (String.length label) rest) cap) k
      else None.
Proof.
  induction label as [|c r IH]; intros pos rest cap.
  - cbn [literal String.length slice_from]. rewrite startsWith_nil_l, Nat.add_0_r.
    destruct rest; reflexivity.
  - cbn [literal]. destruct rest as [|d s]; [reflexivity|].
    rewrite startsWith_cons.
    change (rmatch (RE_seq (RE_char c) (literal r t)) (mstate_at pos (String d s) cap) k)
      with (if Ascii.eqb d c then rmatch (literal r t) (mstate_at (S pos) s cap) k else None).
    destruct (Ascii.eqb d c); [|reflexivity]. cbn [andb].
    rewrite IH. cbn [String.length slice_from]. rewrite Nat.add_succ_r. reflexivity.
Qed.

Lemma skip_to_colon_spec (rest : string) :
  forall pos cap,
    match skip_to_colon pos rest cap with
    | Some z => ms_cap1 z = cap /\ startsWith ":" (trimStart rest) = true
    | None => startsWith ":" (trimStart rest) = false
    end.
Proof.
  induction rest as [|c r IH]; intros pos cap; [reflexivity|].
  cbn [skip_to_colon trimStart]. destruct (isWhiteSpace c) eqn:W; [apply IH|].
  rewrite startsWith_cons, startsWith_nil_l, andb_true_r. unfold colon.
  destruct (Ascii.eqb c ":"); [split|]; reflexivity.
Qed.

Lemma rmatch_space_colon (rest : string) :
  forall pos cap,
    rmatch (RE_seq (RE_quant 0 None true (RE_class false ClsSpace)) (RE_char colon))
      (mstate_at pos rest cap) (fun st => Some st)
    = skip_to_colon pos rest cap.
Proof.
  intros pos cap.
  change (rmatch (RE_seq (RE_quant 0 None true (RE_class false ClsSpace)) (RE_char colon))
            (mstate_at pos rest cap) (fun st => Some st))
    with (rmatch (RE_quant 0 None true (RE_class false ClsSpace)) (mstate_at pos rest cap)
            (fun st' => rmatch (RE_char colon) st' (fun st => Some st))).
  revert pos. induction rest as [|c r IH]; intros pos; [reflexivity|].
  rewrite rmatch_star_cons, IH. cbn [skip_to_colon].
  destruct (isWhiteSpace c) eqn:W.
  - destruct (skip_to_colon (S pos) r cap); [reflexivity|].
    cbn. destruct (Ascii.eqb_spec c colon) as [->|N]; [discriminate W|reflexivity].
  - reflexivity.
Qed.

Lemma rmatch_colon_ahead (pos : nat) (rest : string) (cap : option string)
    (k : mstate -> option mstate) :
  rmatch colon_ahead (mstate_at pos rest cap) k
  = if startsWith ":" (trimStart rest) then k (mstate_at pos rest cap) else None.
Proof.
  unfold colon_ahead.
  change (rmatch (RE_lookahead false _) (mstate_at pos rest cap) k)
    with (match rmatch (RE_seq (RE_quant 0 None true (RE_class false ClsSpace))
                          (RE_char colon)) (mstate_at pos rest cap) (fun st => Some st) with
          | Some st' => k (mstate_at pos rest (ms_cap1 st'))
          | None => None
          end).
  rewrite rmatch_space_colon. pose proof (skip_to_colon_spec rest pos cap) as H.
  destruct (skip_to_colon pos rest cap) as [z|].
  - destruct H as [-> ->]. reflexivity.
  - rewrite H. reflexivity.
Qed.

Lemma slice_to_prefix (p s : string) :
  startsWith p s = true -> slice_to (String.length p) s = p.
Proof.
  revert s. induction p as [|c p IH]; intros s H; [destruct s; reflexivity|].
  destruct s as [|d s]; [discriminate|].
  rewrite startsWith_cons in H. apply andb_true_iff in H. destruct H as [E H].
  apply Ascii.eqb_eq in E. subst d. cbn [String.length slice_to]. rewrite (IH s H).
  reflexivity.
Qed.

Lemma slice_to_0 (s : string) : slice_to 0 s = EmptyString.
Proof. destruct s; reflexivity. Qed.

(** [(^|\r?\n)] with its capture. *)
Lemma rmatch_line_start (pos : nat) (rest : string) (k : mstate -> option mstate) :
  rmatch line_start (mstate_at pos rest None) k
  = match (if Nat.eqb pos 0 then k (mstate_at pos rest (Some EmptyString)) else None) with
    | Some z => Some z
    | None =>
        if startsWith CRLF rest then k (mstate_at (S (S pos)) (slice_from 2 rest) (Some CRLF))
        else if startsWith LFs rest then k (mstate_at (S pos) (slice_from 1 rest) (Some LFs))
        else None
    end.
Proof.
  unfold line_start.
  set (K := fun st' : mstate =>
              k (mstate_at (ms_pos st') (ms_rest st')
                   (Some (slice_to (ms_pos st' - pos) rest)))).
  change (rmatch (RE_group 1 _) (mstate_at pos rest None) k)
    with (match (if Nat.eqb pos 0 then K (mstate_at pos rest None) else None) with
          | Some z => Some z
          | None => rmatch (RE_seq (RE_quant 0 (Some 1) true (RE_char CR)) (RE_char LF))
                      (mstate_at pos rest None) K
          end).
  rewrite rmatch_line_break. unfold K. cbn [ms_pos ms_rest mstate_at].
  rewrite Nat.sub_diag, slice_to_0.
  replace (S (S pos) - pos) with 2 by lia. replace (S pos - pos) with 1 by lia.
  destruct (startsWith CRLF rest) eqn:E1.
  - rewrite (slice_to_prefix CRLF rest E1 : slice_to 2 rest = CRLF). reflexivity.
  - destruct (startsWith LFs rest) eqn:E2; [|reflexivity].
    rewrite (slice_to_prefix LFs rest E2 : slice_to 1 rest = LFs). reflexivity.
Qed.

(** The match of the pattern of a label at an index. *)
Lemma exec_at_speaker (label : string) (pos : nat) (rest : string) :
  exec_at (RE_seq line_start (literal label colon_ahead)) pos rest
  = match speaker_match label pos rest with
    | Some (n, prefix) => Some (mstate_at (pos + n) (slice_from n rest) (Some prefix))
    | None => None
    end.
Proof.
  unfold exec_at.
  change (rmatch (RE_seq line_start (literal label colon_ahead))
            {| ms_pos := pos; ms_rest := rest; ms_cap1 := None |} (fun st => Some st))
    with (rmatch line_start (mstate_at pos rest None)
            (fun st' => rmatch (literal label colon_ahead) st' (fun st => Some st))).
  rewrite rmatch_line_start. unfold speaker_match, label_here.
  rewrite !rmatch_literal, !rmatch_colon_ahead.
  assert (S2 : forall n s, slice_from n (slice_from 2 s) = slice_from (2 + n) s).
  { intros n [|a [|b s]]; try reflexivity; destruct n; reflexivity. }
  assert (S1 : forall n s, slice_from n (slice_from 1 s) = slice_from (1 + n) s).
  { intros n [|a s]; try reflexivity; destruct n; reflexivity. }
  rewrite !S2, !S1.
  replace (S (S pos) + String.length label) with (pos + (2 + String.length label)) by lia.
  replace (S pos + String.length label) with (pos + (1 + String.length label)) by lia.
  assert (X : startsWith CRLF rest = true -> startsWith LFs rest = false).
  { destruct rest as [|c r]; [discriminate|]. unfold CRLF, LFs.
    rewrite !startsWith_cons. intros H. apply andb_true_iff in H. destruct H as [H _].
    apply Ascii.eqb_eq in H. subst c. reflexivity. }
  destruct (startsWith CRLF rest); [rewrite (X eq_refl)|]; clear X;
    destruct (Nat.eqb pos 0); destruct (startsWith label rest);
    destruct (startsWith ":" (trimStart (slice_from (String.length label) rest)));
    destruct (startsWith label (slice_from 2 rest));
    destruct (startsWith ":" (trimStart (slice_from (2 + String.length label) rest)));
    try destruct (startsWith LFs rest); destruct (startsWith label (slice_from 1 rest));
    destruct (startsWith ":" (trimStart (slice_from (1 + String.length label) rest)));
    reflexivity.
Qed.

(** ** The plain-text rewriter on plain labels *)

Lemma includes_tail (p : string) (c : ascii) (s : string) :
  includes p (String c s) = false -> includes p s = false.
Proof. cbn [includes]. intros H. apply orb_false_iff in H. tauto. Qed.

Lemma includes_head (p s : string) : includes p s = false -> startsWith p s = false.
Proof. destruct s; cbn [includes]; intros H; apply orb_false_iff in H; tauto. Qed.

Lemma LF_label_absent (label rest : string) :
  includes (LFs ++ label) rest = false ->
  startsWith LFs rest && label_here label (slice_from 1 rest) = false.
Proof.
  intros Hi. apply includes_head in Hi.
  destruct rest as [|c1 r]; [reflexivity|].
  unfold LFs in *. cbn [append] in Hi. rewrite startsWith_cons in Hi |- *.
  rewrite startsWith_nil_l, andb_true_r. cbn [slice_from]. unfold label_here.
  destruct (Ascii.eqb c1 LF); [|reflexivity].
  cbn [andb] in Hi |- *. destruct r; cbn [slice_from]; rewrite Hi; reflexivity.
Qed.

Lemma CRLF_label_absent (label rest : string) :
  includes (LFs ++ label) rest = false ->
  startsWith CRLF rest && label_here label (slice_from 2 rest) = false.
Proof.
  intros Hi. destruct rest as [|c1 r]; [reflexivity|].
  apply includes_tail, includes_head in Hi.
  unfold CRLF. rewrite startsWith_cons.
  destruct r as [|c2 r]; [rewrite startsWith_nil_r, andb_false_r; reflexivity|].
  unfold LFs in Hi. cbn [append] in Hi. rewrite startsWith_cons in Hi |- *.
  rewrite startsWith_nil_l, andb_true_r. cbn [slice_from]. unfold label_here.
  destruct (Ascii.eqb c1 CR); [|reflexivity].
  destruct (Ascii.eqb c2 LF); [|reflexivity].
  cbn [andb] in Hi |- *. destruct r; cbn [slice_from]; rewrite Hi; reflexivity.
Qed.

(** Where no line starts with the label there is no match. *)
Lemma speaker_match_none (label : string) (pos : nat) (rest : string) :
  (pos = 0 -> label_here label rest = false) ->
  includes (LFs ++ label) rest = false ->
  speaker_match label pos rest = None.
Proof.
  intros H0 Hi. unfold speaker_match.
  rewrite (CRLF_label_absent _ _ Hi), (LF_label_absent _ _ Hi).
  destruct (Nat.eqb_spec pos 0) as [E|_]; cbn [andb]; [rewrite (H0 E)|]; reflexivity.
Qed.

Lemma replace_unmatched (label : string) (replacer : string -> option string -> string)
    (rest : string) :
  forall (f pos : nat),
    (pos = 0 -> label_here label rest = false) ->
    includes (LFs ++ label) rest = false ->
    replace_from f (RE_seq line_start (literal label colon_ahead)) replacer pos rest = rest.
Proof.
  induction rest as [|c r IH]; intros f pos H0 Hi; (destruct f as [|f]; [reflexivity|]).
  - cbn [replace_from]. rewrite exec_at_speaker, (speaker_match_none _ _ _ H0 Hi).
    reflexivity.
  - cbn [replace_from]. rewrite exec_at_speaker, (speaker_match_none _ _ _ H0 Hi).
    rewrite IH; [reflexivity|discriminate|exact (includes_tail _ _ _ Hi)].
Qed.

Lemma no_LF_includes (label s : string) : no_LF s -> includes (LFs ++ label) s = false.
Proof.
  unfold no_LF. induction s as [|c r IH]; intros H.
  - reflexivity.
  - cbn [indexOf] in H. destruct (Ascii.eqb c LF) eqn:E; [discriminate|].
    cbn [includes]. unfold LFs. cbn [append]. rewrite startsWith_cons, E. cbn [andb orb].
    apply IH. destruct (indexOf LF r); [discriminate|reflexivity].
Qed.

Lemma no_LF_slice_from (n : nat) (s : string) : no_LF s -> no_LF (slice_from n s).
Proof.
  unfold no_LF. revert s. induction n as [|n IH]; intros s H; [destruct s; exact H|].
  destruct s as [|c r]; [exact H|]. cbn [slice_from]. apply IH.
  cbn [indexOf] in H. destruct (Ascii.eqb c LF); [discriminate|].
  destruct (indexOf LF r); [discriminate|reflexivity].
Qed.

(** X18.  A label without operators of the pattern syntax, in a text without
    a line that starts with it, is never rewritten: an occurrence in the
    middle of a line stays. *)
Theorem text_rewriter_needs_line_start (content label name : string) :
  plain label = true ->
  startsWith label content = false ->
  includes (LFs ++ label) content = false ->
  replaceSpeakerPrefixes content [(label, name)] = Ok content.
Proof.
  intros Hp Hs Hi. cbn [replaceSpeakerPrefixes].
  destruct (isEmpty name || String.eqb name label); [reflexivity|].
  rewrite (RegExp_plain label Hp). cbn [rbind]. unfold String_replace.
  rewrite replace_unmatched; [reflexivity| |exact Hi].
  intros _. unfold label_here. rewrite Hs. reflexivity.
Qed.

Lemma text_rewriter_needs_line_start_witness :
  plain "Speaker 2" = true /\
  replaceSpeakerPrefixes "I said Speaker 2: was right" [("Speaker 2", "Bob")]
  = Ok "I said Speaker 2: was right".
Proof.
  split; [reflexivity|].
  exact (text_rewriter_needs_line_start "I said Speaker 2: was right" "Speaker 2" "Bob"
           eq_refl eq_refl eq_refl).
Defined.

(** X19.  On a text of one line and a label without operators of the
    pattern syntax, the rewriter replaces the label exactly when the text
    starts with it and optional white space and a colon follow, and it
    replaces that occurrence only. *)
Theorem text_rewriter_one_line (content label name : string) :
  plain label = true ->
  no_LF content ->
  name <> EmptyString -> name <> label ->
  replaceSpeakerPrefixes content [(label, name)]
  = Ok (if label_here label content
        then name ++ slice_from (String.length label) content
        else content)%string.
Proof.
  intros Hp Hl Hn Hd. cbn [replaceSpeakerPrefixes].
  apply isEmpty_false in Hn. rewrite Hn. apply String.eqb_neq in Hd. rewrite Hd.
  cbn [orb]. rewrite (RegExp_plain label Hp). cbn [rbind]. unfold String_replace.
  destruct (label_here label content) eqn:L.
  2:{ rewrite replace_unmatched; [reflexivity|intros _; exact L|].
      apply no_LF_includes, Hl. }
  cbn [replace_from]. rewrite exec_at_speaker. unfold speaker_match.
  rewrite L. cbn [Nat.eqb andb mstate_at ms_pos ms_cap1 Nat.add].
  rewrite Nat.sub_0_r. unfold prefix_replacer. cbn [append].
  destruct (Nat.eqb_spec (String.length label) 0) as [E|E].
  - destruct label; [|discriminate E]. cbn [String.length slice_from].
    destruct content as [|c r]; [discriminate L|]. f_equal. f_equal. f_equal.
    apply replace_unmatched; [discriminate|].
    apply (includes_tail _ c). apply no_LF_includes, Hl.
  - f_equal. f_equal. apply replace_unmatched; [intros E0; congruence|].
    apply no_LF_includes, no_LF_slice_from, Hl.
Qed.

Lemma text_rewriter_one_line_witness :
  plain "Speaker 2" = true /\ no_LF "Speaker 2 : good morning" /\
  replaceSpeakerPrefixes "Speaker 2 : good morning" [("Speaker 2", "Bob")]
  = Ok "Bob : good morning".
Proof.
  split; [reflexivity|]. split; [reflexivity|].
  exact (text_rewriter_one_line "Speaker 2 : good morning" "Speaker 2" "Bob" eq_refl eq_refl
           ltac:(discriminate) ltac:(discriminate)).
Defined.

(** ** What export-sync leaves alone *)

Lemma text_rewrites (fs fs' : FS) (p : string) (replacements : Map) (b : bool) :
  applySpeakerNamesToTextFile fs p replacements = Ok (b, fs') -> rewrites p b fs fs'.
Proof.
  unfold applySpeakerNamesToTextFile, rewrites, existsSync.
  destruct (fs p) as [original|] eqn:E.
  - destruct (replaceSpeakerPrefixes original replacements) as [next| |]; cbn [rbind];
      try discriminate.
    destruct (String.eqb next original); intros H; injection H as <- <-;
      [reflexivity|]. exists next. split; reflexivity.
  - intros H. injection H as <- <-. reflexivity.
Qed.

Lemma csv_rewrites (fs fs' : FS) (p : string) (replacements : Map) (b : bool) :
  applySpeakerNamesToCsv fs p replacements = (b, fs') -> rewrites p b fs fs'.
Proof.
  unfold applySpeakerNamesToCsv, rewrites, existsSync.
  destruct (fs p) as [original|] eqn:E.
  - cbv zeta. destruct (negb _); intros H; injection H as <- <-; [reflexivity|].
    eexists. split; reflexivity.
  - intros H. injection H as <- <-. reflexivity.
Qed.

Lemma json_rewrites (fs fs' : FS) (p : string) (replacements : Map) (now : string)
    (b : bool) :
  applySpeakerNamesToJson fs p replacements now = Ok (b, fs') -> rewrites p b fs fs'.
Proof.
  unfold applySpeakerNamesToJson, rewrites, existsSync.
  destruct (fs p) as [original|] eqn:E.
  - destruct (JSON_parse original) as [payload|e|].
    + destruct (json_update_payload replacements payload) as [[payload1 changed]| |];
        cbn [rbind]; try discriminate.
      destruct changed; cbn [negb].
      * destruct payload1; try discriminate.
        destruct (stringify_line _) as [next| |]; cbn [rbind]; try discriminate.
        intros H. injection H as <- <-. exists next. split; reflexivity.
      * intros H. injection H as <- <-. reflexivity.
    + intros H. injection H as <- <-. reflexivity.
    + discriminate.
  - intros H. injection H as <- <-. reflexivity.
Qed.

Lemma rewrites_exists (p : string) (b : bool) (fs fs' : FS) (q : string) :
  rewrites p b fs fs' -> existsSync fs' q = existsSync fs q.
Proof.
  unfold rewrites. destruct b; [|intros ->; reflexivity].
  intros (content & Hp & ->). unfold existsSync, writeFileSync in *.
  destruct (String.eqb_spec q p) as [->|_]; [|reflexivity].
  destruct (fs p); [reflexivity|discriminate].
Qed.

Lemma rewrites_other (p : string) (b : bool) (fs fs' : FS) (q : string) :
  rewrites p b fs fs' -> (b = true -> q <> p) -> fs' q = fs q.
Proof.
  unfold rewrites. destruct b; [|intros ->; reflexivity].
  intros (content & _ & ->) H. unfold writeFileSync.
  destruct (String.eqb_spec q p) as [E|_]; [|reflexivity]. destruct (H eq_refl E).
Qed.

(** The steps of a run of export-sync on an existing meeting with a
    renamed speaker: the flags of the rewriters that ran, and the files
    after each. *)
Lemma export_sync_steps (m : meeting) (now : string) (fs : FS) (o : outcome FS export_result) :
  applySpeakerNamesToExports (Some m) now fs = o ->
  let path := export_path (m_id (meeting_row_of m)) in
  (o = Done {| updated := false; files := [] |} fs) \/
  exists t s c j fs1 fs2 fs3 fs4,
    rewrites (path "transcript.txt") t fs fs1 /\
    rewrites (path "segments.srt") s fs1 fs2 /\
    rewrites (path "segments.csv") c fs2 fs3 /\
    rewrites (path "diarization.json") j fs3 fs4 /\
    ((exists r, o = Done r fs4 /\
                files r = (if t then ["transcript.txt"] else [])
                            ++ (if s then ["segments.srt"] else [])
                            ++ (if c then ["segments.csv"] else [])
                            ++ (if j then ["diarization.json"] else [])) \/
     (exists e, o = Thrown e fs4) \/ o = NotModelled).
Proof.
  intros H path. unfold applySpeakerNamesToExports in H.
  destruct (meeting_speakers m) as [|sp sps]; [left; symmetry; exact H|].
  destruct (Nat.eqb (Map_size _) 0); [left; symmetry; exact H|].
  right. cbv zeta in H. unfold path, export_path. clear path.
  set (base := path_join outputsRoot (m_id (meeting_row_of m))) in *.
  set (reps := build_replacements [] (sp :: sps)) in H.
  unfold bind, rewriter, ret in H.
  destruct (applySpeakerNamesToTextFile fs (path_join base "transcript.txt") reps)
    as [[t fs1]|e|] eqn:E1.
  2:{ exists false, false, false, false, fs, fs, fs, fs. repeat split; try reflexivity.
      right. left. exists e. symmetry. exact H. }
  2:{ exists false, false, false, false, fs, fs, fs, fs. repeat split; try reflexivity.
      right. right. symmetry. exact H. }
  apply text_rewrites in E1.
  destruct (applySpeakerNamesToTextFile fs1 (path_join base "segments.srt") reps)
    as [[s fs2]|e|] eqn:E2.
  2:{ exists t, false, false, false, fs1, fs1, fs1, fs1. repeat split; try reflexivity;
        [exact E1|]. right. left. exists e. symmetry. exact H. }
  2:{ exists t, false, false, false, fs1, fs1, fs1, fs1. repeat split; try reflexivity;
        [exact E1|]. right. right. symmetry. exact H. }
  apply text_rewrites in E2.
  destruct (applySpeakerNamesToCsv fs2 (path_join base "segments.csv") reps) as [c fs3] eqn:E3.
  apply csv_rewrites in E3.
  destruct (applySpeakerNamesToJson fs3 (path_join base "diarization.json") reps now)
    as [[j fs4]|e|] eqn:E4.
  2:{ exists t, s, c, false, fs1, fs2, fs3, fs3. repeat split; try reflexivity;
        try assumption. right. left. exists e. symmetry. exact H. }
  2:{ exists t, s, c, false, fs1, fs2, fs3, fs3. repeat split; try reflexivity;
        try assumption. right. right. symmetry. exact H. }
  apply json_rewrites in E4.
  exists t, s, c, j, fs1, fs2, fs3, fs4. repeat split; try assumption.
  left. eexists. split; [symmetry; exact H|reflexivity].
Qed.

(** X20.  Export-sync creates no file and removes none, whatever its reply;
    it leaves every file but the four export files of the meeting as it
    is; and with the reply 200 it leaves every file that its report does
    not list as it is. *)
Theorem export_sync_frame (meetingId now : string) (w : world) (fs fs' : FS)
    (status : nat) (r : export_result) :
  serve_apply meetingId now w fs = Some (status, r, fs') ->
  (forall p, existsSync fs' p = existsSync fs p) /\
  (forall p, ~ In p (map (export_path meetingId) export_names) -> fs' p = fs p) /\
  (status = 200 ->
   incl (files r) export_names /\
   forall p, ~ In p (map (export_path meetingId) (files r)) -> fs' p = fs p).
Proof.
  unfold serve_apply. rewrite getMeeting_run.
  destruct (find_meeting (w_db w) meetingId) as [row|] eqn:F.
  2:{ intros H. injection H as <- <- <-. repeat split; try reflexivity.
      intros x []. }
  apply find_meeting_id in F.
  set (m := {| meeting_row_of := row; meeting_speakers := _ |}).
  destruct (export_sync_steps m now fs _ eq_refl) as [E|E].
  { rewrite E. intros H. injection H as <- <- <-. repeat split; try reflexivity.
    intros x []. }
  cbv zeta in E. replace (m_id (meeting_row_of m)) with meetingId in E by (symmetry; exact F).
  destruct E as (t & s & c & j & fs1 & fs2 & fs3 & fs4 & R1 & R2 & R3 & R4 & E).
  assert (Ex : forall p, existsSync fs4 p = existsSync fs p).
  { intros p. rewrite (rewrites_exists _ _ _ _ p R4), (rewrites_exists _ _ _ _ p R3),
      (rewrites_exists _ _ _ _ p R2). apply (rewrites_exists _ _ _ _ p R1). }
  assert (Ot : forall p, ~ In p (map (export_path meetingId) export_names) -> fs4 p = fs p).
  { intros p N. cbn [map export_names In] in N.
    rewrite (rewrites_other _ _ _ _ p R4), (rewrites_other _ _ _ _ p R3),
      (rewrites_other _ _ _ _ p R2), (rewrites_other _ _ _ _ p R1);
      [reflexivity|intros _ ->; apply N; tauto..]. }
  destruct E as [(r0 & -> & Hf)|[(e & ->)| ->]]; [| |discriminate].
  - intros H. injection H as <- <- <-. split; [exact Ex|]. split; [exact Ot|].
    intros _. rewrite Hf. split.
    + unfold export_names. intros x Hx.
      destruct t, s, c, j; cbn [app In] in Hx |- *; tauto.
    + intros p N. rewrite !map_app in N.
      rewrite (rewrites_other _ _ _ _ p R4), (rewrites_other _ _ _ _ p R3),
        (rewrites_other _ _ _ _ p R2), (rewrites_other _ _ _ _ p R1);
        [reflexivity|intros -> ->; apply N; cbn [map]; rewrite !in_app_iff;
                     cbn [In]; tauto..].
  - intros H. injection H as <- <- <-. split; [exact Ex|]. split; [exact Ot|].
    discriminate.
Qed.

Lemma export_sync_frame_witness :
  serve_apply "uuid-0" "2025-01-01T00:20:00.000Z" world_renamed exports_fs_once
  = Some (200,
          {| updated := true; files := ["transcript.txt"; "segments.srt"; "segments.csv"] |},
          exports_fs_twice) /\
  exports_fs_twice "data/outputs/uuid-0/diarization.json"
  = exports_fs_once "data/outputs/uuid-0/diarization.json" /\
  existsSync exports_fs_twice "data/outputs/uuid-0/summary.txt" = false.
Proof.
  assert (E : serve_apply "uuid-0" "2025-01-01T00:20:00.000Z" world_renamed exports_fs_once
              = Some (200,
                      {| updated := true;
                         files := ["transcript.txt"; "segments.srt"; "segments.csv"] |},
                      exports_fs_twice)) by (vm_compute; reflexivity).
  split; [exact E|].
  destruct (export_sync_frame _ _ _ _ _ _ _ E) as (Ex & _ & L).
  destruct (L eq_refl) as (_ & U). split.
  - apply U. cbn [map files In]. unfold export_path, path_join, outputsRoot.
    cbn [isEmpty append]. intros [H|[H|[H|[]]]]; discriminate H.
  - rewrite Ex. reflexivity.
Defined.

(** *** A meeting without a renamed speaker *)

Lemma forallb_insert_by_created_at (P : speaker_row -> bool) (sp : speaker_row)
    (sorted : list speaker_row) :
  forallb P (insert_by_created_at sp sorted) = P sp && forallb P sorted.
Proof.
  induction sorted as [|x rest IH]; cbn [insert_by_created_at forallb]; [reflexivity|].
  destruct (String.ltb _ _); cbn [forallb]; [reflexivity|].
  rewrite IH. destruct (P sp), (P x); reflexivity.
Qed.

Lemma forallb_sort_by_created_at (P : speaker_row -> bool) (rows : list speaker_row) :
  forallb P (sort_by_created_at rows) = forallb P rows.
Proof.
  unfold sort_by_created_at.
  enough (G : forall acc, forallb P (fold_left (fun sorted sp => insert_by_created_at sp sorted)
                                       rows acc)
                          = forallb P acc && forallb P rows)
    by (rewrite G; reflexivity).
  induction rows as [|x rest IH]; intros acc; cbn [fold_left forallb].
  - rewrite andb_true_r. reflexivity.
  - rewrite IH, forallb_insert_by_created_at.
    destruct (P x), (forallb P acc); reflexivity.
Qed.

Lemma build_replacements_not_renamed (speakers : list speaker_row) (replacements : Map) :
  forallb not_renamed speakers = true ->
  build_replacements replacements speakers = replacements.
Proof.
  induction speakers as [|sp rest IH]; cbn [forallb build_replacements]; [reflexivity|].
  intros H. apply andb_true_iff in H. destruct H as [H1 H2].
  unfold not_renamed in H1. rewrite H1. apply IH, H2.
Qed.

(** X21.  For a meeting none of whose speakers has a display name that,
    trimmed, is non-empty and differs from the label, export-sync replies
    200, reports no file and leaves every file as it is: it does not
    look at the export files. *)
Theorem export_sync_without_renames (meetingId now : string) (w : world) (fs : FS)
    (row : meeting_row) :
  find_meeting (w_db w) meetingId = Some row ->
  forallb not_renamed (speakers_of (w_db w) meetingId) = true ->
  serve_apply meetingId now w fs = Some (200, {| updated := false; files := [] |}, fs).
Proof.
  intros F N. unfold serve_apply. rewrite getMeeting_run, F.
  rewrite (find_meeting_id _ _ _ F). unfold applySpeakerNamesToExports.
  cbn [meeting_speakers meeting_row_of].
  assert (B : build_replacements [] (selectSpeakers (w_db w) meetingId) = []).
  { apply build_replacements_not_renamed. unfold selectSpeakers.
    rewrite forallb_sort_by_created_at. exact N. }
  destruct (selectSpeakers (w_db w) meetingId) as [|sp sps]; [reflexivity|].
  rewrite B. reflexivity.
Qed.

Lemma export_sync_without_renames_witness :
  map label_and_name (speakers_of (w_db world1) "uuid-0")
  = [("Speaker 1", "Speaker 1"); ("Speaker 2", "Speaker 2")] /\
  serve_apply "uuid-0" "2025-01-01T00:10:00.000Z" world1 exports_fs
  = Some (200, {| updated := false; files := [] |}, exports_fs).
Proof.
  split; [reflexivity|].
  exact (export_sync_without_renames "uuid-0" "2025-01-01T00:10:00.000Z" world1 exports_fs
           row1 eq_refl eq_refl).
Defined.

(** ** A second run of the CSV rewriter *)

Lemma Map_get_in (m : Map) (k d : string) : Map_get m k = Some d -> exists k', In (k', d) m.
Proof.
  induction m as [|[k' v] m IH]; cbn [Map_get]; [discriminate|].
  destruct (String.eqb k' k).
  - intros H. injection H as ->. exists k'. left. reflexivity.
  - intros H. destruct (IH H) as [k2 H2]. exists k2. right. exact H2.
Qed.

Lemma settled_get (m : Map) (k d : string) :
  settled m = true -> Map_get m k = Some d ->
  indexOf comma d = None /\ no_LF d /\ Map_get m (trim d) = None.
Proof.
  intros S G. destruct (Map_get_in _ _ _ G) as [k' I].
  unfold settled in S. rewrite forallb_forall in S. specialize (S _ I). cbn [snd] in S.
  unfold no_LF.
  destruct (indexOf comma d); [discriminate|]. destruct (indexOf LF d); [discriminate|].
  destruct (Map_get m (trim d)); [discriminate|]. repeat split.
Qed.

Lemma indexOf_none_app (c : ascii) (a b : string) :
  indexOf c (a ++ b) = None <-> indexOf c a = None /\ indexOf c b = None.
Proof.
  assert (Hm : forall o : option nat, option_map S o = None <-> o = None)
    by (intros [n|]; cbn [option_map]; split; congruence).
  induction a as [|x a IH]; cbn [append indexOf]; [tauto|].
  destruct (Ascii.eqb x c); [split; [discriminate|intros [H _]; discriminate H]|].
  rewrite !Hm. exact IH.
Qed.

(** *** A row that was rewritten is not rewritten again *)

Lemma trimStart_ws_app (a s : string) :
  all_whitespace a = true -> trimStart (a ++ s) = trimStart s.
Proof.
  induction a as [|c a IH]; cbn [append all_whitespace trimStart]; [reflexivity|].
  intros H. apply andb_true_iff in H. destruct H as [-> H]. apply IH, H.
Qed.

Lemma trimEnd_app_ws (s b : string) :
  all_whitespace b = true -> trimEnd (s ++ b) = trimEnd s.
Proof.
  intros H. induction s as [|c s IH]; cbn [append].
  - apply trimEnd_empty_ws. exact H.
  - cbn [trimEnd]. rewrite IH. reflexivity.
Qed.

Lemma trim_between_ws (a d b : string) :
  all_whitespace a = true -> all_whitespace b = true -> trim (a ++ d ++ b) = trim d.
Proof.
  intros Ha Hb. unfold trim. rewrite (trimStart_ws_app a _ Ha).
  induction d as [|c d IH]; cbn [append].
  - change (trimEnd (trimStart b) = EmptyString). apply trimEnd_empty_ws.
    rewrite trimStart_ws. exact Hb.
  - cbn [trimStart]. destruct (isWhiteSpace c); [exact IH|].
    apply (trimEnd_app_ws (String c d) b Hb).
Qed.

Lemma leadingWhitespace_part (c : ascii) (raw : string) :
  indexOf c raw = None -> indexOf c (leadingWhitespace raw) = None.
Proof.
  intros H. rewrite (leading_trimStart raw) in H. apply indexOf_none_app in H. tauto.
Qed.

Lemma trailingWhitespace_part (c : ascii) (raw : string) :
  indexOf c raw = None -> indexOf c (trailingWhitespace raw) = None.
Proof.
  intros H. rewrite (trimEnd_trailing raw) in H. apply indexOf_none_app in H. tauto.
Qed.

Lemma csv_update_row_settles (m : Map) (i : nat) (row : string) :
  settled m = true ->
  csv_update_row m i (fst (csv_update_row m i row)) = (fst (csv_update_row m i row), false).
Proof.
  intros S. destruct (csv_update_row m i row) as [row' [|]] eqn:E.
  2:{ pose proof (csv_update_row_unchanged _ _ _ _ E) as ->. exact E. }
  apply csv_update_row_changed in E.
  destruct E as (Hi & raw & rest & d & -> & Hc & Hd & _ & ->). cbn [fst].
  destruct (settled_get _ _ _ S Hd) as (Dc & _ & Dk).
  set (raw' := (leadingWhitespace raw ++ d ++ trailingWhitespace raw)%string).
  assert (Hc' : indexOf comma raw' = None).
  { unfold raw'. apply indexOf_none_app. split; [apply leadingWhitespace_part, Hc|].
    apply indexOf_none_app. split; [exact Dc|apply trailingWhitespace_part, Hc]. }
  replace (leadingWhitespace raw ++ d ++ trailingWhitespace raw ++ String comma rest)%string
    with (raw' ++ String comma rest)%string
    by (unfold raw'; rewrite !append_assoc; reflexivity).
  unfold csv_update_row.
  destruct (Nat.eqb_spec i 0) as [Z|_]; [contradiction|]. cbn [orb].
  destruct (isEmpty (trim (raw' ++ String comma rest))) eqn:T.
  { apply isEmpty_true, trim_empty_ws in T. rewrite all_whitespace_comma in T. discriminate. }
  destruct (indexOf_app comma raw' rest Hc') as (I1 & I2 & I3). rewrite I1, I2.
  unfold raw' at 1.
  rewrite (trim_between_ws _ d _ (leadingWhitespace_ws raw) (trailingWhitespace_ws raw)).
  rewrite Dk. reflexivity.
Qed.

Lemma csv_map_rows_settles (m : Map) (rows : list string) :
  settled m = true ->
  forall k, existsb snd (csv_map_rows m k (map fst (csv_map_rows m k rows))) = false.
Proof.
  intros S. induction rows as [|row rows IH]; intros k; [reflexivity|].
  cbn [csv_map_rows map existsb]. rewrite (csv_update_row_settles m k row S).
  cbn [snd orb]. apply IH.
Qed.

(** *** The rows of the file that was written are the rows that were joined *)

Lemma no_LF_cons (c : ascii) (r : string) :
  no_LF (String c r) <-> Ascii.eqb c LF = false /\ no_LF r.
Proof.
  unfold no_LF. cbn [indexOf]. destruct (Ascii.eqb c LF); [split; [discriminate|intros [H _]; discriminate H]|].
  destruct (indexOf LF r); cbn [option_map]; split; try tauto; try discriminate.
  intros [_ H]. discriminate H.
Qed.

(** One row, its separator and what follows: in a file joined by LF the
    row must not end with CR. *)
Lemma split_lines_row (nl row s : string) :
  no_LF row ->
  nl = CRLF \/ (nl = LFs /\ last_char row <> Some CR) ->
  split_lines (row ++ nl ++ s) = row :: split_lines s.
Proof.
  intros Hl Hn. induction row as [|c r IH].
  - destruct Hn as [-> | [-> _]]; reflexivity.
  - apply no_LF_cons in Hl. destruct Hl as [Hc Hr].
    assert (Hn' : nl = CRLF \/ (nl = LFs /\ last_char r <> Some CR)).
    { destruct Hn as [Hn | [Hn L]]; [left; exact Hn|]. right. split; [exact Hn|].
      intros E. apply L. cbn [last_char]. rewrite E. reflexivity. }
    specialize (IH Hr Hn').
    change ((String c r ++ nl ++ s)%string) with (String c (r ++ nl ++ s)).
    destruct (r ++ nl ++ s)%string as [|d x] eqn:X.
    { exfalso. destruct r; [|discriminate X]. destruct Hn as [-> | [-> _]]; discriminate X. }
    rewrite split_lines_cons, Hc, IH.
    destruct (Ascii.eqb c CR && Ascii.eqb d LF) eqn:B; [|reflexivity].
    exfalso. apply andb_true_iff in B. destruct B as [B1 B2].
    apply Ascii.eqb_eq in B1, B2. subst c d.
    destruct r as [|e r].
    + destruct Hn as [-> | [-> L]]; [discriminate X|]. apply L. reflexivity.
    + injection X as -> _. apply no_LF_cons in Hr. destruct Hr as [Hr _]. discriminate Hr.
Qed.

Lemma split_lines_one (row : string) : no_LF row -> split_lines row = [row].
Proof.
  induction row as [|c|c d r _ IH] using string_ind2; intros H; try reflexivity.
  - apply no_LF_cons in H. destruct H as [H _]. cbn [split_lines]. rewrite H. reflexivity.
  - apply no_LF_cons in H. destruct H as [Hc Hr]. rewrite split_lines_cons, Hc.
    pose proof Hr as Hr'. apply no_LF_cons in Hr'. destruct Hr' as [Hd _]. rewrite Hd.
    rewrite andb_false_r. rewrite (IH Hr). reflexivity.
Qed.

Lemma split_lines_join (nl : string) (rows : list string) :
  rows <> [] ->
  Forall no_LF rows ->
  nl = CRLF \/ (nl = LFs /\ Forall (fun r => last_char r <> Some CR) (removelast rows)) ->
  split_lines (join nl rows) = rows.
Proof.
  induction rows as [|row [|row2 rows] IH]; intros N F C; [contradiction| |].
  - apply split_lines_one. inversion F; assumption.
  - rewrite join_cons2. inversion F as [|? ? F1 F2]; subst.
    rewrite split_lines_row; [f_equal; apply IH; [discriminate|exact F2|]|exact F1|].
    + destruct C as [C | [C L]]; [left; exact C|]. right. split; [exact C|].
      change (removelast (row :: row2 :: rows)) with (row :: removelast (row2 :: rows)) in L.
      inversion L; assumption.
    + destruct C as [C | [C L]]; [left; exact C|]. right. split; [exact C|].
      change (removelast (row :: row2 :: rows)) with (row :: removelast (row2 :: rows)) in L.
      inversion L; assumption.
Qed.

Lemma split_lines_empty_head (d : ascii) (r : string) (ls : list string) :
  split_lines (String d r) = EmptyString :: ls ->
  d = LF \/ (d = CR /\ exists r', r = String LF r').
Proof.
  destruct r as [|e r'].
  - cbn [split_lines]. destruct (Ascii.eqb_spec d LF) as [->|_]; [left; reflexivity|discriminate].
  - rewrite split_lines_cons.
    destruct (Ascii.eqb_spec d LF) as [->|_]; [left; reflexivity|].
    destruct (Ascii.eqb_spec d CR) as [->|_]; cbn [andb].
    + destruct (Ascii.eqb_spec e LF) as [->|_]; [right; split; [reflexivity|eauto]|].
      destruct (split_lines (String e r')); discriminate.
    + destruct (split_lines (String e r')); discriminate.
Qed.

Lemma split_lines_nonempty (s : string) : split_lines s <> [].
Proof. destruct (split_lines_facts s) as (_ & N & _). exact N. Qed.

(** In a file without CRLF no row but the last ends with CR. *)
Lemma split_lines_no_CR (s : string) :
  includes CRLF s = false ->
  Forall (fun r => last_char r <> Some CR) (removelast (split_lines s)).
Proof.
  induction s as [|c|c d r _ IH] using string_ind2; intros H.
  - constructor.
  - cbn [split_lines]. destruct (Ascii.eqb c LF); cbn [removelast]; repeat constructor.
    discriminate.
  - cbn [includes] in H. apply orb_false_iff in H. destruct H as [H1 H2].
    fold (includes CRLF (String d r)) in H2.
    assert (H2' : includes CRLF (String d r) = false) by exact H2.
    specialize (IH H2'). unfold CRLF in H1. rewrite !startsWith_cons, startsWith_nil_l in H1.
    rewrite andb_true_r in H1. rewrite split_lines_cons, H1.
    pose proof (split_lines_nonempty (String d r)) as N.
    destruct (Ascii.eqb c LF) eqn:Ec.
    + destruct (split_lines (String d r)) as [|l ls]; [contradiction|].
      change (removelast (EmptyString :: l :: ls)) with (EmptyString :: removelast (l :: ls)).
      constructor; [discriminate|exact IH].
    + destruct (split_lines (String d r)) as [|l ls] eqn:S; [contradiction|].
      destruct ls as [|l2 ls]; [constructor|].
      change (removelast (String c l :: l2 :: ls)) with (String c l :: removelast (l2 :: ls)).
      change (removelast (l :: l2 :: ls)) with (l :: removelast (l2 :: ls)) in IH.
      inversion IH as [|? ? Q1 Q2]; subst. constructor; [|exact Q2].
      cbn [last_char]. destruct (last_char l) as [x|] eqn:L; [exact Q1|].
      apply last_char_none in L. subst l. intros E. injection E as ->.
      destruct (split_lines_empty_head _ _ _ S) as [-> | [-> [r' ->]]].
      * discriminate H1.
      * cbn [includes] in H2'. unfold CRLF in H2'.
        rewrite !startsWith_cons, startsWith_nil_l in H2'. discriminate H2'.
Qed.

Lemma csv_update_row_no_LF (m : Map) (i : nat) (row : string) :
  settled m = true -> no_LF row -> no_LF (fst (csv_update_row m i row)).
Proof.
  intros S H. destruct (csv_update_row m i row) as [row' [|]] eqn:E.
  2:{ pose proof (csv_update_row_unchanged _ _ _ _ E) as ->. exact H. }
  apply csv_update_row_changed in E.
  destruct E as (_ & raw & rest & d & -> & _ & Hd & _ & ->). cbn [fst].
  destruct (settled_get _ _ _ S Hd) as (_ & Dl & _). unfold no_LF in *.
  apply indexOf_none_app in H. destruct H as [Hr Hc].
  apply indexOf_none_app. split; [apply leadingWhitespace_part, Hr|].
  apply indexOf_none_app. split; [exact Dl|].
  apply indexOf_none_app. split; [apply trailingWhitespace_part, Hr|exact Hc].
Qed.

Lemma csv_map_rows_no_LF (m : Map) (rows : list string) :
  settled m = true -> Forall no_LF rows ->
  forall k, Forall no_LF (map fst (csv_map_rows m k rows)).
Proof.
  intros S F. induction F as [|row rows H _ IH]; intros k; [constructor|].
  cbn [csv_map_rows map]. constructor; [apply csv_update_row_no_LF; assumption|apply IH].
Qed.

Lemma csv_map_rows_no_CR (m : Map) (rows : list string) :
  Forall (fun r => last_char r <> Some CR) (removelast rows) ->
  forall k, Forall (fun r => last_char r <> Some CR)
              (removelast (map fst (csv_map_rows m k rows))).
Proof.
  induction rows as [|row [|row2 rows] IH]; intros F k; [constructor|constructor|].
  change (removelast (row :: row2 :: rows)) with (row :: removelast (row2 :: rows)) in F.
  inversion F as [|? ? Q1 Q2]; subst.
  change (removelast (map fst (csv_map_rows m k (row :: row2 :: rows))))
    with (fst (csv_update_row m k row)
            :: removelast (map fst (csv_map_rows m (S k) (row2 :: rows)))).
  constructor; [rewrite csv_update_row_last_char; exact Q1|apply IH, Q2].
Qed.

(** The text that is written is the rows joined by the newline of the
    file: the newline that [csv_next_content] would add is there. *)
Lemma csv_next_content_join (m : Map) (original : string) :
  let updated := map fst (csv_map_rows m 0 (split_lines original)) in
  csv_next_content original updated = join (csv_newline original) updated.
Proof.
  cbv zeta. set (rows := split_lines original).
  set (U := map fst (csv_map_rows m 0 rows)).
  destruct (split_lines_facts original) as (_ & N & L1 & _). fold rows in N, L1.
  destruct (csv_map_rows_last m 0 rows N) as [i HU]. fold U in HU.
  assert (HL : last_char (last U EmptyString) = last_char (last rows EmptyString)).
  { rewrite HU. apply csv_update_row_last_char. }
  assert (Hlen : List.length U = List.length rows).
  { unfold U. rewrite length_map. apply csv_map_rows_length. }
  unfold csv_next_content.
  destruct (option_eq_dec_LF (last_char original)) as [T|T].
  - destruct (L1 T) as [A B]. rewrite A in HL. apply last_char_none in HL.
    destruct (join_ends_with_sep (csv_newline original) U HL) as [X HX]; [lia|].
    rewrite HX, endsWith_app_self, andb_false_r. reflexivity.
  - assert (E1 : endsWith LFs original = false).
    { destruct (endsWith LFs original) eqn:E; [|reflexivity].
      apply endsWith_LF in E. tauto. }
    assert (E2 : endsWith CRLF original = false).
    { destruct (endsWith CRLF original) eqn:E; [|reflexivity].
      apply endsWith_CRLF_LF in E. tauto. }
    rewrite E1, E2. reflexivity.
Qed.

(** X22.  With a mapping none of whose display names is, trimmed, a key of
    the mapping, or holds a comma or a line feed, a second run of the CSV
    rewriter changes nothing: it reports no change and leaves the files as
    the first run left them. *)
Theorem csv_rewriter_second_run (fs fs1 : FS) (filePath : string) (m : Map) (changed : bool) :
  settled m = true ->
  applySpeakerNamesToCsv fs filePath m = (changed, fs1) ->
  applySpeakerNamesToCsv fs1 filePath m = (false, fs1).
Proof.
  intros S. unfold applySpeakerNamesToCsv at 1.
  destruct (fs filePath) as [original|] eqn:F.
  2:{ intros H. injection H as _ <-. unfold applySpeakerNamesToCsv. rewrite F. reflexivity. }
  cbv zeta. set (rows := split_lines original).
  set (U := map fst (csv_map_rows m 0 rows)).
  destruct (existsb snd (csv_map_rows m 0 rows)) eqn:Ch; cbn [negb].
  2:{ intros H. injection H as _ <-. unfold applySpeakerNamesToCsv. rewrite F.
      fold rows. rewrite Ch. reflexivity. }
  intros H. injection H as _ <-.
  unfold applySpeakerNamesToCsv, writeFileSync at 1. rewrite String.eqb_refl.
  unfold U, rows. rewrite (csv_next_content_join m original). fold rows. fold U.
  destruct (split_lines_facts original) as (Fl & N & _). fold rows in Fl, N.
  assert (Sp : split_lines (join (csv_newline original) U) = U).
  { apply split_lines_join.
    - unfold U. destruct rows; [contradiction|discriminate].
    - apply csv_map_rows_no_LF; assumption.
    - unfold csv_newline. destruct (includes CRLF original) eqn:I; [left; reflexivity|].
      right. split; [reflexivity|]. apply csv_map_rows_no_CR, split_lines_no_CR, I. }
  rewrite Sp. unfold U at 1. rewrite (csv_map_rows_settles m rows S 0). reflexivity.
Qed.

Lemma csv_rewriter_second_run_witness :
  settled alice_map = true /\ settled swap_map = false /\
  exists fs1,
    applySpeakerNamesToCsv csv_example_fs "data/outputs/m1/segments.csv" alice_map = (true, fs1) /\
    applySpeakerNamesToCsv fs1 "data/outputs/m1/segments.csv" alice_map = (false, fs1).
Proof.
  split; [reflexivity|]. split; [reflexivity|].
  destruct (applySpeakerNamesToCsv csv_example_fs "data/outputs/m1/segments.csv" alice_map)
    as [changed fs1] eqn:E.
  assert (C : changed = true)
    by (apply (f_equal fst) in E; cbn [fst] in E; rewrite <- E; reflexivity).
  exists fs1. split; [rewrite C; reflexivity|].
  exact (csv_rewriter_second_run csv_example_fs fs1 "data/outputs/m1/segments.csv" alice_map
           changed eq_refl E).
Defined.

(** ** The links to the export files *)

Lemma fileMap_names (type fileName : string) :
  Map_get fileMap type = Some fileName -> In fileName export_names.
Proof.
  unfold fileMap, export_names. cbn [Map_get In].
  repeat (destruct (String.eqb _ type);
          [intros H; injection H as <-; tauto|]).
  discriminate.
Qed.

(** What [resolveMeetingFiles] holds for a type. *)
Lemma resolveMeetingFiles_get (fs : FS) (meetingId type : string) :
  Map_get (resolveMeetingFiles fs meetingId) type
  = match Map_get fileMap type with
    | Some fileName =>
        if existsSync fs (export_path meetingId fileName)
        then Some (file_link meetingId type) else None
    | None => None
    end.
Proof.
  unfold resolveMeetingFiles, export_path, fileMap. cbn [fold_left fst snd].
  set (dir := path_join outputsRoot meetingId).
  set (l1 := file_link meetingId "csv"). set (l2 := file_link meetingId "srt").
  set (l3 := file_link meetingId "txt"). set (l4 := file_link meetingId "json").
  destruct (existsSync fs (path_join dir "segments.csv")) eqn:E1;
    destruct (existsSync fs (path_join dir "segments.srt")) eqn:E2;
    destruct (existsSync fs (path_join dir "transcript.txt")) eqn:E3;
    destruct (existsSync fs (path_join dir "diarization.json")) eqn:E4;
    match goal with
    | |- Map_get ?m type = _ =>
        let m' := eval cbv [Map_set String.eqb Ascii.eqb Bool.eqb andb] in m in
        change m with m'
    end;
    cbn [Map_get];
    (destruct (String.eqb_spec "csv" type) as [<-|_];
     [cbn [String.eqb Ascii.eqb Bool.eqb andb]; rewrite E1; reflexivity|]);
    (destruct (String.eqb_spec "srt" type) as [<-|_];
     [cbn [String.eqb Ascii.eqb Bool.eqb andb]; rewrite E2; reflexivity|]);
    (destruct (String.eqb_spec "txt" type) as [<-|_];
     [cbn [String.eqb Ascii.eqb Bool.eqb andb]; rewrite E3; reflexivity|]);
    (destruct (String.eqb_spec "json" type) as [<-|_];
     [cbn [String.eqb Ascii.eqb Bool.eqb andb]; rewrite E4|]; reflexivity).
Qed.

(** X23.  The links of a meeting are the files that the server serves: the
    payload of a meeting links a type of file exactly when the route that
    serves files sends a file for that type, the link is the path of that
    route, and the file that is sent is the export file of that type,
    which exists. *)
Theorem file_links_are_served (fs : FS) (meetingId type link : string) :
  Map_get (resolveMeetingFiles fs meetingId) type = Some link <->
  link = file_link meetingId type /\
  exists fileName,
    Map_get fileMap type = Some fileName /\
    In fileName export_names /\
    existsSync fs (export_path meetingId fileName) = true /\
    GET_file fs meetingId type = SendFile (export_path meetingId fileName).
Proof.
  rewrite resolveMeetingFiles_get. unfold GET_file. fold (export_path meetingId).
  destruct (Map_get fileMap type) as [fileName|] eqn:M.
  - change (path_join (path_join outputsRoot meetingId) fileName)
      with (export_path meetingId fileName).
    destruct (existsSync fs (export_path meetingId fileName)) eqn:E.
    + split.
      * intros H. injection H as <-. split; [reflexivity|]. exists fileName.
        split; [reflexivity|]. split; [exact (fileMap_names _ _ M)|].
        split; [exact E|reflexivity].
      * intros (-> & _). reflexivity.
    + split; [discriminate|].
      intros (_ & other & F & _ & X & _). injection F as <-. congruence.
  - split; [discriminate|]. intros (_ & other & F & _). discriminate F.
Qed.

Lemma file_links_are_served_witness :
  resolveMeetingFiles csv_example_fs "m1" = [("csv", "/api/meetings/m1/files/csv")] /\
  GET_file csv_example_fs "m1" "csv" = SendFile "data/outputs/m1/segments.csv" /\
  GET_file csv_example_fs "m1" "srt" = FileError 404 "File not found" /\
  GET_file csv_example_fs "m1" "pdf" = FileError 404 "Unsupported file type".
Proof.
  split; [reflexivity|]. split; [|split; reflexivity].
  destruct (proj1 (file_links_are_served csv_example_fs "m1" "csv" "/api/meetings/m1/files/csv")
              eq_refl) as (_ & fileName & F & _ & _ & G).
  injection F as <-. exact G.
Defined.
